(** * rhea-promise: the lifecycle coordination layer, embedded and verified

    The development follows the compiled sources of the library.

    Model:
    - [Js]: the pieces of the JavaScript host the library relies on
      (numbers, one-shot timers, promises, insertion-ordered [Map], Node's
      [EventEmitter], [String.prototype.indexOf]);
    - [Rhea]: the event names and the error object of the protocol engine;
    - [AwaitableSender]: lib/awaitableSender.js, one sender with its
      [deliveryDispositionMap];
    - [Lifecycle]: lib/connection.js, lib/session.js and [emitEvent] of
      lib/util/utils.js, one connection with its sessions and links;
    - [JsString], [Utils], [Delay]: [parseConnectionString] and [delay] of
      lib/util/utils.js with the string methods and the timers they use;
    - [AbortListeners], [Guarded]: the invariants that tie promises, timers,
      listeners and abort listeners together.

    Proofs:
    - [JsFacts]: facts about the host;
    - [SenderProofs]: the correlation of sends and terminal events;
    - [LifecycleProofs]: the guarded operations and the re-emission of
      events;
    - [UtilsProofs], [DelayProofs]: the helpers of lib/util/utils.js;
    - [SenderExtras]: timers, late dispositions and abort listeners of a
      sender;
    - [GuardedProofs]: what holds of every promise a guarded operation
      returns.

    Closures of the sources are defunctionalised: a closure is a constructor
    carrying the variables it captures, and an interpreter gives its body.
    What the outside does (a call of the library, an event of the engine, a
    timer of the host firing, the owner of a signal aborting it) is an event
    of a step function, in any order.  Calls to the logging facility have no
    effect on the state and are left out; an id that the sources interpolate
    into the message of an error is left out of the message as well. *)

From Stdlib Require Import ZArith QArith Qminmax Ascii String List Bool Lia.
From Stdlib Require SpecFloat.
From stdpp Require Import base list option strings gmap.

(* ===================================================================== *)
(** * The JavaScript host *)
(* ===================================================================== *)

Module Js.

  (** ** Numbers

      A number is an IEEE 754 double: a [spec_float] with a significand of
      53 bits and exponents up to 1024.  Arithmetic rounds to the nearest
      double, ties to even. *)

Definition number : Type := SpecFloat.spec_float.

(** The number an integer literal denotes. *)
Definition of_Z (n : Z) : number := SpecFloat.binary_normalize 53 1024 n 0 false.

(** [x * y] *)
Definition mul (x y : number) : number := SpecFloat.SFmul 53 1024 x y.

(** [x / y] *)
Definition div (x y : number) : number := SpecFloat.SFdiv 53 1024 x y.

(** [x > y], which is false when one of the two is [NaN]. *)
Definition gt (x y : number) : bool := SpecFloat.SFltb y x.

(** What [x || y] looks at: [0], [-0] and [NaN] count as false. *)
Definition truthy (x : number) : bool :=
  match x with
  | SpecFloat.S754_zero _ | SpecFloat.S754_nan => false
  | _ => true
  end.

(** The rational a finite number stands for, in lowest terms. *)
Definition to_Q (x : number) : option Q :=
  match x with
  | SpecFloat.S754_zero _ => Some 0%Q
  | SpecFloat.S754_finite s m e =>
      Some (Qred ((if s then -1 else 1) * inject_Z (Z.pos m) * Qpower 2 e))
  | _ => None
  end.

(** The delay [setTimeout] is called with, in milliseconds.  A delay that
    is no finite number ([NaN], an infinity) is written down as 0: the host
    treats the two alike, see [idleTimeout]. *)
Definition delay (x : number) : Q := default 0%Q (to_Q x).

  (** ** Timers

      [setTimeout] returns a handle that is never reused: the index of the
      timer in the table of all timers ever created.  A timer is armed until
      it is cleared or fires; both are final.  [Armed ms callback] keeps the
      delay [setTimeout] was called with. *)

Definition TIMEOUT_MAX : Q := 2147483647.

(** What Node makes of the delay of a timer ([_idleTimeout] of its
    [Timeout]): a delay that is not between 1 and 2^31 - 1 milliseconds
    becomes 1 millisecond. *)
Definition idleTimeout (ms : Q) : Q :=
  if Qle_bool 1 ms && Qle_bool ms TIMEOUT_MAX then ms else 1%Q.

Inductive Timer (C : Type) : Type :=
| Armed (ms : Q) (callback : C)
| Cleared
| Fired.
Arguments Armed {C} ms callback.
Arguments Cleared {C}.
Arguments Fired {C}.

Section Timers.
Context {C : Type}.

Definition setTimeout (callback : C) (ms : Q) (ts : list (Timer C))
  : nat * list (Timer C) :=
  (length ts, ts ++ [Armed ms callback]).

Definition clearTimeout (h : nat) (ts : list (Timer C)) : list (Timer C) :=
  match ts !! h with
  | Some (Armed _ _) => <[h := Cleared]> ts
  | _ => ts
  end.

Definition armed (h : nat) (ts : list (Timer C)) : bool :=
  match ts !! h with
  | Some (Armed _ _) => true
  | _ => false
  end.

(** The host takes an armed timer off the table and hands back its
    callback; a cleared or fired timer never runs. *)
Definition fire (h : nat) (ts : list (Timer C)) : option (C * list (Timer C)) :=
  match ts !! h with
  | Some (Armed _ cb) => Some (cb, <[h := Fired]> ts)
  | _ => None
  end.

(** The time the host waits before it fires timer [h], in milliseconds. *)
Definition duration (h : nat) (ts : list (Timer C)) : option Q :=
  match ts !! h with
  | Some (Armed ms _) => Some (idleTimeout ms)
  | _ => None
  end.
End Timers.

(** ** Promises

    A promise is the index of its record in the table of all promises.  The
    record is the list of every call made to its [resolve] and [reject]
    functions, oldest first.  The host keeps the first one only; the model
    keeps them all so that a second call is visible. *)

Inductive Settlement (V E : Type) : Type :=
| Resolved (value : V)
| Rejected (reason : E).
Arguments Resolved {V E} value.
Arguments Rejected {V E} reason.

Section Promises.
Context {V E : Type}.

Definition newPromise (ps : list (list (Settlement V E)))
  : nat * list (list (Settlement V E)) :=
  (length ps, ps ++ [[]]).

Definition settle (p : nat) (x : Settlement V E)
    (ps : list (list (Settlement V E))) : list (list (Settlement V E)) :=
  alter (fun calls => calls ++ [x]) p ps.


Definition pending (p : nat) (ps : list (list (Settlement V E))) : Prop :=
  ps !! p = Some [].
End Promises.

(** ** [Map] with numeric keys

    Entries are kept in insertion order, which is the order [keys()]
    iterates in.  [set] on a present key replaces the value in place. *)

Module Map.
Section Map.
Context {V : Type}.

Fixpoint get (k : Z) (m : list (Z * V)) : option V :=
  match m with
  | [] => None
  | (k', v) :: m' => if Z.eqb k' k then Some v else get k m'
  end.

Definition has (k : Z) (m : list (Z * V)) : bool :=
  match get k m with Some _ => true | None => false end.

Fixpoint set (k : Z) (v : V) (m : list (Z * V)) : list (Z * V) :=
  match m with
  | [] => [(k, v)]
  | (k', v') :: m' =>
      if Z.eqb k' k then (k, v) :: m' else (k', v') :: set k v m'
  end.

Fixpoint delete (k : Z) (m : list (Z * V)) : list (Z * V) :=
  match m with
  | [] => []
  | (k', v) :: m' =>
      if Z.eqb k' k then delete k m' else (k', v) :: delete k m'
  end.

Definition keys (m : list (Z * V)) : list Z := fst <$> m.

End Map.
End Map.

(** ** Node's [EventEmitter]

    The listeners of all emitters are kept in one list, each tagged with the
    emitter it was added to; the listeners of one emitter are the sublist
    with its tag, in registration order.  [removeListener] removes the most
    recently added instance of the function, whether it was added with [on]
    or with [once]. *)

Record Registration (T C : Type) : Type := mkRegistration {
  target : T;
  event : string;
  fn : C;
  once_flag : bool
}.
Arguments mkRegistration {T C} target event fn once_flag.
Arguments target {T C} r.
Arguments event {T C} r.
Arguments fn {T C} r.
Arguments once_flag {T C} r.

Section EventEmitter.
Context {T C : Type} `{EqDecision T, EqDecision C}.

#[global] Instance Registration_eq_dec : EqDecision (Registration T C).
Proof. solve_decision. Defined.

Definition on (t : T) (ev : string) (f : C) (l : list (Registration T C))
  : list (Registration T C) :=
  l ++ [mkRegistration t ev f false].

Definition once (t : T) (ev : string) (f : C) (l : list (Registration T C))
  : list (Registration T C) :=
  l ++ [mkRegistration t ev f true].

Fixpoint remove_last {A : Type} (P : A -> bool) (l : list A) : list A :=
  match l with
  | [] => []
  | x :: l' =>
      if existsb P l' then x :: remove_last P l'
      else if P x then l'
      else x :: l'
  end.

Definition is_listener (t : T) (ev : string) (f : C) (r : Registration T C) : bool :=
  bool_decide (target r = t /\ event r = ev /\ fn r = f).

Definition removeListener (t : T) (ev : string) (f : C)
    (l : list (Registration T C)) : list (Registration T C) :=
  remove_last (is_listener t ev f) l.

(** What a [once] wrapper does before it calls the function it wraps. *)
Definition removeWrapper (r : Registration T C) (l : list (Registration T C))
  : list (Registration T C) :=
  remove_last (fun r' => bool_decide (r' = r)) l.

Definition listenersOf (t : T) (ev : string) (l : list (Registration T C))
  : list (Registration T C) :=
  filter (fun r => target r = t /\ event r = ev) l.

Definition listenerCount (t : T) (ev : string) (l : list (Registration T C)) : nat :=
  length (listenersOf t ev l).
End EventEmitter.

(** ** [String.prototype.indexOf] *)

Definition indexOf (s pattern : string) : Z :=
  match String.index 0 pattern s with
  | Some n => Z.of_nat n
  | None => (-1)%Z
  end.

(** What [indexOf] is used to find out: [pattern] occurs in [s]. *)
Definition contains (pattern s : string) : Prop :=
  exists pre post, s = pre +:+ (pattern +:+ post).

End Js.

(* ===================================================================== *)
(** * Event names of the protocol engine *)
(* ===================================================================== *)

(** Modelled from the spec: the enumerations [ConnectionEvents],
    [SessionEvents], [SenderEvents] and [ReceiverEvents] belong to the
    protocol engine (rhea), whose sources are not part of the repository.
    Section 6 of the specification lists the events; the strings are the
    names the engine emits them under. *)
Module Rhea.
Module ConnectionEvents.
Definition connectionOpen : string := "connection_open".
Definition connectionClose : string := "connection_close".
Definition connectionError : string := "connection_error".
Definition protocolError : string := "protocol_error".
Definition error : string := "error".
Definition disconnected : string := "disconnected".
Definition settled : string := "settled".
End ConnectionEvents.
Module SessionEvents.
Definition sessionOpen : string := "session_open".
Definition sessionError : string := "session_error".
Definition sessionClose : string := "session_close".
Definition settled : string := "settled".
End SessionEvents.
Module SenderEvents.
Definition sendable : string := "sendable".
Definition senderOpen : string := "sender_open".
Definition senderDraining : string := "sender_draining".
Definition senderFlow : string := "sender_flow".
Definition senderError : string := "sender_error".
Definition senderClose : string := "sender_close".
Definition accepted : string := "accepted".
Definition released : string := "released".
Definition rejected : string := "rejected".
Definition modified : string := "modified".
Definition settled : string := "settled".
End SenderEvents.
Module ReceiverEvents.
Definition message : string := "message".
Definition receiverOpen : string := "receiver_open".
Definition receiverDrained : string := "receiver_drained".
Definition receiverFlow : string := "receiver_flow".
Definition receiverError : string := "receiver_error".
Definition receiverClose : string := "receiver_close".
Definition settled : string := "settled".
End ReceiverEvents.

(** The error object the engine attaches to a link, session or
    connection. *)
Record AmqpError : Type := mkAmqpError {
  condition : string;
  description : string
}.
End Rhea.


(* ===================================================================== *)
(** * lib/awaitableSender.js *)
(* ===================================================================== *)

(** One [AwaitableSender] together with the part of the host it touches: the
    promises its [send] calls returned, the timers they started, the abort
    signals they were given and the protocol-level sends they issued. *)
Module AwaitableSender.
Import Rhea.

(** The delivery object of the engine; [remote_state] is absent until the
    peer reports one, and its [error] may be absent too. *)
Record Delivery : Type := mkDelivery {
  id : Z;
  remote_state : option (option AmqpError)
}.

(** The context an event is raised with: [context.delivery],
    [context.sender.error] and [context.session.error]. *)
Record EventContext : Type := mkEventContext {
  delivery : Delivery;
  sender_error : option AmqpError;
  session_error : option AmqpError
}.

(** Modelled from the spec: the error classes of lib/errorDefinitions, which
    is not among the sources, as section 7 of the specification lists them.
    [AbortError] is what [createAbortError] of lib/util/utils.js makes.
    [SendOperationFailedError] carries the name of the event ([code]) and the
    error found in the context ([innerError]), the arguments its constructor
    is called with. *)
Inductive Error : Type :=
| AbortError (message : string)
| OperationTimeoutError
| InsufficientCreditError
| SendOperationFailedError (code : string) (innerError : option AmqpError).

(** Options of the constructor; a handler is an opaque function of the
    caller, named by a number. *)
Record AwaitableSenderOptions : Type := mkAwaitableSenderOptions {
  onError : option nat;
  onSessionError : option nat;
  opt_sendTimeoutInSeconds : option Js.number
}.

(** Options of one [send] call; an abort signal is named by a number. *)
Record AwaitableSendOptions : Type := mkAwaitableSendOptions {
  timeoutInSeconds : option Js.number;
  abortSignal : option nat
}.

(** The variables of one invocation of [send] that its closures capture:
    [resolve]/[reject] of the promise it returns, [delivery] and the
    [abortSignal] of the options. *)
Record SendScope : Type := mkSendScope {
  scope_promise : nat;
  scope_delivery : Z;
  scope_abortSignal : option nat
}.

(** The two functions stored in an entry of the map:
    [(delivery) => { resolve(delivery); removeAbortListener(); }] and
    [(reason) => { reject(reason); removeAbortListener(); }]. *)
Inductive ResolveFn : Type :=
| ResolveThenRemoveAbortListener (sc : SendScope).

Inductive RejectFn : Type :=
| RejectThenRemoveAbortListener (sc : SendScope).

(** The function handed to [setTimeout] by [send]. *)
Inductive TimerCallback : Type :=
| SendTimedOut (sc : SendScope).

(** The function [onAbort] of one [send] call. *)
Inductive AbortListener : Type :=
| OnAbort (sc : SendScope).

(** interface PromiseLike *)
Record PromiseLike : Type := mkPromiseLike {
  resolve : ResolveFn;
  reject : RejectFn;
  timer : nat
}.

(** The listeners the constructor adds with [this.on] and
    [this.session.on]. *)
Inductive Emitter : Type := This | ThisSession.

Inductive Listener : Type :=
| AcceptedListener
| RejectedListener
| ReleasedListener
| ModifiedListener
| SenderErrorListener
| SessionErrorListener.

Record State : Type := mkState {
  sendTimeoutInSeconds : Js.number;
  deliveryDispositionMap : list (Z * PromiseLike);
  listeners : list (Emitter * string * Listener);
  promises : list (list (Js.Settlement Delivery Error));
  timers : list (Js.Timer TimerCallback);
  aborted : list nat;
  abortListeners : list (nat * AbortListener);
  link_sends : list (nat * Z)
}.

#[global] Instance SendScope_eq_dec : EqDecision SendScope.
Proof. solve_decision. Defined.
#[global] Instance AbortListener_eq_dec : EqDecision AbortListener.
Proof. solve_decision. Defined.
#[global] Instance Emitter_eq_dec : EqDecision Emitter.
Proof. solve_decision. Defined.

(** *** Field updates *)

Definition with_map (m : list (Z * PromiseLike)) (st : State) : State :=
  mkState st.(sendTimeoutInSeconds) m st.(listeners) st.(promises)
    st.(timers) st.(aborted) st.(abortListeners) st.(link_sends).

Definition with_listeners (l : list (Emitter * string * Listener)) (st : State) : State :=
  mkState st.(sendTimeoutInSeconds) st.(deliveryDispositionMap) l st.(promises)
    st.(timers) st.(aborted) st.(abortListeners) st.(link_sends).

Definition with_promises (ps : list (list (Js.Settlement Delivery Error))) (st : State) : State :=
  mkState st.(sendTimeoutInSeconds) st.(deliveryDispositionMap) st.(listeners)
    ps st.(timers) st.(aborted) st.(abortListeners) st.(link_sends).

Definition with_timers (ts : list (Js.Timer TimerCallback)) (st : State) : State :=
  mkState st.(sendTimeoutInSeconds) st.(deliveryDispositionMap) st.(listeners)
    st.(promises) ts st.(aborted) st.(abortListeners) st.(link_sends).

Definition with_aborted (a : list nat) (st : State) : State :=
  mkState st.(sendTimeoutInSeconds) st.(deliveryDispositionMap) st.(listeners)
    st.(promises) st.(timers) a st.(abortListeners) st.(link_sends).

Definition with_abortListeners (l : list (nat * AbortListener)) (st : State) : State :=
  mkState st.(sendTimeoutInSeconds) st.(deliveryDispositionMap) st.(listeners)
    st.(promises) st.(timers) st.(aborted) l st.(link_sends).

Definition with_link_sends (l : list (nat * Z)) (st : State) : State :=
  mkState st.(sendTimeoutInSeconds) st.(deliveryDispositionMap) st.(listeners)
    st.(promises) st.(timers) st.(aborted) st.(abortListeners) l.

(** *** The host operations on the state *)

Definition clearTimeout (h : nat) (st : State) : State :=
  with_timers (Js.clearTimeout h st.(timers)) st.

Definition settle (p : nat) (x : Js.Settlement Delivery Error) (st : State) : State :=
  with_promises (Js.settle p x st.(promises)) st.

(** [abortSignal.aborted] *)
Definition is_aborted (s : nat) (st : State) : bool :=
  bool_decide (s ∈ st.(aborted)).

(** [abortSignal.addEventListener("abort", l)] *)
Definition addEventListener (s : nat) (l : AbortListener) (st : State) : State :=
  with_abortListeners (st.(abortListeners) ++ [(s, l)]) st.

(** [abortSignal.removeEventListener("abort", l)] *)
Definition removeEventListener (s : nat) (l : AbortListener) (st : State) : State :=
  with_abortListeners
    (filter (fun sl => sl ≠ (s, l)) st.(abortListeners)) st.

(** *** Closures of [send] *)

(** [removeAbortListener] *)
Definition removeAbortListener (sc : SendScope) (st : State) : State :=
  match sc.(scope_abortSignal) with
  | Some s => removeEventListener s (OnAbort sc) st
  | None => st
  end.

(** Calling [promise.resolve(delivery)] of an entry. *)
Definition call_resolve (f : ResolveFn) (d : Delivery) (st : State) : State :=
  match f with
  | ResolveThenRemoveAbortListener sc =>
      removeAbortListener sc (settle sc.(scope_promise) (Js.Resolved d) st)
  end.

(** Calling [promise.reject(reason)] of an entry. *)
Definition call_reject (f : RejectFn) (reason : Error) (st : State) : State :=
  match f with
  | RejectThenRemoveAbortListener sc =>
      removeAbortListener sc (settle sc.(scope_promise) (Js.Rejected reason) st)
  end.

(** *** Handlers of the constructor *)

(** In both handlers [has(id)] followed by [get(id)] is one lookup. *)
Definition onSendSuccess (d : Delivery) (st : State) : State :=
  let id := d.(id) in
  match Js.Map.get id st.(deliveryDispositionMap) with
  | Some promise =>
      let st := clearTimeout promise.(timer) st in
      let st := with_map (Js.Map.delete id st.(deliveryDispositionMap)) st in
      call_resolve promise.(resolve) d st
  | None => st
  end.

Definition onSendFailure (eventName : string) (id : Z)
    (error : option AmqpError) (st : State) : State :=
  match Js.Map.get id st.(deliveryDispositionMap) with
  | Some promise =>
      let st := clearTimeout promise.(timer) st in
      let st := with_map (Js.Map.delete id st.(deliveryDispositionMap)) st in
      let err := SendOperationFailedError eventName error in
      call_reject promise.(reject) err st
  | None => st
  end.

(** [for (const id of this.deliveryDispositionMap.keys())]: every call of
    [onSendFailure] deletes the key it was called for only, so the iterator
    visits the keys present when the loop started, in insertion order. *)
Definition drain (eventName : string) (error : option AmqpError) (st : State) : State :=
  foldl (fun st id => onSendFailure eventName id error st) st
    (Js.Map.keys st.(deliveryDispositionMap)).

(** [delivery.remote_state && delivery.remote_state.error] *)
Definition remote_error (d : Delivery) : option AmqpError :=
  match d.(remote_state) with
  | Some e => e
  | None => None
  end.

Definition call_listener (l : Listener) (context : EventContext) (st : State) : State :=
  match l with
  | AcceptedListener => onSendSuccess context.(delivery) st
  | RejectedListener =>
      onSendFailure SenderEvents.rejected context.(delivery).(id)
        (remote_error context.(delivery)) st
  | ReleasedListener =>
      onSendFailure SenderEvents.released context.(delivery).(id)
        (remote_error context.(delivery)) st
  | ModifiedListener =>
      onSendFailure SenderEvents.modified context.(delivery).(id)
        (remote_error context.(delivery)) st
  | SenderErrorListener =>
      drain SenderEvents.senderError context.(sender_error) st
  | SessionErrorListener =>
      drain SessionEvents.sessionError context.(session_error) st
  end.

(** [options.sendTimeoutInSeconds || 20]: an absent option, a zero and
    [NaN] give the default. *)
Definition defaultSendTimeout (o : option Js.number) : Js.number :=
  match o with
  | Some q => if Js.truthy q then q else Js.of_Z 20
  | None => Js.of_Z 20
  end.

Definition constructor (options : AwaitableSenderOptions) : State :=
  {| sendTimeoutInSeconds := defaultSendTimeout options.(opt_sendTimeoutInSeconds);
     deliveryDispositionMap := [];
     listeners :=
       [ (This, SenderEvents.accepted, AcceptedListener);
         (This, SenderEvents.rejected, RejectedListener);
         (This, SenderEvents.released, ReleasedListener);
         (This, SenderEvents.modified, ModifiedListener) ]
       ++ match options.(onError) with
          | Some _ => []
          | None => [ (This, SenderEvents.senderError, SenderErrorListener) ]
          end
       ++ match options.(onSessionError) with
          | Some _ => []
          | None => [ (ThisSession, SessionEvents.sessionError, SessionErrorListener) ]
          end;
     promises := [];
     timers := [];
     aborted := [];
     abortListeners := [];
     link_sends := [] |}.

(** *** [send] *)

(** The body of the timer callback of [send]. *)
Definition call_timer (cb : TimerCallback) (st : State) : State :=
  match cb with
  | SendTimedOut sc =>
      let st := with_map (Js.Map.delete sc.(scope_delivery) st.(deliveryDispositionMap)) st in
      settle sc.(scope_promise) (Js.Rejected OperationTimeoutError) st
  end.

(** The body of [onAbort]. *)
Definition call_abortListener (l : AbortListener) (st : State) : State :=
  match l with
  | OnAbort sc =>
      match Js.Map.get sc.(scope_delivery) st.(deliveryDispositionMap) with
      | Some promise =>
          let st := clearTimeout promise.(timer) st in
          let st := with_map (Js.Map.delete sc.(scope_delivery) st.(deliveryDispositionMap)) st in
          let err := AbortError "Send request has been cancelled." in
          call_reject promise.(reject) err st
      | None => st
      end
  end.

(** The local [sendTimeoutInSeconds] of [send]: the timeout of the call
    when [typeof timeoutInSeconds === "number" && timeoutInSeconds > 0], that
    of the sender otherwise. *)
Definition effectiveSendTimeout (timeoutInSeconds : option Js.number) (st : State)
  : Js.number :=
  match timeoutInSeconds with
  | Some t => if Js.gt t (Js.of_Z 0) then t else st.(sendTimeoutInSeconds)
  | None => st.(sendTimeoutInSeconds)
  end.

(** [send(msg, tag, format, options)].  [sendable] is what [this.sendable()]
    answers and [d] the delivery [this._link.send(msg, tag, format)] returns
    if it is called; the message itself plays no part.  The timer is
    started with the double [sendTimeoutInSeconds * 1000].  The result is the
    promise returned and the new state. *)
Definition send (options : option AwaitableSendOptions) (sendable : bool)
    (d : Delivery) (st : State) : nat * State :=
  let '(p, ps) := Js.newPromise st.(promises) in
  let st := with_promises ps st in
  let abortSignal := options ≫= abortSignal in
  let timeoutInSeconds := options ≫= timeoutInSeconds in
  if match abortSignal with Some s => is_aborted s st | None => false end then
    (p, settle p (Js.Rejected (AbortError "Send request has been cancelled.")) st)
  else if sendable then
    let sendTimeoutInSeconds := effectiveSendTimeout timeoutInSeconds st in
    let sc := mkSendScope p d.(id) abortSignal in
    let '(timer, ts) :=
      Js.setTimeout (SendTimedOut sc)
        (Js.delay (Js.mul sendTimeoutInSeconds (Js.of_Z 1000))) st.(timers) in
    let st := with_timers ts st in
    let st := with_link_sends (st.(link_sends) ++ [(p, d.(id))]) st in
    let st :=
      with_map
        (Js.Map.set d.(id)
           {| resolve := ResolveThenRemoveAbortListener sc;
              reject := RejectThenRemoveAbortListener sc;
              timer := timer |}
           st.(deliveryDispositionMap)) st in
    let st :=
      match abortSignal with
      | Some s => addEventListener s (OnAbort sc) st
      | None => st
      end in
    (p, st)
  else
    (p, settle p (Js.Rejected InsufficientCreditError) st).

(** *** What can happen to a sender *)

(** [SessionRemoveAllListeners] is [removeAllListeners()] called on the
    session of the sender: [Session.remove] and the [finally] of
    [Session.close] do so (lib/session.js), and the [session_error] listener
    of the constructor was added to that very object. *)
Inductive Event : Type :=
| Send (options : option AwaitableSendOptions) (sendable : bool) (d : Delivery)
| Emit (target : Emitter) (eventName : string) (context : EventContext)
| TimerFires (handle : nat)
| SignalAborts (signal : nat)
| SessionRemoveAllListeners.

(** [emit]: the listeners registered for the event on the emitter run in
    registration order. *)
Definition emit (target : Emitter) (eventName : string)
    (context : EventContext) (st : State) : State :=
  foldl (fun st l => call_listener l.2 context st) st
    (filter (fun l => l.1 = (target, eventName)) st.(listeners)).

(** The host fires a timer: nothing happens unless it is still armed. *)
Definition timerFires (h : nat) (st : State) : State :=
  match Js.fire h st.(timers) with
  | Some (cb, ts) => call_timer cb (with_timers ts st)
  | None => st
  end.

(** The owner of a signal aborts it: the flag is set and the listeners
    registered at that moment run in registration order.  A signal aborts
    once. *)
Definition signalAborts (s : nat) (st : State) : State :=
  if is_aborted s st then st
  else
    foldl (fun st sl => call_abortListener sl.2 st)
      (with_aborted (s :: st.(aborted)) st)
      (filter (fun sl => sl.1 = s) st.(abortListeners)).

(** [removeAllListeners()] on an emitter. *)
Definition removeAllListeners (target : Emitter) (st : State) : State :=
  with_listeners (filter (fun l => l.1.1 ≠ target) st.(listeners)) st.

Definition step (st : State) (e : Event) : State :=
  match e with
  | Send options sendable d => (send options sendable d st).2
  | Emit target eventName context => emit target eventName context st
  | TimerFires h => timerFires h st
  | SignalAborts s => signalAborts s st
  | SessionRemoveAllListeners => removeAllListeners ThisSession st
  end.

Definition run (st : State) (evs : list Event) : State := foldl step st evs.

(** The engine numbers deliveries: the delivery it returns to a [send] has
    an id it has not used before on this link. *)
Definition engine_fresh (st : State) (e : Event) : bool :=
  match e with
  | Send _ _ d => bool_decide (d.(id) ∉ st.(link_sends).*2)
  | _ => true
  end.

(** The session dropped its listeners somewhere in the trace. *)
Definition session_listeners_removed (evs : list Event) : bool :=
  existsb (fun e => match e with SessionRemoveAllListeners => true | _ => false end) evs.

Fixpoint engine_trace (st : State) (evs : list Event) : bool :=
  match evs with
  | [] => true
  | e :: evs' => engine_fresh st e && engine_trace (step st e) evs'
  end.

(** *** Vocabulary of the specification *)








(** The map was drained by the error event [ev] carrying [err]: it is empty,
    and every entry it had has its timer off and its promise rejected, once,
    with an error that carries [ev] and [err]. *)
Definition drained_by (ev : string) (err : option AmqpError) (st st' : State) : Prop :=
  deliveryDispositionMap st' = []
  /\ forall i e,
       Js.Map.get i (deliveryDispositionMap st) = Some e ->
       Js.armed (timer e) (timers st') = false
       /\ exists sc,
            reject e = RejectThenRemoveAbortListener sc
            /\ promises st' !! scope_promise sc =
               Some [Js.Rejected (SendOperationFailedError ev err)].

(** The call issued a protocol-level send. *)
Definition issues_send (st : State) (d : Delivery) (r : nat * State) : Prop :=
  link_sends r.2 = link_sends st ++ [(r.1, id d)].

(** *** The invariant of the correlation table *)

Definition entry_of (sc : SendScope) (t : nat) : PromiseLike :=
  mkPromiseLike (ResolveThenRemoveAbortListener sc) (RejectThenRemoveAbortListener sc) t.



Record Inv (st : State) : Prop := mkInv {
  inv_keys : NoDup (Js.Map.keys (deliveryDispositionMap st));
  inv_entry : forall i e,
    Js.Map.get i (deliveryDispositionMap st) = Some e ->
    exists sc ms,
      e = entry_of sc (timer e) /\ scope_delivery sc = i
      /\ timers st !! timer e = Some (Js.Armed ms (SendTimedOut sc))
      /\ promises st !! scope_promise sc = Some []
      /\ (scope_promise sc, i) ∈ link_sends st;
  inv_timer : forall h ms sc,
    timers st !! h = Some (Js.Armed ms (SendTimedOut sc)) ->
    Js.Map.get (scope_delivery sc) (deliveryDispositionMap st) = Some (entry_of sc h);
  inv_once : forall p calls, promises st !! p = Some calls -> length calls <= 1;
  inv_pending : forall p,
    promises st !! p = Some [] ->
    exists i t sc,
      Js.Map.get i (deliveryDispositionMap st) = Some (entry_of sc t)
      /\ scope_promise sc = p;
  inv_sends_lt : forall p i, (p, i) ∈ link_sends st -> p < length (promises st);
  inv_sends_promise : NoDup (link_sends st).*1;
  inv_sends_id : NoDup (link_sends st).*2
}.

(** The state after the entry of delivery [i], whose timer is [h] and whose
    promise is [p], was retired with settlement [x]; [T] is what became of
    the timer. *)
Definition retire (i : Z) (h : nat) (T : Js.Timer TimerCallback) (p : nat)
    (x : Js.Settlement Delivery Error) (st : State) : State :=
  with_promises (Js.settle p x (promises st))
    (with_map (Js.Map.delete i (deliveryDispositionMap st))
       (with_timers (<[h := T]> (timers st)) st)).

(** *** Sample runs *)

Definition default_options : AwaitableSenderOptions :=
  mkAwaitableSenderOptions None None None.

Definition sample_trace : list Event :=
  [ Send (Some (mkAwaitableSendOptions (Some (Js.of_Z 5)) (Some 7))) true (mkDelivery 1 None);
    Send None true (mkDelivery 2 None);
    Send None false (mkDelivery 3 None);
    Emit This SenderEvents.accepted
      (mkEventContext (mkDelivery 2 (Some None)) None None);
    TimerFires 0;
    SignalAborts 7 ].

Definition pending_trace : list Event :=
  [ Send (Some (mkAwaitableSendOptions None (Some 7))) true (mkDelivery 1 None);
    Send None true (mkDelivery 2 None);
    Send None true (mkDelivery 3 None);
    Emit This SenderEvents.accepted
      (mkEventContext (mkDelivery 2 (Some None)) None None) ].

(** The sends of [pending_trace], and then the session drops its
    listeners. *)
Definition removed_trace : list Event :=
  pending_trace ++ [SessionRemoveAllListeners].

Definition error_context : EventContext :=
  mkEventContext (mkDelivery 0 None)
    (Some (mkAmqpError "amqp:link:detach-forced" "link detached"))
    (Some (mkAmqpError "amqp:session:window-violation" "session ended")).

Definition short_timeout : option AwaitableSendOptions :=
  Some (mkAwaitableSendOptions (Some (Js.of_Z 5)) None).

(** [{ timeoutInSeconds: 2.01 }]: the literal denotes the double nearest to
    201 / 100. *)
Definition fractional_timeout : option AwaitableSendOptions :=
  Some (mkAwaitableSendOptions (Some (Js.div (Js.of_Z 201) (Js.of_Z 100))) None).

Definition long_timeout : option AwaitableSendOptions :=
  Some (mkAwaitableSendOptions (Some (Js.of_Z 2147484)) None).

Definition negative_default : AwaitableSenderOptions :=
  mkAwaitableSenderOptions None None (Some (Js.of_Z (-3))).

Definition with_signal : option AwaitableSendOptions :=
  Some (mkAwaitableSendOptions None (Some 7)).

Definition first_delivery : Delivery := mkDelivery 1 None.

Definition first_scope : SendScope := mkSendScope 0 1 (Some 7).

End AwaitableSender.


(* ===================================================================== *)
(** * lib/connection.js, lib/session.js and [emitEvent] of lib/util/utils.js *)
(* ===================================================================== *)

(** One [Connection] with the sessions and links created on it, and the part
    of the host and of the engine its operations touch.  A session or a link
    is named by its index in the table of the sessions or links the engine
    created on the connection; the wrapper and the engine object it wraps
    share the name. *)
Module Lifecycle.
Import Rhea.

Inductive Entity : Type :=
| TheConnection
| TheSession (s : nat)
| TheLink (l : nat).

(** The context the engine raises an event with: [context.error] and, for
    each object the context refers to, the error of that object. *)
Record EventContext : Type := mkEventContext {
  error : option AmqpError;
  connection_error : option AmqpError;
  session_error : option AmqpError;
  sender_error : option AmqpError;
  receiver_error : option AmqpError
}.

Definition no_context : EventContext := mkEventContext None None None None None.

Inductive SenderType : Type := sender | AwaitableSender.

(** What a guarded operation resolves with. *)
Inductive Value : Type :=
| VConnection
| VSession (s : nat)
| VReceiver (l : nat)
| VSender (type : SenderType) (l : nat)
| VUndefined.

(** What a guarded operation rejects with: an error made by
    [createAbortError], an [OperationTimeoutError] (lib/errorDefinitions), a
    plain [Error], or whatever error the engine left on the object (possibly
    none). *)
Inductive Error : Type :=
| AbortError (message : string)
| OperationTimeoutError
| JsError (message : string)
| EngineError (e : option AmqpError).

(** The guarded operations and the local functions each one defines. *)
Inductive Op : Type :=
| ConnectionOpen
| ConnectionClose
| CreateSession (s : nat)
| SessionClose (s : nat)
| CreateReceiver (l : nat)
| CreateSender (type : SenderType) (l : nat).

Inductive Role : Type :=
| OnOpen
| OnSendable
| OnClose
| OnError
| OnDisconnected
| OnAbort
| ActionAfterTimeout.

(** The variables of one invocation that its local functions capture: which
    operation it is and on which object, [resolve]/[reject] of its promise,
    [abortSignal] and [waitTimer]. *)
Record Scope : Type := mkScope {
  op : Op;
  promise : nat;
  abortSignal : option nat;
  waitTimer : nat
}.

(** interface EmitParameters; the connection id is used for logging only. *)
Record EmitParameters : Type := mkEmitParameters {
  rheaContext : EventContext;
  emitter : Entity;
  eventName : string;
  emitterType : string
}.

Inductive Closure : Type :=
| Guard (sc : Scope) (r : Role)
    (* a local function of a guarded operation *)
| ReEmit (emitter : Entity) (emitterType : string) (eventName : string)
    (* a listener added by [_initializeEventListeners] *)
| EmitLater (params : EmitParameters).
    (* the function [emit] of [emitEvent], handed to [setTimeout] *)

(** Every method called on an object of the engine, in order. *)
Inductive EngineCall : Type :=
| connect
| connection_close
| create_session (s : nat)
| session_begin (s : nat)
| session_close (s : nat)
| attach_receiver (s l : nat)
| attach_sender (s l : nat)
| link_close (l : nat)
| call_once (t : Entity) (ev : string) (f : Closure)
| call_on (t : Entity) (ev : string) (f : Closure)
| call_removeListener (t : Entity) (ev : string) (f : Closure).

#[global] Instance Entity_eq_dec : EqDecision Entity.
Proof. solve_decision. Defined.
#[global] Instance AmqpError_eq_dec : EqDecision AmqpError.
Proof. solve_decision. Defined.
#[global] Instance EventContext_eq_dec : EqDecision EventContext.
Proof. solve_decision. Defined.
#[global] Instance SenderType_eq_dec : EqDecision SenderType.
Proof. solve_decision. Defined.
#[global] Instance Op_eq_dec : EqDecision Op.
Proof. solve_decision. Defined.
#[global] Instance Role_eq_dec : EqDecision Role.
Proof. solve_decision. Defined.
#[global] Instance Scope_eq_dec : EqDecision Scope.
Proof. solve_decision. Defined.
#[global] Instance EmitParameters_eq_dec : EqDecision EmitParameters.
Proof. solve_decision. Defined.
#[global] Instance Closure_eq_dec : EqDecision Closure.
Proof. solve_decision. Defined.
#[global] Instance EngineCall_eq_dec : EqDecision EngineCall.
Proof. solve_decision. Defined.

Record World : Type := mkWorld {
  operationTimeoutInSeconds : Q;
      (* this.options.operationTimeoutInSeconds *)
  connection_actionInitiated : Z;
      (* actionInitiated of the Connection *)
  sessions : list Z;
      (* actionInitiated of each Session *)
  links : list Z;
      (* actionInitiated of each Sender or Receiver *)
  listeners : list (Js.Registration Entity Closure);
      (* the listeners on the objects of the engine *)
  wrapper_listeners : list (Js.Registration Entity nat);
      (* the handlers of the caller added to the wrappers *)
  emitted : list EmitParameters;
      (* the events re-emitted on the wrappers *)
  engine : list EngineCall;
  promises : list (list (Js.Settlement Value Error));
  timers : list (Js.Timer Closure);
  aborted : list nat;
  abortListeners : list (nat * Closure)
}.

(** *** Field updates *)

Definition with_connection_actionInitiated (n : Z) (w : World) : World :=
  mkWorld w.(operationTimeoutInSeconds) n w.(sessions) w.(links) w.(listeners)
    w.(wrapper_listeners) w.(emitted) w.(engine) w.(promises) w.(timers)
    w.(aborted) w.(abortListeners).

Definition with_sessions (x : list Z) (w : World) : World :=
  mkWorld w.(operationTimeoutInSeconds) w.(connection_actionInitiated) x
    w.(links) w.(listeners) w.(wrapper_listeners) w.(emitted) w.(engine)
    w.(promises) w.(timers) w.(aborted) w.(abortListeners).

Definition with_links (x : list Z) (w : World) : World :=
  mkWorld w.(operationTimeoutInSeconds) w.(connection_actionInitiated)
    w.(sessions) x w.(listeners) w.(wrapper_listeners) w.(emitted) w.(engine)
    w.(promises) w.(timers) w.(aborted) w.(abortListeners).

Definition with_listeners (x : list (Js.Registration Entity Closure)) (w : World) : World :=
  mkWorld w.(operationTimeoutInSeconds) w.(connection_actionInitiated)
    w.(sessions) w.(links) x w.(wrapper_listeners) w.(emitted) w.(engine)
    w.(promises) w.(timers) w.(aborted) w.(abortListeners).

Definition with_wrapper_listeners (x : list (Js.Registration Entity nat)) (w : World) : World :=
  mkWorld w.(operationTimeoutInSeconds) w.(connection_actionInitiated)
    w.(sessions) w.(links) w.(listeners) x w.(emitted) w.(engine)
    w.(promises) w.(timers) w.(aborted) w.(abortListeners).

Definition with_emitted (x : list EmitParameters) (w : World) : World :=
  mkWorld w.(operationTimeoutInSeconds) w.(connection_actionInitiated)
    w.(sessions) w.(links) w.(listeners) w.(wrapper_listeners) x w.(engine)
    w.(promises) w.(timers) w.(aborted) w.(abortListeners).

Definition with_engine (x : list EngineCall) (w : World) : World :=
  mkWorld w.(operationTimeoutInSeconds) w.(connection_actionInitiated)
    w.(sessions) w.(links) w.(listeners) w.(wrapper_listeners) w.(emitted) x
    w.(promises) w.(timers) w.(aborted) w.(abortListeners).

Definition with_promises (x : list (list (Js.Settlement Value Error))) (w : World) : World :=
  mkWorld w.(operationTimeoutInSeconds) w.(connection_actionInitiated)
    w.(sessions) w.(links) w.(listeners) w.(wrapper_listeners) w.(emitted)
    w.(engine) x w.(timers) w.(aborted) w.(abortListeners).

Definition with_timers (x : list (Js.Timer Closure)) (w : World) : World :=
  mkWorld w.(operationTimeoutInSeconds) w.(connection_actionInitiated)
    w.(sessions) w.(links) w.(listeners) w.(wrapper_listeners) w.(emitted)
    w.(engine) w.(promises) x w.(aborted) w.(abortListeners).

Definition with_aborted (x : list nat) (w : World) : World :=
  mkWorld w.(operationTimeoutInSeconds) w.(connection_actionInitiated)
    w.(sessions) w.(links) w.(listeners) w.(wrapper_listeners) w.(emitted)
    w.(engine) w.(promises) w.(timers) x w.(abortListeners).

Definition with_abortListeners (x : list (nat * Closure)) (w : World) : World :=
  mkWorld w.(operationTimeoutInSeconds) w.(connection_actionInitiated)
    w.(sessions) w.(links) w.(listeners) w.(wrapper_listeners) w.(emitted)
    w.(engine) w.(promises) w.(timers) w.(aborted) x.

(** *** The host and the engine, on the world *)

Definition newPromise (w : World) : nat * World :=
  let '(p, ps) := Js.newPromise w.(promises) in (p, with_promises ps w).

Definition settle (p : nat) (x : Js.Settlement Value Error) (w : World) : World :=
  with_promises (Js.settle p x w.(promises)) w.

Definition setTimeout (f : Closure) (ms : Q) (w : World) : World :=
  with_timers (Js.setTimeout f ms w.(timers)).2 w.

Definition clearTimeout (h : nat) (w : World) : World :=
  with_timers (Js.clearTimeout h w.(timers)) w.

Definition is_aborted (s : nat) (w : World) : bool :=
  bool_decide (s ∈ w.(aborted)).

Definition addEventListener (s : nat) (f : Closure) (w : World) : World :=
  with_abortListeners (w.(abortListeners) ++ [(s, f)]) w.

Definition removeEventListener (s : nat) (f : Closure) (w : World) : World :=
  with_abortListeners (filter (fun sl => sl ≠ (s, f)) w.(abortListeners)) w.

Definition engine_call (c : EngineCall) (w : World) : World :=
  with_engine (w.(engine) ++ [c]) w.

Definition once (t : Entity) (ev : string) (f : Closure) (w : World) : World :=
  engine_call (call_once t ev f) (with_listeners (Js.once t ev f w.(listeners)) w).

Definition on (t : Entity) (ev : string) (f : Closure) (w : World) : World :=
  engine_call (call_on t ev f) (with_listeners (Js.on t ev f w.(listeners)) w).

Definition removeListener (t : Entity) (ev : string) (f : Closure) (w : World) : World :=
  engine_call (call_removeListener t ev f)
    (with_listeners (Js.removeListener t ev f w.(listeners)) w).

(** [if (handler) wrapper.on(ev, handler)] with a handler of the caller. *)
Definition wrapper_on (t : Entity) (ev : string) (handler : option nat) (w : World) : World :=
  with_wrapper_listeners
    match handler with
    | Some h => Js.on t ev h w.(wrapper_listeners)
    | None => w.(wrapper_listeners)
    end w.

Definition actionInitiated (e : Entity) (w : World) : Z :=
  match e with
  | TheConnection => w.(connection_actionInitiated)
  | TheSession s => default 0%Z (w.(sessions) !! s)
  | TheLink l => default 0%Z (w.(links) !! l)
  end.

(** [e.actionInitiated++] for [k = 1] and [e.actionInitiated--] for
    [k = -1]. *)
Definition add_actionInitiated (e : Entity) (k : Z) (w : World) : World :=
  match e with
  | TheConnection =>
      with_connection_actionInitiated (w.(connection_actionInitiated) + k)%Z w
  | TheSession s => with_sessions (alter (Z.add k) s w.(sessions)) w
  | TheLink l => with_links (alter (Z.add k) l w.(links)) w
  end.

(** *** lib/util/utils.js *)

(** The local function [emit] of [emitEvent]: the wrapper emits the event
    with the translated context. *)
Definition emit_translated (params : EmitParameters) (w : World) : World :=
  with_emitted (w.(emitted) ++ [params]) w.

Definition emitEvent (params : EmitParameters) (w : World) : World :=
  if negb (Js.indexOf params.(eventName) "error" =? -1)%Z
     && (actionInitiated params.(emitter) w >? 0)%Z
  then setTimeout (EmitLater params) 0 w
  else emit_translated params w.

(** *** The local functions of the guarded operations *)

(** The wrapper whose [actionInitiated] the operation counts on. *)
Definition entity_of (o : Op) : Entity :=
  match o with
  | ConnectionOpen | ConnectionClose => TheConnection
  | CreateSession s | SessionClose s => TheSession s
  | CreateReceiver l | CreateSender _ l => TheLink l
  end.

Definition removeAbortListener (sc : Scope) (w : World) : World :=
  match sc.(abortSignal) with
  | Some s => removeEventListener s (Guard sc OnAbort) w
  | None => w
  end.

(** [removeListeners] of each operation. *)
Definition removeListeners (sc : Scope) (w : World) : World :=
  let w := clearTimeout sc.(waitTimer) w in
  let w := add_actionInitiated (entity_of sc.(op)) (-1) w in
  let w :=
    match sc.(op) with
    | ConnectionOpen =>
        let w := removeListener TheConnection ConnectionEvents.connectionOpen (Guard sc OnOpen) w in
        let w := removeListener TheConnection ConnectionEvents.connectionClose (Guard sc OnClose) w in
        removeListener TheConnection ConnectionEvents.disconnected (Guard sc OnClose) w
    | ConnectionClose =>
        let w := removeListener TheConnection ConnectionEvents.connectionError (Guard sc OnError) w in
        let w := removeListener TheConnection ConnectionEvents.connectionClose (Guard sc OnClose) w in
        removeListener TheConnection ConnectionEvents.disconnected (Guard sc OnDisconnected) w
    | CreateSession s =>
        let w := removeListener (TheSession s) SessionEvents.sessionOpen (Guard sc OnOpen) w in
        let w := removeListener (TheSession s) SessionEvents.sessionClose (Guard sc OnClose) w in
        removeListener TheConnection ConnectionEvents.disconnected (Guard sc OnDisconnected) w
    | SessionClose s =>
        let w := removeListener (TheSession s) SessionEvents.sessionError (Guard sc OnError) w in
        let w := removeListener (TheSession s) SessionEvents.sessionClose (Guard sc OnClose) w in
        removeListener TheConnection ConnectionEvents.disconnected (Guard sc OnDisconnected) w
    | CreateReceiver l =>
        let w := removeListener (TheLink l) ReceiverEvents.receiverOpen (Guard sc OnOpen) w in
        let w := removeListener (TheLink l) ReceiverEvents.receiverClose (Guard sc OnClose) w in
        removeListener TheConnection ConnectionEvents.disconnected (Guard sc OnDisconnected) w
    | CreateSender _ l =>
        let w := removeListener (TheLink l) SenderEvents.senderOpen (Guard sc OnSendable) w in
        let w := removeListener (TheLink l) SenderEvents.senderClose (Guard sc OnClose) w in
        removeListener TheConnection ConnectionEvents.disconnected (Guard sc OnDisconnected) w
    end in
  removeAbortListener sc w.

(** [context.connection && context.connection.error ? context.connection.error
    : context.error] *)
Definition disconnect_error (context : EventContext) : Error :=
  match context.(connection_error) with
  | Some e => EngineError (Some e)
  | None => EngineError context.(error)
  end.

(** [context.error || context.connection.error || Error('Failed to connect')] *)
Definition connect_error (context : EventContext) : Error :=
  match context.(error) with
  | Some e => EngineError (Some e)
  | None =>
      match context.(connection_error) with
      | Some e => EngineError (Some e)
      | None => JsError "Failed to connect"
      end
  end.

(** [finally { this.removeAllListeners(); }] of [Session.close]: it runs
    once [closePromise] is settled, resolved or rejected, and before the
    host handles another event; a [closePromise] that stays pending keeps it
    from running. *)
Definition finally (s : nat) (w : World) : World :=
  with_wrapper_listeners
    (filter (fun r => Js.target r ≠ TheSession s) w.(wrapper_listeners)) w.

(** What each local function does after it called [removeListeners].  The
    messages of the two plain [Error]s of a timeout name the connection
    between "connection" and "due to"; the model has them without the id. *)
Definition after_removeListeners (sc : Scope) (r : Role)
    (context : EventContext) (w : World) : World :=
  let resolve v := settle sc.(promise) (Js.Resolved v) in
  let reject e := settle sc.(promise) (Js.Rejected e) in
  match sc.(op), r with
  (* Connection.open *)
  | ConnectionOpen, OnOpen => resolve VConnection w
  | ConnectionOpen, OnClose => reject (connect_error context) w
  | ConnectionOpen, OnAbort =>
      reject (AbortError "Connection open request has been cancelled.")
        (engine_call connection_close w)
  | ConnectionOpen, ActionAfterTimeout =>
      reject (JsError "Unable to open the amqp connection due to operation timeout.") w
  (* Connection.close *)
  | ConnectionClose, OnClose => resolve VUndefined w
  | ConnectionClose, OnError => reject (EngineError context.(connection_error)) w
  | ConnectionClose, OnDisconnected => w
  | ConnectionClose, OnAbort =>
      reject (AbortError "Connection close request has been cancelled.") w
  | ConnectionClose, ActionAfterTimeout =>
      reject (JsError "Unable to close the amqp connection due to operation timeout.") w
  (* Connection.createSession *)
  | CreateSession s, OnOpen => resolve (VSession s) w
  | CreateSession s, OnClose => reject (EngineError context.(session_error)) w
  | CreateSession s, OnDisconnected => reject (disconnect_error context) w
  | CreateSession s, OnAbort =>
      reject (AbortError "Create session request has been cancelled.")
        (engine_call (session_close s) w)
  | CreateSession s, ActionAfterTimeout => reject OperationTimeoutError w
  (* Session.close *)
  | SessionClose s, OnClose => finally s (resolve VUndefined w)
  | SessionClose s, OnError => finally s (reject (EngineError context.(session_error)) w)
  | SessionClose s, OnDisconnected => w
  | SessionClose s, OnAbort =>
      finally s (reject (AbortError "Session close request has been cancelled.") w)
  | SessionClose s, ActionAfterTimeout => finally s (reject OperationTimeoutError w)
  (* Session.createReceiver *)
  | CreateReceiver l, OnOpen => resolve (VReceiver l) w
  | CreateReceiver l, OnClose => reject (EngineError context.(receiver_error)) w
  | CreateReceiver l, OnDisconnected => reject (disconnect_error context) w
  | CreateReceiver l, OnAbort =>
      reject (AbortError "Create receiver request has been cancelled.")
        (engine_call (link_close l) w)
  | CreateReceiver l, ActionAfterTimeout => reject OperationTimeoutError w
  (* Session._createSender *)
  | CreateSender type l, OnSendable => resolve (VSender type l) w
  | CreateSender type l, OnClose => reject (EngineError context.(sender_error)) w
  | CreateSender type l, OnDisconnected => reject (disconnect_error context) w
  | CreateSender type l, OnAbort =>
      reject (AbortError "Create sender request has been cancelled.")
        (engine_call (link_close l) w)
  | CreateSender type l, ActionAfterTimeout => reject OperationTimeoutError w
  (* no operation defines the remaining combinations *)
  | _, _ => w
  end.

(** Whether the operation defines the function. *)
Definition defines (o : Op) (r : Role) : bool :=
  match o, r with
  | ConnectionOpen, (OnOpen | OnClose | OnAbort | ActionAfterTimeout) => true
  | (ConnectionClose | SessionClose _),
    (OnClose | OnError | OnDisconnected | OnAbort | ActionAfterTimeout) => true
  | (CreateSession _ | CreateReceiver _),
    (OnOpen | OnClose | OnDisconnected | OnAbort | ActionAfterTimeout) => true
  | CreateSender _ _,
    (OnSendable | OnClose | OnDisconnected | OnAbort | ActionAfterTimeout) => true
  | _, _ => false
  end.

Definition call_closure (f : Closure) (context : EventContext) (w : World) : World :=
  match f with
  | Guard sc r =>
      if defines sc.(op) r
      then after_removeListeners sc r context (removeListeners sc w)
      else w
  | ReEmit e type ev => emitEvent (mkEmitParameters context e ev type) w
  | EmitLater params => emit_translated params w
  end.

(** [if (abortSignal) { if (abortSignal.aborted) onAbort(); else
    abortSignal.addEventListener("abort", onAbort); }] *)
Definition watchAbortSignal (sc : Scope) (w : World) : World :=
  match sc.(abortSignal) with
  | Some s =>
      if is_aborted s w then call_closure (Guard sc OnAbort) no_context w
      else addEventListener s (Guard sc OnAbort) w
  | None => w
  end.

(** Options of a guarded operation that takes nothing but a signal. *)
Record OperationOptions : Type := mkOperationOptions {
  opt_abortSignal : option nat
}.

(** The options of [createReceiver] the function reads; a handler of the
    caller is named by a number, [credit_window] is absent or a number. *)
Record ReceiverOptions : Type := mkReceiverOptions {
  r_onMessage : option nat;
  r_onError : option nat;
  r_onClose : option nat;
  r_onSettled : option nat;
  r_onSessionError : option nat;
  r_onSessionClose : option nat;
  r_credit_window : option Z;
  r_abortSignal : option nat
}.

(** The options of [_createSender] the function reads. *)
Record SenderOptions : Type := mkSenderOptions {
  s_onError : option nat;
  s_onClose : option nat;
  s_onAccepted : option nat;
  s_onRejected : option nat;
  s_onReleased : option nat;
  s_onModified : option nat;
  s_onSessionError : option nat;
  s_onSessionClose : option nat;
  s_abortSignal : option nat
}.

(** [this.options.operationTimeoutInSeconds * 1000] *)
Definition operationTimeout (w : World) : Q :=
  (w.(operationTimeoutInSeconds) * 1000)%Q.

(** **** lib/session.js *)

Module Session.

Definition _initializeEventListeners (s : nat) (w : World) : World :=
  let reEmit ev w := on (TheSession s) ev (ReEmit (TheSession s) "session" ev) w in
  let w :=
    foldl (fun w ev => reEmit ev w) w
      [ SessionEvents.sessionOpen; SessionEvents.sessionError;
        SessionEvents.sessionClose; SessionEvents.settled ] in
  let w := reEmit SenderEvents.senderError w in
  let w := reEmit SenderEvents.senderClose w in
  let w := reEmit ReceiverEvents.receiverError w in
  reEmit ReceiverEvents.receiverClose w.

(** [new Session(connection, session)] for the engine session [s] just
    created: its wrapper starts with no action initiated. *)
Definition constructor (s : nat) (w : World) : World :=
  _initializeEventListeners s (with_sessions (w.(sessions) ++ [0%Z]) w).

(** [close(options)]; [isOpen] is what [this.isOpen()] answers.  The result
    is [closePromise]; the promise the caller gets settles as [closePromise]
    does, once [finally] has taken the listeners off the wrapper.  For the
    listener an [AwaitableSender] adds to the wrapper of its session, this
    is the event [SessionRemoveAllListeners] of that module. *)
Definition close (s : nat) (options : option OperationOptions) (isOpen : bool)
    (w : World) : nat * World :=
  let '(p, w) := newPromise w in
  if isOpen then
    let abortSignal := options ≫= opt_abortSignal in
    let sc := mkScope (SessionClose s) p abortSignal (length w.(timers)) in
    let w := once (TheSession s) SessionEvents.sessionClose (Guard sc OnClose) w in
    let w := once (TheSession s) SessionEvents.sessionError (Guard sc OnError) w in
    let w := once TheConnection ConnectionEvents.disconnected (Guard sc OnDisconnected) w in
    let w := setTimeout (Guard sc ActionAfterTimeout) (operationTimeout w) w in
    let w := engine_call (session_close s) w in
    let w := add_actionInitiated (TheSession s) 1 w in
    (p, watchAbortSignal sc w)
  else
    (p, finally s (settle p (Js.Resolved VUndefined) w)).

(** [options && ((options.onMessage && !options.onError) ||
    (options.onError && !options.onMessage))] *)
Definition one_handler_only (options : option ReceiverOptions) : bool :=
  match options with
  | Some o =>
      (bool_decide (is_Some o.(r_onMessage)) && negb (bool_decide (is_Some o.(r_onError))))
      || (bool_decide (is_Some o.(r_onError)) && negb (bool_decide (is_Some o.(r_onMessage))))
  | None => false
  end.

(** [options.credit_window !== 0] *)
Definition credit_window_not_zero (o : ReceiverOptions) : bool :=
  negb (bool_decide (o.(r_credit_window) = Some 0%Z)).

Definition handlers_message : string :=
  "Either provide both 'onMessage' and 'onError' handlers, or please set the credit_window to 0, if you want to provide only the 'onError' handler. This ensures no messages are lost between the receiver getting created  and the 'onMessage' handler being added.".

(** [createReceiver(options)] on session [s].  The listeners the [Receiver]
    constructor adds to the engine link come from lib/link, which is not
    among the sources, and are left out. *)
Definition createReceiver (s : nat) (options : option ReceiverOptions) (w : World)
  : nat * World :=
  let '(p, w) := newPromise w in
  if one_handler_only options
     && match options with Some o => credit_window_not_zero o | None => false end
  then (p, settle p (Js.Rejected (JsError handlers_message)) w)
  else
    let w := wrapper_on (TheSession s) SessionEvents.sessionError (options ≫= r_onSessionError) w in
    let w := wrapper_on (TheSession s) SessionEvents.sessionClose (options ≫= r_onSessionClose) w in
    let l := length w.(links) in
    let w := engine_call (attach_receiver s l) w in
    let w := with_links (w.(links) ++ [0%Z]) w in
    let w := add_actionInitiated (TheLink l) 1 w in
    let abortSignal := options ≫= r_abortSignal in
    let sc := mkScope (CreateReceiver l) p abortSignal (length w.(timers)) in
    let w := wrapper_on (TheLink l) ReceiverEvents.message (options ≫= r_onMessage) w in
    let w := wrapper_on (TheLink l) ReceiverEvents.receiverError (options ≫= r_onError) w in
    let w := wrapper_on (TheLink l) ReceiverEvents.receiverClose (options ≫= r_onClose) w in
    let w := wrapper_on (TheLink l) ReceiverEvents.settled (options ≫= r_onSettled) w in
    let w := once (TheLink l) ReceiverEvents.receiverOpen (Guard sc OnOpen) w in
    let w := once (TheLink l) ReceiverEvents.receiverClose (Guard sc OnClose) w in
    let w := on TheConnection ConnectionEvents.disconnected (Guard sc OnDisconnected) w in
    let w := setTimeout (Guard sc ActionAfterTimeout) (operationTimeout w) w in
    (p, watchAbortSignal sc w).

(** [_createSender(type, options)] on session [s].  The listeners the sender
    constructors add (lib/sender and lib/link are not among the sources) are
    left out; those of [AwaitableSender] are in [AwaitableSender.constructor]. *)
Definition _createSender (s : nat) (type : SenderType) (options : option SenderOptions)
    (w : World) : nat * World :=
  let '(p, w) := newPromise w in
  let w := wrapper_on (TheSession s) SessionEvents.sessionError (options ≫= s_onSessionError) w in
  let w := wrapper_on (TheSession s) SessionEvents.sessionClose (options ≫= s_onSessionClose) w in
  let l := length w.(links) in
  let w := engine_call (attach_sender s l) w in
  let w := with_links (w.(links) ++ [0%Z]) w in
  let w := add_actionInitiated (TheLink l) 1 w in
  let abortSignal := options ≫= s_abortSignal in
  let sc := mkScope (CreateSender type l) p abortSignal (length w.(timers)) in
  let w := wrapper_on (TheLink l) SenderEvents.senderError (options ≫= s_onError) w in
  let w := wrapper_on (TheLink l) SenderEvents.senderClose (options ≫= s_onClose) w in
  let w :=
    match type with
    | sender =>
        let w := wrapper_on (TheLink l) SenderEvents.accepted (options ≫= s_onAccepted) w in
        let w := wrapper_on (TheLink l) SenderEvents.rejected (options ≫= s_onRejected) w in
        let w := wrapper_on (TheLink l) SenderEvents.released (options ≫= s_onReleased) w in
        wrapper_on (TheLink l) SenderEvents.modified (options ≫= s_onModified) w
    | AwaitableSender => w
    end in
  let w := once (TheLink l) SenderEvents.sendable (Guard sc OnSendable) w in
  let w := once (TheLink l) SenderEvents.senderClose (Guard sc OnClose) w in
  let w := on TheConnection ConnectionEvents.disconnected (Guard sc OnDisconnected) w in
  let w := setTimeout (Guard sc ActionAfterTimeout) (operationTimeout w) w in
  (p, watchAbortSignal sc w).

Definition createSender := fun s => _createSender s sender.
Definition createAwaitableSender := fun s => _createSender s AwaitableSender.

End Session.

(** **** lib/connection.js *)

Module Connection.

(** Modelled from the spec: [defaultOperationTimeoutInSeconds] of
    lib/util/constants, which is not among the sources; section 3 of the
    specification gives the default of 60 seconds. *)
Definition defaultOperationTimeoutInSeconds : Q := 60.

Definition _initializeEventListeners (w : World) : World :=
  let reEmit ev w := on TheConnection ev (ReEmit TheConnection "connection" ev) w in
  let w :=
    foldl (fun w ev => reEmit ev w) w
      [ ConnectionEvents.connectionOpen; ConnectionEvents.connectionClose;
        ConnectionEvents.connectionError; ConnectionEvents.protocolError;
        ConnectionEvents.error; ConnectionEvents.disconnected;
        ConnectionEvents.settled ] in
  let w := reEmit SenderEvents.senderError w in
  let w := reEmit SenderEvents.senderClose w in
  let w := reEmit ReceiverEvents.receiverError w in
  let w := reEmit ReceiverEvents.receiverClose w in
  let w := reEmit SessionEvents.sessionError w in
  reEmit SessionEvents.sessionClose w.

(** The constructor, on a fresh host.  [options.operationTimeoutInSeconds]
    is the only option the library reads itself.  [actionInitiated] starts at
    zero (lib/entity is not among the sources; section 4.2 of the
    specification describes the counter). *)
Definition constructor (operationTimeoutInSeconds : option Q) : World :=
  _initializeEventListeners
    {| operationTimeoutInSeconds :=
         default defaultOperationTimeoutInSeconds operationTimeoutInSeconds;
       connection_actionInitiated := 0;
       sessions := [];
       links := [];
       listeners := [];
       wrapper_listeners := [];
       emitted := [];
       engine := [];
       promises := [];
       timers := [];
       aborted := [];
       abortListeners := [] |}.

(** [open(options)]; [isOpen] is what [this.isOpen()] answers. *)
Definition open (options : option OperationOptions) (isOpen : bool) (w : World)
  : nat * World :=
  let '(p, w) := newPromise w in
  if negb isOpen then
    let abortSignal := options ≫= opt_abortSignal in
    (* [waitTimer] is assigned below, before any local function can run *)
    let sc := mkScope ConnectionOpen p abortSignal (length w.(timers)) in
    let w := once TheConnection ConnectionEvents.connectionOpen (Guard sc OnOpen) w in
    let w := once TheConnection ConnectionEvents.connectionClose (Guard sc OnClose) w in
    let w := once TheConnection ConnectionEvents.disconnected (Guard sc OnClose) w in
    let w := setTimeout (Guard sc ActionAfterTimeout) (operationTimeout w) w in
    let w := engine_call connect w in
    let w := add_actionInitiated TheConnection 1 w in
    (p, watchAbortSignal sc w)
  else
    (p, settle p (Js.Resolved VConnection) w).

(** [close(options)] *)
Definition close (options : option OperationOptions) (isOpen : bool) (w : World)
  : nat * World :=
  let '(p, w) := newPromise w in
  if isOpen then
    let abortSignal := options ≫= opt_abortSignal in
    let sc := mkScope ConnectionClose p abortSignal (length w.(timers)) in
    let w := once TheConnection ConnectionEvents.connectionClose (Guard sc OnClose) w in
    let w := once TheConnection ConnectionEvents.connectionError (Guard sc OnError) w in
    let w := once TheConnection ConnectionEvents.disconnected (Guard sc OnDisconnected) w in
    let w := setTimeout (Guard sc ActionAfterTimeout) (operationTimeout w) w in
    let w := engine_call connection_close w in
    let w := add_actionInitiated TheConnection 1 w in
    (p, watchAbortSignal sc w)
  else
    (p, settle p (Js.Resolved VUndefined) w).

(** [createSession(options)] *)
Definition createSession (options : option OperationOptions) (w : World)
  : nat * World :=
  let '(p, w) := newPromise w in
  let s := length w.(sessions) in
  let w := engine_call (create_session s) w in
  let w := Session.constructor s w in
  let w := add_actionInitiated (TheSession s) 1 w in
  let abortSignal := options ≫= opt_abortSignal in
  let sc := mkScope (CreateSession s) p abortSignal (length w.(timers)) in
  let w := once (TheSession s) SessionEvents.sessionOpen (Guard sc OnOpen) w in
  let w := once (TheSession s) SessionEvents.sessionClose (Guard sc OnClose) w in
  let w := once TheConnection ConnectionEvents.disconnected (Guard sc OnDisconnected) w in
  let w := setTimeout (Guard sc ActionAfterTimeout) (operationTimeout w) w in
  let w := engine_call (session_begin s) w in
  (p, watchAbortSignal sc w).

End Connection.

(** *** What can happen to a connection *)

Inductive Event : Type :=
| Open (options : option OperationOptions) (isOpen : bool)
| Close (options : option OperationOptions) (isOpen : bool)
| CreateSessionCall (options : option OperationOptions)
| SessionCloseCall (s : nat) (options : option OperationOptions) (isOpen : bool)
| CreateReceiverCall (s : nat) (options : option ReceiverOptions)
| CreateSenderCall (s : nat) (type : SenderType) (options : option SenderOptions)
| EngineEmits (t : Entity) (ev : string) (context : EventContext)
| TimerFires (handle : nat)
| SignalAborts (signal : nat).

(** [emit] of an object of the engine: the listeners registered for the
    event when [emit] starts run in registration order; one added with
    [once] is taken off the list just before it runs. *)
Definition emit (t : Entity) (ev : string) (context : EventContext) (w : World) : World :=
  foldl
    (fun w r =>
       let w :=
         if Js.once_flag r
         then with_listeners (Js.removeWrapper r w.(listeners)) w
         else w in
       call_closure (Js.fn r) context w)
    w (Js.listenersOf t ev w.(listeners)).

Definition timerFires (h : nat) (w : World) : World :=
  match Js.fire h w.(timers) with
  | Some (f, ts) => call_closure f no_context (with_timers ts w)
  | None => w
  end.

(** The owner of a signal aborts it: the flag is set and the listeners
    registered at that moment run in registration order. *)
Definition signalAborts (s : nat) (w : World) : World :=
  if is_aborted s w then w
  else
    foldl (fun w sl => call_closure sl.2 no_context w)
      (with_aborted (s :: w.(aborted)) w)
      (filter (fun sl => sl.1 = s) w.(abortListeners)).

Definition step (w : World) (e : Event) : World :=
  match e with
  | Open options isOpen => (Connection.open options isOpen w).2
  | Close options isOpen => (Connection.close options isOpen w).2
  | CreateSessionCall options => (Connection.createSession options w).2
  | SessionCloseCall s options isOpen => (Session.close s options isOpen w).2
  | CreateReceiverCall s options => (Session.createReceiver s options w).2
  | CreateSenderCall s type options => (Session._createSender s type options w).2
  | EngineEmits t ev context => emit t ev context w
  | TimerFires h => timerFires h w
  | SignalAborts s => signalAborts s w
  end.

Definition run (w : World) (evs : list Event) : World := foldl step w evs.

(** *** Vocabulary of the specification *)

(** The number of listeners for [disconnected] on the connection object of
    the engine. *)
Definition disconnectedListenerCount (w : World) : nat :=
  Js.listenerCount TheConnection ConnectionEvents.disconnected (listeners w).





(** Whether a closure holds [resolve]/[reject] of promise [p]. *)
Definition guards (p : nat) (f : Closure) : Prop :=
  match f with
  | Guard sc _ => promise sc = p
  | _ => False
  end.

Definition timer_free (p : nat) (t : Js.Timer Closure) : Prop :=
  match t with
  | Js.Armed _ f => ~ guards p f
  | _ => True
  end.

(** No function that can still run holds [resolve]/[reject] of [p]. *)
Record unreferenced (p : nat) (w : World) : Prop := mkUnreferenced {
  unref_lt : p < length (promises w);
  unref_listeners : Forall (fun r => ~ guards p (Js.fn r)) (listeners w);
  unref_timers : Forall (timer_free p) (timers w);
  unref_abort : Forall (fun sf => ~ guards p sf.2) (abortListeners w)
}.

(** From [w0] to [w] nothing came to refer to [p] and [p] was not settled. *)
Definition keeps (p : nat) (w0 w : World) : Prop :=
  unreferenced p w /\ promises w !! p = promises w0 !! p.

(** *** Sample runs *)





Definition connection_close_then_disconnect : list Event :=
  [ Close None true;
    EngineEmits TheConnection ConnectionEvents.disconnected no_context ].

Definition session_close_then_disconnect : list Event :=
  [ CreateSessionCall None;
    EngineEmits (TheSession 0) SessionEvents.sessionOpen no_context;
    SessionCloseCall 0 None true;
    EngineEmits TheConnection ConnectionEvents.disconnected no_context ].

Definition onMessage_only : ReceiverOptions :=
  mkReceiverOptions (Some 1) None None None None None None None.

End Lifecycle.


(* ===================================================================== *)
(** * lib/util/utils.js: the helpers *)
(* ===================================================================== *)

(** The string methods [parseConnectionString] calls. *)
Module JsString.

(** An index argument below zero counts as zero, one beyond the length as
    the length. *)
Definition clamp (len : nat) (i : Z) : nat :=
  Z.to_nat (Z.min (Z.max i 0) (Z.of_nat len)).

(** [s.substring(start, end)]: [end] is the length when it is left out, and
    the smaller of the two indices is where the result starts. *)
Definition substring (s : string) (start : Z) (end_ : option Z) : string :=
  let len := String.length s in
  let a := clamp len start in
  let b := match end_ with Some e => clamp len e | None => len end in
  String.substring (Nat.min a b) (Nat.max a b - Nat.min a b) s.

(** [s.split(separator)] for a string separator that is not empty: the
    pieces between the occurrences of the separator, found from left to
    right, none starting inside the one before.  [skip] counts the
    characters of the occurrence just found that are still to be passed
    over; [cur] is the piece read so far. *)
Fixpoint split_from (separator : string) (skip : nat) (cur s : string)
  : list string :=
  match s with
  | EmptyString => [cur]
  | String c s' =>
      match skip with
      | S k => split_from separator k cur s'
      | O =>
          if String.prefix separator s
          then cur :: split_from separator (String.length separator - 1) EmptyString s'
          else split_from separator 0 (cur +:+ String c EmptyString) s'
      end
  end.

(** With the empty separator the pieces are the characters. *)
Definition characters (s : string) : list string :=
  (fun c => String c EmptyString) <$> list_ascii_of_string s.

Definition split (s separator : string) : list string :=
  match separator with
  | EmptyString => characters s
  | _ => split_from separator 0 EmptyString s
  end.

(** Whether the character occurs in the string. *)
Definition has_char (c : ascii) (s : string) : bool :=
  existsb (Ascii.eqb c) (list_ascii_of_string s).

End JsString.

Module Utils.

(** The second parameter of [parseConnectionString]. *)
Record ConnectionStringParseOptions : Type := mkConnectionStringParseOptions {
  entitySeperator : option string;
  keyValueSeparator : option string
}.

(** [x || d] for a string that may be absent: the empty string is falsy. *)
Definition or_else (x : option string) (d : string) : string :=
  match x with
  | Some (String c s) => String c s
  | _ => d
  end.

(** [Object.assign({}, acc, { [key]: value })]: a copy of [acc] in which the
    property [key] is set to [value].  [Object.assign] sets a property with
    an ordinary assignment; for the key [__proto__] that runs the setter
    inherited from [Object.prototype], which ignores a value that is not an
    object, so the copy gets no such property. *)
Definition assign (acc : gmap string string) (key value : string)
  : gmap string string :=
  if String.eqb key "__proto__" then acc else <[key := value]> acc.

(** The result is an object with string properties, a finite map. *)
Definition parseConnectionString (connectionString : string)
    (options : option ConnectionStringParseOptions) : gmap string string :=
  let entitySeperator := or_else (options ≫= entitySeperator) ";" in
  let keyValueSeparator := or_else (options ≫= keyValueSeparator) "=" in
  foldl
    (fun acc part =>
       let splitIndex := Js.indexOf part keyValueSeparator in
       assign acc
         (JsString.substring part 0 (Some splitIndex))
         (JsString.substring part (splitIndex + 1) None))
    ∅ (JsString.split connectionString entitySeperator).

(** A connection string written out from its entries with the default
    separators. *)
Definition connectionStringOf (entries : list (string * string)) : string :=
  String.concat ";" ((fun kv => kv.1 +:+ "=" +:+ kv.2) <$> entries).

(** An entry that the default separators can carry: no separator inside the
    key, no entity separator inside the value. *)
Definition plain_entry (kv : string * string) : bool :=
  negb (JsString.has_char ";" kv.1) && negb (JsString.has_char "=" kv.1)
  && negb (JsString.has_char ";" kv.2) && negb (String.eqb kv.1 "__proto__").

End Utils.


(** [delay(t, value)] of lib/util/utils.js, with the promises and the
    timers of the host it touches. *)
Module Delay.
Section Delay.
Context {T E : Type}.

(** The function handed to [setTimeout]: [() => resolve(value)]. *)
Inductive Callback : Type :=
| ResolveWith (promise : nat) (value : T).

Record Host : Type := mkHost {
  promises : list (list (Js.Settlement T E));
  timers : list (Js.Timer Callback)
}.

Definition empty : Host := mkHost [] [].

(** The result is the promise returned and the new host. *)
Definition delay (t : Q) (value : T) (h : Host) : nat * Host :=
  let '(p, ps) := Js.newPromise h.(promises) in
  let '(_, ts) := Js.setTimeout (ResolveWith p value) t h.(timers) in
  (p, mkHost ps ts).

Definition call (cb : Callback) (h : Host) : Host :=
  match cb with
  | ResolveWith p value =>
      mkHost (Js.settle p (Js.Resolved value) h.(promises)) h.(timers)
  end.

Inductive Event : Type :=
| Delay (t : Q) (value : T)
| TimerFires (handle : nat).

Definition timerFires (handle : nat) (h : Host) : Host :=
  match Js.fire handle h.(timers) with
  | Some (cb, ts) => call cb (mkHost h.(promises) ts)
  | None => h
  end.

Definition step (h : Host) (e : Event) : Host :=
  match e with
  | Delay t value => (delay t value h).2
  | TimerFires handle => timerFires handle h
  end.

Definition run (h : Host) (evs : list Event) : Host := foldl step h evs.

(** Whether the host fired the timer with this handle during [evs]. *)
Definition fired (handle : nat) (evs : list Event) : bool :=
  existsb (fun e => match e with
                    | TimerFires h => Nat.eqb h handle
                    | Delay _ _ => false
                    end) evs.

(** Every armed timer holds the [resolve] of a promise that is pending,
    and no two hold that of the same promise. *)
Definition tidy (h : Host) : Prop :=
  forall x ms p v,
    h.(timers) !! x = Some (Js.Armed ms (ResolveWith p v)) ->
    h.(promises) !! p = Some []
    /\ forall x' ms' v',
         h.(timers) !! x' = Some (Js.Armed ms' (ResolveWith p v')) -> x' = x.
End Delay.
Arguments Host : clear implicits.
Arguments Callback : clear implicits.
Arguments Event : clear implicits.
End Delay.


(** * The abort listeners of an [AwaitableSender] *)

Module AbortListeners.
Import Rhea AwaitableSender.

(** How the promise of a [send] stands when the timer of the [send] was
    the one to settle it. *)
Definition timed_out (p : nat) (st : State) : Prop :=
  promises st !! p = Some [Js.Rejected OperationTimeoutError].

(** What holds of every listener [onAbort] that is registered on a signal:
    it is on the signal of its own [send], an entry of the map that settles
    the same promise is the entry of that [send], and the promise is pending
    or was rejected by the timer. *)
Record AbortInv (st : State) : Prop := mkAbortInv {
  ab_signal : forall s sc,
    (s, OnAbort sc) ∈ abortListeners st -> scope_abortSignal sc = Some s;
  ab_entry : forall s sc i sc0 t,
    (s, OnAbort sc) ∈ abortListeners st ->
    Js.Map.get i (deliveryDispositionMap st) = Some (entry_of sc0 t) ->
    scope_promise sc0 = scope_promise sc -> sc0 = sc;
  ab_log : forall s sc,
    (s, OnAbort sc) ∈ abortListeners st ->
    Js.pending (scope_promise sc) (promises st) \/ timed_out (scope_promise sc) st
}.

(** A disposition: one of the four events that report the outcome of a
    delivery. *)
Definition is_disposition (ev : string) : bool :=
  bool_decide (ev ∈ [SenderEvents.accepted; SenderEvents.rejected;
                     SenderEvents.released; SenderEvents.modified]).

(** The invariant of the map and that of the abort listeners together. *)
Definition Both (st : State) : Prop := Inv st /\ AbortInv st.

End AbortListeners.


(* ===================================================================== *)
(** * The guarded operations, seen from outside *)
(* ===================================================================== *)

Module Guarded.
Import Rhea Lifecycle.

(** The listeners an operation adds to the objects of the engine, in the
    order of its calls of [once] and [on]. *)
Definition registrations (sc : Scope) : list (Js.Registration Entity Closure) :=
  let reg t ev r flag := Js.mkRegistration t ev (Guard sc r) flag in
  match sc.(op) with
  | ConnectionOpen =>
      [ reg TheConnection ConnectionEvents.connectionOpen OnOpen true;
        reg TheConnection ConnectionEvents.connectionClose OnClose true;
        reg TheConnection ConnectionEvents.disconnected OnClose true ]
  | ConnectionClose =>
      [ reg TheConnection ConnectionEvents.connectionClose OnClose true;
        reg TheConnection ConnectionEvents.connectionError OnError true;
        reg TheConnection ConnectionEvents.disconnected OnDisconnected true ]
  | CreateSession s =>
      [ reg (TheSession s) SessionEvents.sessionOpen OnOpen true;
        reg (TheSession s) SessionEvents.sessionClose OnClose true;
        reg TheConnection ConnectionEvents.disconnected OnDisconnected true ]
  | SessionClose s =>
      [ reg (TheSession s) SessionEvents.sessionClose OnClose true;
        reg (TheSession s) SessionEvents.sessionError OnError true;
        reg TheConnection ConnectionEvents.disconnected OnDisconnected true ]
  | CreateReceiver l =>
      [ reg (TheLink l) ReceiverEvents.receiverOpen OnOpen true;
        reg (TheLink l) ReceiverEvents.receiverClose OnClose true;
        reg TheConnection ConnectionEvents.disconnected OnDisconnected false ]
  | CreateSender _ l =>
      [ reg (TheLink l) SenderEvents.sendable OnSendable true;
        reg (TheLink l) SenderEvents.senderClose OnClose true;
        reg TheConnection ConnectionEvents.disconnected OnDisconnected false ]
  end.

Definition is_sender (o : Op) : bool :=
  match o with CreateSender _ _ => true | _ => false end.

Definition is_close (o : Op) : bool :=
  match o with ConnectionClose | SessionClose _ => true | _ => false end.

(** Whether a listener is a local function of a guarded operation. *)
Definition guard_registration (r : Js.Registration Entity Closure) : bool :=
  match Js.fn r with Guard _ _ => true | _ => false end.

Definition is_once (c : EngineCall) : bool :=
  match c with call_once _ _ _ => true | _ => false end.

(** Calls on the engine none of which adds a [once] listener. *)
Definition quiet (cs : list EngineCall) : Prop :=
  forallb (fun c => negb (is_once c)) cs = true.

(** The operation with scope [sc] was started: the log of the engine shows
    a listener of it being added. *)
Definition started (sc : Scope) (eng : list EngineCall) : Prop :=
  exists t ev r, call_once t ev (Guard sc r) ∈ eng.

(** The operation is in flight: the timer it started is armed. *)
Definition in_flight (sc : Scope) (ts : list (Js.Timer Closure)) : Prop :=
  exists ms, ts !! waitTimer sc = Some (Js.Armed ms (Guard sc ActionAfterTimeout)).

(** The one listener that outlives its operation: [onSendable] of
    [_createSender], added for [sendable] and removed for [sender_open]. *)
Definition leftover (sc : Scope) (r : Role) : Prop :=
  is_sender (op sc) = true /\ r = OnSendable.

(** The listeners of [sc] on a list are among those it added, once each. *)
Definition own (sc : Scope) (l : list (Js.Registration Entity Closure)) : Prop :=
  NoDup (filter (fun r => guard_registration r = true) l)
  /\ forall r role, r ∈ l -> Js.fn r = Guard sc role -> r ∈ registrations sc.

(** What holds between the log of the engine, the promises, the timers, the
    listeners on the objects of the engine and the abort listeners. *)
Record TidyOn (eng : list EngineCall)
    (ps : list (list (Js.Settlement Value Error)))
    (ts : list (Js.Timer Closure))
    (ls : list (Js.Registration Entity Closure))
    (als : list (nat * Closure)) : Prop := mkTidyOn {
  t_bound : forall sc, started sc eng ->
    promise sc < length ps /\ waitTimer sc < length ts;
  t_unique : forall sc sc', started sc eng -> started sc' eng ->
    promise sc = promise sc' -> sc = sc';
  t_timers : forall h ms sc r, ts !! h = Some (Js.Armed ms (Guard sc r)) ->
    r = ActionAfterTimeout /\ h = waitTimer sc /\ started sc eng;
  t_slot : forall sc ms f, started sc eng ->
    ts !! waitTimer sc = Some (Js.Armed ms f) -> f = Guard sc ActionAfterTimeout;
  t_listeners : forall r sc role, r ∈ ls -> Js.fn r = Guard sc role ->
    started sc eng /\ r ∈ registrations sc /\ (in_flight sc ts \/ leftover sc role);
  t_nodup : NoDup (filter (fun r => guard_registration r = true) ls);
  t_abort : forall s f, (s, f) ∈ als ->
    exists sc, f = Guard sc OnAbort /\ abortSignal sc = Some s /\ in_flight sc ts;
  t_abort_nodup : NoDup als;
  t_flight : forall sc, in_flight sc ts -> ps !! promise sc = Some [];
  t_once : forall p calls, ps !! p = Some calls ->
    length calls <= 1
    \/ exists sc, started sc eng /\ promise sc = p /\ is_sender (op sc) = true;
  t_pending : forall p, ps !! p = Some [] ->
    exists sc, started sc eng /\ promise sc = p
               /\ (in_flight sc ts \/ is_close (op sc) = true)
}.

Definition Tidy (w : World) : Prop :=
  TidyOn (engine w) (promises w) (timers w) (listeners w) (abortListeners w).

(** The calls of the library. *)
Definition is_call (e : Event) : bool :=
  match e with
  | Open _ _ | Close _ _ | CreateSessionCall _ | SessionCloseCall _ _ _
  | CreateReceiverCall _ _ | CreateSenderCall _ _ _ => true
  | _ => false
  end.

(** The operation a call starts, when it starts one. *)
Definition same_kind (e : Event) (o : Op) : bool :=
  match e, o with
  | Open _ _, ConnectionOpen => true
  | Close _ _, ConnectionClose => true
  | CreateSessionCall _, CreateSession _ => true
  | SessionCloseCall s _ _, SessionClose s' => bool_decide (s = s')
  | CreateReceiverCall _ _, CreateReceiver _ => true
  | CreateSenderCall _ type _, CreateSender type' _ => bool_decide (type = type')
  | _, _ => false
  end.

Definition is_createSender (e : Event) : bool :=
  match e with CreateSenderCall _ _ _ => true | _ => false end.

Definition is_close_call (e : Event) : bool :=
  match e with Close _ _ | SessionCloseCall _ _ _ => true | _ => false end.

Definition is_open_call (e : Event) : bool :=
  match e with Open _ _ => true | _ => false end.

(** The signal a call was given. *)
Definition signal_of (e : Event) : option nat :=
  match e with
  | Open o _ | Close o _ | CreateSessionCall o | SessionCloseCall _ o _ =>
      o ≫= opt_abortSignal
  | CreateReceiverCall _ o => o ≫= r_abortSignal
  | CreateSenderCall _ _ o => o ≫= s_abortSignal
  | _ => None
  end.

(** Whether a call goes on to ask the engine, rather than settle its
    promise at once. *)
Definition asks_engine (e : Event) : bool :=
  match e with
  | Open _ isOpen => negb isOpen
  | Close _ isOpen | SessionCloseCall _ _ isOpen => isOpen
  | CreateSessionCall _ | CreateSenderCall _ _ _ => true
  | CreateReceiverCall _ o =>
      negb (Session.one_handler_only o
            && match o with Some o => Session.credit_window_not_zero o | None => false end)
  | _ => false
  end.

(** *** The counters [actionInitiated] *)

(** Whether a timer is that of an operation on [e] in flight. *)
Definition is_flight_of (e : Entity) (t : Js.Timer Closure) : bool :=
  match t with
  | Js.Armed _ (Guard sc ActionAfterTimeout) => bool_decide (entity_of (op sc) = e)
  | _ => false
  end.

Definition weight (e : Entity) (t : Js.Timer Closure) : nat :=
  if is_flight_of e t then 1 else 0.

Definition weight_zero (t : Js.Timer Closure) : Prop :=
  forall e, weight e t = 0.

(** The number of operations on [e] in flight. *)
Definition flights (e : Entity) (ts : list (Js.Timer Closure)) : nat :=
  length (List.filter (is_flight_of e) ts).

(** The wrappers whose counter is followed: the connection and the
    sessions made so far. *)
Definition tracked (e : Entity) (w : World) : bool :=
  match e with
  | TheConnection => true
  | TheSession s => bool_decide (s < length (sessions w))
  | TheLink _ => false
  end.

(** A call of [close] on a session is a call on a session that was made. *)
Definition valid (w : World) (e : Event) : bool :=
  match e with
  | SessionCloseCall s _ _ => bool_decide (s < length (sessions w))
  | _ => true
  end.

Fixpoint valid_trace (w : World) (evs : list Event) : bool :=
  match evs with
  | [] => true
  | e :: evs' => valid w e && valid_trace (step w e) evs'
  end.

(** The counters [actionInitiated] of the connection and of the sessions
    count the operations in flight. *)
Record Counted (w : World) : Prop := mkCounted {
  c_tracked : forall e, tracked e w = true ->
    actionInitiated e w = Z.of_nat (flights e (timers w));
  c_no_session : forall s, length (sessions w) <= s ->
    flights (TheSession s) (timers w) = 0
}.

(** *** The listeners that re-emit *)

(** The events of the engine that [_initializeEventListeners] of a
    connection and of a session add a listener for, in the order of the
    calls of [on]. *)
Definition connection_events : list string :=
  [ ConnectionEvents.connectionOpen; ConnectionEvents.connectionClose;
    ConnectionEvents.connectionError; ConnectionEvents.protocolError;
    ConnectionEvents.error; ConnectionEvents.disconnected;
    ConnectionEvents.settled;
    SenderEvents.senderError; SenderEvents.senderClose;
    ReceiverEvents.receiverError; ReceiverEvents.receiverClose;
    SessionEvents.sessionError; SessionEvents.sessionClose ].

Definition session_events : list string :=
  [ SessionEvents.sessionOpen; SessionEvents.sessionError;
    SessionEvents.sessionClose; SessionEvents.settled;
    SenderEvents.senderError; SenderEvents.senderClose;
    ReceiverEvents.receiverError; ReceiverEvents.receiverClose ].

(** [emitterType] of the parameters the listener hands to [emitEvent]. *)
Definition emitterType_of (t : Entity) : option string :=
  match t with
  | TheConnection => Some "connection"%string
  | TheSession _ => Some "session"%string
  | TheLink _ => None
  end.

(** The listener that re-emits event [ev] of [t], as [on] records it. *)
Definition forwarder (t : Entity) (ev : string)
  : option (Js.Registration Entity Closure) :=
  type ← emitterType_of t;
  Some (Js.mkRegistration t ev (ReEmit t type ev) false).

(** The listeners [_initializeEventListeners] adds. *)
Definition connection_block : list (Js.Registration Entity Closure) :=
  (fun ev => Js.mkRegistration TheConnection ev
               (ReEmit TheConnection "connection" ev) false) <$> connection_events.

Definition session_block (s : nat) : list (Js.Registration Entity Closure) :=
  (fun ev => Js.mkRegistration (TheSession s) ev
               (ReEmit (TheSession s) "session" ev) false) <$> session_events.

(** Whether the library listens to event [ev] of the object [t] of the
    engine in order to re-emit it, [n] sessions having been made. *)
Definition forwarded_on (n : nat) (t : Entity) (ev : string) : bool :=
  match t with
  | TheConnection => bool_decide (ev ∈ connection_events)
  | TheSession s => bool_decide (s < n) && bool_decide (ev ∈ session_events)
  | TheLink _ => false
  end.

Definition forwarded (t : Entity) (ev : string) (w : World) : bool :=
  forwarded_on (length (sessions w)) t ev.

(** The listeners that re-emit come before the local functions of the
    operations. *)
Definition forwarders_first (l : list (Js.Registration Entity Closure)) : Prop :=
  exists a b, l = a ++ b
    /\ Forall (fun r => guard_registration r = false) a
    /\ Forall (fun r => guard_registration r = true) b.

Record FwdOn (n : nat) (ls : list (Js.Registration Entity Closure)) : Prop := mkFwdOn {
  f_kept : forall t ev, forwarded_on n t ev = true ->
    exists r, forwarder t ev = Some r /\ r ∈ ls;
  f_only : forall r, r ∈ ls -> guard_registration r = false ->
    forwarder (Js.target r) (Js.event r) = Some r;
  f_nodup : NoDup (filter (fun r => guard_registration r = false) ls);
  f_order : forall t ev, forwarders_first (Js.listenersOf t ev ls);
  f_fresh : forall r s, r ∈ ls -> Js.target r = TheSession s -> s < n
}.

Definition Fwd (w : World) : Prop := FwdOn (length (sessions w)) (listeners w).

(** Listeners left the list, none of them one that re-emits. *)
Definition thin (ls ls' : list (Js.Registration Entity Closure)) : Prop :=
  ls' `sublist_of` ls
  /\ forall r, r ∈ ls -> guard_registration r = false -> r ∈ ls'.

(** The re-emission of an event is put off: its name holds [error] and an
    operation on the emitter is in flight. *)
Definition put_off (t : Entity) (ev : string) (w : World) : bool :=
  negb (Js.indexOf ev "error" =? -1)%Z && (0 <? flights t (timers w))%nat.

(** *** What an operation in flight can count on *)

(** Every listener the operation added is still on its object, and so is
    its listener on the signal it was given. *)
Definition present (sc : Scope) (w : World) : Prop :=
  (forall r, r ∈ registrations sc -> r ∈ listeners w)
  /\ (forall s, abortSignal sc = Some s -> (s, Guard sc OnAbort) ∈ abortListeners w).

Definition Present (w : World) : Prop :=
  forall sc, in_flight sc (timers w) -> present sc w.

(** *** Sample runs *)

(** The connection is opened, then a session is created on it; the engine
    opens the session, the timer of [createSession] is fired too late and
    the connection is lost. *)
Definition opened : list Event :=
  [ Open None false;
    EngineEmits TheConnection ConnectionEvents.connectionOpen no_context ].

Definition session_opens : list Event :=
  [ EngineEmits (TheSession 0) SessionEvents.sessionOpen no_context;
    TimerFires 1;
    EngineEmits TheConnection ConnectionEvents.disconnected no_context ].

(** A session is created and the engine opens it. *)
Definition session_ready : list Event :=
  [ CreateSessionCall None;
    EngineEmits (TheSession 0) SessionEvents.sessionOpen no_context ].

Definition with_signal (s : nat) : option OperationOptions :=
  Some (mkOperationOptions (Some s)).

End Guarded.


(* ===================================================================== *)
(** * Facts about the host *)
(* ===================================================================== *)

Module JsFacts.

(** ** Strings *)

Lemma append_nil_l s : (""%string +:+ s) = s.
Proof. reflexivity. Qed.

Lemma append_cons c s t : (String c s +:+ t) = String c (s +:+ t).
Proof. reflexivity. Qed.

Lemma substring_prefix n s pat :
  substring 0 n s = pat -> String.length pat = n -> exists post, s = pat +:+ post.
Proof.
  revert s pat. induction n as [|n IH]; intros s pat Hs Hl.
  - destruct pat; [|discriminate]. exists s. reflexivity.
  - destruct s as [|c s]; simpl in Hs.
    + subst pat. discriminate.
    + destruct pat as [|c' pat]; [discriminate|].
      injection Hs as -> Hs. simpl in Hl.
      destruct (IH s pat Hs) as [post ->]; [lia|].
      exists post. reflexivity.
Qed.

Lemma substring_contains m s pat :
  substring m (String.length pat) s = pat -> Js.contains pat s.
Proof.
  revert s. induction m as [|m IH]; intros s Hs.
  - destruct (substring_prefix _ _ _ Hs eq_refl) as [post ->].
    exists ""%string, post. reflexivity.
  - destruct s as [|c s]; simpl in Hs.
    + exists ""%string, ""%string. rewrite <- Hs. reflexivity.
    + destruct (IH s Hs) as (pre & post & ->).
      exists (String c pre), post. reflexivity.
Qed.

Lemma substring_append_prefix pat post :
  substring 0 (String.length pat) (pat +:+ post) = pat.
Proof.
  induction pat as [|c pat IH].
  - rewrite append_nil_l. destruct post; reflexivity.
  - rewrite append_cons. simpl. rewrite IH. reflexivity.
Qed.

Lemma contains_substring pat s :
  Js.contains pat s -> exists m, substring m (String.length pat) s = pat.
Proof.
  intros (pre & post & ->). exists (String.length pre).
  induction pre as [|c pre IH].
  - rewrite append_nil_l. apply substring_append_prefix.
  - rewrite append_cons. exact IH.
Qed.

(** [s.indexOf(pat) !== -1] says that [pat] occurs in [s]. *)
Lemma indexOf_contains s pat :
  pat <> ""%string -> (Js.indexOf s pat <> -1)%Z <-> Js.contains pat s.
Proof.
  intros Hne. unfold Js.indexOf. split.
  - destruct (index 0 pat s) as [m|] eqn:Hi; [|congruence].
    intros _. apply (substring_contains m), (index_correct1 0), Hi.
  - intros Hc. destruct (index 0 pat s) as [m|] eqn:Hi; [lia|].
    destruct (contains_substring _ _ Hc) as [m Hm].
    exfalso. revert Hm. apply (index_correct3 0); [exact Hi|exact Hne|lia].
Qed.

(** ** [Map] *)

Section MapLemmas.
Context {V : Type}.
Implicit Types (m : list (Z * V)) (k : Z) (v : V).

Lemma get_set_eq k v m : Js.Map.get k (Js.Map.set k v m) = Some v.
Proof.
  induction m as [|[k' v'] m IH]; simpl.
  - rewrite Z.eqb_refl. reflexivity.
  - destruct (Z.eqb_spec k' k) as [->|Hne]; simpl.
    + rewrite Z.eqb_refl. reflexivity.
    + destruct (Z.eqb_spec k' k); [contradiction|exact IH].
Qed.

Lemma get_set_ne k k' v m :
  k <> k' -> Js.Map.get k' (Js.Map.set k v m) = Js.Map.get k' m.
Proof.
  intros Hne. induction m as [|[k0 v0] m IH]; simpl.
  - destruct (Z.eqb_spec k k'); [contradiction|reflexivity].
  - destruct (Z.eqb_spec k0 k) as [->|Hk]; simpl.
    + destruct (Z.eqb_spec k k'); [contradiction|reflexivity].
    + destruct (Z.eqb_spec k0 k'); [reflexivity|exact IH].
Qed.

Lemma get_delete_eq k m : Js.Map.get k (Js.Map.delete k m) = None.
Proof.
  induction m as [|[k' v'] m IH]; simpl; [reflexivity|].
  destruct (Z.eqb_spec k' k) as [->|Hne]; simpl; [exact IH|].
  destruct (Z.eqb_spec k' k); [contradiction|exact IH].
Qed.

Lemma get_delete_ne k k' m :
  k <> k' -> Js.Map.get k' (Js.Map.delete k m) = Js.Map.get k' m.
Proof.
  intros Hne. induction m as [|[k0 v0] m IH]; simpl; [reflexivity|].
  destruct (Z.eqb_spec k0 k) as [->|Hk]; simpl.
  - destruct (Z.eqb_spec k k'); [contradiction|exact IH].
  - destruct (Z.eqb_spec k0 k'); [reflexivity|exact IH].
Qed.

Lemma get_delete_Some k k' v m :
  Js.Map.get k' (Js.Map.delete k m) = Some v -> k <> k' /\ Js.Map.get k' m = Some v.
Proof.
  intros H. destruct (decide (k = k')) as [->|Hne].
  - rewrite get_delete_eq in H. discriminate.
  - rewrite get_delete_ne in H by exact Hne. auto.
Qed.

Lemma delete_absent k m : Js.Map.get k m = None -> Js.Map.delete k m = m.
Proof.
  induction m as [|[k' v] m IH]; simpl; [reflexivity|].
  destruct (Z.eqb k' k); [discriminate|]. intros H. rewrite IH by exact H. reflexivity.
Qed.

Lemma get_all_None m : (forall k, Js.Map.get k m = None) -> m = [].
Proof.
  destruct m as [|[k v] m]; [reflexivity|].
  intros H. specialize (H k). simpl in H. rewrite Z.eqb_refl in H. discriminate.
Qed.

Lemma get_keys k m : k ∈ Js.Map.keys m <-> is_Some (Js.Map.get k m).
Proof.
  unfold Js.Map.keys. induction m as [|[k' v'] m IH]; simpl.
  - split.
    + intros H. inversion H.
    + intros H. destruct H as [x Hx]. discriminate.
  - rewrite elem_of_cons, IH. destruct (Z.eqb_spec k' k) as [->|Hne].
    + split; eauto.
    + split.
      * intros H. destruct H as [H|H]; [congruence|assumption].
      * auto.
Qed.


Lemma has_false k m : Js.Map.has k m = false <-> Js.Map.get k m = None.
Proof. unfold Js.Map.has. destruct (Js.Map.get k m); split; congruence. Qed.

Lemma keys_set_fresh k v m :
  Js.Map.get k m = None -> Js.Map.keys (Js.Map.set k v m) = Js.Map.keys m ++ [k].
Proof.
  unfold Js.Map.keys. induction m as [|[k' v'] m IH]; simpl; [reflexivity|].
  destruct (Z.eqb k' k); [discriminate|].
  intros H. simpl. f_equal. apply IH. exact H.
Qed.

Lemma NoDup_keys_delete k m :
  NoDup (Js.Map.keys m) -> NoDup (Js.Map.keys (Js.Map.delete k m)).
Proof.
  unfold Js.Map.keys. induction m as [|[k' v'] m IH]; simpl; [auto|].
  intros Hnd. apply NoDup_cons in Hnd as [Hnot Hnd].
  destruct (Z.eqb_spec k' k) as [->|Hne]; [auto|].
  simpl. apply NoDup_cons. split; [|auto].
  intros Hin. apply Hnot. apply get_keys. apply get_keys in Hin.
  rewrite get_delete_ne in Hin by auto. exact Hin.
Qed.

Lemma NoDup_keys_set_fresh k v m :
  Js.Map.get k m = None -> NoDup (Js.Map.keys m) ->
  NoDup (Js.Map.keys (Js.Map.set k v m)).
Proof.
  intros Hk Hnd. rewrite keys_set_fresh by exact Hk.
  apply NoDup_app. split; [exact Hnd|]. split; [|apply NoDup_singleton].
  intros x Hx Hx'. apply list_elem_of_singleton in Hx'. subst x.
  apply get_keys in Hx. rewrite Hk in Hx. destruct Hx as [? ?]. discriminate.
Qed.
End MapLemmas.

(** ** Lists of pairs *)

Lemma NoDup_fst_functional {A B} (l : list (A * B)) x y1 y2 :
  NoDup l.*1 -> (x, y1) ∈ l -> (x, y2) ∈ l -> y1 = y2.
Proof.
  induction l as [|[a b] l IH]; simpl; intros Hnd H1 H2.
  - inversion H1.
  - apply NoDup_cons in Hnd as [Hnot Hnd].
    apply elem_of_cons in H1 as [H1|H1], H2 as [H2|H2].
    + congruence.
    + exfalso. apply Hnot. injection H1 as <- _.
      apply list_elem_of_fmap. exists (x, y2). auto.
    + exfalso. apply Hnot. injection H2 as <- _.
      apply list_elem_of_fmap. exists (x, y1). auto.
    + auto.
Qed.


(** ** Promises and timers *)

Lemma settle_new {V E} (ps : list (list (Js.Settlement V E))) x :
  Js.settle (length ps) x (ps ++ [[]]) = ps ++ [[x]].
Proof.
  unfold Js.settle. apply list_eq. intros i.
  rewrite list_lookup_alter. case_decide as Hi.
  - subst i. rewrite !lookup_app_r, Nat.sub_diag by lia. reflexivity.
  - destruct (decide (i < length ps)) as [Hlt|Hge].
    + rewrite !lookup_app_l by lia. reflexivity.
    + rewrite !lookup_app_r by lia.
      destruct (i - length ps) as [|k] eqn:Hk; [lia|]. reflexivity.
Qed.

Lemma clearTimeout_armed {C} h ms (cb : C) ts :
  ts !! h = Some (Js.Armed ms cb) -> Js.clearTimeout h ts = <[h := Js.Cleared]> ts.
Proof. intros H. unfold Js.clearTimeout. rewrite H. reflexivity. Qed.


(** ** [EventEmitter] *)

Lemma remove_last_app {A} (P : A -> bool) l1 l2 :
  existsb P l2 = true -> Js.remove_last P (l1 ++ l2) = l1 ++ Js.remove_last P l2.
Proof.
  intros H. induction l1 as [|x l1 IH]; simpl; [reflexivity|].
  rewrite existsb_app, H, orb_true_r. rewrite IH. reflexivity.
Qed.

Lemma remove_last_snoc_match {A} (P : A -> bool) (l : list A) x :
  P x = true -> Js.remove_last P (l ++ [x]) = l.
Proof.
  intros Hx. rewrite remove_last_app by (simpl; rewrite Hx; reflexivity).
  simpl. rewrite Hx. apply app_nil_r.
Qed.

Lemma remove_last_snoc_other {A} (P : A -> bool) (l : list A) x :
  P x = false -> Js.remove_last P (l ++ [x]) = Js.remove_last P l ++ [x].
Proof.
  intros Hx. induction l as [|y l IH]; simpl.
  - rewrite Hx. reflexivity.
  - rewrite existsb_app. simpl. rewrite Hx, !orb_false_r.
    destruct (existsb P l) eqn:Hl.
    + rewrite IH. reflexivity.
    + destruct (P y); reflexivity.
Qed.

Lemma Forall_remove_last {A} (P : A -> Prop) (Q : A -> bool) l :
  Forall P l -> Forall P (Js.remove_last Q l).
Proof.
  induction 1 as [|x l Hx Hl IH]; simpl; [constructor|].
  destruct (existsb Q l); [constructor; assumption|].
  destruct (Q x); [assumption|constructor; assumption].
Qed.

Section EmitterLemmas.
Context {T C : Type} `{EqDecision T, EqDecision C}.
Implicit Types (l : list (Js.Registration T C)) (t : T) (f : C).







Lemma listenerCount_app t ev l l' :
  Js.listenerCount t ev (l ++ l') = Js.listenerCount t ev l + Js.listenerCount t ev l'.
Proof.
  unfold Js.listenerCount, Js.listenersOf. rewrite filter_app, length_app. reflexivity.
Qed.

Lemma listenerCount_once t ev f l :
  Js.listenerCount t ev (Js.once t ev f l) = S (Js.listenerCount t ev l).
Proof.
  unfold Js.once. rewrite listenerCount_app.
  unfold Js.listenerCount at 2. unfold Js.listenersOf.
  rewrite filter_cons_True by (simpl; auto). rewrite filter_nil. simpl. lia.
Qed.

Lemma listenerCount_once_other t ev t' ev' f l :
  (t, ev) <> (t', ev') ->
  Js.listenerCount t ev (Js.once t' ev' f l) = Js.listenerCount t ev l.
Proof.
  intros Hne. unfold Js.once. rewrite listenerCount_app.
  unfold Js.listenerCount at 2. unfold Js.listenersOf.
  rewrite filter_cons_False; [rewrite filter_nil; simpl; lia|].
  simpl. intros [<- <-]. auto.
Qed.

Lemma listenerCount_on_other t ev t' ev' f l :
  (t, ev) <> (t', ev') ->
  Js.listenerCount t ev (Js.on t' ev' f l) = Js.listenerCount t ev l.
Proof.
  intros Hne. unfold Js.on. rewrite listenerCount_app.
  unfold Js.listenerCount at 2. unfold Js.listenersOf.
  rewrite filter_cons_False; [rewrite filter_nil; simpl; lia|].
  simpl. intros [<- <-]. auto.
Qed.


End EmitterLemmas.

End JsFacts.


(* ===================================================================== *)
(** * The awaitable sender: correlation of sends and terminal events *)
(* ===================================================================== *)

Module SenderProofs.
Import Rhea AwaitableSender JsFacts.

Section Invariant.

Lemma entry_of_inj sc t sc' t' : entry_of sc t = entry_of sc' t' -> sc = sc' /\ t = t'.
Proof. intros H. injection H. auto. Qed.

Lemma Inv_constructor options : Inv (constructor options).
Proof.
  split; simpl.
  - constructor.
  - intros ? ? H; discriminate.
  - intros ? ? ? H; discriminate.
  - intros ? ? H; discriminate.
  - intros ? H; discriminate.
  - intros ? ? H; inversion H.
  - constructor.
  - constructor.
Qed.

Lemma Inv_with_abortListeners l st : Inv st -> Inv (with_abortListeners l st).
Proof. intros [? ? ? ? ? ? ? ?]. split; assumption. Qed.

Lemma Inv_with_aborted l st : Inv st -> Inv (with_aborted l st).
Proof. intros [? ? ? ? ? ? ? ?]. split; assumption. Qed.

Lemma Inv_with_listeners l st : Inv st -> Inv (with_listeners l st).
Proof. intros [? ? ? ? ? ? ? ?]. split; assumption. Qed.

Lemma Inv_removeAbortListener sc st : Inv st -> Inv (removeAbortListener sc st).
Proof.
  unfold removeAbortListener, removeEventListener.
  destruct (scope_abortSignal sc); [apply Inv_with_abortListeners|auto].
Qed.

(** Two entries of the map never share the promise they settle. *)
Lemma Inv_entries_promise st id id' sc sc' t t' :
  Inv st ->
  Js.Map.get id (deliveryDispositionMap st) = Some (entry_of sc t) ->
  Js.Map.get id' (deliveryDispositionMap st) = Some (entry_of sc' t') ->
  scope_promise sc = scope_promise sc' -> id = id'.
Proof.
  intros HI H1 H2 Hp.
  destruct (inv_entry _ HI _ _ H1) as (sc1 & ms1 & E1 & D1 & _ & _ & S1).
  destruct (inv_entry _ HI _ _ H2) as (sc2 & ms2 & E2 & D2 & _ & _ & S2).
  apply entry_of_inj in E1 as [<- _]. apply entry_of_inj in E2 as [<- _].
  rewrite Hp in S1.
  exact (NoDup_fst_functional _ _ _ _ (inv_sends_promise _ HI) S1 S2).
Qed.

Lemma Inv_retire st id sc h T x :
  Inv st ->
  Js.Map.get id (deliveryDispositionMap st) = Some (entry_of sc h) ->
  (forall ms cb, T <> Js.Armed ms cb) ->
  Inv (retire id h T (scope_promise sc) x st).
Proof.
  intros HI Hget HT.
  destruct (inv_entry _ HI _ _ Hget) as (sc0 & ms & E & Hd & Htimer & Hpend & Hsent).
  apply entry_of_inj in E as [<- _]. simpl in Htimer.
  split; unfold retire; simpl.
  - apply NoDup_keys_delete. exact (inv_keys _ HI).
  - intros id' e' H. apply get_delete_Some in H as [Hne H].
    destruct (inv_entry _ HI _ _ H) as (sc' & ms' & E' & Hd' & Ht' & Hp' & Hs').
    exists sc', ms'. split; [exact E'|]. split; [exact Hd'|].
    assert (timer e' <> h) as Hth.
    { intros Heq. rewrite Heq, Htimer in Ht'. injection Ht' as _ <-. congruence. }
    assert (scope_promise sc' <> scope_promise sc) as Hps.
    { intros Heq. apply Hne. rewrite E' in H.
      exact (Inv_entries_promise _ _ _ _ _ _ _ HI Hget H (eq_sym Heq)). }
    split; [rewrite list_lookup_insert_ne by auto; exact Ht'|].
    split; [|exact Hs'].
    unfold Js.settle. rewrite list_lookup_alter_ne by auto. exact Hp'.
  - intros h' ms' sc' H.
    destruct (decide (h = h')) as [<-|Hne].
    + apply lookup_lt_Some in Htimer as Hlt.
      rewrite list_lookup_insert_eq in H by exact Hlt.
      injection H as H. exfalso. exact (HT _ _ H).
    + rewrite list_lookup_insert_ne in H by exact Hne.
      pose proof (inv_timer _ HI _ _ _ H) as Hg.
      rewrite get_delete_ne; [exact Hg|].
      intros Heq. rewrite <- Heq, Hget in Hg.
      assert (entry_of sc h = entry_of sc' h') as E by congruence.
      apply entry_of_inj in E as [_ ?]. contradiction.
  - intros p calls H. unfold Js.settle in H.
    rewrite list_lookup_alter in H. case_decide as Hp.
    + subst p. rewrite Hpend in H. simpl in H. injection H as <-. simpl. lia.
    + exact (inv_once _ HI _ _ H).
  - intros p H. unfold Js.settle in H.
    rewrite list_lookup_alter in H. case_decide as Hp.
    + subst p. rewrite Hpend in H. discriminate.
    + destruct (inv_pending _ HI _ H) as (id' & t' & sc' & Hg' & Hp').
      exists id', t', sc'. split; [|exact Hp'].
      rewrite get_delete_ne; [exact Hg'|].
      intros <-. rewrite Hget in Hg'.
      assert (entry_of sc h = entry_of sc' t') as E by congruence.
      apply entry_of_inj in E as [<- _]. congruence.
  - intros p id' H. unfold Js.settle. rewrite length_alter.
    exact (inv_sends_lt _ HI _ _ H).
  - exact (inv_sends_promise _ HI).
  - exact (inv_sends_id _ HI).
Qed.

End Invariant.

Section Handlers.

(** Under the invariant the three handlers that find an entry retire it. *)
Lemma onSendSuccess_retire st d sc t :
  Inv st ->
  Js.Map.get (id d) (deliveryDispositionMap st) = Some (entry_of sc t) ->
  onSendSuccess d st =
  removeAbortListener sc
    (retire (id d) t Js.Cleared (scope_promise sc) (Js.Resolved d) st).
Proof.
  intros HI Hget. unfold onSendSuccess. rewrite Hget.
  destruct (inv_entry _ HI _ _ Hget) as (sc0 & ms & E & _ & Ht & _).
  apply entry_of_inj in E as [<- _]. simpl in Ht.
  unfold clearTimeout. simpl. rewrite (clearTimeout_armed _ _ _ _ Ht). reflexivity.
Qed.

Lemma onSendFailure_retire st ev i err sc t :
  Inv st ->
  Js.Map.get i (deliveryDispositionMap st) = Some (entry_of sc t) ->
  onSendFailure ev i err st =
  removeAbortListener sc
    (retire i t Js.Cleared (scope_promise sc)
       (Js.Rejected (SendOperationFailedError ev err)) st).
Proof.
  intros HI Hget. unfold onSendFailure. rewrite Hget.
  destruct (inv_entry _ HI _ _ Hget) as (sc0 & ms & E & _ & Ht & _).
  apply entry_of_inj in E as [<- _]. simpl in Ht.
  unfold clearTimeout. simpl. rewrite (clearTimeout_armed _ _ _ _ Ht). reflexivity.
Qed.

Lemma onAbort_retire st sc0 sc t :
  Inv st ->
  Js.Map.get (scope_delivery sc0) (deliveryDispositionMap st) = Some (entry_of sc t) ->
  call_abortListener (OnAbort sc0) st =
  removeAbortListener sc
    (retire (scope_delivery sc0) t Js.Cleared (scope_promise sc)
       (Js.Rejected (AbortError "Send request has been cancelled.")) st).
Proof.
  intros HI Hget. unfold call_abortListener. rewrite Hget.
  destruct (inv_entry _ HI _ _ Hget) as (sc1 & ms & E & _ & Ht & _).
  apply entry_of_inj in E as [<- _]. simpl in Ht.
  unfold clearTimeout. simpl. rewrite (clearTimeout_armed _ _ _ _ Ht). reflexivity.
Qed.

Lemma timerFires_retire st h ms sc :
  timers st !! h = Some (Js.Armed ms (SendTimedOut sc)) ->
  timerFires h st =
  retire (scope_delivery sc) h Js.Fired (scope_promise sc)
    (Js.Rejected OperationTimeoutError) st.
Proof.
  intros Ht. unfold timerFires, Js.fire. rewrite Ht. reflexivity.
Qed.

Lemma entry_shape st i e :
  Inv st -> Js.Map.get i (deliveryDispositionMap st) = Some e ->
  exists sc t, e = entry_of sc t.
Proof.
  intros HI H. destruct (inv_entry _ HI _ _ H) as (sc & ms & E & _).
  eauto.
Qed.

Lemma Inv_onSendSuccess st d : Inv st -> Inv (onSendSuccess d st).
Proof.
  intros HI.
  destruct (Js.Map.get (id d) (deliveryDispositionMap st)) as [e|] eqn:Hget.
  - destruct (entry_shape _ _ _ HI Hget) as (sc & t & ->).
    rewrite (onSendSuccess_retire _ _ _ _ HI Hget).
    apply Inv_removeAbortListener, Inv_retire; [assumption..|discriminate].
  - unfold onSendSuccess. rewrite Hget. exact HI.
Qed.

Lemma Inv_onSendFailure st ev i err : Inv st -> Inv (onSendFailure ev i err st).
Proof.
  intros HI.
  destruct (Js.Map.get i (deliveryDispositionMap st)) as [e|] eqn:Hget.
  - destruct (entry_shape _ _ _ HI Hget) as (sc & t & ->).
    rewrite (onSendFailure_retire _ _ _ _ _ _ HI Hget).
    apply Inv_removeAbortListener, Inv_retire; [assumption..|discriminate].
  - unfold onSendFailure. rewrite Hget. exact HI.
Qed.

Lemma Inv_call_abortListener st l : Inv st -> Inv (call_abortListener l st).
Proof.
  intros HI. destruct l as [sc0].
  destruct (Js.Map.get (scope_delivery sc0) (deliveryDispositionMap st)) as [e|] eqn:Hget.
  - destruct (entry_shape _ _ _ HI Hget) as (sc & t & ->).
    rewrite (onAbort_retire _ _ _ _ HI Hget).
    apply Inv_removeAbortListener, Inv_retire; [assumption..|discriminate].
  - unfold call_abortListener. rewrite Hget. exact HI.
Qed.

Lemma Inv_timerFires st h : Inv st -> Inv (timerFires h st).
Proof.
  intros HI.
  destruct (timers st !! h) as [[ms [sc]| |]|] eqn:Ht;
    try (unfold timerFires, Js.fire; rewrite Ht; exact HI).
  rewrite (timerFires_retire _ _ _ _ Ht).
  apply Inv_retire; [assumption|exact (inv_timer _ HI _ _ _ Ht)|discriminate].
Qed.

Lemma Inv_foldl {A} (f : State -> A -> State) (l : list A) st :
  (forall st a, Inv st -> Inv (f st a)) -> Inv st -> Inv (foldl f st l).
Proof.
  intros Hf. revert st. induction l as [|a l IH]; simpl; auto.
Qed.

Lemma Inv_drain st ev err : Inv st -> Inv (drain ev err st).
Proof.
  intros HI. unfold drain. apply Inv_foldl; [|exact HI].
  intros. apply Inv_onSendFailure. assumption.
Qed.

Lemma Inv_call_listener st l ctx : Inv st -> Inv (call_listener l ctx st).
Proof.
  intros HI. destruct l; simpl;
    auto using Inv_onSendSuccess, Inv_onSendFailure, Inv_drain.
Qed.

Lemma Inv_emit st t ev ctx : Inv st -> Inv (emit t ev ctx st).
Proof.
  intros HI. unfold emit. apply Inv_foldl; [|exact HI].
  intros. apply Inv_call_listener. assumption.
Qed.

Lemma Inv_signalAborts st s : Inv st -> Inv (signalAborts s st).
Proof.
  intros HI. unfold signalAborts. destruct (is_aborted s st); [exact HI|].
  apply Inv_foldl; [|apply Inv_with_aborted; exact HI].
  intros. apply Inv_call_abortListener. assumption.
Qed.

Lemma Inv_reject_now st x :
  Inv st ->
  Inv (settle (length (promises st)) x (with_promises (promises st ++ [[]]) st)).
Proof.
  intros HI.
  assert (Hnew : forall p calls,
     Js.settle (length (promises st)) x (promises st ++ [[]]) !! p = Some calls ->
     (p = length (promises st) /\ calls = [x]) \/ promises st !! p = Some calls).
  { intros p calls H. unfold Js.settle in H. rewrite list_lookup_alter in H.
    case_decide as Hp.
    - subst p. rewrite lookup_app_r, Nat.sub_diag in H by lia.
      simpl in H. injection H as <-. left. auto.
    - right. destruct (decide (p < length (promises st))) as [Hlt|Hge].
      + rewrite lookup_app_l in H by exact Hlt. exact H.
      + apply lookup_lt_Some in H. rewrite length_app in H. simpl in H. lia. }
  split; unfold settle; simpl.
  - exact (inv_keys _ HI).
  - intros i e H. destruct (inv_entry _ HI _ _ H) as (sc & ms & E & D & T & P & S).
    exists sc, ms. repeat split; try assumption.
    unfold Js.settle. apply lookup_lt_Some in P as Hlt.
    rewrite list_lookup_alter_ne by lia.
    rewrite lookup_app_l by exact Hlt. exact P.
  - exact (inv_timer _ HI).
  - intros p calls H. apply Hnew in H as [[_ ->]|H]; [simpl; lia|].
    exact (inv_once _ HI _ _ H).
  - intros p H. apply Hnew in H as [[_ ?]|H]; [discriminate|].
    exact (inv_pending _ HI _ H).
  - intros p i H. unfold Js.settle. rewrite length_alter, length_app. simpl.
    pose proof (inv_sends_lt _ HI _ _ H). lia.
  - exact (inv_sends_promise _ HI).
  - exact (inv_sends_id _ HI).
Qed.

Lemma Inv_send st options sendable d :
  Inv st -> engine_fresh st (Send options sendable d) = true ->
  Inv (send options sendable d st).2.
Proof.
  intros HI Hfresh. simpl in Hfresh. apply bool_decide_eq_true in Hfresh.
  unfold send, Js.newPromise.
  set (sig := options ≫= abortSignal).
  set (p := length (promises st)).
  destruct (match sig with Some s => is_aborted s _ | None => false end);
    [apply Inv_reject_now; exact HI|].
  destruct sendable; [|apply Inv_reject_now; exact HI].
  unfold Js.setTimeout.
  set (sc := mkSendScope p (id d) sig).
  set (ms := Js.delay (Js.mul (effectiveSendTimeout _ _) (Js.of_Z 1000))).
  assert (Hkeys : forall i e, Js.Map.get i (deliveryDispositionMap st) = Some e -> i <> id d).
  { intros i e H Heq. subst i. destruct (inv_entry _ HI _ _ H) as (sc' & _ & _ & _ & _ & _ & S).
    apply Hfresh. apply list_elem_of_fmap. exists (scope_promise sc', id d). auto. }
  assert (Inv
    (with_map (Js.Map.set (id d) (entry_of sc (length (timers st))) (deliveryDispositionMap st))
       (with_link_sends (link_sends st ++ [(p, id d)])
          (with_timers (timers st ++ [Js.Armed ms (SendTimedOut sc)])
             (with_promises (promises st ++ [[]]) st))))) as Hgoal.
  { split; simpl.
    - apply NoDup_keys_set_fresh; [|exact (inv_keys _ HI)].
      destruct (Js.Map.get (id d) (deliveryDispositionMap st)) as [e|] eqn:Hg; [|reflexivity].
      exfalso. exact (Hkeys _ _ Hg eq_refl).
    - intros i e H. destruct (decide (id d = i)) as [<-|Hne].
      + rewrite get_set_eq in H. injection H as <-.
        exists sc, ms. simpl. split; [reflexivity|]. split; [reflexivity|].
        split; [rewrite lookup_app_r, Nat.sub_diag by lia; reflexivity|].
        split; [rewrite lookup_app_r, Nat.sub_diag by (unfold p; lia); reflexivity|].
        apply elem_of_app. right. apply list_elem_of_singleton. reflexivity.
      + rewrite get_set_ne in H by exact Hne.
        destruct (inv_entry _ HI _ _ H) as (sc' & ms' & E & D & T & P & S).
        exists sc', ms'. repeat split; try assumption.
        * apply lookup_app_l_Some. exact T.
        * apply lookup_app_l_Some. exact P.
        * apply elem_of_app. left. exact S.
    - intros h ms' sc' H.
      destruct (decide (h < length (timers st))) as [Hlt|Hge].
      + rewrite lookup_app_l in H by exact Hlt.
        pose proof (inv_timer _ HI _ _ _ H) as Hg.
        rewrite get_set_ne; [exact Hg|].
        intros Heq. exact (Hkeys _ _ Hg (eq_sym Heq)).
      + apply lookup_lt_Some in H as Hlt. rewrite length_app in Hlt. simpl in Hlt.
        assert (h = length (timers st)) as -> by lia.
        rewrite lookup_app_r, Nat.sub_diag in H by lia. simpl in H.
        injection H as _ <-. simpl. apply get_set_eq.
    - intros q calls H.
      destruct (decide (q < length (promises st))) as [Hlt|Hge].
      + rewrite lookup_app_l in H by exact Hlt. exact (inv_once _ HI _ _ H).
      + apply lookup_lt_Some in H as Hlt. rewrite length_app in Hlt. simpl in Hlt.
        assert (q = length (promises st)) as -> by lia.
        rewrite lookup_app_r, Nat.sub_diag in H by lia. simpl in H.
        injection H as <-. simpl. lia.
    - intros q H.
      destruct (decide (q < length (promises st))) as [Hlt|Hge].
      + rewrite lookup_app_l in H by exact Hlt.
        destruct (inv_pending _ HI _ H) as (i & t & sc' & Hg & Hp).
        exists i, t, sc'. split; [|exact Hp].
        rewrite get_set_ne; [exact Hg|].
        intros Heq. exact (Hkeys _ _ Hg (eq_sym Heq)).
      + apply lookup_lt_Some in H as Hlt. rewrite length_app in Hlt. simpl in Hlt.
        exists (id d), (length (timers st)), sc. split; [apply get_set_eq|].
        simpl. unfold p. lia.
    - intros q i H. rewrite length_app. simpl.
      apply elem_of_app in H as [H|H].
      + pose proof (inv_sends_lt _ HI _ _ H). lia.
      + apply list_elem_of_singleton in H. injection H as -> _. unfold p. lia.
    - rewrite fmap_app. simpl. apply NoDup_app. split; [exact (inv_sends_promise _ HI)|].
      split; [|apply NoDup_singleton].
      intros q Hq Hq'. apply list_elem_of_singleton in Hq'. subst q.
      apply list_elem_of_fmap in Hq as ([q i] & Heq & Hin). simpl in Heq. subst q.
      pose proof (inv_sends_lt _ HI _ _ Hin). unfold p in *. lia.
    - rewrite fmap_app. simpl. apply NoDup_app. split; [exact (inv_sends_id _ HI)|].
      split; [|apply NoDup_singleton].
      intros i Hi Hi'. apply list_elem_of_singleton in Hi'. subst i.
      exact (Hfresh Hi). }
  destruct sig as [s|]; simpl.
  - apply Inv_with_abortListeners with (l := abortListeners st ++ [(s, OnAbort sc)]) in Hgoal.
    exact Hgoal.
  - exact Hgoal.
Qed.

Lemma Inv_step st e : Inv st -> engine_fresh st e = true -> Inv (step st e).
Proof.
  intros HI Hf. destruct e; simpl.
  - apply Inv_send; assumption.
  - apply Inv_emit; assumption.
  - apply Inv_timerFires; assumption.
  - apply Inv_signalAborts; assumption.
  - apply Inv_with_listeners; assumption.
Qed.

Lemma Inv_run evs : forall st, Inv st -> engine_trace st evs = true -> Inv (run st evs).
Proof.
  induction evs as [|e evs IH]; simpl; intros st HI Ht; [exact HI|].
  apply andb_prop in Ht as [Hf Ht].
  apply IH; [apply Inv_step; assumption|exact Ht].
Qed.

End Handlers.

(** * Effects of the handlers on single fields *)

Section Frames.

Lemma map_call_reject f x st :
  deliveryDispositionMap (call_reject f x st) = deliveryDispositionMap st.
Proof.
  destruct f as [sc]. unfold call_reject, removeAbortListener.
  destruct (scope_abortSignal sc); reflexivity.
Qed.


Lemma listeners_call_reject f x st : listeners (call_reject f x st) = listeners st.
Proof.
  destruct f as [sc]. unfold call_reject, removeAbortListener.
  destruct (scope_abortSignal sc); reflexivity.
Qed.

Lemma listeners_call_resolve f x st : listeners (call_resolve f x st) = listeners st.
Proof.
  destruct f as [sc]. unfold call_resolve, removeAbortListener.
  destruct (scope_abortSignal sc); reflexivity.
Qed.

Lemma map_onSendFailure ev i err st :
  deliveryDispositionMap (onSendFailure ev i err st) =
  Js.Map.delete i (deliveryDispositionMap st).
Proof.
  unfold onSendFailure.
  destruct (Js.Map.get i (deliveryDispositionMap st)) as [e|] eqn:Hget.
  - rewrite map_call_reject. reflexivity.
  - symmetry. apply delete_absent. exact Hget.
Qed.



Lemma listeners_onSendFailure ev i err st :
  listeners (onSendFailure ev i err st) = listeners st.
Proof.
  unfold onSendFailure. destruct (Js.Map.get _ _); [|reflexivity].
  rewrite listeners_call_reject. reflexivity.
Qed.

Lemma listeners_onSendSuccess d st : listeners (onSendSuccess d st) = listeners st.
Proof.
  unfold onSendSuccess. destruct (Js.Map.get _ _); [|reflexivity].
  rewrite listeners_call_resolve. reflexivity.
Qed.

Lemma listeners_foldl {A} (f : State -> A -> State) (l : list A) st :
  (forall st a, listeners (f st a) = listeners st) ->
  listeners (foldl f st l) = listeners st.
Proof.
  intros Hf. revert st. induction l as [|a l IH]; simpl; intros st; [reflexivity|].
  rewrite IH. apply Hf.
Qed.

Lemma listeners_drain ev err st : listeners (drain ev err st) = listeners st.
Proof.
  unfold drain. apply listeners_foldl. intros. apply listeners_onSendFailure.
Qed.

Lemma listeners_call_listener l ctx st :
  listeners (call_listener l ctx st) = listeners st.
Proof.
  destruct l; simpl;
    auto using listeners_onSendSuccess, listeners_onSendFailure, listeners_drain.
Qed.

Lemma listeners_step st e :
  listeners (step st e) =
  match e with
  | SessionRemoveAllListeners => filter (fun l => l.1.1 ≠ ThisSession) (listeners st)
  | _ => listeners st
  end.
Proof.
  destruct e as [options sendable d|t ev ctx|h|s|]; simpl; [| | | |reflexivity].
  - unfold send, Js.newPromise, Js.setTimeout.
    destruct (match options ≫= abortSignal with Some _ => _ | None => _ end); [reflexivity|].
    destruct sendable; [|reflexivity].
    destruct (options ≫= abortSignal); reflexivity.
  - unfold emit. apply listeners_foldl. intros. apply listeners_call_listener.
  - unfold timerFires. destruct (Js.fire h (timers st)) as [[[sc] ts]|]; reflexivity.
  - unfold signalAborts. destruct (is_aborted s st); [reflexivity|].
    rewrite listeners_foldl; [reflexivity|].
    intros st' [s' [sc]]. simpl. unfold call_abortListener.
    destruct (Js.Map.get _ _); [|reflexivity].
    rewrite listeners_call_reject. reflexivity.
Qed.

Lemma filter_idem {A} (P : A -> Prop) `{forall x, Decision (P x)} (l : list A) :
  filter P (filter P l) = filter P l.
Proof.
  induction l as [|a l IH]; [reflexivity|].
  rewrite filter_cons. destruct (decide (P a)) as [Ha|Ha]; [|exact IH].
  rewrite filter_cons, decide_True by exact Ha. f_equal. exact IH.
Qed.

(** The listeners of a sender are those its constructor added, without the
    one on the session once the session dropped its listeners. *)
Lemma listeners_run evs st :
  listeners (run st evs) =
  if session_listeners_removed evs
  then filter (fun l => l.1.1 ≠ ThisSession) (listeners st)
  else listeners st.
Proof.
  revert st. induction evs as [|e evs IH]; intros st; [reflexivity|].
  cbn [run foldl session_listeners_removed existsb]. fold (run (step st e) evs).
  fold (session_listeners_removed evs). rewrite IH, listeners_step.
  destruct e; cbn [orb]; try reflexivity.
  destruct (session_listeners_removed evs); [apply filter_idem|reflexivity].
Qed.

(** The listeners on the sender itself stay as the constructor left them. *)
Lemma listeners_This evs options ev :
  filter (fun r => r.1 = (This, ev)) (listeners (run (constructor options) evs))
  = filter (fun r => r.1 = (This, ev)) (listeners (constructor options)).
Proof.
  rewrite listeners_run. destruct (session_listeners_removed evs); [|reflexivity].
  destruct options as [[a|] [b|] q]; cbn [constructor listeners onError onSessionError app];
    rewrite !filter_cons; cbn; rewrite ?filter_nil; reflexivity.
Qed.

(** A fold of functions that only delete keys leaves a key out once one of
    them deleted it. *)
Lemma foldl_deletes {A} (f : State -> A -> State) (key : A -> Z) (l : list A) :
  (forall st a, deliveryDispositionMap (f st a) =
                Js.Map.delete (key a) (deliveryDispositionMap st)) ->
  forall st i,
    Js.Map.get i (deliveryDispositionMap (foldl f st l)) =
    if bool_decide (i ∈ key <$> l) then None
    else Js.Map.get i (deliveryDispositionMap st).
Proof.
  intros Hf. induction l as [|a l IH]; intros st i; [reflexivity|].
  cbn [foldl]. rewrite IH, Hf, fmap_cons.
  destruct (decide (key a = i)) as [Heq|Hne].
  - rewrite Heq, get_delete_eq.
    rewrite (bool_decide_eq_true_2 (i ∈ i :: (key <$> l))) by left.
    destruct (bool_decide _); reflexivity.
  - rewrite get_delete_ne by exact Hne.
    destruct (decide (i ∈ key <$> l)) as [Hin|Hnin].
    + rewrite !bool_decide_eq_true_2; [reflexivity|right; exact Hin|exact Hin].
    + rewrite !bool_decide_eq_false_2; [reflexivity| |exact Hnin].
      intros H. apply elem_of_cons in H as [H|H]; [congruence|contradiction].
Qed.

Lemma map_drain ev err st : deliveryDispositionMap (drain ev err st) = [].
Proof.
  apply get_all_None. intros k. unfold drain.
  rewrite (foldl_deletes _ (fun i => i)); [|intros; apply map_onSendFailure].
  rewrite list_fmap_id.
  destruct (decide (k ∈ Js.Map.keys (deliveryDispositionMap st))) as [Hin|Hnin].
  - rewrite bool_decide_eq_true_2 by exact Hin. reflexivity.
  - rewrite bool_decide_eq_false_2 by exact Hnin.
    destruct (Js.Map.get k (deliveryDispositionMap st)) eqn:Hg; [|reflexivity].
    exfalso. apply Hnin, get_keys. eauto.
Qed.

End Frames.
Section Drain.

Lemma promises_removeAbortListener sc st :
  promises (removeAbortListener sc st) = promises st.
Proof. unfold removeAbortListener. destruct (scope_abortSignal sc); reflexivity. Qed.

Lemma timers_removeAbortListener sc st :
  timers (removeAbortListener sc st) = timers st.
Proof. unfold removeAbortListener. destruct (scope_abortSignal sc); reflexivity. Qed.

Lemma onSendFailure_cases st ev i err :
  Inv st ->
  (Js.Map.get i (deliveryDispositionMap st) = None /\ onSendFailure ev i err st = st)
  \/ exists sc t ms,
       Js.Map.get i (deliveryDispositionMap st) = Some (entry_of sc t)
       /\ promises st !! scope_promise sc = Some []
       /\ timers st !! t = Some (Js.Armed ms (SendTimedOut sc))
       /\ promises (onSendFailure ev i err st) =
          Js.settle (scope_promise sc)
            (Js.Rejected (SendOperationFailedError ev err)) (promises st)
       /\ timers (onSendFailure ev i err st) = <[t := Js.Cleared]> (timers st).
Proof.
  intros HI.
  destruct (Js.Map.get i (deliveryDispositionMap st)) as [e|] eqn:Hget.
  - right. destruct (inv_entry _ HI _ _ Hget) as (sc & ms & E & _ & Ht & Hp & _).
    assert (Hget' := Hget). rewrite E in Hget'. exists sc, (timer e), ms.
    rewrite (onSendFailure_retire _ _ _ _ _ _ HI Hget').
    rewrite promises_removeAbortListener, timers_removeAbortListener.
    split; [f_equal; exact E|]. repeat split; assumption || reflexivity.
  - left. split; [reflexivity|]. unfold onSendFailure. rewrite Hget. reflexivity.
Qed.

Lemma drain_keys ev err ks : forall st,
  Inv st ->
  let st' := foldl (fun st i => onSendFailure ev i err st) st ks in
  (forall i sc t, i ∈ ks ->
     Js.Map.get i (deliveryDispositionMap st) = Some (entry_of sc t) ->
     promises st' !! scope_promise sc =
       Some [Js.Rejected (SendOperationFailedError ev err)]
     /\ timers st' !! t = Some Js.Cleared)
  /\ (forall p calls, promises st !! p = Some calls -> calls <> [] ->
        promises st' !! p = Some calls)
  /\ (forall h, timers st !! h = Some Js.Cleared -> timers st' !! h = Some Js.Cleared).
Proof.
  induction ks as [|i0 ks IH]; intros st HI; cbn [foldl].
  - split; [|split]; auto. intros i sc t H. inversion H.
  - specialize (IH (onSendFailure ev i0 err st) (Inv_onSendFailure _ ev i0 err HI)).
    cbn zeta in IH. destruct IH as (IH1 & IH2 & IH3).
    destruct (onSendFailure_cases st ev i0 err HI)
      as [[Hnone Heq]|(sc0 & t0 & ms0 & Hget0 & Hp0 & Ht0 & Hps & Hts)].
    + rewrite Heq in *. split; [|split]; auto.
      intros i sc t Hin Hget. apply elem_of_cons in Hin as [->|Hin]; [congruence|].
      eauto.
    + assert (Hstable_p : forall p calls, promises st !! p = Some calls -> calls <> [] ->
                promises (onSendFailure ev i0 err st) !! p = Some calls).
      { intros p calls H Hne. rewrite Hps. unfold Js.settle.
        rewrite list_lookup_alter_ne; [exact H|]. intros <-. congruence. }
      assert (Hstable_t : forall h, timers st !! h = Some Js.Cleared ->
                timers (onSendFailure ev i0 err st) !! h = Some Js.Cleared).
      { intros h H. rewrite Hts.
        rewrite list_lookup_insert_ne; [exact H|]. intros <-. congruence. }
      split; [|split]; auto.
      intros i sc t Hin Hget.
      destruct (decide (i = i0)) as [->|Hne].
      * assert (entry_of sc t = entry_of sc0 t0) as E by congruence.
        apply entry_of_inj in E as [-> ->]. split.
        -- apply IH2; [|discriminate]. rewrite Hps. unfold Js.settle.
           rewrite list_lookup_alter, decide_True by reflexivity. rewrite Hp0. reflexivity.
        -- apply IH3. rewrite Hts. apply list_lookup_insert_eq.
           apply lookup_lt_Some in Ht0. exact Ht0.
      * apply elem_of_cons in Hin as [?|Hin]; [contradiction|].
        apply (IH1 i sc t Hin).
        rewrite map_onSendFailure, get_delete_ne by auto. exact Hget.
Qed.

Lemma drain_drained ev err st : Inv st -> drained_by ev err st (drain ev err st).
Proof.
  intros HI. split; [apply map_drain|].
  intros i e Hget.
  destruct (inv_entry _ HI _ _ Hget) as (sc & ms & E & _).
  rewrite E in Hget.
  destruct (drain_keys ev err (Js.Map.keys (deliveryDispositionMap st)) st HI) as (H1 & _).
  destruct (H1 i sc (timer e)) as [Hp Ht]; [apply get_keys; eauto|exact Hget|].
  split.
  - unfold Js.armed. fold (drain ev err st) in Ht. rewrite Ht. reflexivity.
  - exists sc. split; [rewrite E; reflexivity|exact Hp].
Qed.

End Drain.

Section Claims.

Lemma emit_singleton st t ev ctx l :
  filter (fun r => r.1 = (t, ev)) (listeners st) = [(t, ev, l)] ->
  emit t ev ctx st = call_listener l ctx st.
Proof. intros H. unfold emit. rewrite H. reflexivity. Qed.

Lemma emit_nobody st t ev ctx :
  filter (fun r => r.1 = (t, ev)) (listeners st) = [] ->
  emit t ev ctx st = st.
Proof. intros H. unfold emit. rewrite H. reflexivity. Qed.

(** A listener found on the sender or its session is one the constructor
    added, and while the one on the session is there, all of them are. *)
Lemma listener_of_constructor options evs x :
  x ∈ listeners (run (constructor options) evs) -> x ∈ listeners (constructor options).
Proof.
  rewrite listeners_run. destruct (session_listeners_removed evs); [|auto].
  intros [_ Hin]%list_elem_of_filter. exact Hin.
Qed.



End Claims.

(** * The sends of a trace and the log of the link *)

Section Trace.


















End Trace.

Section SenderTheorems.

(** No promise returned by [send] has [resolve] or [reject] called on it
    more than once. *)
Theorem send_settles_at_most_once options evs p calls :
  engine_trace (constructor options) evs = true ->
  promises (run (constructor options) evs) !! p = Some calls ->
  length calls <= 1.
Proof.
  intros Ht H.
  exact (inv_once _ (Inv_run _ _ (Inv_constructor options) Ht) _ _ H).
Qed.






(** Claim C4, amended.  When the caller gave no [onError] handler, a
    [sender_error] on the link rejects every send still in the
    [deliveryDispositionMap] with a [SendOperationFailedError] that carries
    the name of the event and the error of the link, turns the timer of each
    entry off and leaves the map empty.  When the caller gave no
    [onSessionError] handler, a [session_error] on the session does the same
    with the error of the session as long as the session has not dropped its
    listeners; once it has, no listener of the sender is left on the session
    and the event changes nothing.  When the caller gave the handler, the
    constructor adds no listener of its own for that event and the event
    changes nothing. *)
Theorem C4_link_or_session_error_drains_pending_sends options evs ctx :
  engine_trace (constructor options) evs = true ->
  let st := run (constructor options) evs in
  (onError options = None ->
     drained_by SenderEvents.senderError (sender_error ctx) st
       (step st (Emit This SenderEvents.senderError ctx)))
  /\ (onSessionError options = None ->
        session_listeners_removed evs = false ->
        drained_by SessionEvents.sessionError (session_error ctx) st
          (step st (Emit ThisSession SessionEvents.sessionError ctx)))
  /\ (session_listeners_removed evs = true ->
        (forall ev l, (ThisSession, ev, l) ∉ listeners st)
        /\ step st (Emit ThisSession SessionEvents.sessionError ctx) = st)
  /\ (is_Some (onError options) ->
        (forall l, (This, SenderEvents.senderError, l) ∉ listeners st)
        /\ step st (Emit This SenderEvents.senderError ctx) = st)
  /\ (is_Some (onSessionError options) ->
        (forall l, (ThisSession, SessionEvents.sessionError, l) ∉ listeners st)
        /\ step st (Emit ThisSession SessionEvents.sessionError ctx) = st).
Proof.
  intros Ht st.
  pose proof (Inv_run _ _ (Inv_constructor options) Ht) as HI. fold st in HI.
  pose proof (listeners_run evs (constructor options)) as Hl. fold st in Hl.
  split; [|split; [|split; [|split]]].
  - intros Ho. cbn [step]. rewrite (emit_singleton st _ _ ctx SenderErrorListener).
    + apply drain_drained. exact HI.
    + subst st. rewrite listeners_This.
      destruct options as [oe [b|] q]; cbn in Ho; subst oe; reflexivity.
  - intros Ho Hr. rewrite Hr in Hl. cbn [step].
    rewrite (emit_singleton st _ _ ctx SessionErrorListener).
    + apply drain_drained. exact HI.
    + rewrite Hl. destruct options as [[a|] ose q]; cbn in Ho; subst ose; reflexivity.
  - intros Hr. rewrite Hr in Hl.
    assert (Hno : forall ev l, (ThisSession, ev, l) ∉ listeners st).
    { intros ev l Hin. rewrite Hl in Hin.
      apply list_elem_of_filter in Hin as [Hne _]. apply Hne. reflexivity. }
    split; [exact Hno|]. cbn [step]. apply emit_nobody.
    destruct (filter _ (listeners st)) as [|[[t ev] l] rest] eqn:Hf; [reflexivity|].
    exfalso.
    assert (Hin : (t, ev, l) ∈ filter (fun r => r.1 = (ThisSession, SessionEvents.sessionError))
                                 (listeners st)) by (rewrite Hf; left).
    apply list_elem_of_filter in Hin as [Heq Hin]. cbn in Heq. injection Heq as -> ->.
    exact (Hno _ _ Hin).
  - intros [h Ho].
    assert (Hno : forall l, (This, SenderEvents.senderError, l) ∉ listeners st).
    { intros l Hin. apply listener_of_constructor in Hin.
      destruct options as [oe [b|] q]; cbn in Ho; subst oe; cbn in Hin;
        repeat (apply elem_of_cons in Hin as [Hin|Hin]; [discriminate|]);
        inversion Hin. }
    split; [exact Hno|]. cbn [step]. apply emit_nobody.
    subst st. rewrite listeners_This.
    destruct options as [oe [b|] q]; cbn in Ho; subst oe; reflexivity.
  - intros [h Ho].
    assert (Hno : forall l, (ThisSession, SessionEvents.sessionError, l) ∉ listeners st).
    { intros l Hin. apply listener_of_constructor in Hin.
      destruct options as [[a|] ose q]; cbn in Ho; subst ose; cbn in Hin;
        repeat (apply elem_of_cons in Hin as [Hin|Hin]; [discriminate|]);
        inversion Hin. }
    split; [exact Hno|]. cbn [step]. apply emit_nobody.
    destruct (filter _ (listeners st)) as [|[[t ev] l] rest] eqn:Hf; [reflexivity|].
    exfalso.
    assert (Hin : (t, ev, l) ∈ filter (fun r => r.1 = (ThisSession, SessionEvents.sessionError))
                                 (listeners st)) by (rewrite Hf; left).
    apply list_elem_of_filter in Hin as [Heq Hin]. cbn in Heq. injection Heq as -> ->.
    exact (Hno _ Hin).
Qed.

(** Claim C4, amended, on a sender with two sends pending: a link error
    and a session error drain them, and a session error after the session
    dropped its listeners changes nothing. *)
Lemma C4_witness :
  engine_trace (constructor default_options) pending_trace = true
  /\ drained_by SenderEvents.senderError (sender_error error_context)
       (run (constructor default_options) pending_trace)
       (step (run (constructor default_options) pending_trace)
          (Emit This SenderEvents.senderError error_context))
  /\ drained_by SessionEvents.sessionError (session_error error_context)
       (run (constructor default_options) pending_trace)
       (step (run (constructor default_options) pending_trace)
          (Emit ThisSession SessionEvents.sessionError error_context))
  /\ step (run (constructor default_options) removed_trace)
       (Emit ThisSession SessionEvents.sessionError error_context)
     = run (constructor default_options) removed_trace.
Proof.
  split; [reflexivity|].
  destruct (C4_link_or_session_error_drains_pending_sends
              default_options pending_trace error_context eq_refl) as (H1 & H2 & _).
  destruct (C4_link_or_session_error_drains_pending_sends
              default_options removed_trace error_context eq_refl) as (_ & _ & H3 & _).
  split; [apply H1; reflexivity|].
  split; [apply H2; reflexivity|].
  apply H3. reflexivity.
Defined.

(** Claim C4 fails as stated: two sends are pending when the session drops
    its listeners, as [Session.remove] and the end of [Session.close] make
    it do; the [session_error] that follows leaves the sender as it was, with
    both entries in the map, both promises pending and both timers armed,
    although the caller gave no [onSessionError] handler. *)
Lemma C4_counterexample :
  engine_trace (constructor default_options) removed_trace = true
  /\ onSessionError default_options = None
  /\ Js.Map.keys (deliveryDispositionMap (run (constructor default_options) removed_trace))
     = [1%Z; 3%Z]
  /\ step (run (constructor default_options) removed_trace)
       (Emit ThisSession SessionEvents.sessionError error_context)
     = run (constructor default_options) removed_trace
  /\ Js.pending 0 (promises (run (constructor default_options) removed_trace))
  /\ Js.pending 2 (promises (run (constructor default_options) removed_trace))
  /\ Js.armed 0 (timers (run (constructor default_options) removed_trace)) = true
  /\ Js.armed 2 (timers (run (constructor default_options) removed_trace)) = true
  /\ ~ drained_by SessionEvents.sessionError (session_error error_context)
         (run (constructor default_options) removed_trace)
         (step (run (constructor default_options) removed_trace)
            (Emit ThisSession SessionEvents.sessionError error_context)).
Proof.
  repeat (split; [vm_compute; reflexivity|]).
  intros [Hempty _]. vm_compute in Hempty. discriminate.
Qed.

(** Claim C3 fails as stated: with the default of 20 seconds and a per-call
    timeout of 5 seconds the timer runs for 5000 milliseconds, not for
    max(5, 20) seconds = 20000 milliseconds. *)
Lemma C3_counterexample :
  issues_send (constructor default_options) first_delivery
    (send short_timeout true first_delivery (constructor default_options))
  /\ Js.duration 0
       (timers (send short_timeout true first_delivery (constructor default_options)).2)
     = Some 5000%Q
  /\ Js.to_Q (sendTimeoutInSeconds (constructor default_options)) = Some 20%Q
  /\ ~ (5000 == Qmax 5 20 * 1000)%Q.
Proof.
  split; [reflexivity|]. split; [vm_compute; reflexivity|].
  split; [vm_compute; reflexivity|].
  vm_compute. discriminate.
Qed.

Lemma send_timers st options sendable d :
  timers (send options sendable d st).2 = timers st
  /\ link_sends (send options sendable d st).2 = link_sends st
  \/ timers (send options sendable d st).2 =
       timers st ++
       [Js.Armed
          (Js.delay (Js.mul (effectiveSendTimeout (options ≫= timeoutInSeconds) st)
                       (Js.of_Z 1000)))
          (SendTimedOut (mkSendScope (length (promises st)) (id d)
                           (options ≫= abortSignal)))].
Proof.
  unfold send, Js.newPromise, Js.setTimeout.
  destruct (match options ≫= abortSignal with Some s => is_aborted s _ | None => false end);
    [left; split; reflexivity|].
  destruct sendable; [|left; split; reflexivity].
  right. destruct (options ≫= abortSignal), (options ≫= timeoutInSeconds); reflexivity.
Qed.

Lemma idleTimeout_range ms : (1 <= Js.idleTimeout ms <= Js.TIMEOUT_MAX)%Q.
Proof.
  unfold Js.idleTimeout.
  destruct (Qle_bool 1 ms) eqn:H1; cbn [andb]; [|split; discriminate].
  destruct (Qle_bool ms Js.TIMEOUT_MAX) eqn:H2; [|split; discriminate].
  split; apply Qle_bool_iff; assumption.
Qed.

(** Claim C3, amended.  A [send] that issues a protocol-level send starts
    its timer with the double [timeoutInSeconds * 1000] when the timeout of
    the call is a number greater than zero, and with
    [this.sendTimeoutInSeconds * 1000] otherwise (no timeout given, or one
    that is not greater than zero); no maximum is taken.  The host waits
    that long when the delay lies between 1 and 2^31 - 1 milliseconds and
    1 millisecond otherwise, so whatever the two timeouts are the timer
    runs for at least 1 and at most 2^31 - 1 milliseconds. *)
Theorem C3_timer_is_the_positive_per_call_timeout_else_the_default
    st options sendable d :
  let r := send options sendable d st in
  let h := length (timers st) in
  let sc := mkSendScope r.1 (id d) (options ≫= abortSignal) in
  issues_send st d r ->
  (forall t, options ≫= timeoutInSeconds = Some t -> Js.gt t (Js.of_Z 0) = true ->
     timers r.2 !! h
     = Some (Js.Armed (Js.delay (Js.mul t (Js.of_Z 1000))) (SendTimedOut sc))
     /\ Js.duration h (timers r.2)
        = Some (Js.idleTimeout (Js.delay (Js.mul t (Js.of_Z 1000)))))
  /\ ((options ≫= timeoutInSeconds = None
       \/ exists t, options ≫= timeoutInSeconds = Some t
                    /\ Js.gt t (Js.of_Z 0) = false) ->
      timers r.2 !! h
      = Some (Js.Armed (Js.delay (Js.mul (sendTimeoutInSeconds st) (Js.of_Z 1000)))
                (SendTimedOut sc))
      /\ Js.duration h (timers r.2)
         = Some (Js.idleTimeout
                   (Js.delay (Js.mul (sendTimeoutInSeconds st) (Js.of_Z 1000)))))
  /\ (exists ms, Js.duration h (timers r.2) = Some ms
                 /\ (1 <= ms <= Js.TIMEOUT_MAX)%Q).
Proof.
  intros r h sc Hissue. subst r h sc. unfold issues_send in Hissue.
  destruct (send_timers st options sendable d) as [[_ Hs]|Ht].
  { rewrite Hs in Hissue. apply (f_equal length) in Hissue.
    rewrite length_app in Hissue. simpl in Hissue. lia. }
  assert (Hp : (send options sendable d st).1 = length (promises st)).
  { unfold send, Js.newPromise.
    destruct (match options ≫= abortSignal with Some s => is_aborted s _ | None => false end);
      [reflexivity|].
    destruct sendable; [|reflexivity].
    destruct (options ≫= abortSignal); reflexivity. }
  rewrite Hp, Ht. unfold Js.duration.
  rewrite (list_lookup_middle (timers st) [] _ (length (timers st)) eq_refl).
  split; [|split].
  - intros t Ho Hpos. rewrite Ho. unfold effectiveSendTimeout. rewrite Hpos.
    split; reflexivity.
  - intros [->|(t & -> & Hle)]; unfold effectiveSendTimeout; [|rewrite Hle];
      split; reflexivity.
  - eexists. split; [reflexivity|]. apply idleTimeout_range.
Qed.

(** Claim C3, amended, on four sends: with a timeout of 5 seconds the timer
    runs for 5000 milliseconds; with 2.01 seconds for the double
    2.01 * 1000 = 2009.9999999999998 milliseconds; with 2147484 seconds,
    which is more than 2^31 - 1 milliseconds, for 1 millisecond; and with no
    timeout on a sender built with [sendTimeoutInSeconds: -3] for
    1 millisecond as well. *)
Lemma C3_witness :
  issues_send (constructor default_options) first_delivery
    (send short_timeout true first_delivery (constructor default_options))
  /\ Js.duration 0
       (timers (send short_timeout true first_delivery (constructor default_options)).2)
     = Some 5000%Q
  /\ Js.duration 0
       (timers (send fractional_timeout true first_delivery (constructor default_options)).2)
     = Some (8840073487319039 # 4398046511104)%Q
  /\ Js.duration 0
       (timers (send long_timeout true first_delivery (constructor default_options)).2)
     = Some 1%Q
  /\ Js.duration 0
       (timers (send None true first_delivery (constructor negative_default)).2)
     = Some 1%Q.
Proof.
  split; [reflexivity|].
  destruct (C3_timer_is_the_positive_per_call_timeout_else_the_default
              (constructor default_options) short_timeout true first_delivery
              eq_refl) as (H1 & _).
  destruct (C3_timer_is_the_positive_per_call_timeout_else_the_default
              (constructor default_options) fractional_timeout true first_delivery
              eq_refl) as (H2 & _).
  destruct (C3_timer_is_the_positive_per_call_timeout_else_the_default
              (constructor default_options) long_timeout true first_delivery
              eq_refl) as (H3 & _).
  destruct (C3_timer_is_the_positive_per_call_timeout_else_the_default
              (constructor negative_default) None true first_delivery
              eq_refl) as (_ & H4 & _).
  split; [etransitivity; [exact (proj2 (H1 _ eq_refl eq_refl))|vm_compute; reflexivity]|].
  split; [etransitivity; [exact (proj2 (H2 _ eq_refl eq_refl))|vm_compute; reflexivity]|].
  split; [etransitivity; [exact (proj2 (H3 _ eq_refl eq_refl))|vm_compute; reflexivity]|].
  etransitivity; [exact (proj2 (H4 (or_introl eq_refl)))|vm_compute; reflexivity].
Defined.

(** The timer path in general: whatever the state, a [send] with a signal
    that is settled by its own timer is rejected with [OperationTimeoutError],
    loses its entry and keeps its abort listener. *)
Lemma timeout_path_keeps_the_abort_listener st t sig d :
  is_aborted sig st = false ->
  let sc := mkSendScope (length (promises st)) (id d) (Some sig) in
  let sent := (send (Some (mkAwaitableSendOptions t (Some sig))) true d st).2 in
  let timed_out := timerFires (length (timers st)) sent in
  promises timed_out = promises st ++ [[Js.Rejected OperationTimeoutError]]
  /\ Js.Map.get (id d) (deliveryDispositionMap timed_out) = None
  /\ abortListeners timed_out = abortListeners st ++ [(sig, OnAbort sc)].
Proof.
  intros Hab sc sent timed_out. subst sc sent timed_out.
  unfold send, Js.newPromise, Js.setTimeout. simpl.
  unfold is_aborted in *. simpl. rewrite Hab. simpl.
  unfold timerFires, Js.fire. simpl.
  rewrite lookup_app_r, Nat.sub_diag by lia. simpl.
  split; [|split].
  - apply settle_new.
  - apply get_delete_eq.
  - reflexivity.
Qed.

(** Claim C1, where the code departs from it.  A [send] is given an abort
    signal and is then settled by one of three paths.  On the timer path the
    promise is rejected once with [OperationTimeoutError], the entry is
    deleted and the timer is off, but [onAbort] is still registered on the
    signal; on the disposition path and on the abort path the listener is
    removed. *)
Theorem C1_timeout_path_keeps_the_abort_listener :
  abortListeners (run (constructor default_options) [Send with_signal true first_delivery])
  = [(7, OnAbort first_scope)]
  /\ (promises (run (constructor default_options)
                  [Send with_signal true first_delivery; TimerFires 0])
      = [[Js.Rejected OperationTimeoutError]]
      /\ deliveryDispositionMap (run (constructor default_options)
                  [Send with_signal true first_delivery; TimerFires 0]) = []
      /\ timers (run (constructor default_options)
                  [Send with_signal true first_delivery; TimerFires 0]) = [Js.Fired]
      /\ abortListeners (run (constructor default_options)
                  [Send with_signal true first_delivery; TimerFires 0])
         = [(7, OnAbort first_scope)])
  /\ (promises (run (constructor default_options)
                  [Send with_signal true first_delivery;
                   Emit This SenderEvents.accepted
                     (mkEventContext first_delivery None None)])
      = [[Js.Resolved first_delivery]]
      /\ abortListeners (run (constructor default_options)
                  [Send with_signal true first_delivery;
                   Emit This SenderEvents.accepted
                     (mkEventContext first_delivery None None)]) = [])
  /\ (promises (run (constructor default_options)
                  [Send with_signal true first_delivery; SignalAborts 7])
      = [[Js.Rejected (AbortError "Send request has been cancelled.")]]
      /\ abortListeners (run (constructor default_options)
                  [Send with_signal true first_delivery; SignalAborts 7]) = []).
Proof. vm_compute. repeat split; reflexivity. Qed.

End SenderTheorems.

End SenderProofs.


(* ===================================================================== *)
(** * Connection and session: guarded operations and re-emission *)
(* ===================================================================== *)

Module LifecycleProofs.
Import Rhea Lifecycle JsFacts.

(** Claim C9.  [emitEvent] either defers or emits: when the name of the
    event contains [error] and the [actionInitiated] counter of the emitter is
    greater than zero, nothing is emitted now and a timer without delay is
    started whose callback emits the event on the wrapper; in every other
    case the event is emitted on the wrapper within the call and no timer is
    started. *)
Theorem C9_emitEvent_defers_errors_during_actions params w :
  let w' := emitEvent params w in
  (Js.contains "error" (eventName params)
   /\ (0 < actionInitiated (emitter params) w)%Z
   /\ emitted w' = emitted w
   /\ timers w' = timers w ++ [Js.Armed 0 (EmitLater params)]
   /\ emitted (timerFires (length (timers w)) w') = emitted w ++ [params])
  \/
  (~ (Js.contains "error" (eventName params)
      /\ (0 < actionInitiated (emitter params) w)%Z)
   /\ emitted w' = emitted w ++ [params]
   /\ timers w' = timers w).
Proof.
  intros w'. subst w'. unfold emitEvent.
  destruct (Js.indexOf (eventName params) "error" =? -1)%Z eqn:Hidx; simpl.
  - right. split; [|split; reflexivity].
    intros [Hc _]. apply Z.eqb_eq in Hidx.
    apply indexOf_contains in Hc; [contradiction|discriminate].
  - apply Z.eqb_neq in Hidx.
    destruct (actionInitiated (emitter params) w >? 0)%Z eqn:Hact.
    + left. apply Z.gtb_lt in Hact.
      split; [apply indexOf_contains; [discriminate|exact Hidx]|].
      split; [exact Hact|]. split; [reflexivity|]. split; [reflexivity|].
      unfold timerFires, Js.fire, setTimeout; simpl.
      rewrite lookup_app_r by lia. rewrite Nat.sub_diag. simpl. reflexivity.
    + right. split; [|split; reflexivity].
      intros [_ Hpos]. apply Z.gtb_lt in Hpos. congruence.
Qed.

(** Claim C10.  [open] on a connection that is open returns a promise
    already resolved with the connection, and [close] on a connection that is
    not open returns a promise already resolved; nothing else changes: no
    call is made on the engine (no connect, no close, no listener), no timer
    is started and no abort listener is added. *)
Theorem C10_open_when_open_and_close_when_closed_resolve_at_once options w :
  let opened := Connection.open options true w in
  let closed := Connection.close options false w in
  (opened = (length (promises w),
             with_promises (promises w ++ [[Js.Resolved VConnection]]) w)
   /\ engine opened.2 = engine w
   /\ listeners opened.2 = listeners w
   /\ timers opened.2 = timers w
   /\ abortListeners opened.2 = abortListeners w)
  /\ (closed = (length (promises w),
                with_promises (promises w ++ [[Js.Resolved VUndefined]]) w)
      /\ engine closed.2 = engine w
      /\ listeners closed.2 = listeners w
      /\ timers closed.2 = timers w
      /\ abortListeners closed.2 = abortListeners w).
Proof.
  unfold Connection.open, Connection.close, newPromise, Js.newPromise, settle. simpl.
  rewrite !settle_new. repeat split; reflexivity.
Qed.

(** Claim C8.  When the options of [createReceiver] give exactly one of
    [onMessage] and [onError] and [credit_window] is not [0], the promise
    returned is already rejected with the error that asks for both handlers;
    nothing else changes: no [attach_receiver] and no other call is made on
    the engine, no link, listener or timer is created. *)
Theorem C8_createReceiver_rejects_a_lone_handler s o w :
  (is_Some (r_onMessage o) /\ r_onError o = None
   \/ is_Some (r_onError o) /\ r_onMessage o = None) ->
  r_credit_window o <> Some 0%Z ->
  let r := Session.createReceiver s (Some o) w in
  r = (length (promises w),
       with_promises
         (promises w ++ [[Js.Rejected (JsError Session.handlers_message)]]) w)
  /\ engine r.2 = engine w
  /\ links r.2 = links w
  /\ listeners r.2 = listeners w
  /\ wrapper_listeners r.2 = wrapper_listeners w
  /\ timers r.2 = timers w.
Proof.
  intros Hone Hcw. unfold Session.createReceiver, newPromise, Js.newPromise, settle.
  assert (Session.one_handler_only (Some o) = true) as ->.
  { unfold Session.one_handler_only.
    destruct Hone as [[[x ->] ->]|[[x ->] ->]]; reflexivity. }
  assert (Session.credit_window_not_zero o = true) as ->.
  { unfold Session.credit_window_not_zero.
    rewrite bool_decide_eq_false_2 by exact Hcw. reflexivity. }
  simpl. rewrite settle_new. repeat split; reflexivity.
Qed.

(** Claim C8 on a fresh connection, with [onMessage] only. *)
Lemma C8_witness :
  (Session.createReceiver 0 (Some onMessage_only) (Connection.constructor None)).2.(promises)
  = [[Js.Rejected (JsError Session.handlers_message)]]
  /\ engine (Session.createReceiver 0 (Some onMessage_only) (Connection.constructor None)).2
     = engine (Connection.constructor None).
Proof.
  destruct (C8_createReceiver_rejects_a_lone_handler 0 onMessage_only
              (Connection.constructor None)) as (H1 & H2 & _).
  - left. split; [eexists; reflexivity|reflexivity].
  - discriminate.
  - rewrite H1. split; [reflexivity|exact H2].
Defined.

Ltac other_listener := let H := fresh in intros H; inversion H.











Section Counting.

Lemma createSession_count w :
  disconnectedListenerCount (Connection.createSession None w).2
  = S (disconnectedListenerCount w).
Proof.
  unfold disconnectedListenerCount, Connection.createSession, newPromise, Js.newPromise.
  simpl. rewrite listenerCount_once.
  repeat rewrite listenerCount_once_other by other_listener.
  repeat rewrite listenerCount_on_other by other_listener.
  reflexivity.
Qed.

Lemma sessionClose_count s w :
  disconnectedListenerCount (Session.close s None true w).2
  = S (disconnectedListenerCount w).
Proof.
  unfold disconnectedListenerCount, Session.close, newPromise, Js.newPromise.
  simpl. rewrite listenerCount_once.
  repeat rewrite listenerCount_once_other by other_listener.
  reflexivity.
Qed.

End Counting.

(** Claim C5, where the code departs from it.  Every [createSession] and
    every [close] of an open session adds a listener of its own for
    [disconnected] to the connection object of the engine: after [n]
    concurrent session creations there are [n] more of them, and after the
    concurrent close of the sessions [ss] there are [length ss] more.  The
    test of the repository expects the number to stay as it was. *)
Theorem C5_one_disconnected_listener_per_pending_operation w n ss :
  disconnectedListenerCount (run w (replicate n (CreateSessionCall None)))
  = disconnectedListenerCount w + n
  /\ disconnectedListenerCount
       (run w ((fun s => SessionCloseCall s None true) <$> ss))
     = disconnectedListenerCount w + length ss.
Proof.
  split.
  - revert w. induction n as [|n IH]; intros w; [simpl; lia|].
    change (run w (replicate (S n) (CreateSessionCall None)))
      with (run (Connection.createSession None w).2 (replicate n (CreateSessionCall None))).
    rewrite IH, createSession_count. lia.
  - revert w. induction ss as [|s ss IH]; intros w; [simpl; lia|].
    change (run w ((fun s => SessionCloseCall s None true) <$> s :: ss))
      with (run (Session.close s None true w).2
              ((fun s => SessionCloseCall s None true) <$> ss)).
    rewrite IH, sessionClose_count. simpl. lia.
Qed.




Section Frame.
Variable p : nat.
Variable w0 : World.

Lemma keeps_refl : unreferenced p w0 -> keeps p w0 w0.
Proof. intros H. split; [exact H|reflexivity]. Qed.

Lemma keeps_engine_call c w : keeps p w0 w -> keeps p w0 (engine_call c w).
Proof. intros [[? ? ? ?] ?]. split; [split|]; assumption. Qed.

Lemma keeps_add_actionInitiated e k w :
  keeps p w0 w -> keeps p w0 (add_actionInitiated e k w).
Proof. intros [[? ? ? ?] ?]. destruct e; (split; [split|]; assumption). Qed.

Lemma keeps_wrapper_on t ev h w : keeps p w0 w -> keeps p w0 (wrapper_on t ev h w).
Proof. intros [[? ? ? ?] ?]. split; [split|]; assumption. Qed.

Lemma keeps_finally s w : keeps p w0 w -> keeps p w0 (finally s w).
Proof. intros [[? ? ? ?] ?]. split; [split|]; assumption. Qed.

Lemma keeps_with_sessions x w : keeps p w0 w -> keeps p w0 (with_sessions x w).
Proof. intros [[? ? ? ?] ?]. split; [split|]; assumption. Qed.

Lemma keeps_with_links x w : keeps p w0 w -> keeps p w0 (with_links x w).
Proof. intros [[? ? ? ?] ?]. split; [split|]; assumption. Qed.

Lemma keeps_with_emitted x w : keeps p w0 w -> keeps p w0 (with_emitted x w).
Proof. intros [[? ? ? ?] ?]. split; [split|]; assumption. Qed.

Lemma keeps_with_aborted x w : keeps p w0 w -> keeps p w0 (with_aborted x w).
Proof. intros [[? ? ? ?] ?]. split; [split|]; assumption. Qed.

Lemma keeps_once t ev f w :
  keeps p w0 w -> ~ guards p f -> keeps p w0 (once t ev f w).
Proof.
  intros [[? Hl ? ?] ?] Hf. split; [split|]; try assumption.
  simpl. unfold Js.once. apply Forall_app. split; [assumption|].
  constructor; [exact Hf|constructor].
Qed.

Lemma keeps_on t ev f w :
  keeps p w0 w -> ~ guards p f -> keeps p w0 (on t ev f w).
Proof.
  intros [[? Hl ? ?] ?] Hf. split; [split|]; try assumption.
  simpl. unfold Js.on. apply Forall_app. split; [assumption|].
  constructor; [exact Hf|constructor].
Qed.

Lemma keeps_removeListener t ev f w :
  keeps p w0 w -> keeps p w0 (removeListener t ev f w).
Proof.
  intros [[? Hl ? ?] ?]. split; [split|]; try assumption.
  simpl. apply Forall_remove_last. assumption.
Qed.

Lemma keeps_removeWrapper r w :
  keeps p w0 w -> keeps p w0 (with_listeners (Js.removeWrapper r (listeners w)) w).
Proof.
  intros [[? Hl ? ?] ?]. split; [split|]; try assumption.
  simpl. apply Forall_remove_last. assumption.
Qed.

Lemma keeps_setTimeout f ms w :
  keeps p w0 w -> ~ guards p f -> keeps p w0 (setTimeout f ms w).
Proof.
  intros [[? ? Ht ?] ?] Hf. split; [split|]; try assumption.
  simpl. apply Forall_app. split; [assumption|].
  constructor; [exact Hf|constructor].
Qed.

Lemma keeps_clearTimeout h w : keeps p w0 w -> keeps p w0 (clearTimeout h w).
Proof.
  intros [[? ? Ht ?] ?]. split; [split|]; try assumption.
  simpl. unfold Js.clearTimeout.
  destruct (timers w !! h) as [[ms f| |]|]; try assumption.
  apply Forall_insert; [assumption|exact I].
Qed.

Lemma keeps_fired h w :
  keeps p w0 w -> keeps p w0 (with_timers (<[h := Js.Fired]> (timers w)) w).
Proof.
  intros [[? ? Ht ?] ?]. split; [split|]; try assumption.
  simpl. apply Forall_insert; [assumption|exact I].
Qed.

Lemma keeps_addEventListener s f w :
  keeps p w0 w -> ~ guards p f -> keeps p w0 (addEventListener s f w).
Proof.
  intros [[? ? ? Ha] ?] Hf. split; [split|]; try assumption.
  simpl. apply Forall_app. split; [assumption|].
  constructor; [exact Hf|constructor].
Qed.

Lemma keeps_removeEventListener s f w :
  keeps p w0 w -> keeps p w0 (removeEventListener s f w).
Proof.
  intros [[? ? ? Ha] ?]. split; [split|]; try assumption.
  simpl. apply Forall_forall. intros x Hx.
  apply list_elem_of_filter in Hx as [_ Hx]. revert x Hx.
  apply Forall_forall. assumption.
Qed.

Lemma keeps_settle q x w :
  keeps p w0 w -> q <> p -> keeps p w0 (settle q x w).
Proof.
  intros [[Hlt ? ? ?] Hp] Hq. split; [split|]; try assumption.
  - simpl. unfold Js.settle. rewrite length_alter. assumption.
  - simpl. unfold Js.settle. rewrite list_lookup_alter_ne by exact Hq. exact Hp.
Qed.

Lemma keeps_newPromise w :
  keeps p w0 w -> keeps p w0 (newPromise w).2 /\ (newPromise w).1 <> p.
Proof.
  intros [[Hlt ? ? ?] Hp]. unfold newPromise, Js.newPromise. simpl. split.
  - split; [split|]; try assumption.
    + simpl. rewrite length_app. simpl. lia.
    + simpl. rewrite lookup_app_l by exact Hlt. exact Hp.
  - intros Heq. simpl in Heq. lia.
Qed.

End Frame.

Ltac frame_side :=
  match goal with
  | |- ~ guards _ _ => simpl; try tauto; try congruence; try lia
  | |- _ <> _ => simpl; try congruence; try lia
  end.

Ltac frame_step :=
  lazymatch goal with
  | |- keeps _ _ (engine_call _ _) => apply keeps_engine_call
  | |- keeps _ _ (add_actionInitiated _ _ _) => apply keeps_add_actionInitiated
  | |- keeps _ _ (wrapper_on _ _ _ _) => apply keeps_wrapper_on
  | |- keeps _ _ (finally _ _) => apply keeps_finally
  | |- keeps _ _ (with_sessions _ _) => apply keeps_with_sessions
  | |- keeps _ _ (with_links _ _) => apply keeps_with_links
  | |- keeps _ _ (with_emitted _ _) => apply keeps_with_emitted
  | |- keeps _ _ (with_aborted _ _) => apply keeps_with_aborted
  | |- keeps _ _ (removeListener _ _ _ _) => apply keeps_removeListener
  | |- keeps _ _ (clearTimeout _ _) => apply keeps_clearTimeout
  | |- keeps _ _ (removeEventListener _ _ _) => apply keeps_removeEventListener
  | |- keeps _ _ (once _ _ _ _) => apply keeps_once; [|frame_side]
  | |- keeps _ _ (on _ _ _ _) => apply keeps_on; [|frame_side]
  | |- keeps _ _ (setTimeout _ _ _) => apply keeps_setTimeout; [|frame_side]
  | |- keeps _ _ (addEventListener _ _ _) => apply keeps_addEventListener; [|frame_side]
  | |- keeps _ _ (settle _ _ _) => apply keeps_settle; [|frame_side]
  end.

Ltac frame := repeat frame_step; try eassumption.

Section FrameClosures.
Variable p : nat.
Variable w0 : World.

Lemma keeps_removeListeners sc w :
  keeps p w0 w -> keeps p w0 (removeListeners sc w).
Proof.
  intros H. unfold removeListeners, removeAbortListener.
  destruct (abortSignal sc); destruct (op sc); frame.
Qed.

Lemma keeps_after_removeListeners sc r ctx w :
  keeps p w0 w -> promise sc <> p -> keeps p w0 (after_removeListeners sc r ctx w).
Proof.
  intros H Hp. unfold after_removeListeners.
  destruct (op sc), r; frame.
Qed.

Lemma keeps_emitEvent params w : keeps p w0 w -> keeps p w0 (emitEvent params w).
Proof.
  intros H. unfold emitEvent, emit_translated.
  destruct (_ && _); frame.
Qed.

Lemma keeps_call_closure f ctx w :
  keeps p w0 w -> ~ guards p f -> keeps p w0 (call_closure f ctx w).
Proof.
  intros H Hf. destruct f as [sc r|e type ev|params]; simpl.
  - destruct (defines (op sc) r); [|exact H].
    apply keeps_after_removeListeners; [|exact Hf].
    apply keeps_removeListeners. exact H.
  - apply keeps_emitEvent. exact H.
  - unfold emit_translated. frame.
Qed.

Lemma keeps_watchAbortSignal sc w :
  keeps p w0 w -> promise sc <> p -> keeps p w0 (watchAbortSignal sc w).
Proof.
  intros H Hp. unfold watchAbortSignal.
  destruct (abortSignal sc) as [s|]; [|exact H].
  destruct (is_aborted s w).
  - apply keeps_call_closure; [exact H|exact Hp].
  - frame.
Qed.

End FrameClosures.

Section FrameSteps.
Variable p : nat.
Variable w0 : World.
Hypothesis Hw0 : unreferenced p w0.

Ltac start_op :=
  let q := fresh "q" in let w1 := fresh "w1" in
  let Hk := fresh "Hk" in let Hq := fresh "Hq" in
  destruct (keeps_newPromise p w0 w0 (keeps_refl p w0 Hw0)) as [Hk Hq];
  destruct (newPromise w0) as [q w1]; simpl in Hk, Hq.

Lemma keeps_open options isOpen : keeps p w0 (Connection.open options isOpen w0).2.
Proof.
  unfold Connection.open. start_op.
  destruct isOpen; cbv beta iota zeta delta [negb snd]; [frame|].
  apply keeps_watchAbortSignal; [frame|exact Hq].
Qed.

Lemma keeps_close options isOpen : keeps p w0 (Connection.close options isOpen w0).2.
Proof.
  unfold Connection.close. start_op.
  destruct isOpen; cbv beta iota zeta delta [negb snd]; [|frame].
  apply keeps_watchAbortSignal; [frame|exact Hq].
Qed.

Lemma keeps_Session_constructor s w :
  keeps p w0 w -> keeps p w0 (Session.constructor s w).
Proof.
  intros H. unfold Session.constructor, Session._initializeEventListeners.
  cbn [foldl]. frame.
Qed.

Lemma keeps_createSession options : keeps p w0 (Connection.createSession options w0).2.
Proof.
  unfold Connection.createSession. start_op. cbv beta iota zeta delta [snd].
  apply keeps_watchAbortSignal; [|exact Hq].
  frame. apply keeps_Session_constructor. frame.
Qed.

Lemma keeps_Session_close s options isOpen :
  keeps p w0 (Session.close s options isOpen w0).2.
Proof.
  unfold Session.close. start_op.
  destruct isOpen; cbv beta iota zeta delta [negb snd]; [|frame].
  apply keeps_watchAbortSignal; [frame|exact Hq].
Qed.

Lemma keeps_createReceiver s options :
  keeps p w0 (Session.createReceiver s options w0).2.
Proof.
  unfold Session.createReceiver. start_op.
  destruct (_ && _); cbv beta iota zeta delta [snd]; [frame|].
  apply keeps_watchAbortSignal; [frame|exact Hq].
Qed.

Lemma keeps_createSender s type options :
  keeps p w0 (Session._createSender s type options w0).2.
Proof.
  unfold Session._createSender. start_op. cbv beta iota zeta delta [snd].
  apply keeps_watchAbortSignal; [|exact Hq].
  destruct type; frame.
Qed.

Lemma keeps_closures {A} (fs : list A) (run1 : World -> A -> World) :
  (forall w a, a ∈ fs -> keeps p w0 w -> keeps p w0 (run1 w a)) ->
  forall w, keeps p w0 w -> keeps p w0 (foldl run1 w fs).
Proof.
  induction fs as [|a fs IH]; intros Hrun w Hk; [exact Hk|].
  cbn [foldl]. apply IH.
  - intros w' a' Hin. apply Hrun. right. exact Hin.
  - apply Hrun; [left|exact Hk].
Qed.

Lemma keeps_emit t ev ctx : keeps p w0 (emit t ev ctx w0).
Proof.
  unfold emit. apply keeps_closures; [|apply keeps_refl; exact Hw0].
  intros w r Hin Hk.
  apply keeps_call_closure.
  - destruct (Js.once_flag r); [apply keeps_removeWrapper|]; exact Hk.
  - apply list_elem_of_filter in Hin as [_ Hin].
    pose proof (unref_listeners _ _ Hw0) as Hl.
    rewrite Forall_forall in Hl. exact (Hl _ Hin).
Qed.

Lemma keeps_timerFires h : keeps p w0 (timerFires h w0).
Proof.
  unfold timerFires, Js.fire.
  destruct (timers w0 !! h) as [[ms f| |]|] eqn:Hh; try (apply keeps_refl; exact Hw0).
  apply keeps_call_closure; [apply keeps_fired, keeps_refl; exact Hw0|].
  pose proof (unref_timers _ _ Hw0) as Ht. rewrite Forall_lookup in Ht.
  exact (Ht _ _ Hh).
Qed.

Lemma keeps_signalAborts s : keeps p w0 (signalAborts s w0).
Proof.
  unfold signalAborts. destruct (is_aborted s w0); [apply keeps_refl; exact Hw0|].
  apply keeps_closures; [|apply keeps_with_aborted, keeps_refl; exact Hw0].
  intros w sf Hin Hk. apply keeps_call_closure; [exact Hk|].
  apply list_elem_of_filter in Hin as [_ Hin].
  pose proof (unref_abort _ _ Hw0) as Ha. rewrite Forall_forall in Ha.
  exact (Ha _ Hin).
Qed.

Lemma keeps_step e : keeps p w0 (step w0 e).
Proof.
  destruct e; cbn [step].
  - apply keeps_open.
  - apply keeps_close.
  - apply keeps_createSession.
  - apply keeps_Session_close.
  - apply keeps_createReceiver.
  - apply keeps_createSender.
  - apply keeps_emit.
  - apply keeps_timerFires.
  - apply keeps_signalAborts.
Qed.

End FrameSteps.

(** A promise no function refers to any more is never settled. *)
Lemma unreferenced_forever p evs : forall w,
  unreferenced p w ->
  promises (run w evs) !! p = promises w !! p.
Proof.
  induction evs as [|e evs IH]; intros w Hw; [reflexivity|].
  destruct (keeps_step p w Hw e) as [Hw' Hp].
  change (run w (e :: evs)) with (run (step w e) evs).
  rewrite (IH _ Hw'). exact Hp.
Qed.

(** Claim C6, where the code departs from it.  [close] is called on an
    open connection (on an open session) and the engine emits [disconnected]
    before anything else: the timer of the operation is cleared, its
    listeners are gone, and the promise it returned is neither resolved nor
    rejected, whatever events [evs] follow. *)
Theorem C6_disconnect_during_close_leaves_the_promise_pending_forever evs :
  let w0 := Connection.constructor None in
  let w1 := run w0 connection_close_then_disconnect in
  let w2 := run w0 session_close_then_disconnect in
  (promises w1 = [[]]
   /\ timers w1 = [Js.Cleared]
   /\ listeners w1 = listeners w0
   /\ abortListeners w1 = []
   /\ promises (run w1 evs) !! 0 = Some [])
  /\ (promises w2 = [[Js.Resolved (VSession 0)]; []]
      /\ timers w2 = [Js.Cleared; Js.Cleared]
      /\ listeners w2 = listeners (Session.constructor 0 w0)
      /\ abortListeners w2 = []
      /\ promises (run w2 evs) !! 1 = Some []).
Proof.
  intros w0 w1 w2.
  assert (H1 : unreferenced 0 w1).
  { split; vm_compute; [lia| |repeat constructor|constructor].
    repeat constructor; tauto. }
  assert (H2 : unreferenced 1 w2).
  { split; vm_compute; [lia| |repeat constructor|constructor].
    repeat constructor; tauto. }
  rewrite (unreferenced_forever 0 evs w1 H1), (unreferenced_forever 1 evs w2 H2).
  vm_compute. repeat split; reflexivity.
Qed.

End LifecycleProofs.


(* ===================================================================== *)
(** * Facts about lib/util/utils.js *)
(* ===================================================================== *)

Module UtilsProofs.
Import JsString Utils JsFacts.

(** ** Strings *)

Lemma append_nil_r s : (s +:+ "")%string = s.
Proof. induction s as [|a s IH]; [reflexivity|]. rewrite append_cons, IH. reflexivity. Qed.

Lemma append_assoc s t u : ((s +:+ t) +:+ u) = (s +:+ (t +:+ u)).
Proof.
  induction s as [|a s IH]; [reflexivity|].
  rewrite !append_cons, IH. reflexivity.
Qed.

Lemma length_append s t :
  String.length (s +:+ t) = String.length s + String.length t.
Proof.
  induction s as [|a s IH]; [reflexivity|].
  rewrite append_cons. cbn [String.length]. rewrite IH. reflexivity.
Qed.

Lemma has_char_cons c a s :
  has_char c (String a s) = Ascii.eqb c a || has_char c s.
Proof. reflexivity. Qed.

Lemma has_char_append c s t :
  has_char c (s +:+ t) = has_char c s || has_char c t.
Proof.
  induction s as [|a s IH]; [reflexivity|].
  rewrite append_cons, !has_char_cons, IH, orb_assoc. reflexivity.
Qed.

Lemma prefix_other c p a s : Ascii.eqb c a = false -> String.prefix (String c p) (String a s) = false.
Proof.
  intros H. cbn [String.prefix]. destruct (Ascii.ascii_dec c a) as [->|]; [|reflexivity].
  rewrite Ascii.eqb_refl in H. discriminate.
Qed.

Lemma prefix_append p s : String.prefix p (p +:+ s) = true.
Proof.
  induction p as [|a p IH]; [rewrite append_nil_l; destruct s; reflexivity|].
  rewrite append_cons. cbn [String.prefix].
  destruct (Ascii.ascii_dec a a); [exact IH|congruence].
Qed.

(** ** [indexOf] *)

Lemma index_absent c rest s :
  has_char c s = false -> String.index 0 (String c rest) s = None.
Proof.
  induction s as [|a s IH]; [reflexivity|].
  rewrite has_char_cons. intros [Ha Hs]%orb_false_elim.
  cbn [String.index]. rewrite (prefix_other _ _ _ _ Ha), (IH Hs). reflexivity.
Qed.

Lemma index_first c rest k v :
  has_char c k = false ->
  String.index 0 (String c rest) (k +:+ (String c rest +:+ v)) = Some (String.length k).
Proof.
  induction k as [|a k IH].
  - intros _. rewrite append_nil_l, append_cons. cbn [String.index].
    rewrite <- append_cons, prefix_append. reflexivity.
  - rewrite has_char_cons. intros [Ha Hk]%orb_false_elim.
    rewrite append_cons. cbn [String.index].
    rewrite (prefix_other _ _ _ _ Ha), (IH Hk). reflexivity.
Qed.

Lemma indexOf_absent c rest s :
  has_char c s = false -> Js.indexOf s (String c rest) = (-1)%Z.
Proof. intros H. unfold Js.indexOf. rewrite (index_absent _ _ _ H). reflexivity. Qed.

Lemma indexOf_first c rest k v :
  has_char c k = false ->
  Js.indexOf (k +:+ (String c rest +:+ v)) (String c rest) = Z.of_nat (String.length k).
Proof. intros H. unfold Js.indexOf. rewrite (index_first _ _ _ _ H). reflexivity. Qed.

(** ** [substring] *)

Lemma substring_whole s : String.substring 0 (String.length s) s = s.
Proof. induction s as [|a s IH]; [reflexivity|]. cbn. rewrite IH. reflexivity. Qed.

Lemma substring_none s : String.substring 0 0 s = ""%string.
Proof. destruct s; reflexivity. Qed.

Lemma substring_head k t :
  String.substring 0 (String.length k) (k +:+ t) = k.
Proof.
  induction k as [|a k IH]; [apply substring_none|].
  rewrite append_cons. cbn. rewrite IH. reflexivity.
Qed.

Lemma substring_tail k t :
  String.substring (String.length k) (String.length t) (k +:+ t) = t.
Proof.
  induction k as [|a k IH]; [rewrite append_nil_l; apply substring_whole|].
  rewrite append_cons. cbn. exact IH.
Qed.

Lemma clamp_low len i : (i <= 0)%Z -> clamp len i = 0.
Proof. unfold clamp. lia. Qed.

Lemma clamp_in len n : n <= len -> clamp len (Z.of_nat n) = n.
Proof. unfold clamp. lia. Qed.

Lemma substring_before_nothing s : substring s 0 (Some (-1)%Z) = ""%string.
Proof.
  unfold substring. rewrite !clamp_low by lia. apply substring_none.
Qed.

Lemma substring_from_start s : substring s 0 None = s.
Proof.
  unfold substring. rewrite clamp_low by lia.
  rewrite Nat.min_0_l, Nat.max_0_l, Nat.sub_0_r. apply substring_whole.
Qed.

Lemma substring_key k t :
  substring (k +:+ t) 0 (Some (Z.of_nat (String.length k))) = k.
Proof.
  unfold substring. rewrite clamp_low by lia.
  rewrite clamp_in by (rewrite length_append; lia).
  rewrite Nat.min_0_l, Nat.max_0_l, Nat.sub_0_r. apply substring_head.
Qed.

Lemma substring_value k c t :
  substring (k +:+ String c t) (Z.of_nat (String.length k) + 1) None = t.
Proof.
  unfold substring.
  replace (Z.of_nat (String.length k) + 1)%Z
    with (Z.of_nat (String.length (k +:+ String c ""))) 
    by (rewrite length_append; cbn [String.length]; lia).
  replace (k +:+ String c t) with ((k +:+ String c "") +:+ t)
    by (rewrite append_assoc; reflexivity).
  rewrite clamp_in by (rewrite (length_append (k +:+ String c "")); lia).
  rewrite Nat.min_l, Nat.max_r by (rewrite (length_append (k +:+ String c "")); lia).
  replace (String.length ((k +:+ String c "") +:+ t) - String.length (k +:+ String c ""))
    with (String.length t) by (rewrite (length_append (k +:+ String c "")); lia).
  apply substring_tail.
Qed.

(** ** [split] *)

Lemma split_from_last c p : forall cur,
  has_char c p = false ->
  split_from (String c "") 0 cur p = [cur +:+ p].
Proof.
  induction p as [|a p IH]; intros cur.
  - intros _. cbn. rewrite append_nil_r. reflexivity.
  - rewrite has_char_cons. intros [Ha Hp]%orb_false_elim.
    cbn [split_from]. rewrite (prefix_other _ _ _ _ Ha), (IH _ Hp), append_assoc.
    reflexivity.
Qed.

Lemma split_from_next c p rest : forall cur,
  has_char c p = false ->
  split_from (String c "") 0 cur (p +:+ String c rest)
  = (cur +:+ p) :: split_from (String c "") 0 "" rest.
Proof.
  induction p as [|a p IH]; intros cur.
  - intros _. rewrite append_nil_l, append_nil_r. cbn [split_from String.prefix].
    destruct (Ascii.ascii_dec c c); [|congruence].
    destruct rest; reflexivity.
  - rewrite has_char_cons. intros [Ha Hp]%orb_false_elim.
    rewrite append_cons. cbn [split_from].
    rewrite (prefix_other _ _ _ _ Ha), (IH _ Hp), append_assoc. reflexivity.
Qed.

Lemma split_concat c parts :
  parts <> [] ->
  Forall (fun p => has_char c p = false) parts ->
  split (String.concat (String c "") parts) (String c "") = parts.
Proof.
  unfold split. induction parts as [|p parts IH]; [congruence|].
  intros _ Hall. inversion Hall as [|? ? Hp Hparts]; subst.
  destruct parts as [|q parts].
  - cbn [String.concat]. rewrite (split_from_last _ _ _ Hp). reflexivity.
  - change (String.concat (String c "") (p :: q :: parts))
      with (p +:+ (String c "" +:+ String.concat (String c "") (q :: parts))).
    rewrite append_cons, append_nil_l, (split_from_next _ _ _ _ Hp), append_nil_l.
    rewrite IH; [reflexivity|congruence|exact Hparts].
Qed.

(** ** [parseConnectionString] *)

Lemma foldl_snoc {A B} (f : A -> B -> A) a l x :
  foldl f a (l ++ [x]) = f (foldl f a l) x.
Proof. rewrite foldl_app. reflexivity. Qed.

Lemma parse_part k v :
  has_char "=" k = false ->
  let part := (k +:+ ("=" +:+ v))%string in
  substring part 0 (Some (Js.indexOf part "=")) = k
  /\ substring part (Js.indexOf part "=" + 1) None = v.
Proof.
  intros Hk part. unfold part.
  rewrite (indexOf_first "=" "" k v Hk). split.
  - apply substring_key.
  - rewrite append_cons, append_nil_l. apply substring_value.
Qed.

(** Round trip.  A connection string written out from a list of entries
    that is not empty, with the default separators, parses back to the
    entries, a later entry for a key replacing an earlier one; the keys hold
    neither separator and are not [__proto__], the values hold no entity
    separator (they may hold the key-value separator). *)
Theorem parseConnectionString_reads_back_what_was_written entries :
  entries <> [] ->
  forallb plain_entry entries = true ->
  parseConnectionString (connectionStringOf entries) None
  = list_to_map (reverse entries).
Proof.
  intros Hne Hall. unfold parseConnectionString, connectionStringOf.
  cbn [mbind option_bind or_else].
  rewrite split_concat.
  - clear Hne. induction entries as [|[k v] entries IH] using rev_ind; [reflexivity|].
    rewrite forallb_app in Hall. apply andb_prop in Hall as [Hall Hkv].
    cbn [forallb] in Hkv. rewrite andb_true_r in Hkv.
    unfold plain_entry in Hkv. cbn [fst snd] in Hkv.
    apply andb_prop in Hkv as [Hkv Hproto]. apply andb_prop in Hkv as [Hkv _].
    apply andb_prop in Hkv as [_ Hk]. apply negb_true_iff in Hk, Hproto.
    rewrite fmap_app, foldl_app, (IH Hall), reverse_snoc.
    cbn [fmap list_fmap foldl fst snd list_to_map foldr uncurry].
    destruct (parse_part k v Hk) as [-> ->].
    unfold assign. rewrite Hproto. reflexivity.
  - destruct entries; [congruence|discriminate].
  - apply Forall_fmap, Forall_forall. intros [k v] Hin.
    unfold compose. cbn [fst snd].
    rewrite forallb_forall in Hall.
    pose proof (Hall (k, v) (proj1 (list_elem_of_In _ _) Hin)) as Hkv.
    unfold plain_entry in Hkv. cbn [fst snd] in Hkv.
    apply andb_prop in Hkv as [Hkv _]. apply andb_prop in Hkv as [Hkv Hv].
    apply andb_prop in Hkv as [Hk _]. apply negb_true_iff in Hk, Hv.
    rewrite !has_char_append, Hk, Hv. reflexivity.
Qed.

Lemma parseConnectionString_round_trip_witness :
  parseConnectionString
    (connectionStringOf [("Endpoint", "sb://host/"); ("Key", "a=b"); ("Endpoint", "sb://other/")])
    None
  = list_to_map (reverse [("Endpoint", "sb://host/"); ("Key", "a=b"); ("Endpoint", "sb://other/")]).
Proof.
  apply parseConnectionString_reads_back_what_was_written; [discriminate|reflexivity].
Defined.

(** A connection string that holds neither of the default separators is
    not rejected: it is returned whole as the value of the property whose
    name is the empty string.  The empty connection string gives that
    property too, with the empty value, and not the empty object. *)
Theorem parseConnectionString_without_separators s :
  has_char ";" s = false ->
  has_char "=" s = false ->
  parseConnectionString s None = {[ ""%string := s ]}.
Proof.
  intros Hs He. unfold parseConnectionString. cbn [mbind option_bind or_else].
  unfold split. rewrite (split_from_last _ _ _ Hs), append_nil_l. cbn [foldl].
  rewrite (indexOf_absent _ _ _ He), substring_before_nothing.
  change (-1 + 1)%Z with 0%Z. rewrite substring_from_start.
  reflexivity.
Qed.

Lemma parseConnectionString_without_separators_witness :
  parseConnectionString "" None = {[ ""%string := ""%string ]}.
Proof. apply parseConnectionString_without_separators; reflexivity. Defined.

(** The value of an entry starts one character after the place where the
    key-value separator starts, however long the separator is: with a
    separator of several characters, all of them but the first stay at the
    front of the value. *)
Theorem parseConnectionString_long_separator_stays_in_value k c rest v :
  let separator := String c rest in
  has_char c k = false ->
  has_char ";" (k +:+ (separator +:+ v)) = false ->
  k <> "__proto__"%string ->
  parseConnectionString (k +:+ (separator +:+ v))
    (Some (mkConnectionStringParseOptions None (Some separator)))
  = {[ k := (rest +:+ v)%string ]}.
Proof.
  intros separator Hk Hs Hproto. unfold parseConnectionString.
  cbn [mbind option_bind or_else Utils.entitySeperator Utils.keyValueSeparator].
  unfold split. rewrite (split_from_last _ _ _ Hs), append_nil_l. cbn [foldl].
  unfold separator. rewrite (indexOf_first c rest k v Hk), substring_key.
  rewrite append_cons, substring_value.
  unfold assign. apply String.eqb_neq in Hproto. rewrite Hproto. reflexivity.
Qed.

Lemma parseConnectionString_long_separator_witness :
  parseConnectionString "name::value"
    (Some (mkConnectionStringParseOptions None (Some "::"%string)))
  = {[ "name"%string := ":value"%string ]}.
Proof.
  apply (parseConnectionString_long_separator_stays_in_value "name" ":" ":" "value");
    [reflexivity|reflexivity|discriminate].
Defined.

(** Whatever the connection string and the separators, the object returned
    has no property named [__proto__]. *)
Theorem parseConnectionString_never_sets_proto s options :
  parseConnectionString s options !! "__proto__"%string = None.
Proof.
  unfold parseConnectionString.
  generalize (split s (or_else (options ≫= entitySeperator) ";")). intros parts.
  assert (H : (∅ : gmap string string) !! "__proto__"%string = None) by apply lookup_empty.
  revert H. generalize (∅ : gmap string string).
  induction parts as [|part parts IH]; intros acc Hacc; [exact Hacc|].
  cbn [foldl]. apply IH. unfold assign.
  destruct (String.eqb _ "__proto__") eqn:E; [exact Hacc|].
  apply String.eqb_neq in E. rewrite lookup_insert_ne by exact E. exact Hacc.
Qed.

End UtilsProofs.


Module DelayProofs.
Import Delay JsFacts.

Section DelayProofs.
Context {T E : Type}.
Implicit Types h : Host T E.

Lemma tidy_empty : tidy (@empty T E).
Proof. intros x ms p v H. cbn in H. rewrite lookup_nil in H. discriminate. Qed.

Lemma tidy_delay t v h : tidy h -> tidy (delay t v h).2.
Proof.
  intros Hh x ms p v' Hx. cbn in Hx |- *.
  apply lookup_app_Some in Hx as [Hx|[Hlen Hx]].
  - destruct (Hh _ _ _ _ Hx) as [Hp Hu]. split.
    + rewrite lookup_app_l; [exact Hp|]. apply lookup_lt_Some in Hp. exact Hp.
    + intros x' ms' v'' Hx'. apply lookup_app_Some in Hx' as [Hx'|[Hlen' Hx']].
      * exact (Hu _ _ _ Hx').
      * apply list_lookup_singleton_Some in Hx' as [_ Hx'].
        injection Hx' as _ Hp' _. apply lookup_lt_Some in Hp. lia.
  - apply list_lookup_singleton_Some in Hx as [Hx0 Hx].
    injection Hx as _ <- _. split.
    + rewrite lookup_app_r by lia. rewrite Nat.sub_diag. reflexivity.
    + intros x' ms' v'' Hx'. apply lookup_app_Some in Hx' as [Hx'|[Hlen' Hx']].
      * destruct (Hh _ _ _ _ Hx') as [Hp _]. apply lookup_lt_Some in Hp. lia.
      * apply list_lookup_singleton_Some in Hx' as [Hx0' _]. lia.
Qed.

Lemma timerFires_armed x ms p v h :
  timers h !! x = Some (Js.Armed ms (ResolveWith p v)) ->
  timerFires x h
  = mkHost (Js.settle p (Js.Resolved v) (promises h)) (<[x := Js.Fired]> (timers h)).
Proof. intros H. unfold timerFires, Js.fire. rewrite H. reflexivity. Qed.

Lemma timerFires_idle x h :
  (forall ms cb, timers h !! x <> Some (Js.Armed ms cb)) -> timerFires x h = h.
Proof.
  intros H. unfold timerFires, Js.fire.
  destruct (timers h !! x) as [[ms cb| |]|] eqn:Hx; try reflexivity.
  exfalso. exact (H ms cb eq_refl).
Qed.

Lemma tidy_timerFires x h : tidy h -> tidy (timerFires x h).
Proof.
  intros Hh. destruct (timers h !! x) as [[ms [p v]| |]|] eqn:Hx;
    try (rewrite timerFires_idle; [exact Hh|intros ? ?; congruence]).
  rewrite (timerFires_armed _ _ _ _ _ Hx).
  intros y ms' q v' Hy. cbn in Hy |- *.
  destruct (decide (y = x)) as [->|Hne].
  - rewrite list_lookup_insert_eq in Hy by (apply lookup_lt_Some in Hx; exact Hx).
    discriminate.
  - rewrite list_lookup_insert_ne in Hy by congruence.
    destruct (Hh _ _ _ _ Hy) as [Hq Hu]. split.
    + unfold Js.settle. rewrite list_lookup_alter_ne; [exact Hq|].
      intros ->. apply Hne. exact (proj2 (Hh _ _ _ _ Hx) _ _ _ Hy).
    + intros y' ms'' v'' Hy'.
      destruct (decide (y' = x)) as [->|Hne'].
      * rewrite list_lookup_insert_eq in Hy' by (apply lookup_lt_Some in Hx; exact Hx).
        discriminate.
      * rewrite list_lookup_insert_ne in Hy' by congruence. exact (Hu _ _ _ Hy').
Qed.

Lemma tidy_step h e : tidy h -> tidy (step h e).
Proof. destruct e; [apply tidy_delay|apply tidy_timerFires]. Qed.

Lemma tidy_run evs : forall h, tidy h -> tidy (run h evs).
Proof.
  induction evs as [|e evs IH]; intros h Hh; [exact Hh|].
  apply IH, tidy_step, Hh.
Qed.

(** A promise that no armed timer holds the [resolve] of keeps its record. *)
Lemma released_forever p evs : forall h,
  p < length (promises h) ->
  (forall x ms v, timers h !! x <> Some (Js.Armed ms (ResolveWith p v))) ->
  promises (run h evs) !! p = promises h !! p.
Proof.
  induction evs as [|e evs IH]; intros h Hlt Hfree; [reflexivity|].
  change (run h (e :: evs)) with (run (step h e) evs).
  destruct e as [t v|x].
  - rewrite IH.
    + cbn. apply lookup_app_l. exact Hlt.
    + cbn. rewrite length_app. lia.
    + intros x ms v' Hx. cbn in Hx.
      apply lookup_app_Some in Hx as [Hx|[_ Hx]]; [exact (Hfree _ _ _ Hx)|].
      apply list_lookup_singleton_Some in Hx as [_ Hx]. injection Hx as _ Hp _. lia.
  - cbn [step]. destruct (timers h !! x) as [[ms [q v]| |]|] eqn:Hx;
      try (rewrite timerFires_idle; [apply IH; assumption|intros ? ?; congruence]).
    rewrite (timerFires_armed _ _ _ _ _ Hx).
    assert (Hq : q <> p) by (intros ->; exact (Hfree _ _ _ Hx)).
    rewrite IH.
    + cbn. unfold Js.settle. apply list_lookup_alter_ne. exact Hq.
    + cbn. unfold Js.settle. rewrite length_alter. exact Hlt.
    + intros y ms' v' Hy. cbn in Hy.
      destruct (decide (y = x)) as [->|Hne].
      * rewrite list_lookup_insert_eq in Hy by (apply lookup_lt_Some in Hx; exact Hx).
        discriminate.
      * rewrite list_lookup_insert_ne in Hy by congruence. exact (Hfree _ _ _ Hy).
Qed.

Lemma armed_then x ms p v evs : forall h,
  tidy h ->
  timers h !! x = Some (Js.Armed ms (ResolveWith p v)) ->
  promises (run h evs) !! p
  = Some (if fired x evs then [Js.Resolved v] else []).
Proof.
  induction evs as [|e evs IH]; intros h Hh Hx.
  - exact (proj1 (Hh _ _ _ _ Hx)).
  - change (run h (e :: evs)) with (run (step h e) evs).
    destruct e as [t v'|y]; cbn [fired existsb orb].
    + apply IH; [apply tidy_delay, Hh|].
      cbn. apply lookup_app_l_Some. exact Hx.
    + destruct (Nat.eqb_spec y x) as [->|Hne]; cbn [orb step].
      * destruct (Hh _ _ _ _ Hx) as [Hp Hu].
        rewrite (timerFires_armed _ _ _ _ _ Hx), released_forever.
        -- cbn. unfold Js.settle. rewrite list_lookup_alter, Hp.
           destruct (decide (p = p)); [reflexivity|congruence].
        -- cbn. unfold Js.settle. rewrite length_alter.
           apply lookup_lt_Some in Hp. exact Hp.
        -- intros y ms' v' Hy. cbn in Hy.
           destruct (decide (y = x)) as [->|Hne].
           ++ rewrite list_lookup_insert_eq in Hy by (apply lookup_lt_Some in Hx; exact Hx).
              discriminate.
           ++ rewrite list_lookup_insert_ne in Hy by congruence.
              exact (Hne (Hu _ _ _ Hy)).
      * apply IH; [apply tidy_timerFires, Hh|].
        destruct (timers h !! y) as [[ms' [q w]| |]|] eqn:Hy;
          try (rewrite timerFires_idle; [exact Hx|intros ? ?; congruence]).
        rewrite (timerFires_armed _ _ _ _ _ Hy). cbn.
        rewrite list_lookup_insert_ne by congruence. exact Hx.
Qed.

(** The promise [delay] returns is pending until the host fires the timer
    [delay] started, and from then on it is resolved with the value given,
    whatever other calls of [delay] and timers come before, in between and
    after; [resolve] is called on it once and it is never rejected. *)
Theorem delay_resolves_when_its_timer_fires before t value after :
  let h := run empty before in
  let r := delay (T := T) (E := E) t value h in
  promises (run r.2 after) !! r.1
  = Some (if fired (length (timers h)) after then [Js.Resolved value] else []).
Proof.
  intros h r.
  assert (Hh : tidy h) by apply tidy_run, tidy_empty.
  apply (armed_then _ t); [apply tidy_delay, Hh|].
  cbn. rewrite lookup_app_r by lia. rewrite Nat.sub_diag. reflexivity.
Qed.

End DelayProofs.
End DelayProofs.


(* ===================================================================== *)
(** * More on lib/awaitableSender.js *)
(* ===================================================================== *)

Module SenderExtras.
Import Rhea AwaitableSender AbortListeners JsFacts SenderProofs.

Lemma send_settles_at_most_once_witness :
  length [Js.Rejected OperationTimeoutError : Js.Settlement Delivery Error] <= 1.
Proof.
  apply (send_settles_at_most_once default_options sample_trace 0); reflexivity.
Defined.

(** ** No [send] waits for ever *)

(** Whatever the options of the sender and whatever happened so far, a
    promise returned by [send] that is still pending has its timer armed,
    and when the host fires that timer the promise is rejected with an
    [OperationTimeoutError] and the entry of the delivery leaves the map. *)
Theorem pending_send_is_rejected_by_its_timer options evs p :
  engine_trace (constructor options) evs = true ->
  let st := run (constructor options) evs in
  Js.pending p (promises st) ->
  exists h ms sc,
    timers st !! h = Some (Js.Armed ms (SendTimedOut sc))
    /\ scope_promise sc = p
    /\ promises (step st (TimerFires h)) !! p = Some [Js.Rejected OperationTimeoutError]
    /\ Js.Map.has (scope_delivery sc) (deliveryDispositionMap (step st (TimerFires h))) = false.
Proof.
  intros Ht st Hp.
  assert (HI : Inv st) by (apply Inv_run; [apply Inv_constructor|exact Ht]).
  destruct (inv_pending _ HI _ Hp) as (i & t & sc & Hget & Hsc).
  destruct (inv_entry _ HI _ _ Hget) as (sc' & ms & E & Hd & Htimer & Hpend & _).
  apply entry_of_inj in E as [<- _]. cbn [timer entry_of] in Htimer.
  exists t, ms, sc. split; [exact Htimer|]. split; [exact Hsc|].
  cbn [step]. rewrite (timerFires_retire _ _ _ _ Htimer). unfold retire. cbn.
  split.
  - unfold Js.settle. rewrite list_lookup_alter, Hsc.
    destruct (decide (p = p)); [|congruence].
    unfold Js.pending in Hp. rewrite Hp. reflexivity.
  - apply has_false, get_delete_eq.
Qed.

Lemma pending_send_witness :
  exists h ms sc,
    timers (run (constructor default_options) pending_trace) !! h
    = Some (Js.Armed ms (SendTimedOut sc))
    /\ scope_promise sc = 2
    /\ promises (step (run (constructor default_options) pending_trace) (TimerFires h)) !! 2
       = Some [Js.Rejected OperationTimeoutError]
    /\ Js.Map.has (scope_delivery sc)
         (deliveryDispositionMap
            (step (run (constructor default_options) pending_trace) (TimerFires h)))
       = false.
Proof.
  apply (pending_send_is_rejected_by_its_timer default_options pending_trace 2);
    reflexivity.
Defined.

(** ** A disposition settles the send it answers *)

Lemma settle_pending {V E} (ps : list (list (Js.Settlement V E))) p x :
  Js.pending p ps -> Js.settle p x ps = <[p := [x]]> ps.
Proof.
  unfold Js.pending, Js.settle. intros Hp. apply list_eq. intros j.
  rewrite list_lookup_alter. destruct (decide (p = j)) as [<-|Hne].
  - rewrite Hp, list_lookup_insert_eq by (apply lookup_lt_Some in Hp; exact Hp).
    reflexivity.
  - rewrite list_lookup_insert_ne by exact Hne. reflexivity.
Qed.

Lemma pending_send_entry st p i :
  Inv st -> (p, i) ∈ link_sends st -> Js.pending p (promises st) ->
  exists sc t,
    Js.Map.get i (deliveryDispositionMap st) = Some (entry_of sc t)
    /\ scope_promise sc = p.
Proof.
  intros HI Hsend Hpend.
  destruct (inv_pending _ HI p Hpend) as (i' & t & sc & Hget & Hp).
  destruct (inv_entry _ HI _ _ Hget) as (sc' & ms & E & Hi & _ & _ & Hs').
  apply entry_of_inj in E as [<- _]. rewrite Hp in Hs'.
  rewrite (NoDup_fst_functional _ _ _ _ (inv_sends_promise _ HI) Hsend Hs').
  exists sc, t. split; assumption.
Qed.

(** Whatever the options of the sender and whatever happened so far, as
    long as the promise that [send] returned for a delivery is pending, a
    disposition for that delivery settles this promise and no other:
    [accepted] resolves it with the delivery of the event, and [rejected],
    [released] and [modified] reject it with a [SendOperationFailedError]
    that carries the name of the event and the error of the remote
    state. *)
Theorem disposition_settles_the_send_it_answers options evs p ctx :
  engine_trace (constructor options) evs = true ->
  let st := run (constructor options) evs in
  let d := delivery ctx in
  (p, id d) ∈ link_sends st -> Js.pending p (promises st) ->
  promises (step st (Emit This SenderEvents.accepted ctx))
  = <[p := [Js.Resolved d]]> (promises st)
  /\ forall ev,
       ev ∈ [SenderEvents.rejected; SenderEvents.released; SenderEvents.modified] ->
       promises (step st (Emit This ev ctx))
       = <[p := [Js.Rejected (SendOperationFailedError ev (remote_error d))]]>
           (promises st).
Proof.
  intros Ht st d Hsend Hpend. subst d.
  assert (HI : Inv st) by (apply Inv_run; [apply Inv_constructor|exact Ht]).
  assert (Hl : forall ev', filter (fun r => r.1 = (This, ev')) (listeners st)
                           = filter (fun r => r.1 = (This, ev'))
                               (listeners (constructor options)))
    by (intros; apply listeners_This).
  destruct (pending_send_entry st p _ HI Hsend Hpend) as (sc & t & Hget & Hp).
  split.
  - cbn [step].
    destruct options as [[a|] [b|] q];
      (erewrite emit_singleton; [|rewrite Hl; reflexivity]); cbn [call_listener];
      rewrite (onSendSuccess_retire _ _ _ _ HI Hget), promises_removeAbortListener;
      cbn; rewrite Hp; apply settle_pending; exact Hpend.
  - intros ev Hev. cbn [step].
    destruct options as [[a|] [b|] q];
      repeat (apply elem_of_cons in Hev as [->|Hev]);
      try (inversion Hev; fail);
      (erewrite emit_singleton; [|rewrite Hl; reflexivity]); cbn [call_listener];
      rewrite (onSendFailure_retire _ _ _ _ _ _ HI Hget), promises_removeAbortListener;
      cbn; rewrite Hp; apply settle_pending; exact Hpend.
Qed.

Lemma disposition_settles_witness :
  let st := run (constructor default_options) pending_trace in
  let d := mkDelivery 1 (Some None) in
  let ctx := mkEventContext d None None in
  promises (step st (Emit This SenderEvents.accepted ctx))
  = <[0 := [Js.Resolved d]]> (promises st)
  /\ forall ev,
       ev ∈ [SenderEvents.rejected; SenderEvents.released; SenderEvents.modified] ->
       promises (step st (Emit This ev ctx))
       = <[0 := [Js.Rejected (SendOperationFailedError ev (remote_error d))]]>
           (promises st).
Proof.
  apply (disposition_settles_the_send_it_answers default_options pending_trace 0
           (mkEventContext (mkDelivery 1 (Some None)) None None)).
  - reflexivity.
  - apply list_elem_of_In. cbn. left. reflexivity.
  - reflexivity.
Defined.

(** ** Dispositions nobody waits for *)

(** A disposition for a delivery that has no entry in the map (the engine
    reports it late, after the timer or the abort signal of the [send] took
    the entry away, or the delivery was never sent through [send]) is
    dropped: the sender is left exactly as it was. *)
Theorem disposition_without_entry_is_dropped options evs ev ctx :
  let st := run (constructor options) evs in
  is_disposition ev = true ->
  Js.Map.has (id (delivery ctx)) (deliveryDispositionMap st) = false ->
  step st (Emit This ev ctx) = st.
Proof.
  intros st Hev Hno. apply has_false in Hno.
  assert (Hl : forall ev', filter (fun r => r.1 = (This, ev')) (listeners st)
                           = filter (fun r => r.1 = (This, ev'))
                               (listeners (constructor options)))
    by (intros; apply listeners_This).
  unfold is_disposition in Hev. apply bool_decide_eq_true in Hev.
  cbn [step].
  destruct options as [[a|] [b|] q];
    repeat (apply elem_of_cons in Hev as [->|Hev]);
    try (inversion Hev; fail);
    (erewrite emit_singleton; [|rewrite Hl; reflexivity]); cbn [call_listener];
    unfold onSendSuccess, onSendFailure; rewrite Hno; reflexivity.
Qed.

Lemma disposition_without_entry_witness :
  step (run (constructor default_options) sample_trace)
    (Emit This SenderEvents.accepted (mkEventContext (mkDelivery 1 (Some None)) None None))
  = run (constructor default_options) sample_trace.
Proof.
  apply (disposition_without_entry_is_dropped default_options sample_trace);
    reflexivity.
Defined.

(** ** Where abort listeners stay behind *)

Section Abort.

Lemma AbortInv_constructor options : AbortInv (constructor options).
Proof. split; cbn; intros; exfalso; eapply not_elem_of_nil; eassumption. Qed.

Lemma AbortInv_with_aborted l st : AbortInv st -> AbortInv (with_aborted l st).
Proof. intros [? ? ?]. split; assumption. Qed.

Lemma abortListeners_removeAbortListener sc st x :
  x ∈ abortListeners (removeAbortListener sc st) ->
  x ∈ abortListeners st
  /\ forall s, scope_abortSignal sc = Some s -> x <> (s, OnAbort sc).
Proof.
  unfold removeAbortListener, removeEventListener.
  destruct (scope_abortSignal sc) as [s|]; cbn.
  - intros [Hne Hin]%list_elem_of_filter. split; [exact Hin|].
    intros s' [= <-]. exact Hne.
  - intros Hin. split; [exact Hin|]. intros ?; discriminate.
Qed.

Lemma map_removeAbortListener sc st :
  deliveryDispositionMap (removeAbortListener sc st) = deliveryDispositionMap st.
Proof. unfold removeAbortListener. destruct (scope_abortSignal sc); reflexivity. Qed.

(** A handler found the entry of [sc] and settled its promise. *)
Lemma AbortInv_retire st i sc t T x :
  Inv st -> AbortInv st ->
  Js.Map.get i (deliveryDispositionMap st) = Some (entry_of sc t) ->
  AbortInv (removeAbortListener sc (retire i t T (scope_promise sc) x st)).
Proof.
  intros HI HA Hget. split.
  - intros s sc' Hin. apply abortListeners_removeAbortListener in Hin as [Hin _].
    exact (ab_signal _ HA _ _ Hin).
  - intros s sc' i' sc0 t' Hin Hg Hp.
    apply abortListeners_removeAbortListener in Hin as [Hin _].
    rewrite map_removeAbortListener in Hg. cbn in Hg.
    apply get_delete_Some in Hg as [_ Hg].
    exact (ab_entry _ HA _ _ _ _ _ Hin Hg Hp).
  - intros s sc' Hin. apply abortListeners_removeAbortListener in Hin as [Hin Hne].
    cbn in Hin.
    assert (Hp : scope_promise sc <> scope_promise sc').
    { intros Hp. pose proof (ab_entry _ HA _ _ _ _ _ Hin Hget Hp) as <-.
      exact (Hne s (ab_signal _ HA _ _ Hin) eq_refl). }
    unfold Js.pending, timed_out.
    rewrite promises_removeAbortListener. cbn.
    unfold Js.settle. rewrite list_lookup_alter_ne by exact Hp.
    exact (ab_log _ HA _ _ Hin).
Qed.

(** The timer of [sc] fired. *)
Lemma AbortInv_timeout st h ms sc :
  Inv st -> AbortInv st ->
  timers st !! h = Some (Js.Armed ms (SendTimedOut sc)) ->
  AbortInv (retire (scope_delivery sc) h Js.Fired (scope_promise sc)
              (Js.Rejected OperationTimeoutError) st).
Proof.
  intros HI HA Ht. split.
  - exact (ab_signal _ HA).
  - intros s sc' i' sc0 t' Hin Hg Hp. cbn in Hin, Hg.
    apply get_delete_Some in Hg as [_ Hg].
    exact (ab_entry _ HA _ _ _ _ _ Hin Hg Hp).
  - intros s sc' Hin. cbn in Hin. unfold Js.pending, timed_out. cbn.
    unfold Js.settle. rewrite list_lookup_alter. case_decide as Hp.
    + right.
      pose proof (inv_timer _ HI _ _ _ Ht) as Hget.
      destruct (inv_entry _ HI _ _ Hget) as (sc1 & ms1 & E & _ & _ & Hpend & _).
      apply entry_of_inj in E as [<- _]. rewrite Hpend. reflexivity.
    + exact (ab_log _ HA _ _ Hin).
Qed.

Lemma ab_bound st s sc :
  AbortInv st -> (s, OnAbort sc) ∈ abortListeners st ->
  scope_promise sc < length (promises st).
Proof.
  intros HA Hin. destruct (ab_log _ HA _ _ Hin) as [H|H];
    apply lookup_lt_Some in H; exact H.
Qed.

Lemma AbortInv_reject_now st x :
  AbortInv st ->
  AbortInv (settle (length (promises st)) x (with_promises (promises st ++ [[]]) st)).
Proof.
  intros HA. split.
  - exact (ab_signal _ HA).
  - exact (ab_entry _ HA).
  - intros s sc Hin. cbn in Hin. pose proof (ab_bound _ _ _ HA Hin) as Hlt.
    unfold Js.pending, timed_out. cbn. unfold Js.settle.
    rewrite list_lookup_alter_ne by lia. rewrite lookup_app_l by exact Hlt.
    exact (ab_log _ HA _ _ Hin).
Qed.

Lemma AbortInv_send st options sendable d :
  Inv st -> AbortInv st -> AbortInv (send options sendable d st).2.
Proof.
  intros HI HA. unfold send, Js.newPromise.
  set (sig := options ≫= abortSignal).
  set (p := length (promises st)).
  destruct (match sig with Some s => is_aborted s _ | None => false end);
    [apply AbortInv_reject_now; exact HA|].
  destruct sendable; [|apply AbortInv_reject_now; exact HA].
  unfold Js.setTimeout.
  set (sc := mkSendScope p (id d) sig).
  set (ms := Js.delay (Js.mul (effectiveSendTimeout _ _) (Js.of_Z 1000))).
  assert (Hold : forall s sc', (s, OnAbort sc') ∈ abortListeners st ->
            scope_promise sc' <> p).
  { intros s sc' Hin. pose proof (ab_bound _ _ _ HA Hin). unfold p. lia. }
  assert (Hentry : forall i sc0 t,
            Js.Map.get i (Js.Map.set (id d) (entry_of sc (length (timers st)))
                            (deliveryDispositionMap st)) = Some (entry_of sc0 t) ->
            sc0 = sc \/ Js.Map.get i (deliveryDispositionMap st) = Some (entry_of sc0 t)).
  { intros i sc0 t Hg. destruct (decide (id d = i)) as [<-|Hne].
    - rewrite get_set_eq in Hg. injection Hg as <- _. left. reflexivity.
    - rewrite get_set_ne in Hg by exact Hne. right. exact Hg. }
  assert (Hlog : forall s sc', (s, OnAbort sc') ∈ abortListeners st ->
            Js.pending (scope_promise sc') (promises st ++ [[]])
            \/ (promises st ++ [[]]) !! scope_promise sc'
               = Some [Js.Rejected OperationTimeoutError]).
  { intros s sc' Hin. pose proof (ab_bound _ _ _ HA Hin) as Hlt.
    unfold Js.pending. rewrite lookup_app_l by exact Hlt.
    exact (ab_log _ HA _ _ Hin). }
  destruct sig as [s|] eqn:Hsig; cbn [snd].
  - split; cbn.
    + intros s' sc' [Hin|Hin]%elem_of_app.
      * exact (ab_signal _ HA _ _ Hin).
      * apply list_elem_of_singleton in Hin. injection Hin as -> ->. reflexivity.
    + intros s' sc' i sc0 t [Hin|Hin]%elem_of_app Hg Hp.
      * apply Hentry in Hg as [->|Hg].
        -- exfalso. exact (Hold _ _ Hin (eq_sym Hp)).
        -- exact (ab_entry _ HA _ _ _ _ _ Hin Hg Hp).
      * apply list_elem_of_singleton in Hin. injection Hin as -> ->.
        apply Hentry in Hg as [->|Hg]; [reflexivity|].
        destruct (inv_entry _ HI _ _ Hg) as (sc1 & ms1 & E & _ & _ & Hpend & _).
        apply entry_of_inj in E as [<- _]. apply lookup_lt_Some in Hpend.
        cbn in Hp. unfold p in Hp. lia.
    + intros s' sc' [Hin|Hin]%elem_of_app.
      * exact (Hlog _ _ Hin).
      * apply list_elem_of_singleton in Hin. injection Hin as -> ->.
        left. unfold Js.pending. cbn. unfold p.
        rewrite lookup_app_r by lia. rewrite Nat.sub_diag. reflexivity.
  - split; cbn.
    + exact (ab_signal _ HA).
    + intros s' sc' i sc0 t Hin Hg Hp.
      apply Hentry in Hg as [->|Hg].
      * exfalso. exact (Hold _ _ Hin (eq_sym Hp)).
      * exact (ab_entry _ HA _ _ _ _ _ Hin Hg Hp).
    + exact Hlog.
Qed.

Lemma Both_foldl {A} (f : State -> A -> State) (l : list A) st :
  (forall st a, Both st -> Both (f st a)) -> Both st -> Both (foldl f st l).
Proof.
  intros Hf. revert st. induction l as [|a l IH]; cbn [foldl]; auto.
Qed.

Lemma Both_onSendSuccess st d : Both st -> Both (onSendSuccess d st).
Proof.
  intros [HI HA]. split; [apply Inv_onSendSuccess, HI|].
  destruct (Js.Map.get (id d) (deliveryDispositionMap st)) as [e|] eqn:Hget.
  - destruct (entry_shape _ _ _ HI Hget) as (sc & t & ->).
    rewrite (onSendSuccess_retire _ _ _ _ HI Hget).
    apply AbortInv_retire; assumption.
  - unfold onSendSuccess. rewrite Hget. exact HA.
Qed.

Lemma Both_onSendFailure st ev i err : Both st -> Both (onSendFailure ev i err st).
Proof.
  intros [HI HA]. split; [apply Inv_onSendFailure, HI|].
  destruct (Js.Map.get i (deliveryDispositionMap st)) as [e|] eqn:Hget.
  - destruct (entry_shape _ _ _ HI Hget) as (sc & t & ->).
    rewrite (onSendFailure_retire _ _ _ _ _ _ HI Hget).
    apply AbortInv_retire; assumption.
  - unfold onSendFailure. rewrite Hget. exact HA.
Qed.

Lemma Both_call_abortListener st l : Both st -> Both (call_abortListener l st).
Proof.
  intros [HI HA]. split; [apply Inv_call_abortListener, HI|].
  destruct l as [sc0].
  destruct (Js.Map.get (scope_delivery sc0) (deliveryDispositionMap st)) as [e|] eqn:Hget.
  - destruct (entry_shape _ _ _ HI Hget) as (sc & t & ->).
    rewrite (onAbort_retire _ _ _ _ HI Hget).
    apply AbortInv_retire; assumption.
  - unfold call_abortListener. rewrite Hget. exact HA.
Qed.

Lemma Both_call_listener st l ctx : Both st -> Both (call_listener l ctx st).
Proof.
  intros H. destruct l; cbn [call_listener];
    try (apply Both_onSendSuccess; exact H);
    try (apply Both_onSendFailure; exact H);
    (unfold drain; apply Both_foldl; [|exact H];
     intros; apply Both_onSendFailure; assumption).
Qed.

Lemma Both_step st e : Both st -> engine_fresh st e = true -> Both (step st e).
Proof.
  intros [HI HA] Hf. split; [apply Inv_step; assumption|].
  destruct e as [o s d|t ev ctx|h|s|]; cbn [step].
  - apply AbortInv_send; assumption.
  - unfold emit. apply Both_foldl; [|split; assumption].
    intros. apply Both_call_listener. assumption.
  - destruct (timers st !! h) as [[ms [sc]| |]|] eqn:Ht;
      try (unfold timerFires, Js.fire; rewrite Ht; exact HA).
    rewrite (timerFires_retire _ _ _ _ Ht). apply (AbortInv_timeout _ _ ms); assumption.
  - unfold signalAborts. destruct (is_aborted s st); [exact HA|].
    apply Both_foldl.
    + intros. apply Both_call_abortListener. assumption.
    + split; [apply Inv_with_aborted, HI|apply AbortInv_with_aborted, HA].
  - destruct HA as [? ? ?]. split; assumption.
Qed.

Lemma Both_run evs : forall st, Both st -> engine_trace st evs = true -> Both (run st evs).
Proof.
  induction evs as [|e evs IH]; cbn [run foldl engine_trace]; intros st H Ht; [exact H|].
  apply andb_prop in Ht as [Hf Ht].
  apply IH; [apply Both_step; assumption|exact Ht].
Qed.

End Abort.

(** Whatever the options of the sender and whatever happened so far, a
    listener [onAbort] that is still registered on a signal belongs to a
    [send] whose promise is pending or was rejected by its timer: when a
    disposition, a link or session error handled by the sender or the abort
    signal itself settled the promise, the listener was removed. *)
Theorem abort_listener_stays_only_while_pending_or_after_timeout options evs s sc :
  engine_trace (constructor options) evs = true ->
  let st := run (constructor options) evs in
  (s, OnAbort sc) ∈ abortListeners st ->
  Js.pending (scope_promise sc) (promises st) \/ timed_out (scope_promise sc) st.
Proof.
  intros Ht st Hin.
  assert (H : Both st).
  { apply Both_run; [|exact Ht]. split; [apply Inv_constructor|apply AbortInv_constructor]. }
  exact (ab_log _ (proj2 H) _ _ Hin).
Qed.

Lemma abort_listener_witness :
  Js.pending 0 (promises (run (constructor default_options) pending_trace))
  \/ timed_out 0 (run (constructor default_options) pending_trace).
Proof.
  apply (abort_listener_stays_only_while_pending_or_after_timeout
           default_options pending_trace 7 (mkSendScope 0 1 (Some 7))).
  - reflexivity.
  - vm_compute. apply list_elem_of_singleton. reflexivity.
Defined.

End SenderExtras.


(* ===================================================================== *)
(** * More on lib/connection.js and lib/session.js *)
(* ===================================================================== *)

Module GuardedProofs.
Import Rhea Lifecycle Guarded JsFacts LifecycleProofs.

(** ** Removing listeners *)

Section RemoveLast.
Context {A : Type}.
Implicit Types (P : A -> bool) (l : list A).

Lemma remove_last_sublist P l : Js.remove_last P l `sublist_of` l.
Proof.
  induction l as [|x l IH]; [constructor|]. cbn [Js.remove_last].
  destruct (existsb P l); [apply sublist_skip, IH|].
  destruct (P x); [apply sublist_cons; reflexivity|reflexivity].
Qed.

Lemma remove_last_elem_of P l x : x ∈ Js.remove_last P l -> x ∈ l.
Proof. intros H. exact (elem_of_sublist _ _ _ H (remove_last_sublist P l)). Qed.

Lemma remove_last_keeps P l x : x ∈ l -> P x = false -> x ∈ Js.remove_last P l.
Proof.
  induction l as [|y l IH]; [intros H; inversion H|].
  intros Hin HP. cbn [Js.remove_last].
  apply elem_of_cons in Hin as [->|Hin].
  - destruct (existsb P l); [left|]. rewrite HP. left.
  - destruct (existsb P l); [right; apply IH; assumption|].
    destruct (P y); [exact Hin|right; exact Hin].
Qed.

Lemma existsb_false P l x : existsb P l = false -> x ∈ l -> P x = false.
Proof.
  intros H Hin. destruct (P x) eqn:E; [|reflexivity].
  rewrite <- H. symmetry. apply existsb_exists. exists x.
  split; [apply list_elem_of_In; exact Hin|exact E].
Qed.

(** When the elements that match are all one element, which occurs once,
    none is left. *)
Lemma remove_last_gone P l x :
  (forall y, y ∈ l -> P y = true -> y = x) ->
  (forall l1 l2 l3, l <> l1 ++ x :: l2 ++ x :: l3) ->
  forall y, y ∈ Js.remove_last P l -> P y = false.
Proof.
  induction l as [|z l IH]; intros Hall Honce y Hy; [inversion Hy|].
  cbn [Js.remove_last] in Hy.
  destruct (existsb P l) eqn:Hex.
  - destruct (P z) eqn:Hz.
    + exfalso. apply existsb_exists in Hex as (u & Hu & HPu).
      apply list_elem_of_In in Hu.
      assert (z = x) as -> by (apply Hall; [left|exact Hz]).
      assert (u = x) as -> by (apply Hall; [right; exact Hu|exact HPu]).
      apply list_elem_of_split in Hu as (l2 & l3 & ->).
      exact (Honce [] l2 l3 eq_refl).
    + apply elem_of_cons in Hy as [->|Hy]; [exact Hz|].
      apply IH; [| |exact Hy].
      * intros u Hu. apply Hall. right. exact Hu.
      * intros l1 l2 l3 ->. exact (Honce (z :: l1) l2 l3 eq_refl).
  - destruct (P z) eqn:Hz.
    + exact (existsb_false _ _ _ Hex Hy).
    + apply elem_of_cons in Hy as [->|Hy]; [exact Hz|].
      exact (existsb_false _ _ _ Hex Hy).
Qed.

Lemma remove_last_none P l : existsb P l = false -> Js.remove_last P l = l.
Proof.
  induction l as [|x l IH]; [reflexivity|]. cbn [existsb Js.remove_last].
  intros [Hx Hl]%orb_false_elim. rewrite Hl, Hx. reflexivity.
Qed.

End RemoveLast.

Lemma filter_sublist_mono {A} (P : A -> Prop) `{!forall x, Decision (P x)} (l k : list A) :
  l `sublist_of` k -> filter P l `sublist_of` filter P k.
Proof.
  induction 1 as [|x l k _ IH|x l k _ IH]; [constructor| |].
  - rewrite !filter_cons. destruct (decide (P x)); [apply sublist_skip|]; exact IH.
  - rewrite filter_cons. destruct (decide (P x)); [apply sublist_cons|]; exact IH.
Qed.

Lemma NoDup_no_repeat {A} (l : list A) x l1 l2 l3 :
  NoDup l -> l <> l1 ++ x :: l2 ++ x :: l3.
Proof.
  intros Hnd ->. apply NoDup_app in Hnd as (_ & _ & Hnd).
  apply NoDup_cons in Hnd as [Hx _]. apply Hx.
  apply elem_of_app. right. left.
Qed.

(** ** The log of the engine *)

Lemma started_app sc eng cs :
  started sc (eng ++ cs) <-> started sc eng \/ started sc cs.
Proof.
  unfold started. split.
  - intros (t & ev & r & [H|H]%elem_of_app); [left|right]; eauto.
  - intros [(t & ev & r & H)|(t & ev & r & H)]; exists t, ev, r;
      apply elem_of_app; [left|right]; exact H.
Qed.

Lemma started_quiet sc cs : quiet cs -> ~ started sc cs.
Proof.
  intros Hq (t & ev & r & H). unfold quiet in Hq. rewrite forallb_forall in Hq.
  apply list_elem_of_In, Hq in H. discriminate.
Qed.

Lemma started_app_quiet sc eng cs :
  quiet cs ->
  started sc (eng ++ cs) <-> started sc eng.
Proof.
  intros Hq. rewrite started_app. split; [|auto].
  intros [H|H]; [exact H|]. exfalso. exact (started_quiet _ _ Hq H).
Qed.

Lemma started_back sc eng cs :
  quiet cs ->
  started sc (eng ++ cs) -> started sc eng.
Proof. intros Hq. apply started_app_quiet. exact Hq. Qed.

Lemma started_more sc eng cs : started sc eng -> started sc (eng ++ cs).
Proof. intros H. apply started_app. left. exact H. Qed.

Lemma in_flight_guard sc ts : in_flight sc ts ->
  exists ms, ts !! waitTimer sc = Some (Js.Armed ms (Guard sc ActionAfterTimeout)).
Proof. intros H. exact H. Qed.

(** ** The listeners of one operation *)

Lemma registrations_fn sc r :
  r ∈ registrations sc -> exists role, Js.fn r = Guard sc role /\ defines (op sc) role = true.
Proof.
  unfold registrations. destruct (op sc); intros H;
    repeat (apply elem_of_cons in H as [->|H]; [eexists; split; reflexivity|]);
    inversion H.
Qed.

Lemma registrations_guard sc r : r ∈ registrations sc -> guard_registration r = true.
Proof.
  intros H. destruct (registrations_fn _ _ H) as (role & Hr & _).
  unfold guard_registration. rewrite Hr. reflexivity.
Qed.

(** No operation adds two listeners for one event of one object. *)
Lemma registrations_event sc r r' :
  r ∈ registrations sc -> r' ∈ registrations sc ->
  Js.target r = Js.target r' -> Js.event r = Js.event r' -> r = r'.
Proof.
  unfold registrations. destruct (op sc); intros H H';
    repeat (apply elem_of_cons in H as [->|H]);
    try (inversion H; fail);
    repeat (apply elem_of_cons in H' as [->|H']);
    try (inversion H'; fail);
    cbn; intros Ht He; try reflexivity; discriminate.
Qed.

Lemma registrations_NoDup sc : NoDup (registrations sc).
Proof.
  unfold registrations.
  destruct (op sc); repeat (apply NoDup_cons; split; [|]);
    try apply NoDup_nil_2;
    intros H; repeat (apply elem_of_cons in H as [H|H]; [discriminate|]);
    inversion H.
Qed.

Lemma filter_guard_registrations sc :
  filter (fun r => guard_registration r = true) (registrations sc) = registrations sc.
Proof.
  unfold registrations. destruct (op sc); reflexivity.
Qed.

Lemma filter_guard_none extra :
  Forall (fun r => guard_registration r = false) extra ->
  filter (fun r => guard_registration r = true) extra = [].
Proof.
  induction 1 as [|r extra Hr _ IH]; [reflexivity|].
  rewrite filter_cons, IH. destruct (decide _) as [E|]; [congruence|reflexivity].
Qed.

(** ** What keeps the world tidy *)

Section Preservation.
Variable eng : list EngineCall.
Variable ps : list (list (Js.Settlement Value Error)).
Variable ts : list (Js.Timer Closure).
Variable ls : list (Js.Registration Entity Closure).
Variable als : list (nat * Closure).
Hypothesis HT : TidyOn eng ps ts ls als.

Lemma in_flight_started sc : in_flight sc ts -> started sc eng.
Proof. intros [ms H]. exact (proj2 (proj2 (t_timers _ _ _ _ _ HT _ _ _ _ H))). Qed.

Lemma in_flight_slot sc sc' :
  in_flight sc ts -> in_flight sc' ts -> waitTimer sc = waitTimer sc' -> sc = sc'.
Proof. intros [ms H] [ms' H'] E. rewrite E in H. congruence. Qed.

Lemma in_flight_promise sc sc' :
  in_flight sc ts -> in_flight sc' ts -> promise sc = promise sc' -> sc = sc'.
Proof.
  intros H H' E.
  exact (t_unique _ _ _ _ _ HT _ _ (in_flight_started _ H) (in_flight_started _ H') E).
Qed.

Lemma in_flight_snoc sc t : in_flight sc ts -> in_flight sc (ts ++ [t]).
Proof. intros [ms H]. exists ms. apply lookup_app_l_Some. exact H. Qed.

Lemma in_flight_insert sc h T :
  in_flight sc ts -> waitTimer sc <> h -> in_flight sc (<[h := T]> ts).
Proof.
  intros [ms H] Hne. exists ms. rewrite list_lookup_insert_ne by congruence. exact H.
Qed.

Lemma in_flight_insert_inv sc h T :
  (forall ms f, T <> Js.Armed ms f) ->
  in_flight sc (<[h := T]> ts) -> in_flight sc ts /\ waitTimer sc <> h.
Proof.
  intros HT' [ms H].
  destruct (decide (waitTimer sc = h)) as [E|Hne].
  - exfalso. rewrite E in H. apply list_lookup_insert_Some in H as [(_ & HE & _)|(? & _)].
    + exact (HT' _ _ HE).
    + congruence.
  - rewrite list_lookup_insert_ne in H by congruence. split; [exists ms; exact H|exact Hne].
Qed.

(** An operation starts: a promise, a timer and the listeners of
    [registrations], after listeners [extra] that re-emit events. *)
Lemma TidyOn_launch sc ms extra cs :
  promise sc = length ps -> waitTimer sc = length ts ->
  Forall (fun r => guard_registration r = false) extra ->
  started sc cs -> (forall sc', started sc' cs -> sc' = sc) ->
  TidyOn (eng ++ cs) (ps ++ [[]])
    (ts ++ [Js.Armed ms (Guard sc ActionAfterTimeout)])
    (ls ++ extra ++ registrations sc) als.
Proof.
  intros Hp Hw Hextra Hsc Hcs.
  assert (Hflight : in_flight sc (ts ++ [Js.Armed ms (Guard sc ActionAfterTimeout)])).
  { exists ms. rewrite Hw, lookup_app_r, Nat.sub_diag by lia. reflexivity. }
  assert (Hst : forall sc', started sc' (eng ++ cs) -> started sc' eng \/ sc' = sc).
  { intros sc' [H|H]%started_app; [left; exact H|right; exact (Hcs _ H)]. }
  split.
  - intros sc' [H| ->]%Hst; rewrite !length_app; cbn [length].
    + destruct (t_bound _ _ _ _ _ HT _ H). lia.
    + lia.
  - intros sc1 sc2 [H1| ->]%Hst [H2| ->]%Hst E; try reflexivity.
    + exact (t_unique _ _ _ _ _ HT _ _ H1 H2 E).
    + destruct (t_bound _ _ _ _ _ HT _ H1). lia.
    + destruct (t_bound _ _ _ _ _ HT _ H2). lia.
  - intros h ms' sc' r [H|[Hlen H]]%lookup_app_Some.
    + destruct (t_timers _ _ _ _ _ HT _ _ _ _ H) as (-> & -> & Hs).
      repeat split. apply started_app. left. exact Hs.
    + apply list_lookup_singleton_Some in H as [H0 H]. injection H as _ <- <-.
      repeat split; [lia|]. apply started_app. right. exact Hsc.
  - intros sc' ms' f [H| ->]%Hst Hl.
    + destruct (t_bound _ _ _ _ _ HT _ H) as [_ Hlt].
      rewrite lookup_app_l in Hl by exact Hlt. exact (t_slot _ _ _ _ _ HT _ _ _ H Hl).
    + rewrite Hw, lookup_app_r, Nat.sub_diag in Hl by lia. injection Hl as _ <-. reflexivity.
  - intros r sc' role [Hin|[Hin|Hin]%elem_of_app]%elem_of_app Hfn.
    + destruct (t_listeners _ _ _ _ _ HT _ _ _ Hin Hfn) as (Hs & Hr & Hf).
      split; [apply started_app; left; exact Hs|]. split; [exact Hr|].
      destruct Hf as [Hf|Hf]; [left; apply in_flight_snoc; exact Hf|right; exact Hf].
    + exfalso. rewrite Forall_forall in Hextra. pose proof (Hextra _ Hin) as Hg.
      unfold guard_registration in Hg. rewrite Hfn in Hg. discriminate.
    + destruct (registrations_fn _ _ Hin) as (role' & Hfn' & _).
      assert (sc' = sc) as -> by congruence.
      split; [apply started_app; right; exact Hsc|]. split; [exact Hin|left; exact Hflight].
  - rewrite !filter_app, (filter_guard_none _ Hextra), filter_guard_registrations.
    cbn [app]. apply NoDup_app. split; [exact (t_nodup _ _ _ _ _ HT)|].
    split; [|apply registrations_NoDup].
    intros r [Hg Hin]%list_elem_of_filter Hin'.
    destruct (registrations_fn _ _ Hin') as (role & Hfn & _).
    destruct (t_listeners _ _ _ _ _ HT _ _ _ Hin Hfn) as (Hs & _).
    destruct (t_bound _ _ _ _ _ HT _ Hs). lia.
  - intros s f Hin. destruct (t_abort _ _ _ _ _ HT _ _ Hin) as (sc' & -> & Hsig & Hf).
    exists sc'. repeat split; [exact Hsig|apply in_flight_snoc; exact Hf].
  - exact (t_abort_nodup _ _ _ _ _ HT).
  - intros sc' [ms' H]. apply lookup_app_Some in H as [H|[Hlen H]].
    + apply lookup_app_l_Some, (t_flight _ _ _ _ _ HT). exists ms'. exact H.
    + apply list_lookup_singleton_Some in H as [H0 H]. injection H as _ <-.
      rewrite Hp, lookup_app_r, Nat.sub_diag by lia. reflexivity.
  - intros p calls [H|[Hlen H]]%lookup_app_Some.
    + destruct (t_once _ _ _ _ _ HT _ _ H) as [Hl|(sc' & Hs & Hp' & Hsend)]; [left; exact Hl|].
      right. exists sc'. split; [apply started_app; left; exact Hs|]. split; assumption.
    + apply list_lookup_singleton_Some in H as [_ <-]. left. cbn. lia.
  - intros p [H|[Hlen H]]%lookup_app_Some.
    + destruct (t_pending _ _ _ _ _ HT _ H) as (sc' & Hs & Hp' & Hf).
      exists sc'. split; [apply started_app; left; exact Hs|]. split; [exact Hp'|].
      destruct Hf as [Hf|Hf]; [left; apply in_flight_snoc; exact Hf|right; exact Hf].
    + apply list_lookup_singleton_Some in H as [H0 _].
      exists sc. split; [apply started_app; right; exact Hsc|].
      split; [lia|left; exact Hflight].
Qed.

(** An operation in flight ends: its timer is off, its listeners are gone
    (all but [onSendable] of [_createSender]), and its promise is settled,
    unless the operation is a [close]. *)
Lemma TidyOn_retire sc T ps' ls' als' cs :
  in_flight sc ts ->
  (forall ms f, T <> Js.Armed ms f) ->
  (ps' = ps /\ is_close (op sc) = true) \/ (exists x, ps' = Js.settle (promise sc) x ps) ->
  ls' `sublist_of` ls ->
  (forall r role, r ∈ ls' -> Js.fn r = Guard sc role -> leftover sc role) ->
  als' `sublist_of` als ->
  (forall s, (s, Guard sc OnAbort) ∉ als') ->
  quiet cs ->
  TidyOn (eng ++ cs) ps' (<[waitTimer sc := T]> ts) ls' als'.
Proof.
  intros Hf HTn Hps Hls Hgone Hals Habort Hq.
  assert (Hsc : started sc eng) by (apply in_flight_started; exact Hf).
  assert (Hpend : ps !! promise sc = Some []) by exact (t_flight _ _ _ _ _ HT _ Hf).
  assert (Hlen : length ps' = length ps).
  { destruct Hps as [[-> _]|[x ->]]; [reflexivity|]. unfold Js.settle. apply length_alter. }
  assert (Hother : forall p, p <> promise sc -> ps' !! p = ps !! p).
  { intros p Hp. destruct Hps as [[-> _]|[x ->]]; [reflexivity|].
    unfold Js.settle. apply list_lookup_alter_ne. congruence. }
  assert (Hkeep : forall sc', in_flight sc' ts -> sc' <> sc ->
            in_flight sc' (<[waitTimer sc := T]> ts)).
  { intros sc' Hf' Hne. apply in_flight_insert; [exact Hf'|].
    intros E. apply Hne. exact (in_flight_slot _ _ Hf' Hf E). }
  split.
  - intros sc' H%(started_back _ _ _ Hq). rewrite Hlen, length_insert.
    exact (t_bound _ _ _ _ _ HT _ H).
  - intros sc1 sc2 H1%(started_back _ _ _ Hq) H2%(started_back _ _ _ Hq).
    exact (t_unique _ _ _ _ _ HT _ _ H1 H2).
  - intros h ms sc' r H.
    apply list_lookup_insert_Some in H as [(_ & HE & _)|(Hne & H)].
    + exfalso. exact (HTn _ _ HE).
    + destruct (t_timers _ _ _ _ _ HT _ _ _ _ H) as (? & ? & ?).
      repeat split; try assumption. apply started_more; assumption.
  - intros sc' ms f H%(started_back _ _ _ Hq) Hl.
    apply list_lookup_insert_Some in Hl as [(_ & HE & _)|(Hne & Hl)].
    + exfalso. exact (HTn _ _ HE).
    + exact (t_slot _ _ _ _ _ HT _ _ _ H Hl).
  - intros r sc' role Hin Hfn.
    pose proof (elem_of_sublist _ _ _ Hin Hls) as Hin0.
    destruct (t_listeners _ _ _ _ _ HT _ _ _ Hin0 Hfn) as (Hs & Hr & Hfl).
    split; [apply started_more; assumption|]. split; [exact Hr|].
    destruct (decide (sc' = sc)) as [->|Hne].
    + right. exact (Hgone _ _ Hin Hfn).
    + destruct Hfl as [Hfl|Hfl]; [left; apply Hkeep; assumption|right; exact Hfl].
  - eapply sublist_NoDup; [exact (t_nodup _ _ _ _ _ HT)|].
    apply filter_sublist_mono. exact Hls.
  - intros s f Hin.
    pose proof (elem_of_sublist _ _ _ Hin Hals) as Hin0.
    destruct (t_abort _ _ _ _ _ HT _ _ Hin0) as (sc' & -> & Hsig & Hfl).
    exists sc'. repeat split; [exact Hsig|].
    apply Hkeep; [exact Hfl|]. intros ->. exact (Habort _ Hin).
  - eapply sublist_NoDup; [exact (t_abort_nodup _ _ _ _ _ HT)|exact Hals].
  - intros sc' Hfl. apply (in_flight_insert_inv _ _ _ HTn) in Hfl as [Hfl Hne].
    rewrite Hother; [exact (t_flight _ _ _ _ _ HT _ Hfl)|].
    intros E. apply Hne. f_equal. exact (in_flight_promise _ _ Hfl Hf E).
  - intros p calls H. destruct (decide (p = promise sc)) as [->|Hne].
    + left. destruct Hps as [[-> _]|[x ->]].
      * rewrite Hpend in H. injection H as <-. cbn. lia.
      * unfold Js.settle in H. rewrite list_lookup_alter, Hpend in H.
        destruct (decide _); [|congruence]. injection H as <-. cbn. lia.
    + rewrite Hother in H by exact Hne.
      destruct (t_once _ _ _ _ _ HT _ _ H) as [Hl|(sc' & Hs & Hp' & Hsend)]; [left; exact Hl|].
      right. exists sc'. split; [apply started_more; assumption|]. split; assumption.
  - intros p H. destruct (decide (p = promise sc)) as [->|Hne].
    + exists sc. split; [apply started_more; assumption|]. split; [reflexivity|].
      right. destruct Hps as [[_ Hc]|[x ->]]; [exact Hc|].
      unfold Js.settle in H. rewrite list_lookup_alter, Hpend in H.
      destruct (decide _); [|congruence]. discriminate.
    + rewrite Hother in H by exact Hne.
      destruct (t_pending _ _ _ _ _ HT _ H) as (sc' & Hs & Hp' & Hfl).
      exists sc'. split; [apply started_more; assumption|]. split; [exact Hp'|].
      destruct Hfl as [Hfl|Hfl]; [left|right; exact Hfl].
      apply Hkeep; [exact Hfl|]. intros ->. congruence.
Qed.

(** [onSendable] of a [_createSender] that is over runs. *)
Lemma TidyOn_leftover sc x ls' als' cs :
  started sc eng -> is_sender (op sc) = true -> ~ in_flight sc ts ->
  ls' `sublist_of` ls -> als' `sublist_of` als ->
  quiet cs ->
  TidyOn (eng ++ cs) (Js.settle (promise sc) x ps) ts ls' als'.
Proof.
  intros Hsc Hsend Hnf Hls Hals Hq.
  assert (Hother : forall sc', in_flight sc' ts ->
            Js.settle (promise sc) x ps !! promise sc' = ps !! promise sc').
  { intros sc' Hfl. unfold Js.settle. apply list_lookup_alter_ne. intros E.
    apply Hnf. 
    rewrite (t_unique _ _ _ _ _ HT _ _ Hsc (in_flight_started _ Hfl) E). exact Hfl. }
  split.
  - intros sc' H%(started_back _ _ _ Hq). unfold Js.settle. rewrite length_alter.
    exact (t_bound _ _ _ _ _ HT _ H).
  - intros sc1 sc2 H1%(started_back _ _ _ Hq) H2%(started_back _ _ _ Hq).
    exact (t_unique _ _ _ _ _ HT _ _ H1 H2).
  - intros h ms sc' r H.
    destruct (t_timers _ _ _ _ _ HT _ _ _ _ H) as (? & ? & ?).
    repeat split; try assumption. apply started_more; assumption.
  - intros sc' ms f H%(started_back _ _ _ Hq). exact (t_slot _ _ _ _ _ HT _ _ _ H).
  - intros r sc' role Hin Hfn.
    pose proof (elem_of_sublist _ _ _ Hin Hls) as Hin0.
    destruct (t_listeners _ _ _ _ _ HT _ _ _ Hin0 Hfn) as (Hs & Hr & Hfl).
    split; [apply started_more; assumption|]. split; assumption.
  - eapply sublist_NoDup; [exact (t_nodup _ _ _ _ _ HT)|].
    apply filter_sublist_mono. exact Hls.
  - intros s f Hin. exact (t_abort _ _ _ _ _ HT _ _ (elem_of_sublist _ _ _ Hin Hals)).
  - eapply sublist_NoDup; [exact (t_abort_nodup _ _ _ _ _ HT)|exact Hals].
  - intros sc' Hfl. rewrite (Hother _ Hfl). exact (t_flight _ _ _ _ _ HT _ Hfl).
  - intros p calls H. destruct (decide (p = promise sc)) as [->|Hne].
    + right. exists sc. split; [apply started_more; assumption|]. split; [reflexivity|exact Hsend].
    + unfold Js.settle in H. rewrite list_lookup_alter_ne in H by congruence.
      destruct (t_once _ _ _ _ _ HT _ _ H) as [Hl|(sc' & Hs & Hp' & Hsend')]; [left; exact Hl|].
      right. exists sc'. split; [apply started_more; assumption|]. split; assumption.
  - intros p H. destruct (decide (p = promise sc)) as [->|Hne].
    + exfalso. unfold Js.settle in H. rewrite list_lookup_alter in H.
      destruct (decide _); [|congruence].
      destruct (ps !! promise sc) as [calls|]; [|discriminate].
      cbn in H. injection H as H. destruct calls; discriminate.
    + unfold Js.settle in H. rewrite list_lookup_alter_ne in H by congruence.
      destruct (t_pending _ _ _ _ _ HT _ H) as (sc' & Hs & Hp' & Hfl).
      exists sc'. split; [apply started_more; assumption|]. split; assumption.
Qed.

(** Listeners and abort listeners go, calls that add no listener are
    made. *)
Lemma TidyOn_less ls' als' cs :
  ls' `sublist_of` ls -> als' `sublist_of` als ->
  quiet cs ->
  TidyOn (eng ++ cs) ps ts ls' als'.
Proof.
  intros Hls Hals Hq. split.
  - intros sc' H%(started_back _ _ _ Hq). exact (t_bound _ _ _ _ _ HT _ H).
  - intros sc1 sc2 H1%(started_back _ _ _ Hq) H2%(started_back _ _ _ Hq).
    exact (t_unique _ _ _ _ _ HT _ _ H1 H2).
  - intros h ms sc' r H.
    destruct (t_timers _ _ _ _ _ HT _ _ _ _ H) as (? & ? & ?).
    repeat split; try assumption. apply started_more; assumption.
  - intros sc' ms f H%(started_back _ _ _ Hq). exact (t_slot _ _ _ _ _ HT _ _ _ H).
  - intros r sc' role Hin Hfn.
    pose proof (elem_of_sublist _ _ _ Hin Hls) as Hin0.
    destruct (t_listeners _ _ _ _ _ HT _ _ _ Hin0 Hfn) as (Hs & Hr & Hfl).
    split; [apply started_more; assumption|]. split; assumption.
  - eapply sublist_NoDup; [exact (t_nodup _ _ _ _ _ HT)|].
    apply filter_sublist_mono. exact Hls.
  - intros s f Hin. exact (t_abort _ _ _ _ _ HT _ _ (elem_of_sublist _ _ _ Hin Hals)).
  - eapply sublist_NoDup; [exact (t_abort_nodup _ _ _ _ _ HT)|exact Hals].
  - exact (t_flight _ _ _ _ _ HT).
  - intros p calls H.
    destruct (t_once _ _ _ _ _ HT _ _ H) as [Hl|(sc' & Hs & Hp' & Hsend')]; [left; exact Hl|].
    right. exists sc'. split; [apply started_more; assumption|]. split; assumption.
  - intros p H.
    destruct (t_pending _ _ _ _ _ HT _ H) as (sc' & Hs & Hp' & Hfl).
    exists sc'. split; [apply started_more; assumption|]. split; assumption.
Qed.

(** A promise is made and settled at once. *)
Lemma TidyOn_settled_new x : TidyOn eng (ps ++ [[x]]) ts ls als.
Proof.
  split.
  - intros sc' H. rewrite length_app. destruct (t_bound _ _ _ _ _ HT _ H). cbn. lia.
  - exact (t_unique _ _ _ _ _ HT).
  - exact (t_timers _ _ _ _ _ HT).
  - exact (t_slot _ _ _ _ _ HT).
  - exact (t_listeners _ _ _ _ _ HT).
  - exact (t_nodup _ _ _ _ _ HT).
  - exact (t_abort _ _ _ _ _ HT).
  - exact (t_abort_nodup _ _ _ _ _ HT).
  - intros sc' Hfl. apply lookup_app_l_Some. exact (t_flight _ _ _ _ _ HT _ Hfl).
  - intros p calls [H|[_ H]]%lookup_app_Some.
    + exact (t_once _ _ _ _ _ HT _ _ H).
    + apply list_lookup_singleton_Some in H as [_ <-]. left. cbn. lia.
  - intros p [H|[_ H]]%lookup_app_Some.
    + exact (t_pending _ _ _ _ _ HT _ H).
    + apply list_lookup_singleton_Some in H as [_ H]. discriminate.
Qed.

(** A timer that belongs to no operation is started. *)
Lemma TidyOn_timer_new ms f :
  (forall sc r, f <> Guard sc r) -> TidyOn eng ps (ts ++ [Js.Armed ms f]) ls als.
Proof.
  intros Hf. split.
  - intros sc' H. rewrite length_app. destruct (t_bound _ _ _ _ _ HT _ H). cbn. lia.
  - exact (t_unique _ _ _ _ _ HT).
  - intros h ms' sc' r [H|[_ H]]%lookup_app_Some.
    + exact (t_timers _ _ _ _ _ HT _ _ _ _ H).
    + apply list_lookup_singleton_Some in H as [_ H]. injection H as _ H.
      exfalso. exact (Hf _ _ H).
  - intros sc' ms' f' H Hl. destruct (t_bound _ _ _ _ _ HT _ H) as [_ Hlt].
    rewrite lookup_app_l in Hl by exact Hlt. exact (t_slot _ _ _ _ _ HT _ _ _ H Hl).
  - intros r sc' role Hin Hfn.
    destruct (t_listeners _ _ _ _ _ HT _ _ _ Hin Hfn) as (Hs & Hr & Hfl).
    split; [exact Hs|]. split; [exact Hr|].
    destruct Hfl as [Hfl|Hfl]; [left; apply in_flight_snoc; exact Hfl|right; exact Hfl].
  - exact (t_nodup _ _ _ _ _ HT).
  - intros s f' Hin. destruct (t_abort _ _ _ _ _ HT _ _ Hin) as (sc' & -> & Hsig & Hfl).
    exists sc'. repeat split; [exact Hsig|apply in_flight_snoc; exact Hfl].
  - exact (t_abort_nodup _ _ _ _ _ HT).
  - intros sc' [ms' H]. apply lookup_app_Some in H as [H|[_ H]].
    + apply (t_flight _ _ _ _ _ HT). exists ms'. exact H.
    + apply list_lookup_singleton_Some in H as [_ H]. injection H as _ H.
      exfalso. exact (Hf _ _ H).
  - exact (t_once _ _ _ _ _ HT).
  - intros p H. destruct (t_pending _ _ _ _ _ HT _ H) as (sc' & Hs & Hp' & Hfl).
    exists sc'. split; [exact Hs|]. split; [exact Hp'|].
    destruct Hfl as [Hfl|Hfl]; [left; apply in_flight_snoc; exact Hfl|right; exact Hfl].
Qed.

(** A timer that belongs to no operation fires. *)
Lemma TidyOn_timer_fired h ms f :
  ts !! h = Some (Js.Armed ms f) -> (forall sc r, f <> Guard sc r) ->
  TidyOn eng ps (<[h := Js.Fired]> ts) ls als.
Proof.
  intros Hh Hf.
  assert (Hkeep : forall sc', in_flight sc' ts -> in_flight sc' (<[h := Js.Fired]> ts)).
  { intros sc' Hfl. apply in_flight_insert; [exact Hfl|].
    intros E. destruct Hfl as [ms' Hfl]. rewrite E, Hh in Hfl. injection Hfl as _ Hfl.
    exact (Hf _ _ Hfl). }
  split.
  - intros sc' H. rewrite length_insert. exact (t_bound _ _ _ _ _ HT _ H).
  - exact (t_unique _ _ _ _ _ HT).
  - intros h' ms' sc' r H.
    apply list_lookup_insert_Some in H as [(_ & HE & _)|(Hne & H)]; [discriminate|].
    exact (t_timers _ _ _ _ _ HT _ _ _ _ H).
  - intros sc' ms' f' H Hl.
    apply list_lookup_insert_Some in Hl as [(_ & HE & _)|(Hne & Hl)]; [discriminate|].
    exact (t_slot _ _ _ _ _ HT _ _ _ H Hl).
  - intros r sc' role Hin Hfn.
    destruct (t_listeners _ _ _ _ _ HT _ _ _ Hin Hfn) as (Hs & Hr & Hfl).
    split; [exact Hs|]. split; [exact Hr|].
    destruct Hfl as [Hfl|Hfl]; [left; apply Hkeep; exact Hfl|right; exact Hfl].
  - exact (t_nodup _ _ _ _ _ HT).
  - intros s f' Hin. destruct (t_abort _ _ _ _ _ HT _ _ Hin) as (sc' & -> & Hsig & Hfl).
    exists sc'. repeat split; [exact Hsig|apply Hkeep; exact Hfl].
  - exact (t_abort_nodup _ _ _ _ _ HT).
  - intros sc' Hfl. apply (in_flight_insert_inv _ _ Js.Fired) in Hfl as [Hfl _];
      [|intros ? ?; discriminate].
    exact (t_flight _ _ _ _ _ HT _ Hfl).
  - exact (t_once _ _ _ _ _ HT).
  - intros p H. destruct (t_pending _ _ _ _ _ HT _ H) as (sc' & Hs & Hp' & Hfl).
    exists sc'. split; [exact Hs|]. split; [exact Hp'|].
    destruct Hfl as [Hfl|Hfl]; [left; apply Hkeep; exact Hfl|right; exact Hfl].
Qed.

(** An operation in flight starts to listen to its signal. *)
Lemma TidyOn_add_abort sc s :
  in_flight sc ts -> abortSignal sc = Some s -> (s, Guard sc OnAbort) ∉ als ->
  TidyOn eng ps ts ls (als ++ [(s, Guard sc OnAbort)]).
Proof.
  intros Hfl Hsig Hnew. split.
  - exact (t_bound _ _ _ _ _ HT).
  - exact (t_unique _ _ _ _ _ HT).
  - exact (t_timers _ _ _ _ _ HT).
  - exact (t_slot _ _ _ _ _ HT).
  - exact (t_listeners _ _ _ _ _ HT).
  - exact (t_nodup _ _ _ _ _ HT).
  - intros s' f [Hin|Hin]%elem_of_app.
    + exact (t_abort _ _ _ _ _ HT _ _ Hin).
    + apply list_elem_of_singleton in Hin. injection Hin as -> ->.
      exists sc. repeat split; assumption.
  - apply NoDup_app. split; [exact (t_abort_nodup _ _ _ _ _ HT)|].
    split; [|apply NoDup_singleton].
    intros x Hx Hx'. apply list_elem_of_singleton in Hx'. subst x. exact (Hnew Hx).
  - exact (t_flight _ _ _ _ _ HT).
  - exact (t_once _ _ _ _ _ HT).
  - exact (t_pending _ _ _ _ _ HT).
Qed.

End Preservation.

(** ** What a local function of an operation changes *)

Lemma removeListeners_fields sc w :
  promises (removeListeners sc w) = promises w
  /\ timers (removeListeners sc w) = Js.clearTimeout (waitTimer sc) (timers w)
  /\ (exists cs, engine (removeListeners sc w) = engine w ++ cs /\ quiet cs)
  /\ abortListeners (removeListeners sc w)
     = match abortSignal sc with
       | Some s => filter (fun sl => sl <> (s, Guard sc OnAbort)) (abortListeners w)
       | None => abortListeners w
       end.
Proof.
  unfold removeListeners, removeAbortListener, removeEventListener.
  destruct (abortSignal sc); destruct (op sc); cbn;
    (split; [reflexivity|]); (split; [reflexivity|]);
    (split; [|reflexivity]); eexists;
    (split; [rewrite <- !app_assoc; reflexivity|reflexivity]).
Qed.

Lemma removeListener_sublist t ev f (l : list (Js.Registration Entity Closure)) :
  Js.removeListener t ev f l `sublist_of` l.
Proof. apply remove_last_sublist. Qed.

Lemma removeListener_keeps t ev f (l : list (Js.Registration Entity Closure)) r :
  r ∈ l -> Js.fn r <> f -> r ∈ Js.removeListener t ev f l.
Proof.
  intros Hin Hf. apply remove_last_keeps; [exact Hin|].
  unfold Js.is_listener. apply bool_decide_eq_false. intros (_ & _ & E). exact (Hf E).
Qed.

Lemma own_sublist sc l k : l `sublist_of` k -> own sc k -> own sc l.
Proof.
  intros Hs [Hnd Hown]. split.
  - eapply sublist_NoDup; [exact Hnd|]. apply filter_sublist_mono. exact Hs.
  - intros r role Hin. apply Hown. exact (elem_of_sublist _ _ _ Hin Hs).
Qed.

Lemma removeListener_drops sc l t ev role x :
  own sc l ->
  x ∈ registrations sc -> Js.target x = t -> Js.event x = ev -> Js.fn x = Guard sc role ->
  x ∉ Js.removeListener t ev (Guard sc role) l.
Proof.
  intros [Hnd Hown] Hx Ht He Hf Hin.
  assert (Hgx : guard_registration x = true) by (apply registrations_guard with sc; exact Hx).
  assert (HP : Js.is_listener t ev (Guard sc role) x = false).
  { apply (remove_last_gone _ l x); [| |exact Hin].
    - intros y Hy HPy. unfold Js.is_listener in HPy.
      apply bool_decide_eq_true in HPy as (Hty & Hey & Hfy).
      apply (registrations_event sc); [exact (Hown _ _ Hy Hfy)|exact Hx|congruence..].
    - intros l1 l2 l3 ->. revert Hnd.
      rewrite filter_app, filter_cons_True, filter_app, filter_cons_True by exact Hgx.
      intros Hnd. exact (NoDup_no_repeat _ _ _ _ _ Hnd eq_refl). }
  unfold Js.is_listener in HP. apply bool_decide_eq_false in HP. apply HP. auto.
Qed.

Lemma listeners_removeListeners_sublist sc w :
  listeners (removeListeners sc w) `sublist_of` listeners w.
Proof.
  unfold removeListeners, removeAbortListener, removeEventListener.
  destruct (abortSignal sc); destruct (op sc); cbn;
    (etransitivity; [apply removeListener_sublist|]);
    (etransitivity; [apply removeListener_sublist|]);
    apply removeListener_sublist.
Qed.

Lemma listeners_removeListeners_keeps sc w r :
  r ∈ listeners w -> (forall role, Js.fn r <> Guard sc role) ->
  r ∈ listeners (removeListeners sc w).
Proof.
  intros Hin Hfn.
  unfold removeListeners, removeAbortListener, removeEventListener.
  destruct (abortSignal sc); destruct (op sc); cbn;
    repeat apply removeListener_keeps; auto.
Qed.

Ltac dropped Hown Hr Hin :=
  first
    [ refine (removeListener_drops _ _ _ _ _ _ _ Hr eq_refl eq_refl eq_refl Hin);
      eapply own_sublist; [|exact Hown];
      (etransitivity; [apply removeListener_sublist|]); apply removeListener_sublist
    | apply remove_last_elem_of in Hin;
      refine (removeListener_drops _ _ _ _ _ _ _ Hr eq_refl eq_refl eq_refl Hin);
      eapply own_sublist; [|exact Hown]; apply removeListener_sublist
    | do 2 apply remove_last_elem_of in Hin;
      exact (removeListener_drops _ _ _ _ _ _ Hown Hr eq_refl eq_refl eq_refl Hin) ].

Lemma listeners_removeListeners_gone sc w r role :
  own sc (listeners w) ->
  r ∈ listeners (removeListeners sc w) -> Js.fn r = Guard sc role -> leftover sc role.
Proof.
  intros Hown Hin Hfn.
  assert (Hr : r ∈ registrations sc).
  { apply (proj2 Hown _ role); [|exact Hfn].
    exact (elem_of_sublist _ _ _ Hin (listeners_removeListeners_sublist sc w)). }
  pose proof Hr as Hr0.
  revert Hin Hr0. unfold removeListeners, removeAbortListener, removeEventListener,
    registrations, leftover.
  destruct (abortSignal sc); destruct (op sc) eqn:Hop; cbn; intros Hin Hr0;
    repeat (apply elem_of_cons in Hr0 as [->|Hr0]); try (inversion Hr0; fail);
    try (exfalso; dropped Hown Hr Hin; fail);
    cbn in Hfn; (split; [reflexivity|congruence]).
Qed.

Lemma after_removeListeners_fields sc r ctx w :
  defines (op sc) r = true ->
  timers (after_removeListeners sc r ctx w) = timers w
  /\ listeners (after_removeListeners sc r ctx w) = listeners w
  /\ abortListeners (after_removeListeners sc r ctx w) = abortListeners w
  /\ (exists cs, engine (after_removeListeners sc r ctx w) = engine w ++ cs /\ quiet cs)
  /\ ((promises (after_removeListeners sc r ctx w) = promises w
       /\ is_close (op sc) = true /\ r = OnDisconnected)
      \/ exists x, promises (after_removeListeners sc r ctx w)
                   = Js.settle (promise sc) x (promises w)).
Proof.
  unfold after_removeListeners.
  destruct (op sc), r; cbn; intros Hd; try discriminate;
    (split; [reflexivity|]); (split; [reflexivity|]); (split; [reflexivity|]);
    (split;
     [first [exists []; split; [symmetry; apply app_nil_r|reflexivity]
            |eexists; split; reflexivity]
     |first [left; repeat split; reflexivity|right; eexists; reflexivity]]).
Qed.

Lemma classic_in_flight sc ts : in_flight sc ts \/ ~ in_flight sc ts.
Proof.
  unfold in_flight.
  destruct (ts !! waitTimer sc) as [[ms f| |]|] eqn:H;
    try (right; intros [ms' H']; discriminate).
  destruct (decide (f = Guard sc ActionAfterTimeout)) as [->|Hne].
  - left. exists ms. reflexivity.
  - right. intros [ms' H']. congruence.
Qed.

(** The fields of the world after a local function of [sc] ran. *)
Lemma guard_call_fields sc r ctx w :
  defines (op sc) r = true ->
  let w' := call_closure (Guard sc r) ctx w in
  timers w' = Js.clearTimeout (waitTimer sc) (timers w)
  /\ listeners w' = listeners (removeListeners sc w)
  /\ abortListeners w'
     = match abortSignal sc with
       | Some s => filter (fun sl => sl <> (s, Guard sc OnAbort)) (abortListeners w)
       | None => abortListeners w
       end
  /\ (exists cs, engine w' = engine w ++ cs /\ quiet cs)
  /\ ((promises w' = promises w /\ is_close (op sc) = true /\ r = OnDisconnected)
      \/ exists x, promises w' = Js.settle (promise sc) x (promises w)).
Proof.
  intros Hd w'. unfold w'. cbn [call_closure]. rewrite Hd.
  destruct (after_removeListeners_fields sc r ctx (removeListeners sc w) Hd)
    as (Ht & Hl & Ha & (cs & He & Hq) & Hp).
  destruct (removeListeners_fields sc w) as (Hp' & Ht' & (cs' & He' & Hq') & Ha').
  rewrite Ht, Hl, Ha, He, Ht', Ha', He'.
  split; [reflexivity|]. split; [reflexivity|]. split; [reflexivity|].
  split.
  - exists (cs' ++ cs). split; [symmetry; apply app_assoc|].
    unfold quiet in *. rewrite forallb_app, Hq, Hq'. reflexivity.
  - destruct Hp as [(Hp & ? & ?)|[x Hp]]; rewrite Hp, ?Hp'; [left; auto|right; eauto].
Qed.

Lemma filter_ne_sublist {A} `{EqDecision A} (x : A) (l : list A) :
  filter (fun y => y <> x) l `sublist_of` l.
Proof. apply sublist_filter. Qed.

(** A local function of an operation in flight runs: from a listener (whose
    [once] wrapper may have left the list), from the timer (which is then
    marked as fired) or from the signal. *)
Lemma Tidy_guard_call sc r ctx w wm :
  Tidy w -> in_flight sc (timers w) -> defines (op sc) r = true ->
  promises wm = promises w -> engine wm = engine w ->
  abortListeners wm = abortListeners w ->
  timers wm = timers w \/ timers wm = <[waitTimer sc := Js.Fired]> (timers w) ->
  listeners wm `sublist_of` listeners w ->
  Tidy (call_closure (Guard sc r) ctx wm).
Proof.
  intros HT Hfl Hd Hps Heng Hals Hts Hls. unfold Tidy.
  destruct (guard_call_fields sc r ctx wm Hd) as (Ht & Hl & Ha & (cs & He & Hq) & Hp).
  rewrite Ht, Hl, Ha, He, Heng, Hals.
  assert (Hown : own sc (listeners wm)).
  { apply (own_sublist _ _ _ Hls). split; [exact (t_nodup _ _ _ _ _ HT)|].
    intros r' role Hin Hfn. exact (proj1 (proj2 (t_listeners _ _ _ _ _ HT _ _ _ Hin Hfn))). }
  assert (exists T, (forall ms f, T <> Js.Armed ms f)
            /\ Js.clearTimeout (waitTimer sc) (timers wm) = <[waitTimer sc := T]> (timers w))
    as (T & HTn & ->).
  { destruct Hfl as [ms Hfl]. destruct Hts as [->| ->].
    - exists Js.Cleared. split; [intros ? ?; discriminate|].
      unfold Js.clearTimeout. rewrite Hfl. reflexivity.
    - exists Js.Fired. split; [intros ? ?; discriminate|].
      unfold Js.clearTimeout.
      rewrite list_lookup_insert_eq by (apply lookup_lt_Some in Hfl; exact Hfl).
      reflexivity. }
  apply (TidyOn_retire _ _ _ _ _ HT); try assumption.
  - destruct Hp as [(-> & Hc & _)|[x ->]]; rewrite Hps; [left; auto|right; eauto].
  - etransitivity; [apply listeners_removeListeners_sublist|exact Hls].
  - intros r' role. apply listeners_removeListeners_gone. exact Hown.
  - destruct (abortSignal sc); [apply sublist_filter|reflexivity].
  - intros s Hin. destruct (abortSignal sc) as [s'|] eqn:Hsig.
    + apply list_elem_of_filter in Hin as [Hne Hin].
      destruct (t_abort _ _ _ _ _ HT _ _ Hin) as (sc' & E & Hs & _).
      injection E as <-. apply Hne. congruence.
    + destruct (t_abort _ _ _ _ _ HT _ _ Hin) as (sc' & E & Hs & _).
      injection E as <-. congruence.
Qed.

(** [onSendable] of a [_createSender] that is over runs. *)
Lemma Tidy_leftover_call sc ctx w wm :
  Tidy w -> started sc (engine w) -> is_sender (op sc) = true ->
  ~ in_flight sc (timers w) ->
  promises wm = promises w -> engine wm = engine w ->
  abortListeners wm = abortListeners w -> timers wm = timers w ->
  listeners wm `sublist_of` listeners w ->
  Tidy (call_closure (Guard sc OnSendable) ctx wm).
Proof.
  intros HT Hst Hsend Hnf Hps Heng Hals Hts Hls. unfold Tidy.
  assert (Hd : defines (op sc) OnSendable = true) by (destruct (op sc); try discriminate; reflexivity).
  destruct (guard_call_fields sc OnSendable ctx wm Hd) as (Ht & Hl & Ha & (cs & He & Hq) & Hp).
  rewrite Ht, Hl, Ha, He, Heng, Hals, Hts.
  assert (Js.clearTimeout (waitTimer sc) (timers w) = timers w) as ->.
  { unfold Js.clearTimeout.
    destruct (timers w !! waitTimer sc) as [[ms f| |]|] eqn:Hslot; try reflexivity.
    exfalso. apply Hnf. exists ms.
    rewrite Hslot, (t_slot _ _ _ _ _ HT _ _ _ Hst Hslot). reflexivity. }
  destruct Hp as [(_ & _ & ?)|[x ->]]; [discriminate|]. rewrite Hps.
  apply (TidyOn_leftover _ _ _ _ _ HT); try assumption.
  - etransitivity; [apply listeners_removeListeners_sublist|exact Hls].
  - destruct (abortSignal sc); [apply sublist_filter|reflexivity].
Qed.

(** ** Re-emitting an event *)

Lemma Tidy_same w w' :
  engine w' = engine w -> promises w' = promises w -> timers w' = timers w ->
  listeners w' = listeners w -> abortListeners w' = abortListeners w ->
  Tidy w -> Tidy w'.
Proof. unfold Tidy. intros -> -> -> -> ->. auto. Qed.

Lemma Tidy_fewer_listeners w l :
  l `sublist_of` listeners w -> Tidy w -> Tidy (with_listeners l w).
Proof.
  intros Hl HT. unfold Tidy. cbn.
  rewrite <- (app_nil_r (engine w)).
  apply (TidyOn_less _ _ _ _ _ HT); [exact Hl|reflexivity|reflexivity].
Qed.

Lemma Tidy_emitEvent params w : Tidy w -> Tidy (emitEvent params w).
Proof.
  intros HT. unfold emitEvent.
  destruct (_ && _).
  - unfold Tidy. cbn. apply TidyOn_timer_new; [exact HT|]. intros ? ?; discriminate.
  - revert HT. apply Tidy_same; reflexivity.
Qed.

Lemma emitEvent_untouched params w :
  listeners (emitEvent params w) = listeners w
  /\ abortListeners (emitEvent params w) = abortListeners w
  /\ promises (emitEvent params w) = promises w
  /\ engine (emitEvent params w) = engine w.
Proof. unfold emitEvent. destruct (_ && _); repeat split; reflexivity. Qed.

(** A function that is not a local function of an operation runs. *)
Lemma Tidy_other_call f ctx w :
  (forall sc r, f <> Guard sc r) -> Tidy w -> Tidy (call_closure f ctx w).
Proof.
  intros Hf HT. destruct f as [sc r|e ty ev|params]; cbn [call_closure].
  - exfalso. exact (Hf _ _ eq_refl).
  - apply Tidy_emitEvent. exact HT.
  - revert HT. apply Tidy_same; reflexivity.
Qed.

Lemma other_call_untouched f ctx w :
  (forall sc r, f <> Guard sc r) ->
  listeners (call_closure f ctx w) = listeners w
  /\ abortListeners (call_closure f ctx w) = abortListeners w
  /\ promises (call_closure f ctx w) = promises w
  /\ engine (call_closure f ctx w) = engine w.
Proof.
  intros Hf. destruct f as [sc r|e ty ev|params]; cbn [call_closure].
  - exfalso. exact (Hf _ _ eq_refl).
  - apply emitEvent_untouched.
  - repeat split; reflexivity.
Qed.

(** ** The three ways a function gets to run *)

(** A listener on an object of the engine runs, its [once] wrapper having
    left the list. *)
Lemma Tidy_listener_call r ctx w :
  Tidy w -> (guard_registration r = true -> r ∈ listeners w) ->
  Tidy (call_closure (Js.fn r) ctx
          (if Js.once_flag r
           then with_listeners (Js.removeWrapper r (listeners w)) w else w)).
Proof.
  intros HT Hin.
  set (wm := if Js.once_flag r then _ else w).
  assert (Hsub : listeners wm `sublist_of` listeners w).
  { unfold wm. destruct (Js.once_flag r); [apply remove_last_sublist|reflexivity]. }
  assert (Hrest : promises wm = promises w /\ engine wm = engine w
                  /\ abortListeners wm = abortListeners w /\ timers wm = timers w).
  { unfold wm. destruct (Js.once_flag r); repeat split; reflexivity. }
  destruct Hrest as (Hp & He & Ha & Ht).
  destruct (Js.fn r) as [sc role|e ty ev|params] eqn:Hfn.
  - assert (Hin' : r ∈ listeners w).
    { apply Hin. unfold guard_registration. rewrite Hfn. reflexivity. }
    destruct (t_listeners _ _ _ _ _ HT _ _ _ Hin' Hfn) as (Hst & Hreg & Hfl).
    destruct (registrations_fn _ _ Hreg) as (role' & Hfn' & Hd).
    assert (role' = role) as -> by congruence.
    destruct Hfl as [Hfl|[Hsend ->]].
    + apply (Tidy_guard_call _ _ _ w); auto.
    + destruct (classic_in_flight sc (timers w)) as [Hfl|Hnf].
      * apply (Tidy_guard_call _ _ _ w); auto.
      * apply (Tidy_leftover_call _ _ w); auto.
  - apply Tidy_other_call; [intros ? ?; discriminate|].
    assert (wm = with_listeners (listeners wm) w) as ->.
    { unfold wm. destruct (Js.once_flag r); [reflexivity|destruct w; reflexivity]. }
    apply Tidy_fewer_listeners; assumption.
  - apply Tidy_other_call; [intros ? ?; discriminate|].
    assert (wm = with_listeners (listeners wm) w) as ->.
    { unfold wm. destruct (Js.once_flag r); [reflexivity|destruct w; reflexivity]. }
    apply Tidy_fewer_listeners; assumption.
Qed.

Lemma listener_call_keeps r0 ctx w r :
  Tidy w -> (guard_registration r0 = true -> r0 ∈ listeners w) ->
  r ∈ listeners w -> r <> r0 ->
  (forall sc role role', Js.fn r0 = Guard sc role -> Js.fn r <> Guard sc role') ->
  r ∈ listeners
        (call_closure (Js.fn r0) ctx
           (if Js.once_flag r0
            then with_listeners (Js.removeWrapper r0 (listeners w)) w else w)).
Proof.
  intros HT Hin0 Hin Hne Hsc.
  set (wm := if Js.once_flag r0 then _ else w).
  assert (Hwm : r ∈ listeners wm).
  { unfold wm. destruct (Js.once_flag r0); [|exact Hin]. cbn.
    apply remove_last_keeps; [exact Hin|]. apply bool_decide_eq_false. exact Hne. }
  destruct (Js.fn r0) as [sc role|e ty ev|params] eqn:Hfn.
  - assert (Hin0' : r0 ∈ listeners w).
    { apply Hin0. unfold guard_registration. rewrite Hfn. reflexivity. }
    destruct (t_listeners _ _ _ _ _ HT _ _ _ Hin0' Hfn) as (_ & Hreg & _).
    destruct (registrations_fn _ _ Hreg) as (role' & Hfn' & Hd).
    assert (role' = role) as -> by congruence.
    destruct (guard_call_fields sc role ctx wm Hd) as (_ & -> & _).
    apply listeners_removeListeners_keeps; [exact Hwm|].
    intros role'. exact (Hsc _ _ _ eq_refl).
  - destruct (other_call_untouched (ReEmit e ty ev) ctx wm) as (-> & _);
      [intros ? ?; discriminate|exact Hwm].
  - destruct (other_call_untouched (EmitLater params) ctx wm) as (-> & _);
      [intros ? ?; discriminate|exact Hwm].
Qed.

(** One listener of the event ran: those that come after it are still on
    the object. *)
Lemma snapshot_tail ctx t ev r0 rs w :
  Tidy w ->
  NoDup (filter (fun r => guard_registration r = true) (r0 :: rs)) ->
  (forall r, r ∈ r0 :: rs ->
     Js.target r = t /\ Js.event r = ev
     /\ (guard_registration r = true -> r ∈ listeners w)) ->
  forall r, r ∈ rs ->
    Js.target r = t /\ Js.event r = ev
    /\ (guard_registration r = true ->
        r ∈ listeners
              (call_closure (Js.fn r0) ctx
                 (if Js.once_flag r0
                  then with_listeners (Js.removeWrapper r0 (listeners w)) w else w))).
Proof.
  intros HT Hnd Hrs r Hr.
  destruct (Hrs r0) as (Ht0 & He0 & Hin0); [left|].
  destruct (Hrs r) as (Ht & He & Hin); [right; exact Hr|].
  split; [exact Ht|]. split; [exact He|]. intros Hg.
  apply listener_call_keeps; auto.
  - intros ->. rewrite filter_cons_True in Hnd by exact Hg.
    apply NoDup_cons in Hnd as [Hnot _]. apply Hnot.
    apply list_elem_of_filter. split; assumption.
  - intros sc role role' Hfn0 Hfn.
    assert (Hg0 : guard_registration r0 = true).
    { unfold guard_registration. rewrite Hfn0. reflexivity. }
    rewrite filter_cons_True in Hnd by exact Hg0.
    apply NoDup_cons in Hnd as [Hnot _]. apply Hnot.
    apply list_elem_of_filter. split; [exact Hg0|].
    assert (r0 = r) as ->; [|exact Hr].
    apply (registrations_event sc); try congruence.
    + exact (proj1 (proj2 (t_listeners _ _ _ _ _ HT _ _ _ (Hin0 Hg0) Hfn0))).
    + exact (proj1 (proj2 (t_listeners _ _ _ _ _ HT _ _ _ (Hin Hg) Hfn))).
Qed.

Lemma NoDup_filter_tail {A} (P : A -> Prop) `{!forall x, Decision (P x)} x (l : list A) :
  NoDup (filter P (x :: l)) -> NoDup (filter P l).
Proof.
  rewrite filter_cons. destruct (decide _); [|auto].
  intros [_ Hnd]%NoDup_cons. exact Hnd.
Qed.

(** The listeners for one event of one object, as they stood when [emit]
    started, run one after the other; [P] is whatever else each of them
    keeps. *)
Lemma listeners_loop (P : World -> Prop) ctx t ev rs :
  (forall r w, Tidy w -> P w ->
     (guard_registration r = true -> r ∈ listeners w) ->
     P (call_closure (Js.fn r) ctx
          (if Js.once_flag r
           then with_listeners (Js.removeWrapper r (listeners w)) w else w))) ->
  forall w,
  Tidy w -> P w ->
  NoDup (filter (fun r => guard_registration r = true) rs) ->
  (forall r, r ∈ rs ->
     Js.target r = t /\ Js.event r = ev
     /\ (guard_registration r = true -> r ∈ listeners w)) ->
  let w' := foldl
          (fun w r =>
             let w := if Js.once_flag r
                      then with_listeners (Js.removeWrapper r (listeners w)) w
                      else w in
             call_closure (Js.fn r) ctx w) w rs in
  Tidy w' /\ P w'.
Proof.
  intros Hstep.
  induction rs as [|r0 rs IH]; intros w HT HP Hnd Hrs; [split; assumption|].
  cbn [foldl].
  destruct (Hrs r0) as (Ht0 & He0 & Hin0); [left|].
  apply IH.
  - apply Tidy_listener_call; assumption.
  - apply Hstep; assumption.
  - exact (NoDup_filter_tail _ _ _ Hnd).
  - exact (snapshot_tail ctx t ev r0 rs w HT Hnd Hrs).
Qed.

(** What [emit] keeps, given what each listener keeps. *)
Lemma emit_keeps (P : World -> Prop) t ev ctx w :
  (forall r w, Tidy w -> P w ->
     (guard_registration r = true -> r ∈ listeners w) ->
     P (call_closure (Js.fn r) ctx
          (if Js.once_flag r
           then with_listeners (Js.removeWrapper r (listeners w)) w else w))) ->
  Tidy w -> P w -> Tidy (emit t ev ctx w) /\ P (emit t ev ctx w).
Proof.
  intros Hstep HT HP. unfold emit.
  apply (listeners_loop P ctx t ev); [exact Hstep|exact HT|exact HP| |].
  - eapply sublist_NoDup; [exact (t_nodup _ _ _ _ _ HT)|].
    apply filter_sublist_mono. unfold Js.listenersOf. apply sublist_filter.
  - intros r Hr. unfold Js.listenersOf in Hr.
    apply list_elem_of_filter in Hr as [[Ht He] Hin]. auto.
Qed.

Lemma Tidy_emit t ev ctx w : Tidy w -> Tidy (emit t ev ctx w).
Proof.
  intros HT. apply (emit_keeps (fun _ => True)); [intros; exact I|exact HT|exact I].
Qed.

(** ** Timers *)

Lemma Tidy_timerFires h w : Tidy w -> Tidy (timerFires h w).
Proof.
  intros HT. unfold timerFires, Js.fire.
  destruct (timers w !! h) as [[ms f| |]|] eqn:Hh; try exact HT.
  destruct f as [sc r|e ty ev|params].
  - destruct (t_timers _ _ _ _ _ HT _ _ _ _ Hh) as (-> & -> & Hst).
    apply (Tidy_guard_call _ _ _ w); try reflexivity; try assumption.
    + exists ms. exact Hh.
    + destruct (op sc); reflexivity.
    + right. reflexivity.
  - apply Tidy_other_call; [intros ? ?; discriminate|].
    unfold Tidy. cbn. apply (TidyOn_timer_fired _ _ _ _ _ HT _ _ _ Hh).
    intros ? ?; discriminate.
  - apply Tidy_other_call; [intros ? ?; discriminate|].
    unfold Tidy. cbn. apply (TidyOn_timer_fired _ _ _ _ _ HT _ _ _ Hh).
    intros ? ?; discriminate.
Qed.

(** ** Signals *)

Lemma abort_loop (P : World -> Prop) sls :
  (forall sc w, Tidy w -> P w -> in_flight sc (timers w) ->
     P (call_closure (Guard sc OnAbort) no_context w)) ->
  forall w,
  Tidy w -> P w -> NoDup sls -> (forall x, x ∈ sls -> x ∈ abortListeners w) ->
  let w' := foldl (fun w sl => call_closure sl.2 no_context w) w sls in
  Tidy w' /\ P w'.
Proof.
  intros Hstep.
  induction sls as [|[s f] sls IH]; intros w HT HP Hnd Hsls; [split; assumption|].
  cbn [foldl snd]. apply NoDup_cons in Hnd as [Hnot Hnd].
  destruct (t_abort _ _ _ _ _ HT s f) as (sc & -> & Hsig & Hfl); [apply Hsls; left|].
  assert (Hd : defines (op sc) OnAbort = true) by (destruct (op sc); reflexivity).
  apply IH; [| |exact Hnd|].
  - apply (Tidy_guard_call _ _ _ w); try reflexivity; try assumption.
    left. reflexivity.
  - apply Hstep; assumption.
  - intros x Hx.
    destruct (guard_call_fields sc OnAbort no_context w Hd) as (_ & _ & -> & _).
    rewrite Hsig. apply list_elem_of_filter. split.
    + intros ->. exact (Hnot Hx).
    + apply Hsls. right. exact Hx.
Qed.

Lemma Tidy_abort_loop sls : forall w,
  Tidy w -> NoDup sls -> (forall x, x ∈ sls -> x ∈ abortListeners w) ->
  Tidy (foldl (fun w sl => call_closure sl.2 no_context w) w sls).
Proof.
  intros w HT Hnd Hsls.
  apply (abort_loop (fun _ => True)); auto.
Qed.

Lemma Tidy_signalAborts s w : Tidy w -> Tidy (signalAborts s w).
Proof.
  intros HT. unfold signalAborts. destruct (is_aborted s w); [exact HT|].
  apply Tidy_abort_loop.
  - revert HT. apply Tidy_same; reflexivity.
  - eapply sublist_NoDup; [exact (t_abort_nodup _ _ _ _ _ HT)|apply sublist_filter].
  - intros x [_ Hx]%list_elem_of_filter. exact Hx.
Qed.

(** ** The calls of the library *)

(** An operation registered its listeners and started its timer, and now
    looks at the signal it was given. *)
Lemma Tidy_start w W sc ms extra cs :
  Tidy w ->
  promise sc = length (promises w) -> waitTimer sc = length (timers w) ->
  engine W = engine w ++ cs ->
  promises W = promises w ++ [[]] ->
  timers W = timers w ++ [Js.Armed ms (Guard sc ActionAfterTimeout)] ->
  listeners W = listeners w ++ extra ++ registrations sc ->
  abortListeners W = abortListeners w ->
  Forall (fun r => guard_registration r = false) extra ->
  started sc cs -> (forall sc', started sc' cs -> sc' = sc) ->
  Tidy (watchAbortSignal sc W).
Proof.
  intros HT Hp Hw He Hps Hts Hls Hals Hextra Hsc Hcs.
  assert (HW : Tidy W).
  { unfold Tidy. rewrite He, Hps, Hts, Hls, Hals.
    apply (TidyOn_launch _ _ _ _ _ HT); assumption. }
  assert (Hfl : in_flight sc (timers W)).
  { exists ms. rewrite Hts, Hw, lookup_app_r, Nat.sub_diag by lia. reflexivity. }
  unfold watchAbortSignal. destruct (abortSignal sc) as [s|] eqn:Hsig; [|exact HW].
  destruct (is_aborted s W).
  - apply (Tidy_guard_call _ _ _ W); try reflexivity; try assumption.
    + destruct (op sc); reflexivity.
    + left. reflexivity.
  - unfold Tidy. cbn. apply TidyOn_add_abort; try assumption.
    rewrite Hals. intros Hin.
    destruct (t_abort _ _ _ _ _ HT _ _ Hin) as (sc' & E & _ & [ms' Hfl']).
    injection E as <-. apply lookup_lt_Some in Hfl'. lia.
Qed.

(** A promise is made and settled within the call. *)
Lemma Tidy_settled_at_once w x :
  Tidy w -> Tidy (settle (length (promises w)) x (newPromise w).2).
Proof.
  intros HT. unfold Tidy. cbn. rewrite settle_new.
  apply TidyOn_settled_new. exact HT.
Qed.

Ltac in_log :=
  apply list_elem_of_In; cbn; repeat first [left; reflexivity | right].

Ltac only_scope :=
  let sc' := fresh "sc'" in let t := fresh "t" in let ev := fresh "ev" in
  let r := fresh "r" in let H := fresh "H" in
  intros sc' (t & ev & r & H);
  repeat (apply elem_of_cons in H as [H|H];
          [try discriminate; injection H; intros; subst; reflexivity|]);
  inversion H.

Ltac start_with w extra :=
  eapply (Tidy_start w _ _ _ extra);
  [ assumption | reflexivity | reflexivity
  | cbn; rewrite <- ?app_assoc; reflexivity
  | reflexivity | reflexivity
  | cbn; rewrite <- ?app_assoc; reflexivity
  | reflexivity
  | repeat constructor
  | eexists _, _, _; in_log
  | only_scope ].

Lemma Tidy_open options isOpen w : Tidy w -> Tidy (Connection.open options isOpen w).2.
Proof.
  intros HT. unfold Connection.open.
  destruct isOpen; cbn [negb].
  - apply Tidy_settled_at_once. exact HT.
  - cbn [newPromise Js.newPromise snd].
    start_with w (@nil (Js.Registration Entity Closure)).
Qed.

Lemma Tidy_close options isOpen w : Tidy w -> Tidy (Connection.close options isOpen w).2.
Proof.
  intros HT. unfold Connection.close.
  destruct isOpen.
  - cbn [newPromise Js.newPromise snd].
    start_with w (@nil (Js.Registration Entity Closure)).
  - apply Tidy_settled_at_once. exact HT.
Qed.

Lemma Tidy_Session_close s options isOpen w :
  Tidy w -> Tidy (Session.close s options isOpen w).2.
Proof.
  intros HT. unfold Session.close.
  destruct isOpen.
  - cbn [newPromise Js.newPromise snd].
    start_with w (@nil (Js.Registration Entity Closure)).
  - apply Tidy_settled_at_once. exact HT.
Qed.

Lemma Tidy_createSession options w :
  Tidy w -> Tidy (Connection.createSession options w).2.
Proof.
  intros HT. unfold Connection.createSession.
  cbn [newPromise Js.newPromise snd].
  start_with w
    (listeners (Session._initializeEventListeners (length (sessions w))
                  (with_listeners [] w))).
Qed.

Lemma Tidy_createReceiver s options w :
  Tidy w -> Tidy (Session.createReceiver s options w).2.
Proof.
  intros HT. unfold Session.createReceiver.
  destruct (_ && _).
  - apply Tidy_settled_at_once. exact HT.
  - cbn [newPromise Js.newPromise snd].
    start_with w (@nil (Js.Registration Entity Closure)).
Qed.

Lemma Tidy_createSender s type options w :
  Tidy w -> Tidy (Session._createSender s type options w).2.
Proof.
  intros HT. unfold Session._createSender.
  cbn [newPromise Js.newPromise snd].
  destruct type; start_with w (@nil (Js.Registration Entity Closure)).
Qed.

Lemma Tidy_step w e : Tidy w -> Tidy (step w e).
Proof.
  intros HT. destruct e; cbn [step].
  - apply Tidy_open, HT.
  - apply Tidy_close, HT.
  - apply Tidy_createSession, HT.
  - apply Tidy_Session_close, HT.
  - apply Tidy_createReceiver, HT.
  - apply Tidy_createSender, HT.
  - apply Tidy_emit, HT.
  - apply Tidy_timerFires, HT.
  - apply Tidy_signalAborts, HT.
Qed.

Lemma Tidy_run evs : forall w, Tidy w -> Tidy (run w evs).
Proof.
  induction evs as [|e evs IH]; intros w HT; [exact HT|].
  apply IH, Tidy_step, HT.
Qed.

Lemma Tidy_constructor o : Tidy (Connection.constructor o).
Proof.
  unfold Tidy. cbn. split.
  - intros sc (t & ev & r & H). exfalso.
    repeat (apply elem_of_cons in H as [H|H]; [discriminate|]). inversion H.
  - intros sc sc' (t & ev & r & H). exfalso.
    repeat (apply elem_of_cons in H as [H|H]; [discriminate|]). inversion H.
  - intros h ms sc r H. rewrite lookup_nil in H. discriminate.
  - intros sc ms f _ H. rewrite lookup_nil in H. discriminate.
  - intros r sc role H Hfn. exfalso.
    repeat (apply elem_of_cons in H as [->|H]; [discriminate|]). inversion H.
  - apply NoDup_nil_2.
  - intros s f H. inversion H.
  - apply NoDup_nil_2.
  - intros sc [ms H]. rewrite lookup_nil in H. discriminate.
  - intros p calls H. rewrite lookup_nil in H. discriminate.
  - intros p H. rewrite lookup_nil in H. discriminate.
Qed.

Lemma Tidy_reachable o evs : Tidy (run (Connection.constructor o) evs).
Proof. apply Tidy_run, Tidy_constructor. Qed.

(** ** Where an operation comes from *)

Lemma quiet_app cs cs' : quiet cs -> quiet cs' -> quiet (cs ++ cs').
Proof. unfold quiet. intros H H'. rewrite forallb_app, H, H'. reflexivity. Qed.

Lemma call_closure_engine f ctx w :
  exists cs, engine (call_closure f ctx w) = engine w ++ cs /\ quiet cs.
Proof.
  destruct f as [sc r|e ty ev|params].
  - destruct (defines (op sc) r) eqn:Hd.
    + destruct (guard_call_fields sc r ctx w Hd) as (_ & _ & _ & H & _). exact H.
    + exists []. cbn [call_closure]. rewrite Hd, app_nil_r. split; reflexivity.
  - exists []. rewrite app_nil_r.
    destruct (other_call_untouched (ReEmit e ty ev) ctx w) as (_ & _ & _ & ->);
      [intros ? ?; discriminate|split; reflexivity].
  - exists []. rewrite app_nil_r. split; reflexivity.
Qed.

Lemma call_closure_promises_length f ctx w :
  length (promises (call_closure f ctx w)) = length (promises w).
Proof.
  destruct f as [sc r|e ty ev|params].
  - destruct (defines (op sc) r) eqn:Hd.
    + destruct (guard_call_fields sc r ctx w Hd) as (_ & _ & _ & _ & [(-> & _)|[x ->]]);
        [reflexivity|]. unfold Js.settle. apply length_alter.
    + cbn [call_closure]. rewrite Hd. reflexivity.
  - destruct (other_call_untouched (ReEmit e ty ev) ctx w) as (_ & _ & -> & _);
      [intros ? ?; discriminate|reflexivity].
  - reflexivity.
Qed.

(** What a loop of calls of functions leaves of the log and of the number
    of promises. *)
Lemma loop_engine {A} (body : World -> A -> World) (xs : list A) :
  (forall w x, (exists cs, engine (body w x) = engine w ++ cs /\ quiet cs)
               /\ length (promises (body w x)) = length (promises w)) ->
  forall w, (exists cs, engine (foldl body w xs) = engine w ++ cs /\ quiet cs)
            /\ length (promises (foldl body w xs)) = length (promises w).
Proof.
  intros Hbody. induction xs as [|x xs IH]; intros w.
  - split; [exists []; rewrite app_nil_r; split; reflexivity|reflexivity].
  - cbn [foldl]. destruct (IH (body w x)) as ((cs & He & Hq) & Hl).
    destruct (Hbody w x) as ((cs' & He' & Hq') & Hl'). split.
    + exists (cs' ++ cs). rewrite He, He', app_assoc. split; [reflexivity|].
      apply quiet_app; assumption.
    + rewrite Hl, Hl'. reflexivity.
Qed.

Lemma event_engine w e :
  is_call e = false ->
  (exists cs, engine (step w e) = engine w ++ cs /\ quiet cs)
  /\ length (promises (step w e)) = length (promises w).
Proof.
  destruct e as [| | | | | |t ev ctx|h|s]; try discriminate; intros _; cbn [step].
  - unfold emit. apply loop_engine. intros w' r. split.
    + destruct (Js.once_flag r);
        [exact (call_closure_engine _ _ (with_listeners _ w'))|apply call_closure_engine].
    + destruct (Js.once_flag r);
        [exact (call_closure_promises_length _ _ (with_listeners _ w'))
        |apply call_closure_promises_length].
  - unfold timerFires. destruct (Js.fire h (timers w)) as [[f ts]|].
    + split; [apply (call_closure_engine f no_context (with_timers ts w))|].
      apply (call_closure_promises_length f no_context (with_timers ts w)).
    + split; [exists []; rewrite app_nil_r; split; reflexivity|reflexivity].
  - unfold signalAborts. destruct (is_aborted s w).
    + split; [exists []; rewrite app_nil_r; split; reflexivity|reflexivity].
    + refine (loop_engine (fun w sl => call_closure sl.2 no_context w) _ _
                (with_aborted (s :: aborted w) w)).
      intros w' x. split; [apply call_closure_engine|apply call_closure_promises_length].
Qed.

Lemma watchAbortSignal_engine sc W :
  (exists cs, engine (watchAbortSignal sc W) = engine W ++ cs /\ quiet cs)
  /\ length (promises (watchAbortSignal sc W)) = length (promises W).
Proof.
  unfold watchAbortSignal. destruct (abortSignal sc) as [s|].
  - destruct (is_aborted s W).
    + split; [apply call_closure_engine|apply call_closure_promises_length].
    + split; [exists []; rewrite app_nil_r; split; reflexivity|reflexivity].
  - split; [exists []; rewrite app_nil_r; split; reflexivity|reflexivity].
Qed.

(** A call that asks the engine starts the operation [sc0]. *)
Lemma start_engine w W sc0 cs :
  engine W = engine w ++ cs -> (forall sc', started sc' cs -> sc' = sc0) ->
  promises W = promises w ++ [[]] ->
  (forall sc, started sc (engine (watchAbortSignal sc0 W)) ->
     started sc (engine w) \/ sc = sc0)
  /\ length (promises (watchAbortSignal sc0 W)) = S (length (promises w)).
Proof.
  intros He Hcs Hps.
  destruct (watchAbortSignal_engine sc0 W) as ((cs' & He' & Hq) & Hl). split.
  - intros sc. rewrite He'. intros H%(started_back _ _ _ Hq). rewrite He in H.
    apply started_app in H as [H|H]; [left; exact H|right; exact (Hcs _ H)].
  - rewrite Hl, Hps, length_app. cbn. lia.
Qed.

Lemma settled_at_once_engine w x :
  (forall sc, started sc (engine (settle (length (promises w)) x (newPromise w).2)) ->
     started sc (engine w))
  /\ length (promises (settle (length (promises w)) x (newPromise w).2))
     = S (length (promises w)).
Proof.
  split; [auto|]. cbn. rewrite settle_new, length_app. cbn. lia.
Qed.

Ltac origin_with w :=
  eapply (start_engine w);
  [ cbn; rewrite <- ?app_assoc; reflexivity | only_scope | reflexivity ].

(** The operations started by one step are the one the call starts, if it
    starts one; the call returns the next promise. *)
Lemma step_origin w e :
  (forall sc, started sc (engine (step w e)) ->
     started sc (engine w)
     \/ (promise sc = length (promises w) /\ same_kind e (op sc) = true
         /\ abortSignal sc = signal_of e))
  /\ length (promises (step w e))
     = length (promises w) + (if is_call e then 1 else 0).
Proof.
  destruct (is_call e) eqn:Hcall.
  - assert (forall W sc0,
      promise sc0 = length (promises w) -> same_kind e (op sc0) = true ->
      abortSignal sc0 = signal_of e ->
      (forall sc, started sc (engine W) -> started sc (engine w) \/ sc = sc0)
      /\ length (promises W) = S (length (promises w)) ->
      (forall sc, started sc (engine W) ->
         started sc (engine w)
         \/ (promise sc = length (promises w) /\ same_kind e (op sc) = true
             /\ abortSignal sc = signal_of e))
      /\ length (promises W) = length (promises w) + 1) as Hgen.
    { intros W sc0 Hp Hk Hs [Hst Hl]. split; [|lia].
      intros sc [H| ->]%Hst; [left; exact H|right; repeat split; assumption]. }
    assert (forall x,
      (forall sc, started sc (engine (settle (length (promises w)) x (newPromise w).2)) ->
         started sc (engine w)
         \/ (promise sc = length (promises w) /\ same_kind e (op sc) = true
             /\ abortSignal sc = signal_of e))
      /\ length (promises (settle (length (promises w)) x (newPromise w).2))
         = length (promises w) + 1) as Honce.
    { intros x. destruct (settled_at_once_engine w x) as [Hst Hl]. split; [|lia].
      intros sc H. left. exact (Hst _ H). }
    destruct e as [o isOpen|o isOpen|o|s o isOpen|s o|s type o| | |];
      try discriminate; cbn [step].
    + unfold Connection.open. destruct isOpen; cbn [negb]; [apply Honce|].
      cbn [newPromise Js.newPromise snd].
      eapply Hgen; [| | |origin_with w]; reflexivity.
    + unfold Connection.close. destruct isOpen; [|apply Honce].
      cbn [newPromise Js.newPromise snd].
      eapply Hgen; [| | |origin_with w]; reflexivity.
    + unfold Connection.createSession. cbn [newPromise Js.newPromise snd].
      eapply Hgen; [| | |origin_with w]; reflexivity.
    + unfold Session.close. destruct isOpen; [|apply Honce].
      cbn [newPromise Js.newPromise snd].
      eapply Hgen; [| | |origin_with w]; [reflexivity| |reflexivity].
      cbn. apply bool_decide_eq_true. reflexivity.
    + unfold Session.createReceiver. destruct (_ && _); [apply Honce|].
      cbn [newPromise Js.newPromise snd].
      eapply Hgen; [| | |origin_with w]; reflexivity.
    + unfold Session._createSender. cbn [newPromise Js.newPromise snd].
      destruct type; (eapply Hgen; [| | |origin_with w]; [reflexivity| |reflexivity]);
        cbn; apply bool_decide_eq_true; reflexivity.
  - destruct (event_engine w e Hcall) as ((cs & He & Hq) & Hl). split; [|lia].
    intros sc H. rewrite He in H. left. exact (started_back _ _ _ Hq H).
Qed.

Lemma run_origin evs : forall w sc,
  Tidy w ->
  started sc (engine (run w evs)) ->
  started sc (engine w) \/ length (promises w) <= promise sc.
Proof.
  induction evs as [|e evs IH]; intros w sc HT H; [left; exact H|].
  change (run w (e :: evs)) with (run (step w e) evs) in H.
  destruct (step_origin w e) as [Hst Hl].
  destruct (IH _ _ (Tidy_step _ e HT) H) as [H'|H'].
  - destruct (Hst _ H') as [H''|[Hp _]]; [left; exact H''|right; lia].
  - right. lia.
Qed.

(** The operation behind the promise a call returned is the one the call
    started, with the signal the call was given. *)
Lemma promise_origin_signal o before e after sc :
  let w := run (Connection.constructor o) before in
  is_call e = true ->
  started sc (engine (run (step w e) after)) ->
  promise sc = length (promises w) ->
  same_kind e (op sc) = true /\ abortSignal sc = signal_of e.
Proof.
  intros w Hcall Hst Hp.
  assert (HT : Tidy w) by apply Tidy_reachable.
  destruct (step_origin w e) as [Horigin Hl]. rewrite Hcall in Hl.
  destruct (run_origin after _ _ (Tidy_step _ e HT) Hst) as [H|H]; [|lia].
  destruct (Horigin _ H) as [H'|(_ & Hk & Hs)]; [|split; assumption].
  destruct (t_bound _ _ _ _ _ HT _ H'). lia.
Qed.

Lemma promise_origin o before e after sc :
  let w := run (Connection.constructor o) before in
  is_call e = true ->
  started sc (engine (run (step w e) after)) ->
  promise sc = length (promises w) ->
  same_kind e (op sc) = true.
Proof.
  intros w Hcall Hst Hp.
  exact (proj1 (promise_origin_signal o before e after sc Hcall Hst Hp)).
Qed.

Lemma same_kind_sender e o : same_kind e o = true -> is_sender o = is_createSender e.
Proof. destruct e, o; try discriminate; reflexivity. Qed.

Lemma same_kind_close e o : same_kind e o = true -> is_close o = is_close_call e.
Proof. destruct e, o; try discriminate; reflexivity. Qed.

(** ** The promise of an operation *)

(** Whatever happened before the call and whatever happens after it, on
    the promise returned by [open], [close], [createSession], [close] of a
    session or [createReceiver] the functions [resolve] and [reject] are
    called at most once altogether. *)
Theorem operation_promise_is_settled_at_most_once o before e after calls :
  is_call e = true -> is_createSender e = false ->
  let w := run (Connection.constructor o) before in
  promises (run (step w e) after) !! length (promises w) = Some calls ->
  length calls <= 1.
Proof.
  intros Hcall Hns w Hcalls.
  assert (HT : Tidy (run (step w e) after)) by apply Tidy_run, Tidy_step, Tidy_reachable.
  destruct (t_once _ _ _ _ _ HT _ _ Hcalls) as [H|(sc & Hst & Hp & Hsend)]; [exact H|].
  exfalso. pose proof (promise_origin o before e after sc Hcall Hst Hp) as Hk.
  rewrite (same_kind_sender _ _ Hk) in Hsend. congruence.
Qed.

Lemma operation_promise_witness :
  length [Js.Resolved (VSession 0) : Js.Settlement Value Error] <= 1.
Proof.
  apply (operation_promise_is_settled_at_most_once None opened (CreateSessionCall None)
           session_opens); reflexivity.
Defined.

(** Once the promise returned by [open], [close], [createSession], [close]
    of a session or [createReceiver] is settled, nothing of the operation
    is left: no listener on an object of the engine, no armed timer and no
    abort listener holds [resolve] or [reject] of the promise, whatever
    happens next. *)
Theorem settled_operation_leaves_nothing_behind o before e after calls :
  is_call e = true -> is_createSender e = false ->
  let w := run (Connection.constructor o) before in
  promises (run (step w e) after) !! length (promises w) = Some calls ->
  calls <> [] ->
  unreferenced (length (promises w)) (run (step w e) after).
Proof.
  intros Hcall Hns w Hcalls Hne.
  set (wf := run (step w e) after) in *.
  assert (HT : Tidy wf) by apply Tidy_run, Tidy_step, Tidy_reachable.
  assert (Hnf : forall sc, promise sc = length (promises w) -> ~ in_flight sc (timers wf)).
  { intros sc Hp Hfl. pose proof (t_flight _ _ _ _ _ HT _ Hfl) as Hpend.
    rewrite Hp, Hcalls in Hpend. congruence. }
  split.
  - apply lookup_lt_Some in Hcalls. exact Hcalls.
  - apply Forall_forall. intros r Hin Hg.
    destruct (Js.fn r) as [sc role| |] eqn:Hfn; try exact Hg. cbn in Hg.
    destruct (t_listeners _ _ _ _ _ HT _ _ _ Hin Hfn) as (Hst & _ & [Hfl|[Hsend _]]).
    + exact (Hnf _ Hg Hfl).
    + pose proof (promise_origin o before e after sc Hcall Hst Hg) as Hk.
      rewrite (same_kind_sender _ _ Hk) in Hsend. congruence.
  - apply Forall_lookup. intros h t Hh. destruct t as [ms f| |]; try exact I.
    cbn. intros Hg. destruct f as [sc r| |]; try exact Hg. cbn in Hg.
    destruct (t_timers _ _ _ _ _ HT _ _ _ _ Hh) as (-> & -> & _).
    apply (Hnf _ Hg). exists ms. exact Hh.
  - apply Forall_forall. intros [s f] Hin Hg. cbn in Hg.
    destruct (t_abort _ _ _ _ _ HT _ _ Hin) as (sc & -> & _ & Hfl).
    exact (Hnf _ Hg Hfl).
Qed.

Lemma settled_operation_witness :
  unreferenced 1
    (run (step (run (Connection.constructor None) opened) (CreateSessionCall None))
       session_opens).
Proof.
  apply (settled_operation_leaves_nothing_behind None opened (CreateSessionCall None)
           session_opens [Js.Resolved (VSession 0)]);
    [reflexivity|reflexivity|reflexivity|discriminate].
Defined.

Lemma timeout_call_promises sc ctx w :
  exists err,
    promises (call_closure (Guard sc ActionAfterTimeout) ctx w)
    = Js.settle (promise sc) (Js.Rejected err) (promises w)
    /\ match op sc with
       | ConnectionOpen | ConnectionClose =>
           exists m, err = JsError m /\ Js.contains "due to operation timeout." m
       | _ => err = OperationTimeoutError
       end.
Proof.
  unfold call_closure, after_removeListeners.
  destruct (removeListeners_fields sc w) as (Hp & _).
  destruct (op sc); cbn; rewrite Hp; eexists; (split; [reflexivity|]);
    try reflexivity; eexists; (split; [reflexivity|]).
  - exists "Unable to open the amqp connection ", "". reflexivity.
  - exists "Unable to close the amqp connection ", "". reflexivity.
Qed.

(** Whatever happened before the call and whatever happens after it, as
    long as the promise returned by [open], [createSession],
    [createReceiver], [createSender] or [createAwaitableSender] is pending,
    the timer of the operation is armed, and when the host fires that timer
    the promise is rejected: with an [OperationTimeoutError] for
    [createSession], [createReceiver], [createSender] and
    [createAwaitableSender], with a plain [Error] whose message says
    "due to operation timeout." for [open].  None of these operations can
    wait for ever. *)
Theorem pending_operation_is_rejected_by_its_timer o before e after :
  is_call e = true -> is_close_call e = false ->
  let w := run (Connection.constructor o) before in
  let wf := run (step w e) after in
  Js.pending (length (promises w)) (promises wf) ->
  exists h ms sc,
    timers wf !! h = Some (Js.Armed ms (Guard sc ActionAfterTimeout))
    /\ promise sc = length (promises w)
    /\ same_kind e (op sc) = true
    /\ (is_open_call e = false ->
        promises (step wf (TimerFires h)) !! length (promises w)
        = Some [Js.Rejected OperationTimeoutError])
    /\ (is_open_call e = true ->
        exists m, Js.contains "due to operation timeout." m
                  /\ promises (step wf (TimerFires h)) !! length (promises w)
                     = Some [Js.Rejected (JsError m)]).
Proof.
  intros Hcall Hnc w wf Hpend.
  assert (HT : Tidy wf) by apply Tidy_run, Tidy_step, Tidy_reachable.
  destruct (t_pending _ _ _ _ _ HT _ Hpend) as (sc & Hst & Hp & Hfl).
  pose proof (promise_origin o before e after sc Hcall Hst Hp) as Hk.
  destruct Hfl as [[ms Hfl]|Hc];
    [|rewrite (same_kind_close _ _ Hk) in Hc; congruence].
  exists (waitTimer sc), ms, sc. split; [exact Hfl|]. split; [exact Hp|].
  split; [exact Hk|].
  cbn [step]. unfold timerFires, Js.fire. rewrite Hfl.
  destruct (timeout_call_promises sc no_context
              (with_timers (<[waitTimer sc := Js.Fired]> (timers wf)) wf))
    as (err & -> & Herr).
  assert (Hcalls : Js.settle (promise sc) (Js.Rejected err) (promises wf)
                   !! length (promises w) = Some [Js.Rejected err]).
  { unfold Js.settle. rewrite Hp, list_lookup_alter.
    destruct (decide _); [|congruence]. unfold Js.pending in Hpend. rewrite Hpend.
    reflexivity. }
  split.
  - intros Hno. cbn. rewrite Hcalls.
    destruct e, (op sc); try discriminate; rewrite Herr; reflexivity.
  - intros Ho. cbn.
    destruct e, (op sc); try discriminate. destruct Herr as (m & -> & Hm).
    exists m. split; [exact Hm|exact Hcalls].
Qed.

Lemma pending_operation_witness :
  exists h ms sc,
    timers (run (step (run (Connection.constructor None) session_ready)
                   (CreateReceiverCall 0 None)) []) !! h
    = Some (Js.Armed ms (Guard sc ActionAfterTimeout))
    /\ promise sc = 1
    /\ same_kind (CreateReceiverCall 0 None) (op sc) = true
    /\ (is_open_call (CreateReceiverCall 0 None) = false ->
        promises (step (run (step (run (Connection.constructor None) session_ready)
                                  (CreateReceiverCall 0 None)) [])
                       (TimerFires h)) !! 1
        = Some [Js.Rejected OperationTimeoutError])
    /\ (is_open_call (CreateReceiverCall 0 None) = true ->
        exists m,
          Js.contains "due to operation timeout." m
          /\ promises (step (run (step (run (Connection.constructor None) session_ready)
                                       (CreateReceiverCall 0 None)) [])
                            (TimerFires h)) !! 1
             = Some [Js.Rejected (JsError m)]).
Proof.
  apply (pending_operation_is_rejected_by_its_timer None session_ready
           (CreateReceiverCall 0 None) []); reflexivity.
Defined.

(** ** Cancelling an operation *)

Lemma abort_call_promises sc ctx w :
  exists m, promises (call_closure (Guard sc OnAbort) ctx w)
            = Js.settle (promise sc) (Js.Rejected (AbortError m)) (promises w).
Proof.
  unfold call_closure, after_removeListeners.
  destruct (removeListeners_fields sc w) as (Hp & _).
  destruct (op sc); cbn; rewrite Hp; eexists; reflexivity.
Qed.

(** One listener of a signal runs. *)
Lemma abort_step w s sc :
  Tidy w -> (s, Guard sc OnAbort) ∈ abortListeners w ->
  let w' := call_closure (Guard sc OnAbort) no_context w in
  Tidy w'
  /\ (forall x, x ∈ abortListeners w -> x <> (s, Guard sc OnAbort) -> x ∈ abortListeners w')
  /\ promises w !! promise sc = Some []
  /\ exists m, promises w'
               = Js.settle (promise sc) (Js.Rejected (AbortError m)) (promises w).
Proof.
  intros HT Hin w'.
  destruct (t_abort _ _ _ _ _ HT _ _ Hin) as (sc' & E & Hsig & Hfl).
  injection E as <-.
  assert (Hd : defines (op sc) OnAbort = true) by (destruct (op sc); reflexivity).
  split; [|split; [|split]].
  - apply (Tidy_guard_call _ _ _ w); try reflexivity; try assumption.
    left. reflexivity.
  - intros x Hx Hne. unfold w'.
    destruct (guard_call_fields sc OnAbort no_context w Hd) as (_ & _ & -> & _).
    rewrite Hsig. apply list_elem_of_filter. split; assumption.
  - exact (t_flight _ _ _ _ _ HT _ Hfl).
  - apply abort_call_promises.
Qed.

(** A promise that is settled is out of reach of the listeners of a
    signal. *)
Lemma abort_loop_frame p sls : forall w,
  Tidy w -> NoDup sls -> (forall x, x ∈ sls -> x ∈ abortListeners w) ->
  ~ Js.pending p (promises w) ->
  promises (foldl (fun w sl => call_closure sl.2 no_context w) w sls) !! p
  = promises w !! p.
Proof.
  induction sls as [|[s f] sls IH]; intros w HT Hnd Hsls Hp; [reflexivity|].
  cbn [foldl snd]. apply NoDup_cons in Hnd as [Hnot Hnd].
  destruct (t_abort _ _ _ _ _ HT s f) as (sc & -> & _); [apply Hsls; left|].
  destruct (abort_step w s sc HT) as (HT' & Hkeep & Hpend & m & Hps); [apply Hsls; left|].
  assert (Hsame : promises (call_closure (Guard sc OnAbort) no_context w) !! p
                  = promises w !! p).
  { rewrite Hps. unfold Js.settle. apply list_lookup_alter_ne.
    intros E. apply Hp. rewrite <- E. exact Hpend. }
  rewrite IH; [exact Hsame|exact HT'|exact Hnd| |].
  - intros x Hx. apply Hkeep; [apply Hsls; right; exact Hx|].
    intros ->. exact (Hnot Hx).
  - unfold Js.pending. rewrite Hsame. exact Hp.
Qed.

Lemma abort_loop_settles s sc sls : forall w,
  Tidy w -> NoDup sls -> (forall x, x ∈ sls -> x ∈ abortListeners w) ->
  (s, Guard sc OnAbort) ∈ sls ->
  exists m,
    promises (foldl (fun w sl => call_closure sl.2 no_context w) w sls) !! promise sc
    = Some [Js.Rejected (AbortError m)].
Proof.
  induction sls as [|[s0 f0] sls IH]; intros w HT Hnd Hsls Hin; [inversion Hin|].
  cbn [foldl snd]. apply NoDup_cons in Hnd as [Hnot Hnd].
  destruct (t_abort _ _ _ _ _ HT s0 f0) as (sc0 & -> & _); [apply Hsls; left|].
  destruct (abort_step w s0 sc0 HT) as (HT' & Hkeep & Hpend & m & Hps); [apply Hsls; left|].
  assert (Htail : forall x, x ∈ sls ->
            x ∈ abortListeners (call_closure (Guard sc0 OnAbort) no_context w)).
  { intros x Hx. apply Hkeep; [apply Hsls; right; exact Hx|].
    intros ->. exact (Hnot Hx). }
  apply elem_of_cons in Hin as [E|Hin].
  - injection E as <- <-. exists m.
    rewrite abort_loop_frame; try assumption.
    + rewrite Hps. unfold Js.settle. rewrite list_lookup_alter, Hpend.
      destruct (decide _); [reflexivity|congruence].
    + unfold Js.pending. rewrite Hps. unfold Js.settle.
      rewrite list_lookup_alter, Hpend. destruct (decide _); [discriminate|congruence].
  - apply IH; assumption.
Qed.

Lemma watch_adds sc W s :
  abortSignal sc = Some s -> is_aborted s W = false ->
  watchAbortSignal sc W = addEventListener s (Guard sc OnAbort) W.
Proof. intros Hsig Hna. unfold watchAbortSignal. rewrite Hsig, Hna. reflexivity. Qed.

Ltac listens s Hsig Hna :=
  cbn [newPromise Js.newPromise snd];
  rewrite watch_adds with (s := s); [|exact Hsig|exact Hna];
  eexists; split; [|split; reflexivity]; reflexivity.

(** A call that asks the engine and was given a signal that is not aborted
    adds its listener to the signal. *)
Lemma call_listens w e s :
  asks_engine e = true -> signal_of e = Some s -> is_aborted s w = false ->
  exists sc, promise sc = length (promises w)
    /\ abortListeners (step w e) = abortListeners w ++ [(s, Guard sc OnAbort)]
    /\ aborted (step w e) = aborted w.
Proof.
  intros Hask Hsig Hna.
  destruct e as [o isOpen|o isOpen|o|s' o isOpen|s' o|s' type o| | |];
    try discriminate; cbn [step]; cbn in Hask, Hsig.
  - unfold Connection.open. rewrite Hask. listens s Hsig Hna.
  - unfold Connection.close. rewrite Hask. listens s Hsig Hna.
  - unfold Connection.createSession. listens s Hsig Hna.
  - unfold Session.close. rewrite Hask. listens s Hsig Hna.
  - unfold Session.createReceiver. apply negb_true_iff in Hask. rewrite Hask.
    listens s Hsig Hna.
  - unfold Session._createSender. destruct type; listens s Hsig Hna.
Qed.

(** A call that goes on to ask the engine is given a signal that is not
    aborted yet, and the owner of the signal aborts it right after the
    call: the promise the call returned is rejected with an [AbortError],
    whatever happened before the call and whatever other operations listen
    to the same signal. *)
Theorem abort_after_call_rejects o before e s :
  asks_engine e = true -> signal_of e = Some s ->
  let w := run (Connection.constructor o) before in
  is_aborted s w = false ->
  exists m,
    promises (run w [e; SignalAborts s]) !! length (promises w)
    = Some [Js.Rejected (AbortError m)].
Proof.
  intros Hask Hsig w Hna.
  destruct (call_listens w e s Hask Hsig Hna) as (sc & Hp & Hals & Hab).
  change (run w [e; SignalAborts s]) with (signalAborts s (step w e)).
  assert (HT : Tidy (step w e)) by apply Tidy_step, Tidy_reachable.
  unfold signalAborts.
  assert (is_aborted s (step w e) = false) as ->.
  { unfold is_aborted in *. rewrite Hab. exact Hna. }
  rewrite <- Hp. apply (abort_loop_settles s).
  - revert HT. apply Tidy_same; reflexivity.
  - eapply sublist_NoDup; [exact (t_abort_nodup _ _ _ _ _ HT)|apply sublist_filter].
  - intros x [_ Hx]%list_elem_of_filter. exact Hx.
  - apply list_elem_of_filter. split; [reflexivity|].
    cbn. rewrite Hals. apply elem_of_app. right. left.
Qed.

Lemma abort_after_call_witness :
  exists m,
    promises (run (run (Connection.constructor None) opened)
                [CreateSessionCall (with_signal 5); SignalAborts 5])
      !! length (promises (run (Connection.constructor None) opened))
    = Some [Js.Rejected (AbortError m)].
Proof.
  apply (abort_after_call_rejects None opened (CreateSessionCall (with_signal 5)) 5);
    reflexivity.
Defined.

(** ** The listener [_createSender] leaves behind *)

Lemma alter_new (f : Z -> Z) (l : list Z) (x : Z) :
  alter f (length l) (l ++ [x]) = l ++ [f x].
Proof.
  apply list_eq. intros i. rewrite list_lookup_alter. case_decide as Hi.
  - subst i. rewrite !lookup_app_r, Nat.sub_diag by lia. reflexivity.
  - destruct (decide (i < length l)) as [Hlt|Hge].
    + rewrite !lookup_app_l by lia. reflexivity.
    + rewrite !lookup_app_r by lia.
      destruct (i - length l) as [|k] eqn:Hk; [lia|]. reflexivity.
Qed.

Lemma fire_new {C} (ts : list (Js.Timer C)) ms (cb : C) :
  Js.fire (length ts) (ts ++ [Js.Armed ms cb]) = Some (cb, ts ++ [Js.Fired]).
Proof.
  unfold Js.fire. rewrite lookup_app_r, Nat.sub_diag by lia. cbn.
  f_equal. f_equal. apply list_eq. intros i.
  destruct (decide (i = length ts)) as [->|Hne].
  - rewrite list_lookup_insert_eq by (rewrite length_app; cbn; lia).
    rewrite lookup_app_r, Nat.sub_diag by lia. reflexivity.
  - rewrite list_lookup_insert_ne by congruence.
    destruct (decide (i < length ts)) as [Hlt|Hge].
    + rewrite !lookup_app_l by lia. reflexivity.
    + rewrite !lookup_app_r by lia.
      destruct (i - length ts) as [|k] eqn:Hk; [lia|]. reflexivity.
Qed.

Lemma clearTimeout_fired {C} (ts : list (Js.Timer C)) :
  Js.clearTimeout (length ts) (ts ++ [Js.Fired]) = ts ++ [Js.Fired].
Proof.
  unfold Js.clearTimeout. rewrite lookup_app_r, Nat.sub_diag by lia. reflexivity.
Qed.

Lemma remove_last_absent t ev f (l : list (Js.Registration Entity Closure)) :
  (forall r, r ∈ l -> Js.target r <> t) ->
  Js.remove_last (Js.is_listener t ev f) l = l.
Proof.
  intros H. apply remove_last_none.
  destruct (existsb _ l) eqn:E; [|reflexivity]. exfalso.
  apply existsb_exists in E as (r & Hin & Hr).
  apply bool_decide_eq_true in Hr as (Ht & _).
  exact (H r (proj2 (list_elem_of_In _ _) Hin) Ht).
Qed.

Lemma filter_none {A} (P : A -> Prop) `{!forall x, Decision (P x)} (l : list A) :
  (forall x, x ∈ l -> ~ P x) -> filter P l = [].
Proof.
  induction l as [|x l IH]; intros Hno; [reflexivity|].
  rewrite filter_cons_False by (apply Hno; left). apply IH.
  intros y Hy. apply Hno. right. exact Hy.
Qed.

Ltac not_this := apply bool_decide_eq_false_2; cbn; intros (? & ? & ?); discriminate.
Ltac this_one := apply bool_decide_eq_true_2; cbn; repeat split; reflexivity.

Ltac removals :=
  repeat first
    [ rewrite remove_last_snoc_match by this_one
    | rewrite remove_last_snoc_other by not_this ].

(** [_createSender] without a signal, and then its timer. *)
Lemma createSender_timed_out s type options w :
  options ≫= s_abortSignal = None ->
  (forall r, r ∈ listeners w -> Js.target r <> TheLink (length (links w))) ->
  let l := length (links w) in
  let sc := mkScope (CreateSender type l) (length (promises w)) None (length (timers w)) in
  let w2 := timerFires (length (timers w)) (Session._createSender s type options w).2 in
  promises w2 = promises w ++ [[Js.Rejected OperationTimeoutError]]
  /\ links w2 = links w ++ [0%Z]
  /\ timers w2 = timers w ++ [Js.Fired]
  /\ listeners w2 = Js.once (TheLink l) SenderEvents.sendable (Guard sc OnSendable) (listeners w).
Proof.
  intros Hsig Hnew l sc w2. subst w2 sc l. unfold Session._createSender.
  cbn [newPromise Js.newPromise snd]. rewrite Hsig.
  unfold watchAbortSignal. cbn [abortSignal].
  unfold timerFires.
  destruct w as [ot ca ss lk ls wl em en ps ts ab al]. cbn in Hnew.
  destruct type; cbn; rewrite fire_new; cbn;
    (split; [exact (settle_new ps _)|]);
    (split; [rewrite !alter_new; reflexivity|]);
    (split; [apply clearTimeout_fired|]);
    removals; rewrite (remove_last_absent _ _ _ _ Hnew); removals; reflexivity.
Qed.

(** [_createSender] is called without a signal for a link on which nothing
    listens yet, the engine does not answer, and the host fires the timer:
    the promise is rejected with an [OperationTimeoutError] and
    [actionInitiated] of the sender is back at zero, but the listener
    [onSendable], added for [sendable] and removed for [sender_open], is
    still there.  If the engine then emits [sendable] on the link, the
    listener runs: [resolve] is called on the promise that is already
    rejected, and [actionInitiated] of the sender drops to -1. *)
Theorem createSender_leaves_onSendable_behind s type options w ctx :
  options ≫= s_abortSignal = None ->
  (forall r, r ∈ listeners w -> Js.target r <> TheLink (length (links w))) ->
  let l := length (links w) in
  let p := length (promises w) in
  let w2 := run w [CreateSenderCall s type options; TimerFires (length (timers w))] in
  let w3 := step w2 (EngineEmits (TheLink l) SenderEvents.sendable ctx) in
  promises w2 !! p = Some [Js.Rejected OperationTimeoutError]
  /\ actionInitiated (TheLink l) w2 = 0%Z
  /\ Js.listenerCount (TheLink l) SenderEvents.sendable (listeners w2) = 1
  /\ promises w3 !! p
     = Some [Js.Rejected OperationTimeoutError; Js.Resolved (VSender type l)]
  /\ actionInitiated (TheLink l) w3 = (-1)%Z.
Proof.
  intros Hsig Hnew l p w2 w3.
  destruct (createSender_timed_out s type options w Hsig Hnew) as (Hps & Hlk & Hts & Hls).
  fold l in Hls, Hnew.
  change (timerFires (length (timers w)) (Session._createSender s type options w).2)
    with w2 in Hps, Hlk, Hts, Hls.
  assert (Hnone : filter (fun r => Js.target r = TheLink l /\ Js.event r = SenderEvents.sendable)
                    (listeners w) = []).
  { apply filter_none. intros r Hr [Ht _]. exact (Hnew r Hr Ht). }
  clearbody w2.
  split; [|split; [|split]].
  - rewrite Hps. unfold p. rewrite lookup_app_r, Nat.sub_diag by lia. reflexivity.
  - cbn [actionInitiated]. rewrite Hlk. unfold l.
    rewrite lookup_app_r, Nat.sub_diag by lia. reflexivity.
  - rewrite Hls. unfold Js.listenerCount, Js.listenersOf, Js.once.
    rewrite filter_app, Hnone. rewrite filter_cons_True by (split; reflexivity).
    reflexivity.
  - assert (Hw3 : w3 =
      call_closure
        (Guard (mkScope (CreateSender type l) p None (length (timers w))) OnSendable) ctx
        (with_listeners (listeners w) w2)).
    { unfold w3. cbn [step]. unfold emit, Js.listenersOf.
      rewrite Hls. unfold Js.once. rewrite filter_app, Hnone.
      rewrite filter_cons_True by (split; reflexivity).
      cbn [filter list_filter app foldl Js.once_flag Js.fn].
      unfold Js.removeWrapper. rewrite Hls. unfold Js.once.
      rewrite remove_last_snoc_match; [reflexivity|].
      apply bool_decide_eq_true_2. reflexivity. }
    rewrite Hw3. split.
    + cbn. rewrite Hps. unfold p.
      unfold Js.settle. rewrite list_lookup_alter.
      destruct (decide _); [|congruence].
      rewrite lookup_app_r, Nat.sub_diag by lia. reflexivity.
    + cbn. rewrite Hlk. unfold l. rewrite alter_new.
      rewrite lookup_app_r, Nat.sub_diag by lia. reflexivity.
Qed.

Lemma createSender_leaves_onSendable_witness :
  let w := run (Connection.constructor None) (opened ++ session_ready) in
  let w2 := run w [CreateSenderCall 0 sender None; TimerFires (length (timers w))] in
  let w3 := step w2 (EngineEmits (TheLink 0) SenderEvents.sendable no_context) in
  promises w2 !! length (promises w) = Some [Js.Rejected OperationTimeoutError]
  /\ actionInitiated (TheLink 0) w2 = 0%Z
  /\ Js.listenerCount (TheLink 0) SenderEvents.sendable (listeners w2) = 1
  /\ promises w3 !! length (promises w)
     = Some [Js.Rejected OperationTimeoutError; Js.Resolved (VSender sender 0)]
  /\ actionInitiated (TheLink 0) w3 = (-1)%Z.
Proof.
  apply (createSender_leaves_onSendable_behind 0 sender None
           (run (Connection.constructor None) (opened ++ session_ready)) no_context).
  - reflexivity.
  - apply (Forall_forall (fun r => Js.target r <> TheLink 0)).
    vm_compute. repeat constructor; discriminate.
Defined.

(** ** The counters [actionInitiated] *)

Lemma flights_app e ts ts' : flights e (ts ++ ts') = flights e ts + flights e ts'.
Proof. unfold flights. rewrite List.filter_app, length_app. reflexivity. Qed.

Lemma flights_cons e t ts : flights e (t :: ts) = weight e t + flights e ts.
Proof. unfold flights, weight. cbn. destruct (is_flight_of e t); reflexivity. Qed.

Lemma flights_insert e t' : forall ts h t,
  ts !! h = Some t ->
  flights e (<[h := t']> ts) + weight e t = flights e ts + weight e t'.
Proof.
  induction ts as [|x ts IH]; intros [|h] t H; try discriminate.
  - injection H as ->.
    change (<[0 := t']> (t :: ts)) with (t' :: ts). rewrite !flights_cons. lia.
  - change (<[S h := t']> (x :: ts)) with (x :: <[h := t']> ts).
    rewrite !flights_cons. specialize (IH h t H). lia.
Qed.

Lemma weight_flight e ms sc :
  weight e (Js.Armed ms (Guard sc ActionAfterTimeout))
  = if decide (entity_of (op sc) = e) then 1 else 0.
Proof.
  unfold weight, is_flight_of.
  destruct (decide _); [rewrite bool_decide_eq_true_2|rewrite bool_decide_eq_false_2];
    auto.
Qed.

Lemma actionInitiated_add e e' k w :
  tracked e w = true ->
  actionInitiated e (add_actionInitiated e' k w)
  = (actionInitiated e w + if decide (e' = e) then k else 0)%Z.
Proof.
  intros Ht.
  destruct e as [|s|l], e' as [|s'|l']; try discriminate; cbn;
    try (destruct (decide _); [congruence || lia|lia]).
  - destruct (decide _); [lia|congruence].
  - apply bool_decide_eq_true in Ht. apply lookup_lt_is_Some in Ht as [x Hx].
    rewrite list_lookup_alter.
    destruct (decide (s' = s)) as [->|Hne].
    + rewrite Hx. cbn. destruct (decide _); [lia|congruence].
    + destruct (decide _); [congruence|lia].
Qed.

Lemma sessions_length_add e k w :
  length (sessions (add_actionInitiated e k w)) = length (sessions w).
Proof. destruct e; cbn; rewrite ?length_alter; reflexivity. Qed.

Lemma tracked_fields e w w' :
  sessions w' = sessions w -> tracked e w' = tracked e w.
Proof. intros H. destruct e; cbn; rewrite ?H; reflexivity. Qed.

Lemma actionInitiated_fields e w w' :
  connection_actionInitiated w' = connection_actionInitiated w ->
  sessions w' = sessions w ->
  tracked e w = true ->
  actionInitiated e w' = actionInitiated e w.
Proof. intros Hc Hs Ht. destruct e; try discriminate; cbn; rewrite ?Hc, ?Hs; reflexivity. Qed.

Lemma add_fields e k w w' :
  connection_actionInitiated w' = connection_actionInitiated w ->
  sessions w' = sessions w ->
  connection_actionInitiated (add_actionInitiated e k w')
  = connection_actionInitiated (add_actionInitiated e k w)
  /\ sessions (add_actionInitiated e k w') = sessions (add_actionInitiated e k w).
Proof. intros Hc Hs. destruct e; cbn; rewrite ?Hc, ?Hs; split; reflexivity. Qed.

(** Neither the counters nor the number of operations in flight move. *)
Lemma Counted_neutral w w' :
  connection_actionInitiated w' = connection_actionInitiated w ->
  sessions w' = sessions w ->
  (forall e, flights e (timers w') = flights e (timers w)) ->
  Counted w -> Counted w'.
Proof.
  intros Hc Hs Hf [Ht Hn]. split.
  - intros e He. rewrite (tracked_fields _ _ _ Hs) in He.
    rewrite (actionInitiated_fields e w w' Hc Hs He), Hf. apply Ht, He.
  - intros s Hle. rewrite Hs in Hle. rewrite Hf. apply Hn, Hle.
Qed.

(** An operation on [e0] is over: its counter and the number of its
    operations in flight go down together. *)
Lemma Counted_retire w w' e0 :
  connection_actionInitiated w'
  = connection_actionInitiated (add_actionInitiated e0 (-1) w) ->
  sessions w' = sessions (add_actionInitiated e0 (-1) w) ->
  (forall e, flights e (timers w') + (if decide (e0 = e) then 1 else 0)
             = flights e (timers w)) ->
  Counted w -> Counted w'.
Proof.
  intros Hc Hs Hf [Ht Hn]. split.
  - intros e He. rewrite (tracked_fields _ _ _ Hs) in He.
    assert (He' : tracked e w = true).
    { destruct e; try discriminate; [reflexivity|].
      cbn in He |- *. rewrite sessions_length_add in He. exact He. }
    rewrite (actionInitiated_fields e _ w' Hc Hs He), actionInitiated_add by exact He'.
    rewrite (Ht e He'). specialize (Hf e). destruct (decide _); lia.
  - intros s Hle. rewrite Hs, sessions_length_add in Hle.
    specialize (Hf (TheSession s)). specialize (Hn s Hle). lia.
Qed.

Lemma guard_call_counters sc r ctx w :
  defines (op sc) r = true ->
  let w' := call_closure (Guard sc r) ctx w in
  connection_actionInitiated w'
  = connection_actionInitiated (add_actionInitiated (entity_of (op sc)) (-1) w)
  /\ sessions w' = sessions (add_actionInitiated (entity_of (op sc)) (-1) w).
Proof.
  intros Hd w'. unfold w'. cbn [call_closure]. rewrite Hd.
  unfold after_removeListeners, removeListeners, removeAbortListener.
  destruct (abortSignal sc), (op sc), r; try discriminate; split; reflexivity.
Qed.

(** A local function of an operation in flight runs. *)
Lemma Counted_guard_call sc r ctx w wm :
  Counted w -> in_flight sc (timers w) -> defines (op sc) r = true ->
  connection_actionInitiated wm = connection_actionInitiated w ->
  sessions wm = sessions w ->
  timers wm = timers w \/ timers wm = <[waitTimer sc := Js.Fired]> (timers w) ->
  Counted (call_closure (Guard sc r) ctx wm).
Proof.
  intros HC [ms Hfl] Hd Hc Hs Hts.
  destruct (guard_call_fields sc r ctx wm Hd) as (Ht & _).
  destruct (guard_call_counters sc r ctx wm Hd) as (Hc' & Hs').
  destruct (add_fields (entity_of (op sc)) (-1) w wm Hc Hs) as (Hc2 & Hs2).
  assert (exists T, weight_zero T
            /\ Js.clearTimeout (waitTimer sc) (timers wm) = <[waitTimer sc := T]> (timers w))
    as (T & HTn & HT).
  { destruct Hts as [->| ->].
    - exists Js.Cleared. split; [intros e; reflexivity|].
      unfold Js.clearTimeout. rewrite Hfl. reflexivity.
    - exists Js.Fired. split; [intros e; reflexivity|].
      unfold Js.clearTimeout.
      rewrite list_lookup_insert_eq by (apply lookup_lt_Some in Hfl; exact Hfl).
      reflexivity. }
  apply (Counted_retire w _ (entity_of (op sc))); [congruence|congruence| |exact HC].
  intros e. rewrite Ht, HT.
  pose proof (flights_insert e T _ _ _ Hfl) as H.
  rewrite weight_flight, (HTn e) in H. lia.
Qed.

(** [onSendable] of a [_createSender] that is over runs: the counter that
    moves is that of a link. *)
Lemma Counted_leftover_call sc ctx w wm :
  Tidy w -> Counted w -> started sc (engine w) -> is_sender (op sc) = true ->
  ~ in_flight sc (timers w) ->
  connection_actionInitiated wm = connection_actionInitiated w ->
  sessions wm = sessions w -> timers wm = timers w ->
  Counted (call_closure (Guard sc OnSendable) ctx wm).
Proof.
  intros HT HC Hst Hsend Hnf Hc Hs Hts.
  assert (Hd : defines (op sc) OnSendable = true)
    by (destruct (op sc); try discriminate; reflexivity).
  destruct (guard_call_fields sc OnSendable ctx wm Hd) as (Ht & _).
  destruct (guard_call_counters sc OnSendable ctx wm Hd) as (Hc' & Hs').
  revert HC. apply Counted_neutral.
  - rewrite Hc'. destruct (op sc); try discriminate. exact Hc.
  - rewrite Hs'. destruct (op sc); try discriminate. exact Hs.
  - intros e. rewrite Ht, Hts. f_equal.
    unfold Js.clearTimeout.
    destruct (timers w !! waitTimer sc) as [[ms f| |]|] eqn:Hslot; try reflexivity.
    exfalso. apply Hnf. exists ms.
    rewrite Hslot, (t_slot _ _ _ _ _ HT _ _ _ Hst Hslot). reflexivity.
Qed.

Lemma Counted_emitEvent params w : Counted w -> Counted (emitEvent params w).
Proof.
  unfold emitEvent. destruct (_ && _).
  - apply Counted_neutral; try reflexivity.
    intros e.
    change (timers (setTimeout (EmitLater params) 0 w))
      with (timers w ++ [Js.Armed 0 (EmitLater params)]).
    rewrite flights_app. cbn. lia.
  - apply Counted_neutral; reflexivity.
Qed.

(** A function that is not a local function of an operation runs. *)
Lemma Counted_other_call f ctx w :
  (forall sc r, f <> Guard sc r) -> Counted w -> Counted (call_closure f ctx w).
Proof.
  intros Hf HC. destruct f as [sc r|e ty ev|params]; cbn [call_closure].
  - exfalso. exact (Hf _ _ eq_refl).
  - apply Counted_emitEvent. exact HC.
  - revert HC. apply Counted_neutral; reflexivity.
Qed.

Lemma Counted_listener_call r ctx w :
  Tidy w -> Counted w -> (guard_registration r = true -> r ∈ listeners w) ->
  Counted (call_closure (Js.fn r) ctx
             (if Js.once_flag r
              then with_listeners (Js.removeWrapper r (listeners w)) w else w)).
Proof.
  intros HT HC Hin.
  set (wm := if Js.once_flag r then _ else w).
  assert (Hrest : connection_actionInitiated wm = connection_actionInitiated w
                  /\ sessions wm = sessions w /\ timers wm = timers w).
  { unfold wm. destruct (Js.once_flag r); repeat split; reflexivity. }
  destruct Hrest as (Hc & Hs & Ht).
  destruct (Js.fn r) as [sc role|e ty ev|params] eqn:Hfn.
  - assert (Hin' : r ∈ listeners w).
    { apply Hin. unfold guard_registration. rewrite Hfn. reflexivity. }
    destruct (t_listeners _ _ _ _ _ HT _ _ _ Hin' Hfn) as (Hst & Hreg & Hfl).
    destruct (registrations_fn _ _ Hreg) as (role' & Hfn' & Hd).
    assert (role' = role) as -> by congruence.
    destruct Hfl as [Hfl|[Hsend ->]].
    + apply (Counted_guard_call _ _ _ w); auto.
    + destruct (classic_in_flight sc (timers w)) as [Hfl|Hnf].
      * apply (Counted_guard_call _ _ _ w); auto.
      * apply (Counted_leftover_call _ _ w); auto.
  - apply Counted_other_call; [intros ? ?; discriminate|].
    revert HC. apply Counted_neutral; try assumption. intros e'. rewrite Ht. reflexivity.
  - apply Counted_other_call; [intros ? ?; discriminate|].
    revert HC. apply Counted_neutral; try assumption. intros e'. rewrite Ht. reflexivity.
Qed.

Lemma Counted_emit t ev ctx w :
  Tidy w -> Counted w -> Counted (emit t ev ctx w).
Proof.
  intros HT HC. apply (emit_keeps Counted); [|exact HT|exact HC].
  intros r w'. apply Counted_listener_call.
Qed.

Lemma Counted_timerFires h w :
  Tidy w -> Counted w -> Counted (timerFires h w).
Proof.
  intros HT HC. unfold timerFires, Js.fire.
  destruct (timers w !! h) as [[ms f| |]|] eqn:Hh; try exact HC.
  destruct f as [sc r|e ty ev|params].
  - destruct (t_timers _ _ _ _ _ HT _ _ _ _ Hh) as (-> & -> & Hst).
    apply (Counted_guard_call _ _ _ w); try reflexivity; try assumption.
    + exists ms. exact Hh.
    + destruct (op sc); reflexivity.
    + right. reflexivity.
  - apply Counted_other_call; [intros ? ?; discriminate|].
    revert HC. apply Counted_neutral; try reflexivity.
    intros e'. cbn [timers with_timers].
    pose proof (flights_insert e' Js.Fired _ _ _ Hh) as H.
    unfold weight in H. cbn [is_flight_of] in H. lia.
  - apply Counted_other_call; [intros ? ?; discriminate|].
    revert HC. apply Counted_neutral; try reflexivity.
    intros e'. cbn [timers with_timers].
    pose proof (flights_insert e' Js.Fired _ _ _ Hh) as H.
    unfold weight in H. cbn [is_flight_of] in H. lia.
Qed.

Lemma Counted_signalAborts s w :
  Tidy w -> Counted w -> Counted (signalAborts s w).
Proof.
  intros HT HC. unfold signalAborts. destruct (is_aborted s w); [exact HC|].
  apply (abort_loop Counted).
  - intros sc w' HT' HC' Hfl.
    apply (Counted_guard_call _ _ _ w'); try reflexivity; try assumption.
    + destruct (op sc); reflexivity.
    + left. reflexivity.
  - revert HT. apply Tidy_same; reflexivity.
  - revert HC. apply Counted_neutral; reflexivity.
  - eapply sublist_NoDup; [exact (t_abort_nodup _ _ _ _ _ HT)|apply sublist_filter].
  - intros x [_ Hx]%list_elem_of_filter. exact Hx.
Qed.

(** An operation started its timer and raised its counter. *)
Lemma Counted_launch w W sc ms :
  Counted w ->
  timers W = timers w ++ [Js.Armed ms (Guard sc ActionAfterTimeout)] ->
  length (sessions w) <= length (sessions W) ->
  match entity_of (op sc) with
  | TheSession s => s < length (sessions W)
  | _ => True
  end ->
  (forall e, tracked e W = true ->
     actionInitiated e W
     = ((if tracked e w then actionInitiated e w else 0)
        + if decide (entity_of (op sc) = e) then 1 else 0)%Z) ->
  Counted W.
Proof.
  intros [Ht Hn] Hts Hlen Hent Hcount. split.
  - intros e He. rewrite (Hcount e He), Hts, flights_app.
    cbn [flights List.filter]. rewrite flights_cons, weight_flight. cbn.
    destruct (tracked e w) eqn:Hw.
    + rewrite (Ht e Hw). destruct (decide _); lia.
    + destruct e as [|s|l]; try discriminate.
      apply bool_decide_eq_false in Hw.
      rewrite (Hn s) by lia. destruct (decide _); lia.
  - intros s Hle. rewrite Hts, flights_app, flights_cons, weight_flight.
    rewrite (Hn s) by lia. cbn.
    destruct (decide _) as [E|]; [|reflexivity].
    rewrite E in Hent. lia.
Qed.

(** The operation then looks at the signal it was given. *)
Lemma Counted_start w W sc ms :
  Counted w ->
  waitTimer sc = length (timers w) ->
  timers W = timers w ++ [Js.Armed ms (Guard sc ActionAfterTimeout)] ->
  length (sessions w) <= length (sessions W) ->
  match entity_of (op sc) with
  | TheSession s => s < length (sessions W)
  | _ => True
  end ->
  (forall e, tracked e W = true ->
     actionInitiated e W
     = ((if tracked e w then actionInitiated e w else 0)
        + if decide (entity_of (op sc) = e) then 1 else 0)%Z) ->
  Counted (watchAbortSignal sc W).
Proof.
  intros HC Hw Hts Hlen Hent Hcount.
  assert (HW : Counted W) by (apply (Counted_launch w W sc ms); assumption).
  assert (Hfl : in_flight sc (timers W)).
  { exists ms. rewrite Hts, Hw, lookup_app_r, Nat.sub_diag by lia. reflexivity. }
  unfold watchAbortSignal. destruct (abortSignal sc) as [s|] eqn:Hsig; [|exact HW].
  destruct (is_aborted s W).
  - apply (Counted_guard_call _ _ _ W); try reflexivity; try assumption.
    + destruct (op sc); reflexivity.
    + left. reflexivity.
  - revert HW. apply Counted_neutral; reflexivity.
Qed.

(** A promise is made and settled within the call. *)
Lemma Counted_settled_at_once w x :
  Counted w -> Counted (settle (length (promises w)) x (newPromise w).2).
Proof. apply Counted_neutral; reflexivity. Qed.

Ltac same_sessions :=
  let e := fresh "e" in let He := fresh "He" in
  intros e He; destruct e as [|?s|?l]; try discriminate; cbn in He |- *;
  [ destruct (decide _); try congruence; lia
  | rewrite He; destruct (decide _); try congruence; lia ].

Lemma Counted_open options isOpen w :
  Counted w -> Counted (Connection.open options isOpen w).2.
Proof.
  intros HC. unfold Connection.open.
  destruct isOpen; cbn [negb].
  - apply Counted_settled_at_once. exact HC.
  - cbn [newPromise Js.newPromise snd].
    eapply (Counted_start w); [exact HC|reflexivity|reflexivity|reflexivity|exact I|].
    same_sessions.
Qed.

Lemma Counted_close options isOpen w :
  Counted w -> Counted (Connection.close options isOpen w).2.
Proof.
  intros HC. unfold Connection.close.
  destruct isOpen.
  - cbn [newPromise Js.newPromise snd].
    eapply (Counted_start w); [exact HC|reflexivity|reflexivity|reflexivity|exact I|].
    same_sessions.
  - apply Counted_settled_at_once. exact HC.
Qed.

Lemma Counted_createReceiver s options w :
  Counted w -> Counted (Session.createReceiver s options w).2.
Proof.
  intros HC. unfold Session.createReceiver.
  destruct (_ && _).
  - apply Counted_settled_at_once. exact HC.
  - cbn [newPromise Js.newPromise snd].
    eapply (Counted_start w); [exact HC|reflexivity|reflexivity|reflexivity|exact I|].
    same_sessions.
Qed.

Lemma Counted_createSender s type options w :
  Counted w -> Counted (Session._createSender s type options w).2.
Proof.
  intros HC. unfold Session._createSender.
  cbn [newPromise Js.newPromise snd].
  destruct type;
    (eapply (Counted_start w); [exact HC|reflexivity|reflexivity|reflexivity|exact I|]);
    same_sessions.
Qed.

Lemma Counted_Session_close s options isOpen w :
  s < length (sessions w) ->
  Counted w -> Counted (Session.close s options isOpen w).2.
Proof.
  intros Hs HC. unfold Session.close.
  destruct isOpen.
  - cbn [newPromise Js.newPromise snd].
    eapply (Counted_start w); [exact HC|reflexivity|reflexivity| | |].
    + cbn. rewrite length_alter. reflexivity.
    + cbn. rewrite length_alter. exact Hs.
    + intros e He. destruct e as [|s'|l]; try discriminate; cbn in He |- *.
      * destruct (decide _); try congruence; lia.
      * rewrite length_alter in He. rewrite He.
        apply bool_decide_eq_true in He. apply lookup_lt_is_Some in He as [x Hx].
        rewrite list_lookup_alter.
        destruct (decide (s = s')) as [->|Hne].
        -- rewrite Hx. cbn. destruct (decide _); [lia|congruence].
        -- destruct (decide _); [congruence|lia].
  - cbn [newPromise Js.newPromise snd].
    apply (Counted_neutral w); [reflexivity|reflexivity|reflexivity|exact HC].
Qed.

Lemma Counted_createSession options w :
  Counted w -> Counted (Connection.createSession options w).2.
Proof.
  intros HC. unfold Connection.createSession.
  cbn [newPromise Js.newPromise snd].
  eapply (Counted_start w); [exact HC|reflexivity|reflexivity| | |].
  - cbn. rewrite length_alter, length_app. lia.
  - cbn. rewrite length_alter, length_app. cbn. lia.
  - intros e He. destruct e as [|s'|l]; try discriminate; cbn in He |- *.
    + destruct (decide _); try congruence; lia.
    + rewrite length_alter, length_app in He. cbn in He.
      apply bool_decide_eq_true in He.
      rewrite list_lookup_alter.
      destruct (decide (length (sessions w) = s')) as [<-|Hne].
      * rewrite lookup_app_r, Nat.sub_diag by lia. cbn.
        rewrite bool_decide_eq_false_2 by lia.
        destruct (decide _); [lia|congruence].
      * rewrite lookup_app_l by lia.
        rewrite bool_decide_eq_true_2 by lia.
        destruct (decide _); [congruence|lia].
Qed.

Lemma Counted_step w e :
  valid w e = true -> Tidy w -> Counted w -> Counted (step w e).
Proof.
  intros Hv HT HC. destruct e; cbn [step].
  - apply Counted_open, HC.
  - apply Counted_close, HC.
  - apply Counted_createSession, HC.
  - apply Counted_Session_close; [|exact HC].
    apply bool_decide_eq_true in Hv. exact Hv.
  - apply Counted_createReceiver, HC.
  - apply Counted_createSender, HC.
  - apply Counted_emit; assumption.
  - apply Counted_timerFires; assumption.
  - apply Counted_signalAborts; assumption.
Qed.

Lemma Counted_run evs : forall w,
  valid_trace w evs = true -> Tidy w -> Counted w -> Counted (run w evs).
Proof.
  induction evs as [|e evs IH]; intros w Hv HT HC; [exact HC|].
  cbn in Hv. apply andb_true_iff in Hv as [Hv Hvs].
  apply IH; [exact Hvs|apply Tidy_step, HT|apply Counted_step; assumption].
Qed.

Lemma Counted_constructor o : Counted (Connection.constructor o).
Proof.
  split.
  - intros [|s|l] H; try discriminate. reflexivity.
  - intros s _. reflexivity.
Qed.

Lemma Counted_reachable o evs :
  valid_trace (Connection.constructor o) evs = true ->
  Counted (run (Connection.constructor o) evs).
Proof.
  intros Hv. apply Counted_run; [exact Hv|apply Tidy_constructor|apply Counted_constructor].
Qed.

(** Whatever happened so far, the counter [actionInitiated] of the
    connection, and of every session made, is the number of operations on
    it that are in flight, that is, whose timer is armed: [open] and [close]
    for the connection, [createSession] and [close] for a session.  In
    particular it is never negative, and it is zero as soon as no operation
    waits. *)
Theorem actionInitiated_counts_the_operations_in_flight o evs e :
  valid_trace (Connection.constructor o) evs = true ->
  let w := run (Connection.constructor o) evs in
  tracked e w = true ->
  actionInitiated e w = Z.of_nat (flights e (timers w)).
Proof.
  intros Hv w He. exact (c_tracked _ (Counted_reachable o evs Hv) e He).
Qed.

Lemma actionInitiated_counts_witness :
  let w := run (Connection.constructor None) [Open None false; CreateSessionCall None] in
  actionInitiated (TheSession 0) w = Z.of_nat (flights (TheSession 0) (timers w)).
Proof.
  apply (actionInitiated_counts_the_operations_in_flight None
           [Open None false; CreateSessionCall None] (TheSession 0));
    reflexivity.
Defined.

(** ** The listeners that re-emit *)

Lemma Forall_sublist {A} (P : A -> Prop) (l k : list A) :
  l `sublist_of` k -> Forall P k -> Forall P l.
Proof.
  intros Hs Hk. apply Forall_forall. intros x Hx.
  exact (proj1 (Forall_forall _ _) Hk x (elem_of_sublist _ _ _ Hx Hs)).
Qed.

Lemma filter_all {A} (P : A -> Prop) `{!forall x, Decision (P x)} (l : list A) :
  Forall P l -> filter P l = l.
Proof.
  induction 1 as [|x l Hx _ IH]; [reflexivity|].
  rewrite filter_cons_True by exact Hx. rewrite IH. reflexivity.
Qed.

Lemma all_same {A} (l : list A) x :
  NoDup l -> (forall y, y ∈ l -> y = x) -> x ∈ l -> l = [x].
Proof.
  intros Hnd Hall Hin. destruct l as [|a [|b l]].
  - inversion Hin.
  - rewrite (Hall a) by left. reflexivity.
  - exfalso. apply NoDup_cons in Hnd as [Hnot _]. apply Hnot.
    rewrite (Hall a) by left. rewrite <- (Hall b) by (right; left). left.
Qed.

Lemma forwarders_first_sublist l k :
  l `sublist_of` k -> forwarders_first k -> forwarders_first l.
Proof.
  intros Hs (a & b & -> & Ha & Hb).
  apply sublist_app_r in Hs as (a' & b' & -> & Hsa & Hsb).
  exists a', b'. split; [reflexivity|].
  split; eapply Forall_sublist; eassumption.
Qed.

Lemma forwarder_shape t ev r :
  forwarder t ev = Some r ->
  Js.target r = t /\ Js.event r = ev /\ guard_registration r = false
  /\ Js.once_flag r = false
  /\ exists type, emitterType_of t = Some type /\ Js.fn r = ReEmit t type ev.
Proof.
  unfold forwarder. destruct (emitterType_of t) as [type|] eqn:E; [|discriminate].
  cbn. intros [= <-]. repeat split. exists type. split; reflexivity.
Qed.

Lemma thin_refl ls : thin ls ls.
Proof. split; [reflexivity|auto]. Qed.

Lemma thin_trans l1 l2 l3 : thin l1 l2 -> thin l2 l3 -> thin l1 l3.
Proof.
  intros [Hs1 Hk1] [Hs2 Hk2]. split; [etransitivity; eassumption|].
  intros r Hr Hg. apply Hk2; [apply Hk1|]; assumption.
Qed.

Lemma thin_remove_last P ls :
  (forall r, P r = true -> guard_registration r = true) ->
  thin ls (Js.remove_last P ls).
Proof.
  intros HP. split; [apply remove_last_sublist|].
  intros r Hr Hg. apply remove_last_keeps; [exact Hr|].
  destruct (P r) eqn:E; [|reflexivity]. rewrite (HP r E) in Hg. discriminate.
Qed.

(** What the listeners of one event are when the event is raised: the one
    that re-emits, then local functions of operations. *)
Lemma FwdOn_snapshot n ls t ev :
  FwdOn n ls -> forwarded_on n t ev = true ->
  exists f gs, forwarder t ev = Some f
    /\ Js.listenersOf t ev ls = f :: gs
    /\ Forall (fun r => guard_registration r = true) gs
    /\ forall r, r ∈ gs -> r ∈ ls.
Proof.
  intros HF Hfw.
  destruct (f_kept _ _ HF _ _ Hfw) as (f & Hf & Hin).
  destruct (forwarder_shape _ _ _ Hf) as (Ht & He & Hg & _).
  destruct (f_order _ _ HF t ev) as (a & b & Hab & Ha & Hb).
  assert (Hsub : a ++ b `sublist_of` ls).
  { rewrite <- Hab. apply sublist_filter. }
  assert (Hfa : f ∈ a).
  { assert (Hf' : f ∈ a ++ b).
    { rewrite <- Hab. apply list_elem_of_filter. auto. }
    apply elem_of_app in Hf' as [Hf'|Hf']; [exact Hf'|].
    rewrite (proj1 (Forall_forall _ _) Hb f Hf') in Hg. discriminate. }
  assert (Ha1 : a = [f]).
  { apply all_same; [| |exact Hfa].
    - rewrite <- (filter_all (fun r => guard_registration r = false) a Ha).
      eapply sublist_NoDup; [exact (f_nodup _ _ HF)|].
      apply filter_sublist_mono. etransitivity; [|exact Hsub].
      apply sublist_inserts_r. reflexivity.
    - intros y Hy.
      assert (Hy' : y ∈ Js.listenersOf t ev ls).
      { rewrite Hab. apply elem_of_app. left. exact Hy. }
      apply list_elem_of_filter in Hy' as [[Hty Hey] Hyl].
      pose proof (f_only _ _ HF y Hyl (proj1 (Forall_forall _ _) Ha y Hy)) as Hy2.
      rewrite Hty, Hey, Hf in Hy2. congruence. }
  exists f, b. subst a. repeat split; try assumption.
  intros r Hr.
  assert (Hr' : r ∈ [f] ++ b) by (apply elem_of_app; right; exact Hr).
  exact (elem_of_sublist _ _ _ Hr' Hsub).
Qed.

Lemma FwdOn_thin n ls ls' : thin ls ls' -> FwdOn n ls -> FwdOn n ls'.
Proof.
  intros [Hs Hk] HF. split.
  - intros t ev Hfw. destruct (f_kept _ _ HF _ _ Hfw) as (f & Hf & Hin).
    exists f. split; [exact Hf|]. apply Hk; [exact Hin|].
    exact (proj1 (proj2 (proj2 (forwarder_shape _ _ _ Hf)))).
  - intros r Hr. apply (f_only _ _ HF). exact (elem_of_sublist _ _ _ Hr Hs).
  - eapply sublist_NoDup; [exact (f_nodup _ _ HF)|]. apply filter_sublist_mono, Hs.
  - intros t ev. eapply forwarders_first_sublist; [|exact (f_order _ _ HF t ev)].
    apply filter_sublist_mono, Hs.
  - intros r s Hr. apply (f_fresh _ _ HF). exact (elem_of_sublist _ _ _ Hr Hs).
Qed.

(** Local functions of operations are added. *)
Lemma FwdOn_grow n ls gs :
  Forall (fun r => guard_registration r = true) gs ->
  (forall r s, r ∈ gs -> Js.target r = TheSession s -> s < n) ->
  FwdOn n ls -> FwdOn n (ls ++ gs).
Proof.
  intros Hgs Hfresh HF.
  split.
  - intros t ev Hfw. destruct (f_kept _ _ HF _ _ Hfw) as (f & Hf & Hin).
    exists f. split; [exact Hf|]. apply elem_of_app. left. exact Hin.
  - intros r Hr Hg. apply elem_of_app in Hr as [Hr|Hr].
    + exact (f_only _ _ HF r Hr Hg).
    + rewrite (proj1 (Forall_forall _ _) Hgs r Hr) in Hg. discriminate.
  - rewrite filter_app.
    assert (filter (fun r => guard_registration r = false) gs = []) as ->.
    { apply filter_none. intros r Hr Hg.
      rewrite (proj1 (Forall_forall _ _) Hgs r Hr) in Hg. discriminate. }
    rewrite app_nil_r. exact (f_nodup _ _ HF).
  - intros t ev. unfold Js.listenersOf. rewrite filter_app.
    destruct (f_order _ _ HF t ev) as (a & b & Hab & Ha & Hb).
    unfold Js.listenersOf in Hab. rewrite Hab.
    exists a, (b ++ filter (fun r => Js.target r = t /\ Js.event r = ev) gs).
    split; [symmetry; apply app_assoc|]. split; [exact Ha|].
    apply Forall_app. split; [exact Hb|].
    eapply Forall_sublist; [apply sublist_filter|exact Hgs].
  - intros r s Hr. apply elem_of_app in Hr as [Hr|Hr].
    + exact (f_fresh _ _ HF r s Hr).
    + exact (Hfresh r s Hr).
Qed.

Lemma listeners_Session_initializeEventListeners s w :
  listeners (Session._initializeEventListeners s w) = listeners w ++ session_block s.
Proof. cbn. unfold Js.on. rewrite <- !app_assoc. reflexivity. Qed.

Lemma listeners_Connection_constructor o :
  listeners (Connection.constructor o) = connection_block.
Proof. reflexivity. Qed.

Lemma session_block_shape s r :
  r ∈ session_block s ->
  exists ev, ev ∈ session_events
    /\ r = Js.mkRegistration (TheSession s) ev (ReEmit (TheSession s) "session" ev) false.
Proof.
  unfold session_block. intros H. apply list_elem_of_fmap in H as (ev & -> & Hev).
  exists ev. split; [exact Hev|reflexivity].
Qed.

Lemma connection_block_shape r :
  r ∈ connection_block ->
  exists ev, ev ∈ connection_events
    /\ r = Js.mkRegistration TheConnection ev (ReEmit TheConnection "connection" ev) false.
Proof.
  unfold connection_block. intros H. apply list_elem_of_fmap in H as (ev & -> & Hev).
  exists ev. split; [exact Hev|reflexivity].
Qed.

Lemma NoDup_session_block s : NoDup (session_block s).
Proof.
  unfold session_block. apply NoDup_fmap_2.
  - intros x y [= ->]. reflexivity.
  - apply (bool_decide_unpack _). vm_compute. exact I.
Qed.

Lemma NoDup_connection_block : NoDup connection_block.
Proof.
  unfold connection_block. apply NoDup_fmap_2.
  - intros x y [= ->]. reflexivity.
  - apply (bool_decide_unpack _). vm_compute. exact I.
Qed.

(** The connection is made. *)
Lemma FwdOn_connection_block : FwdOn 0 connection_block.
Proof.
  assert (Hng : Forall (fun r => guard_registration r = false) connection_block).
  { apply Forall_forall. intros r (ev & _ & ->)%connection_block_shape. reflexivity. }
  split.
  - intros [|s|l] ev H; try discriminate.
    apply bool_decide_eq_true in H.
    eexists. split; [reflexivity|].
    unfold connection_block. apply list_elem_of_fmap. exists ev. split; [reflexivity|exact H].
  - intros r (ev & _ & ->)%connection_block_shape _. reflexivity.
  - rewrite (filter_all _ _ Hng). apply NoDup_connection_block.
  - intros t ev. exists (Js.listenersOf t ev connection_block), []. split; [symmetry; apply app_nil_r|].
    split; [|constructor].
    eapply Forall_sublist; [apply sublist_filter|exact Hng].
  - intros r s (ev & _ & ->)%connection_block_shape. discriminate.
Qed.

(** A session is made. *)
Lemma FwdOn_session_block n ls :
  FwdOn n ls -> FwdOn (S n) (ls ++ session_block n).
Proof.
  intros HF.
  assert (Hng : Forall (fun r => guard_registration r = false) (session_block n)).
  { apply Forall_forall. intros r (ev & _ & ->)%session_block_shape. reflexivity. }
  assert (Hnew : forall r, r ∈ ls -> Js.target r <> TheSession n).
  { intros r Hr Ht. pose proof (f_fresh _ _ HF r n Hr Ht). lia. }
  split.
  - intros [|s|l] ev H; try discriminate.
    + destruct (f_kept _ _ HF TheConnection ev H) as (f & Hf & Hin).
      exists f. split; [exact Hf|]. apply elem_of_app. left. exact Hin.
    + cbn in H. apply andb_true_iff in H as [Hs Hev].
      apply bool_decide_eq_true in Hs.
      destruct (decide (s = n)) as [->|Hne].
      * eexists. split; [reflexivity|]. apply elem_of_app. right.
        unfold session_block. apply list_elem_of_fmap. exists ev.
        split; [reflexivity|]. apply bool_decide_eq_true in Hev. exact Hev.
      * destruct (f_kept _ _ HF (TheSession s) ev) as (f & Hf & Hin).
        { cbn. rewrite Hev, bool_decide_eq_true_2 by lia. reflexivity. }
        exists f. split; [exact Hf|]. apply elem_of_app. left. exact Hin.
  - intros r Hr Hg. apply elem_of_app in Hr as [Hr|Hr].
    + exact (f_only _ _ HF r Hr Hg).
    + apply session_block_shape in Hr as (ev & _ & ->). reflexivity.
  - rewrite filter_app, (filter_all _ _ Hng). apply NoDup_app.
    split; [exact (f_nodup _ _ HF)|]. split; [|apply NoDup_session_block].
    intros r Hr Hr'. apply list_elem_of_filter in Hr as [_ Hr].
    apply session_block_shape in Hr' as (ev & _ & ->).
    exact (Hnew _ Hr eq_refl).
  - intros t ev. unfold Js.listenersOf. rewrite filter_app.
    destruct (decide (t = TheSession n)) as [->|Hne].
    + rewrite (filter_none _ ls).
      * exists (filter (fun r => Js.target r = TheSession n /\ Js.event r = ev) (session_block n)), [].
        split; [rewrite app_nil_r; reflexivity|]. split; [|constructor].
        eapply Forall_sublist; [apply sublist_filter|exact Hng].
      * intros r Hr [Ht _]. exact (Hnew r Hr Ht).
    + rewrite (filter_none _ (session_block n)).
      * rewrite app_nil_r. exact (f_order _ _ HF t ev).
      * intros r (ev' & _ & ->)%session_block_shape [Ht _]. cbn in Ht. congruence.
  - intros r s Hr Ht. apply elem_of_app in Hr as [Hr|Hr].
    + pose proof (f_fresh _ _ HF r s Hr Ht). lia.
    + apply session_block_shape in Hr as (ev & _ & ->). cbn in Ht.
      injection Ht as <-. lia.
Qed.

(** What a function that runs does to the listeners. *)
Lemma call_closure_thin f ctx w :
  thin (listeners w) (listeners (call_closure f ctx w))
  /\ length (sessions (call_closure f ctx w)) = length (sessions w).
Proof.
  destruct f as [sc r|e ty ev|params]; cbn [call_closure].
  - destruct (defines (op sc) r) eqn:Hd; [|split; [apply thin_refl|reflexivity]].
    destruct (guard_call_fields sc r ctx w Hd) as (_ & Hl & _).
    destruct (guard_call_counters sc r ctx w Hd) as (_ & Hs).
    cbn [call_closure] in Hl, Hs. rewrite Hd in Hl, Hs.
    rewrite Hl, Hs, sessions_length_add. split; [|reflexivity].
    split; [apply listeners_removeListeners_sublist|].
    intros r0 Hr0 Hg. apply listeners_removeListeners_keeps; [exact Hr0|].
    intros role Hfn. unfold guard_registration in Hg. rewrite Hfn in Hg. discriminate.
  - unfold emitEvent. destruct (_ && _); split; try apply thin_refl; reflexivity.
  - split; [apply thin_refl|reflexivity].
Qed.

Lemma Fwd_thin w w' :
  thin (listeners w) (listeners w') -> length (sessions w') = length (sessions w) ->
  Fwd w -> Fwd w'.
Proof. unfold Fwd. intros Ht ->. apply FwdOn_thin, Ht. Qed.

Lemma Fwd_call_closure f ctx w : Fwd w -> Fwd (call_closure f ctx w).
Proof.
  destruct (call_closure_thin f ctx w) as [Ht Hs]. apply Fwd_thin; assumption.
Qed.

Lemma Fwd_listener_call r ctx w :
  Fwd w -> (Js.once_flag r = true -> guard_registration r = true) ->
  Fwd (call_closure (Js.fn r) ctx
         (if Js.once_flag r
          then with_listeners (Js.removeWrapper r (listeners w)) w else w)).
Proof.
  intros HF Hguard. apply Fwd_call_closure.
  destruct (Js.once_flag r) eqn:Hflag; [|exact HF].
  revert HF. apply Fwd_thin; [|reflexivity]. cbn.
  apply thin_remove_last. intros r' E. apply bool_decide_eq_true in E. subst r'.
  apply Hguard. reflexivity.
Qed.

Lemma Fwd_once_is_guard w r :
  Fwd w -> r ∈ listeners w -> Js.once_flag r = true -> guard_registration r = true.
Proof.
  intros HF Hin Hflag.
  destruct (guard_registration r) eqn:Hg; [reflexivity|].
  pose proof (f_only _ _ HF r Hin Hg) as Hf.
  destruct (forwarder_shape _ _ _ Hf) as (_ & _ & _ & Hno & _). congruence.
Qed.

Lemma Fwd_listeners_loop ctx rs : forall w,
  Fwd w ->
  (forall r, r ∈ rs -> Js.once_flag r = true -> guard_registration r = true) ->
  Fwd (foldl
         (fun w r =>
            let w := if Js.once_flag r
                     then with_listeners (Js.removeWrapper r (listeners w)) w
                     else w in
            call_closure (Js.fn r) ctx w) w rs).
Proof.
  induction rs as [|r rs IH]; intros w HF Hrs; [exact HF|].
  cbn [foldl]. apply IH.
  - apply Fwd_listener_call; [exact HF|]. apply Hrs. left.
  - intros r' Hr'. apply Hrs. right. exact Hr'.
Qed.

Lemma Fwd_emit t ev ctx w : Fwd w -> Fwd (emit t ev ctx w).
Proof.
  intros HF. unfold emit. apply Fwd_listeners_loop; [exact HF|].
  intros r [_ Hr]%list_elem_of_filter. exact (Fwd_once_is_guard w r HF Hr).
Qed.

Lemma Fwd_timerFires h w : Fwd w -> Fwd (timerFires h w).
Proof.
  intros HF. unfold timerFires. destruct (Js.fire h (timers w)) as [[f ts]|]; [|exact HF].
  apply Fwd_call_closure. exact HF.
Qed.

Lemma Fwd_signalAborts s w : Fwd w -> Fwd (signalAborts s w).
Proof.
  intros HF. unfold signalAborts. destruct (is_aborted s w); [exact HF|].
  assert (HF' : Fwd (with_aborted (s :: aborted w) w)) by exact HF.
  revert HF'. generalize (with_aborted (s :: aborted w) w).
  generalize (filter (fun sl : nat * Closure => sl.1 = s) (abortListeners w)).
  intros sls. induction sls as [|sl sls IH]; intros w' HF'; [exact HF'|].
  cbn [foldl]. apply IH, Fwd_call_closure, HF'.
Qed.

Lemma registrations_target sc r s :
  r ∈ registrations sc -> Js.target r = TheSession s -> entity_of (op sc) = TheSession s.
Proof.
  unfold registrations. destruct (op sc); intros H;
    repeat (apply elem_of_cons in H as [->|H]; [cbn; congruence|]);
    inversion H.
Qed.

(** An operation added its listeners, and now looks at the signal it was
    given. *)
Lemma Fwd_start w W sc :
  Fwd w ->
  listeners W = listeners w ++ registrations sc ->
  length (sessions W) = length (sessions w) ->
  (forall s, entity_of (op sc) = TheSession s -> s < length (sessions w)) ->
  Fwd (watchAbortSignal sc W).
Proof.
  intros HF Hls Hlen Hent.
  assert (HW : Fwd W).
  { unfold Fwd. rewrite Hls, Hlen. apply FwdOn_grow; [| |exact HF].
    - apply Forall_forall. intros r. apply registrations_guard.
    - intros r s Hr Ht. apply Hent. exact (registrations_target sc r s Hr Ht). }
  unfold watchAbortSignal. destruct (abortSignal sc) as [s|]; [|exact HW].
  destruct (is_aborted s W); [apply Fwd_call_closure, HW|exact HW].
Qed.

Lemma Fwd_settled_at_once w x :
  Fwd w -> Fwd (settle (length (promises w)) x (newPromise w).2).
Proof. intros HF. exact HF. Qed.

Ltac fwd_start w :=
  eapply (Fwd_start w);
  [ assumption
  | cbn; unfold Js.once, Js.on; rewrite <- ?app_assoc; reflexivity
  | cbn; rewrite ?length_alter; reflexivity
  | cbn; try (intros ? ?; discriminate) ].

Lemma Fwd_open options isOpen w : Fwd w -> Fwd (Connection.open options isOpen w).2.
Proof.
  intros HF. unfold Connection.open. destruct isOpen; cbn [negb].
  - apply Fwd_settled_at_once, HF.
  - cbn [newPromise Js.newPromise snd]. fwd_start w.
Qed.

Lemma Fwd_close options isOpen w : Fwd w -> Fwd (Connection.close options isOpen w).2.
Proof.
  intros HF. unfold Connection.close. destruct isOpen.
  - cbn [newPromise Js.newPromise snd]. fwd_start w.
  - apply Fwd_settled_at_once, HF.
Qed.

Lemma Fwd_createReceiver s options w :
  Fwd w -> Fwd (Session.createReceiver s options w).2.
Proof.
  intros HF. unfold Session.createReceiver. destruct (_ && _).
  - apply Fwd_settled_at_once, HF.
  - cbn [newPromise Js.newPromise snd]. fwd_start w.
Qed.

Lemma Fwd_createSender s type options w :
  Fwd w -> Fwd (Session._createSender s type options w).2.
Proof.
  intros HF. unfold Session._createSender.
  cbn [newPromise Js.newPromise snd]. destruct type; fwd_start w.
Qed.

Lemma Fwd_Session_close s options isOpen w :
  s < length (sessions w) -> Fwd w -> Fwd (Session.close s options isOpen w).2.
Proof.
  intros Hs HF. unfold Session.close. destruct isOpen.
  - cbn [newPromise Js.newPromise snd]. fwd_start w.
    intros s0 [= <-]. exact Hs.
  - apply Fwd_settled_at_once, HF.
Qed.

Lemma Fwd_createSession options w :
  Fwd w -> Fwd (Connection.createSession options w).2.
Proof.
  intros HF. unfold Connection.createSession.
  cbn [newPromise Js.newPromise snd].
  set (w0 := Session.constructor (length (sessions w))
               (engine_call (create_session (length (sessions w)))
                  (with_promises (promises w ++ [[]]) w))).
  assert (H0 : Fwd w0).
  { unfold Fwd, w0, Session.constructor.
    rewrite listeners_Session_initializeEventListeners. cbn.
    rewrite length_app, Nat.add_comm. cbn. apply FwdOn_session_block. exact HF. }
  eapply (Fwd_start w0); [exact H0| | |].
  - cbn. unfold Js.once, Js.on. rewrite <- ?app_assoc. reflexivity.
  - cbn. rewrite ?length_alter. reflexivity.
  - cbn. intros s [= <-]. rewrite length_app. cbn. lia.
Qed.

Lemma Fwd_step w e : valid w e = true -> Fwd w -> Fwd (step w e).
Proof.
  intros Hv HF. destruct e; cbn [step].
  - apply Fwd_open, HF.
  - apply Fwd_close, HF.
  - apply Fwd_createSession, HF.
  - apply Fwd_Session_close; [|exact HF]. apply bool_decide_eq_true in Hv. exact Hv.
  - apply Fwd_createReceiver, HF.
  - apply Fwd_createSender, HF.
  - apply Fwd_emit, HF.
  - apply Fwd_timerFires, HF.
  - apply Fwd_signalAborts, HF.
Qed.

Lemma Fwd_run evs : forall w, valid_trace w evs = true -> Fwd w -> Fwd (run w evs).
Proof.
  induction evs as [|e evs IH]; intros w Hv HF; [exact HF|].
  cbn in Hv. apply andb_true_iff in Hv as [Hv Hvs].
  apply IH; [exact Hvs|apply Fwd_step; assumption].
Qed.

Lemma Fwd_reachable o evs :
  valid_trace (Connection.constructor o) evs = true ->
  Fwd (run (Connection.constructor o) evs).
Proof.
  intros Hv. apply Fwd_run; [exact Hv|]. exact FwdOn_connection_block.
Qed.

(** ** An event of the engine reaches the wrapper once *)

Lemma guard_call_emitted sc r ctx w :
  emitted (call_closure (Guard sc r) ctx w) = emitted w.
Proof.
  cbn [call_closure]. destruct (defines (op sc) r); [|reflexivity].
  unfold after_removeListeners, removeListeners, removeAbortListener.
  destruct (abortSignal sc), (op sc), r; reflexivity.
Qed.

Lemma clearTimeout_other {C} h h' (ts : list (Js.Timer C)) :
  h <> h' -> Js.clearTimeout h' ts !! h = ts !! h.
Proof.
  intros Hne. unfold Js.clearTimeout.
  destruct (ts !! h') as [[ms f| |]|]; try reflexivity.
  apply list_lookup_insert_ne. congruence.
Qed.

(** Local functions of operations whose timer is not [h] run: nothing is
    emitted and the timer [h] stays as it is. *)
Lemma guards_loop_frame ctx h gs : forall w1,
  (forall r, r ∈ gs -> exists sc role, Js.fn r = Guard sc role /\ waitTimer sc <> h) ->
  let w2 := foldl
          (fun w r =>
             let w := if Js.once_flag r
                      then with_listeners (Js.removeWrapper r (listeners w)) w
                      else w in
             call_closure (Js.fn r) ctx w) w1 gs in
  emitted w2 = emitted w1 /\ timers w2 !! h = timers w1 !! h.
Proof.
  induction gs as [|r gs IH]; intros w1 Hgs; [split; reflexivity|].
  cbn [foldl].
  destruct (Hgs r) as (sc & role & Hfn & Hne); [left|].
  set (wm := if Js.once_flag r then _ else w1).
  assert (Hwm : emitted wm = emitted w1 /\ timers wm = timers w1).
  { unfold wm. destruct (Js.once_flag r); split; reflexivity. }
  destruct Hwm as [He Ht].
  destruct (IH (call_closure (Js.fn r) ctx wm)) as [He' Ht'].
  { intros r' Hr'. apply Hgs. right. exact Hr'. }
  cbn zeta in He', Ht' |- *. rewrite He', Ht', Hfn, guard_call_emitted, He.
  split; [reflexivity|].
  cbn [call_closure]. destruct (defines (op sc) role) eqn:Hd; [|rewrite Ht; reflexivity].
  destruct (guard_call_fields sc role ctx wm Hd) as (Hts & _).
  cbn [call_closure] in Hts. rewrite Hd in Hts. rewrite Hts, Ht.
  apply clearTimeout_other. congruence.
Qed.

Lemma forwarded_tracked t ev w : forwarded t ev w = true -> tracked t w = true.
Proof.
  destruct t as [|s|l]; cbn; try discriminate; [reflexivity|].
  intros [H _]%andb_true_iff. exact H.
Qed.

Lemma positive_of_nat n : (Z.of_nat n >? 0)%Z = (0 <? n)%nat.
Proof. destruct n; reflexivity. Qed.

(** Whatever happened so far, an event of the engine that the connection
    or a session listens to in order to re-emit it reaches the wrapper
    exactly once.  It is re-emitted, and nothing else is, while the engine
    raises it, unless its name holds [error] and an operation on the
    wrapper is in flight: then nothing is emitted while the listeners run,
    a timer without delay is started, and the event is re-emitted when that
    timer fires. *)
Theorem engine_event_is_re_emitted_exactly_once o evs t ev ctx type :
  valid_trace (Connection.constructor o) evs = true ->
  let w := run (Connection.constructor o) evs in
  forwarded t ev w = true ->
  emitterType_of t = Some type ->
  let params := mkEmitParameters ctx t ev type in
  let w' := step w (EngineEmits t ev ctx) in
  if put_off t ev w
  then emitted w' = emitted w
       /\ timers w' !! length (timers w) = Some (Js.Armed 0 (EmitLater params))
       /\ emitted (step w' (TimerFires (length (timers w)))) = emitted w ++ [params]
  else emitted w' = emitted w ++ [params].
Proof.
  intros Hv w Hfw Hty params w'.
  assert (HT : Tidy w) by apply Tidy_reachable.
  assert (HC : Counted w) by (apply Counted_reachable; exact Hv).
  assert (HF : Fwd w) by (apply Fwd_reachable; exact Hv).
  destruct (FwdOn_snapshot _ _ t ev HF Hfw) as (f & gs & Hf & Hsnap & Hgs & Hin).
  destruct (forwarder_shape _ _ _ Hf) as (_ & _ & _ & Hflag & type' & Hty' & Hfn).
  assert (type' = type) as -> by congruence.
  assert (Hframe : forall r, r ∈ gs ->
            exists sc role, Js.fn r = Guard sc role /\ waitTimer sc <> length (timers w)).
  { intros r Hr.
    pose proof (proj1 (Forall_forall _ _) Hgs r Hr) as Hg.
    unfold guard_registration in Hg.
    destruct (Js.fn r) as [sc role| |] eqn:Hr'; try discriminate.
    exists sc, role. split; [reflexivity|].
    destruct (t_listeners _ _ _ _ _ HT _ _ _ (Hin r Hr) Hr') as (Hst & _).
    destruct (t_bound _ _ _ _ _ HT sc Hst) as [_ Hlt]. lia. }
  assert (Hw' : w' = foldl
            (fun w r =>
               let w := if Js.once_flag r
                        then with_listeners (Js.removeWrapper r (listeners w)) w
                        else w in
               call_closure (Js.fn r) ctx w) (emitEvent params w) gs).
  { unfold w'. cbn [step]. unfold emit. rewrite Hsnap. cbn [foldl].
    rewrite Hflag, Hfn. reflexivity. }
  pose proof (guards_loop_frame ctx (length (timers w)) gs (emitEvent params w) Hframe)
    as Hfr.
  cbv zeta in Hfr, Hw'. rewrite <- Hw' in Hfr. destruct Hfr as [He Ht].
  assert (Hput : put_off t ev w
                 = negb (Js.indexOf (eventName params) "error" =? -1)%Z
                   && (actionInitiated (emitter params) w >? 0)%Z).
  { unfold put_off, params. cbn [eventName emitter].
    rewrite (c_tracked _ HC t (forwarded_tracked t ev w Hfw)), positive_of_nat.
    reflexivity. }
  unfold emitEvent in He, Ht. rewrite <- Hput in He, Ht.
  destruct (put_off t ev w).
  - assert (Hslot : timers w' !! length (timers w)
                    = Some (Js.Armed 0 (EmitLater params))).
    { rewrite Ht. cbn. rewrite lookup_app_r, Nat.sub_diag by lia. reflexivity. }
    split; [exact He|]. split; [exact Hslot|].
    cbn [step]. unfold timerFires, Js.fire. rewrite Hslot.
    change (emitted w' ++ [params] = emitted w ++ [params]).
    rewrite He. reflexivity.
  - exact He.
Qed.

Lemma engine_event_witness :
  let w := run (Connection.constructor None) [Close None true] in
  let params := mkEmitParameters no_context TheConnection
                  ConnectionEvents.connectionError "connection" in
  let w' := step w (EngineEmits TheConnection ConnectionEvents.connectionError
                      no_context) in
  emitted w' = emitted w
  /\ timers w' !! length (timers w) = Some (Js.Armed 0 (EmitLater params))
  /\ emitted (step w' (TimerFires (length (timers w)))) = emitted w ++ [params].
Proof.
  apply (engine_event_is_re_emitted_exactly_once None [Close None true]
           TheConnection ConnectionEvents.connectionError no_context "connection");
    reflexivity.
Defined.

(** ** What an operation in flight can count on *)

Lemma clearTimeout_not_armed {C} h (ts : list (Js.Timer C)) ms f :
  Js.clearTimeout h ts !! h <> Some (Js.Armed ms f).
Proof.
  unfold Js.clearTimeout.
  destruct (ts !! h) as [[ms' f'| |]|] eqn:E; rewrite ?E; try discriminate.
  rewrite list_lookup_insert_eq by (apply lookup_lt_Some in E; exact E).
  discriminate.
Qed.

(** The operations in flight after a local function of [sc0] ran were in
    flight before, and [sc0] is not one of them. *)
Lemma in_flight_after_guard sc0 ts tm sc :
  tm = ts \/ tm = <[waitTimer sc0 := Js.Fired]> ts ->
  in_flight sc (Js.clearTimeout (waitTimer sc0) tm) ->
  sc <> sc0 /\ in_flight sc ts.
Proof.
  intros Htm [ms H].
  assert (Hne : waitTimer sc <> waitTimer sc0).
  { intros E. rewrite E in H. exact (clearTimeout_not_armed _ _ _ _ H). }
  split; [congruence|]. exists ms.
  rewrite clearTimeout_other in H by exact Hne.
  destruct Htm as [->| ->]; [exact H|].
  rewrite list_lookup_insert_ne in H by congruence. exact H.
Qed.

Lemma registrations_other sc sc0 r role :
  r ∈ registrations sc -> sc <> sc0 -> Js.fn r <> Guard sc0 role.
Proof.
  intros Hr Hne Hfn. destruct (registrations_fn _ _ Hr) as (role' & Hfn' & _).
  congruence.
Qed.

(** A local function of [sc0] runs. *)
Lemma Present_guard_call sc0 role ctx w wm :
  (forall sc, sc <> sc0 -> in_flight sc (timers w) -> present sc w) ->
  defines (op sc0) role = true ->
  timers wm = timers w \/ timers wm = <[waitTimer sc0 := Js.Fired]> (timers w) ->
  (forall r, r ∈ listeners w -> (forall role', Js.fn r <> Guard sc0 role') ->
     r ∈ listeners wm) ->
  abortListeners wm = abortListeners w ->
  Present (call_closure (Guard sc0 role) ctx wm).
Proof.
  intros HP Hd Hts Hls Hals sc Hfl.
  destruct (guard_call_fields sc0 role ctx wm Hd) as (Ht & Hl & Ha & _).
  rewrite Ht in Hfl. apply (in_flight_after_guard sc0 (timers w)) in Hfl as [Hne Hfl];
    [|exact Hts].
  destruct (HP sc Hne Hfl) as [Hregs Hab]. split.
  - intros r Hr. rewrite Hl. apply listeners_removeListeners_keeps.
    + apply Hls; [exact (Hregs r Hr)|].
      intros role'. exact (registrations_other sc sc0 r role' Hr Hne).
    + intros role'. exact (registrations_other sc sc0 r role' Hr Hne).
  - intros s Hs. rewrite Ha, Hals.
    destruct (abortSignal sc0) as [s0|]; [|exact (Hab s Hs)].
    apply list_elem_of_filter. split; [congruence|exact (Hab s Hs)].
Qed.

(** Nothing an operation in flight counts on is taken away. *)
Lemma Present_mono w w' :
  (forall sc, in_flight sc (timers w') -> in_flight sc (timers w)) ->
  (forall r, guard_registration r = true -> r ∈ listeners w -> r ∈ listeners w') ->
  (forall x, x ∈ abortListeners w -> x ∈ abortListeners w') ->
  Present w -> Present w'.
Proof.
  intros Hts Hls Hals HP sc Hfl. destruct (HP sc (Hts sc Hfl)) as [Hregs Hab]. split.
  - intros r Hr. apply Hls; [exact (registrations_guard sc r Hr)|exact (Hregs r Hr)].
  - intros s Hs. exact (Hals _ (Hab s Hs)).
Qed.

Lemma in_flight_other_timer sc ts ms f :
  (forall sc' r, f <> Guard sc' r) ->
  in_flight sc (ts ++ [Js.Armed ms f]) -> in_flight sc ts.
Proof.
  intros Hf [ms' H]. exists ms'.
  destruct (decide (waitTimer sc < length ts)) as [Hlt|Hge].
  - rewrite lookup_app_l in H by exact Hlt. exact H.
  - rewrite lookup_app_r in H by lia.
    destruct (waitTimer sc - length ts) as [|n]; cbn in H; [|discriminate].
    injection H as _ E. exfalso. exact (Hf _ _ E).
Qed.

Lemma in_flight_fired sc ts h :
  in_flight sc (<[h := Js.Fired]> ts) -> in_flight sc ts.
Proof.
  intros [ms H]. exists ms.
  destruct (decide (h = waitTimer sc)) as [->|Hne].
  - destruct (decide (waitTimer sc < length ts)) as [Hlt|Hge].
    + rewrite list_lookup_insert_eq in H by exact Hlt. discriminate.
    + rewrite list_insert_ge in H by lia. exact H.
  - rewrite list_lookup_insert_ne in H by exact Hne. exact H.
Qed.

Lemma Present_other_call f ctx w :
  (forall sc r, f <> Guard sc r) -> Present w -> Present (call_closure f ctx w).
Proof.
  intros Hf. destruct f as [sc r|e ty ev|params]; cbn [call_closure].
  - exfalso. exact (Hf _ _ eq_refl).
  - unfold emitEvent. destruct (_ && _).
    + apply Present_mono; auto. intros sc.
      apply in_flight_other_timer. intros ? ?; discriminate.
    + apply Present_mono; auto.
  - apply Present_mono; auto.
Qed.

Lemma Present_listener_call r ctx w :
  Tidy w -> Present w -> (guard_registration r = true -> r ∈ listeners w) ->
  Present (call_closure (Js.fn r) ctx
             (if Js.once_flag r
              then with_listeners (Js.removeWrapper r (listeners w)) w else w)).
Proof.
  intros HT HP Hin.
  set (wm := if Js.once_flag r then _ else w).
  assert (Hrest : abortListeners wm = abortListeners w /\ timers wm = timers w).
  { unfold wm. destruct (Js.once_flag r); split; reflexivity. }
  destruct Hrest as (Ha & Ht).
  assert (Hkeep : forall r', r' ∈ listeners w -> r' <> r -> r' ∈ listeners wm).
  { intros r' Hr' Hne. unfold wm. destruct (Js.once_flag r); [|exact Hr']. cbn.
    apply remove_last_keeps; [exact Hr'|]. apply bool_decide_eq_false. exact Hne. }
  destruct (Js.fn r) as [sc role|e ty ev|params] eqn:Hfn.
  - assert (Hin' : r ∈ listeners w).
    { apply Hin. unfold guard_registration. rewrite Hfn. reflexivity. }
    destruct (t_listeners _ _ _ _ _ HT _ _ _ Hin' Hfn) as (Hst & Hreg & Hfl).
    destruct (registrations_fn _ _ Hreg) as (role' & Hfn' & Hd).
    assert (role' = role) as -> by congruence.
    apply (Present_guard_call _ _ _ w); auto.
    intros r' Hr' Hne. apply Hkeep; [exact Hr'|]. intros ->. exact (Hne _ Hfn).
  - apply Present_other_call; [intros ? ?; discriminate|].
    revert HP. apply Present_mono.
    + intros sc. rewrite Ht. auto.
    + intros r' Hg Hr'. apply Hkeep; [exact Hr'|]. intros ->.
      unfold guard_registration in Hg. rewrite Hfn in Hg. discriminate.
    + intros x. rewrite Ha. auto.
  - apply Present_other_call; [intros ? ?; discriminate|].
    revert HP. apply Present_mono.
    + intros sc. rewrite Ht. auto.
    + intros r' Hg Hr'. apply Hkeep; [exact Hr'|]. intros ->.
      unfold guard_registration in Hg. rewrite Hfn in Hg. discriminate.
    + intros x. rewrite Ha. auto.
Qed.

Lemma Present_emit t ev ctx w : Tidy w -> Present w -> Present (emit t ev ctx w).
Proof.
  intros HT HP. apply (emit_keeps Present); [|exact HT|exact HP].
  intros r w'. apply Present_listener_call.
Qed.

Lemma Present_timerFires h w : Tidy w -> Present w -> Present (timerFires h w).
Proof.
  intros HT HP. unfold timerFires, Js.fire.
  destruct (timers w !! h) as [[ms f| |]|] eqn:Hh; try exact HP.
  destruct f as [sc r|e ty ev|params].
  - destruct (t_timers _ _ _ _ _ HT _ _ _ _ Hh) as (-> & -> & Hst).
    apply (Present_guard_call _ _ _ w); auto.
    destruct (op sc); reflexivity.
  - apply Present_other_call; [intros ? ?; discriminate|].
    revert HP. apply Present_mono; auto. intros sc. apply in_flight_fired.
  - apply Present_other_call; [intros ? ?; discriminate|].
    revert HP. apply Present_mono; auto. intros sc. apply in_flight_fired.
Qed.

Lemma Present_signalAborts s w : Tidy w -> Present w -> Present (signalAborts s w).
Proof.
  intros HT HP. unfold signalAborts. destruct (is_aborted s w); [exact HP|].
  apply (abort_loop Present).
  - intros sc w' HT' HP' Hfl.
    apply (Present_guard_call _ _ _ w'); auto.
    destruct (op sc); reflexivity.
  - revert HT. apply Tidy_same; reflexivity.
  - exact HP.
  - eapply sublist_NoDup; [exact (t_abort_nodup _ _ _ _ _ HT)|apply sublist_filter].
  - intros x [_ Hx]%list_elem_of_filter. exact Hx.
Qed.

(** An operation registered its listeners and started its timer, and now
    looks at the signal it was given. *)
Lemma Present_start w W sc ms extra :
  Present w ->
  waitTimer sc = length (timers w) ->
  timers W = timers w ++ [Js.Armed ms (Guard sc ActionAfterTimeout)] ->
  listeners W = listeners w ++ extra ++ registrations sc ->
  abortListeners W = abortListeners w ->
  Present (watchAbortSignal sc W).
Proof.
  intros HP Hw Hts Hls Hals.
  assert (Hold : forall sc', sc' <> sc -> in_flight sc' (timers W) ->
            in_flight sc' (timers w)).
  { intros sc' Hne [ms' H]. exists ms'. rewrite Hts in H.
    destruct (decide (waitTimer sc' < length (timers w))) as [Hlt|Hge].
    - rewrite lookup_app_l in H by exact Hlt. exact H.
    - rewrite lookup_app_r in H by lia.
      destruct (waitTimer sc' - length (timers w)) as [|n]; cbn in H; [|discriminate].
      injection H as _ E. congruence. }
  assert (Hothers : forall sc', sc' <> sc -> in_flight sc' (timers W) -> present sc' W).
  { intros sc' Hne Hfl. destruct (HP sc' (Hold sc' Hne Hfl)) as [Hregs Hab]. split.
    - intros r Hr. rewrite Hls. apply elem_of_app. left. exact (Hregs r Hr).
    - intros s Hs. rewrite Hals. exact (Hab s Hs). }
  assert (Hown : forall r, r ∈ registrations sc -> r ∈ listeners W).
  { intros r Hr. rewrite Hls. apply elem_of_app. right. apply elem_of_app. right. exact Hr. }
  unfold watchAbortSignal. destruct (abortSignal sc) as [s|] eqn:Hsig.
  - destruct (is_aborted s W).
    + apply (Present_guard_call _ _ _ W); auto.
      destruct (op sc); reflexivity.
    + intros sc' Hfl. destruct (decide (sc' = sc)) as [->|Hne].
      * split; [exact Hown|]. intros s' Hs'. cbn.
        apply elem_of_app. right. rewrite Hsig in Hs'. injection Hs' as <-. left.
      * destruct (Hothers sc' Hne Hfl) as [Hregs Hab]. split; [exact Hregs|].
        intros s' Hs'. cbn. apply elem_of_app. left. exact (Hab s' Hs').
  - intros sc' Hfl. destruct (decide (sc' = sc)) as [->|Hne].
    + split; [exact Hown|]. intros s' Hs'. congruence.
    + exact (Hothers sc' Hne Hfl).
Qed.

Lemma Present_settled_at_once w x :
  Present w -> Present (settle (length (promises w)) x (newPromise w).2).
Proof. intros HP. exact HP. Qed.

Ltac present_start w extra :=
  eapply (Present_start w _ _ _ extra);
  [ assumption | reflexivity | reflexivity
  | cbn; rewrite <- ?app_assoc; reflexivity
  | reflexivity ].

Lemma Present_step w e : Tidy w -> Present w -> Present (step w e).
Proof.
  intros HT HP. destruct e as [o isOpen|o isOpen|o|s o isOpen|s o|s type o|t ev ctx|h|s];
    cbn [step].
  - unfold Connection.open. destruct isOpen; cbn [negb].
    + apply Present_settled_at_once, HP.
    + cbn [newPromise Js.newPromise snd].
      present_start w (@nil (Js.Registration Entity Closure)).
  - unfold Connection.close. destruct isOpen.
    + cbn [newPromise Js.newPromise snd].
      present_start w (@nil (Js.Registration Entity Closure)).
    + apply Present_settled_at_once, HP.
  - unfold Connection.createSession. cbn [newPromise Js.newPromise snd].
    present_start w
      (listeners (Session._initializeEventListeners (length (sessions w))
                    (with_listeners [] w))).
  - unfold Session.close. destruct isOpen.
    + cbn [newPromise Js.newPromise snd].
      present_start w (@nil (Js.Registration Entity Closure)).
    + apply Present_settled_at_once, HP.
  - unfold Session.createReceiver. destruct (_ && _).
    + apply Present_settled_at_once, HP.
    + cbn [newPromise Js.newPromise snd].
      present_start w (@nil (Js.Registration Entity Closure)).
  - unfold Session._createSender. cbn [newPromise Js.newPromise snd].
    destruct type; present_start w (@nil (Js.Registration Entity Closure)).
  - apply Present_emit; assumption.
  - apply Present_timerFires; assumption.
  - apply Present_signalAborts; assumption.
Qed.

Lemma Present_run evs : forall w, Tidy w -> Present w -> Present (run w evs).
Proof.
  induction evs as [|e evs IH]; intros w HT HP; [exact HP|].
  apply IH; [apply Tidy_step, HT|apply Present_step; assumption].
Qed.

Lemma Present_reachable o evs : Present (run (Connection.constructor o) evs).
Proof.
  apply Present_run; [apply Tidy_constructor|].
  intros sc [ms Hfl]. cbn in Hfl. rewrite lookup_nil in Hfl. discriminate.
Qed.

(** ** The answer of the engine *)

Lemma after_removeListeners_promise sc role ctx W1 W2 :
  promises W1 !! promise sc = promises W2 !! promise sc ->
  promises (after_removeListeners sc role ctx W1) !! promise sc
  = promises (after_removeListeners sc role ctx W2) !! promise sc.
Proof.
  intros H. unfold after_removeListeners.
  destruct (op sc), role; cbn; try exact H;
    unfold Js.settle; rewrite !list_lookup_alter;
    destruct (decide _); rewrite ?H; reflexivity.
Qed.

Lemma started_call_closure sc f ctx w :
  started sc (engine w) -> started sc (engine (call_closure f ctx w)).
Proof.
  intros H. destruct (call_closure_engine f ctx w) as (cs & -> & _).
  apply started_more, H.
Qed.

(** A listener that is not of [sc] runs. *)
Lemma other_listener_frame sc r0 ctx w :
  Tidy w -> started sc (engine w) ->
  (guard_registration r0 = true -> r0 ∈ listeners w) ->
  (forall role, Js.fn r0 <> Guard sc role) ->
  let w1 := call_closure (Js.fn r0) ctx
              (if Js.once_flag r0
               then with_listeners (Js.removeWrapper r0 (listeners w)) w else w) in
  promises w1 !! promise sc = promises w !! promise sc
  /\ (in_flight sc (timers w) -> in_flight sc (timers w1))
  /\ started sc (engine w1).
Proof.
  intros HT Hst Hin Hne.
  set (wm := if Js.once_flag r0 then _ else w).
  assert (Hrest : promises wm = promises w /\ timers wm = timers w
                  /\ engine wm = engine w).
  { unfold wm. destruct (Js.once_flag r0); repeat split; reflexivity. }
  destruct Hrest as (Hp & Ht & He). cbn zeta.
  split; [|split].
  - destruct (Js.fn r0) as [sc' role'|e ty ev'|params] eqn:Hfn.
    + assert (Hin' : r0 ∈ listeners w).
      { apply Hin. unfold guard_registration. rewrite Hfn. reflexivity. }
      destruct (t_listeners _ _ _ _ _ HT _ _ _ Hin' Hfn) as (Hst' & Hreg & _).
      destruct (registrations_fn _ _ Hreg) as (role'' & Hfn' & Hd).
      assert (role'' = role') as -> by congruence.
      destruct (guard_call_fields sc' role' ctx wm Hd) as (_ & _ & _ & _ & Hps).
      destruct Hps as [(-> & _)|[x ->]]; [rewrite Hp; reflexivity|].
      rewrite Hp. unfold Js.settle. apply list_lookup_alter_ne.
      intros E. apply (Hne role').
      rewrite (t_unique _ _ _ _ _ HT _ _ Hst' Hst E). reflexivity.
    + destruct (other_call_untouched (ReEmit e ty ev') ctx wm) as (_ & _ & -> & _);
        [intros ? ?; discriminate|rewrite Hp; reflexivity].
    + cbn. rewrite Hp. reflexivity.
  - intros Hfl. destruct (Js.fn r0) as [sc' role'|e ty ev'|params] eqn:Hfn.
    + assert (Hin' : r0 ∈ listeners w).
      { apply Hin. unfold guard_registration. rewrite Hfn. reflexivity. }
      destruct (t_listeners _ _ _ _ _ HT _ _ _ Hin' Hfn) as (Hst' & Hreg & _).
      destruct (registrations_fn _ _ Hreg) as (role'' & Hfn' & Hd).
      assert (role'' = role') as -> by congruence.
      destruct (guard_call_fields sc' role' ctx wm Hd) as (-> & _).
      rewrite Ht. destruct Hfl as [ms Hfl]. exists ms.
      rewrite clearTimeout_other; [exact Hfl|].
      intros E. apply (Hne role').
      rewrite E in Hfl.
      pose proof (t_slot _ _ _ _ _ HT _ _ _ Hst' Hfl) as Hf. congruence.
    + cbn [call_closure]. unfold emitEvent. destruct (_ && _); cbn; rewrite Ht;
        [apply in_flight_snoc|]; exact Hfl.
    + cbn. rewrite Ht. exact Hfl.
  - apply started_call_closure. rewrite He. exact Hst.
Qed.

(** Listeners none of which is of [sc] run: the promise of [sc] is as it
    was. *)
Lemma others_loop_frame ctx t ev sc rs : forall w,
  Tidy w -> started sc (engine w) ->
  NoDup (filter (fun r => guard_registration r = true) rs) ->
  (forall r, r ∈ rs ->
     Js.target r = t /\ Js.event r = ev
     /\ (guard_registration r = true -> r ∈ listeners w)) ->
  (forall r role, r ∈ rs -> Js.fn r <> Guard sc role) ->
  promises (foldl
              (fun w r =>
                 let w := if Js.once_flag r
                          then with_listeners (Js.removeWrapper r (listeners w)) w
                          else w in
                 call_closure (Js.fn r) ctx w) w rs) !! promise sc
  = promises w !! promise sc.
Proof.
  induction rs as [|r0 rs IH]; intros w HT Hst Hnd Hrs Hne; [reflexivity|].
  cbn [foldl].
  destruct (Hrs r0) as (Ht0 & He0 & Hin0); [left|].
  destruct (other_listener_frame sc r0 ctx w HT Hst Hin0) as (Hp & _ & Hst').
  { intros role. apply Hne. left. }
  cbn zeta in Hp, Hst'. rewrite IH; [exact Hp| |exact Hst'| | |].
  - apply Tidy_listener_call; assumption.
  - exact (NoDup_filter_tail _ _ _ Hnd).
  - exact (snapshot_tail ctx t ev r0 rs w HT Hnd Hrs).
  - intros r role Hr. apply Hne. right. exact Hr.
Qed.

(** The listeners of an event run, one of which is of the operation [sc]
    in flight: the promise of [sc] ends as that listener leaves it. *)
Lemma answer_loop ctx t ev sc r role rs : forall w,
  Tidy w ->
  NoDup (filter (fun r => guard_registration r = true) rs) ->
  (forall r, r ∈ rs ->
     Js.target r = t /\ Js.event r = ev
     /\ (guard_registration r = true -> r ∈ listeners w)) ->
  r ∈ rs -> in_flight sc (timers w) ->
  r ∈ registrations sc -> Js.fn r = Guard sc role ->
  promises (foldl
              (fun w r =>
                 let w := if Js.once_flag r
                          then with_listeners (Js.removeWrapper r (listeners w)) w
                          else w in
                 call_closure (Js.fn r) ctx w) w rs) !! promise sc
  = promises (after_removeListeners sc role ctx w) !! promise sc.
Proof.
  induction rs as [|r0 rs IH]; intros w HT Hnd Hrs Hin Hfl Hreg Hfn; [inversion Hin|].
  cbn [foldl].
  assert (Hst : started sc (engine w)).
  { destruct Hfl as [ms Hfl]. exact (proj2 (proj2 (t_timers _ _ _ _ _ HT _ _ _ _ Hfl))). }
  assert (Hg : guard_registration r = true) by exact (registrations_guard sc r Hreg).
  assert (Hothers : forall r' role', r' ∈ r0 :: rs -> r' <> r -> Js.fn r' <> Guard sc role').
  { intros r' role' Hr' Hne' Hfn'.
    destruct (Hrs r') as (Ht' & He' & Hin'); [exact Hr'|].
    destruct (Hrs r) as (Ht & He & _); [exact Hin|].
    assert (Hg' : guard_registration r' = true).
    { unfold guard_registration. rewrite Hfn'. reflexivity. }
    apply Hne'. apply (registrations_event sc); try congruence.
    exact (proj1 (proj2 (t_listeners _ _ _ _ _ HT _ _ _ (Hin' Hg') Hfn'))). }
  destruct (Hrs r0) as (Ht0 & He0 & Hin0); [left|].
  destruct (decide (r0 = r)) as [->|Hne].
  - rewrite (others_loop_frame ctx t ev sc rs).
    + rewrite Hfn. cbn [call_closure].
      destruct (registrations_fn _ _ Hreg) as (role' & Hfn' & Hd).
      assert (role' = role) as -> by congruence. rewrite Hd.
      apply after_removeListeners_promise.
      destruct (removeListeners_fields sc
                  (if Js.once_flag r
                   then with_listeners (Js.removeWrapper r (listeners w)) w else w))
        as (-> & _).
      destruct (Js.once_flag r); reflexivity.
    + apply Tidy_listener_call; assumption.
    + apply started_call_closure. destruct (Js.once_flag r); exact Hst.
    + exact (NoDup_filter_tail _ _ _ Hnd).
    + exact (snapshot_tail ctx t ev r rs w HT Hnd Hrs).
    + intros r' role' Hr'. apply Hothers; [right; exact Hr'|].
      intros ->. rewrite filter_cons_True in Hnd by exact Hg.
      apply NoDup_cons in Hnd as [Hnot _]. apply Hnot.
      apply list_elem_of_filter. split; assumption.
  - apply elem_of_cons in Hin as [E|Hin]; [congruence|].
    destruct (other_listener_frame sc r0 ctx w HT Hst Hin0) as (Hp & Hfl' & _).
    { intros role'. apply Hothers; [left|exact Hne]. }
    cbn zeta in Hp, Hfl'.
    etransitivity.
    + exact (IH _ (Tidy_listener_call r0 ctx w HT Hin0)
               (NoDup_filter_tail _ _ _ Hnd)
               (snapshot_tail ctx t ev r0 rs w HT Hnd Hrs) Hin (Hfl' Hfl) Hreg Hfn).
    + apply after_removeListeners_promise. exact Hp.
Qed.

(** Whatever happened before the call and whatever happened since, as long
    as the promise returned by [open], [createSession], [createReceiver],
    [createSender] or [createAwaitableSender] is pending, each of the
    events the operation added a listener for settles it when the engine
    raises it: the promise ends as the local function the operation added
    for that event leaves it, whatever other listeners the event has. *)
Theorem engine_answer_settles_the_pending_operation o before e after :
  is_call e = true -> is_close_call e = false ->
  let w := run (Connection.constructor o) before in
  let wf := run (step w e) after in
  Js.pending (length (promises w)) (promises wf) ->
  exists sc, promise sc = length (promises w) /\ same_kind e (op sc) = true
    /\ forall r role ctx, r ∈ registrations sc -> Js.fn r = Guard sc role ->
         promises (step wf (EngineEmits (Js.target r) (Js.event r) ctx))
           !! length (promises w)
         = promises (after_removeListeners sc role ctx wf) !! length (promises w).
Proof.
  intros Hcall Hnc w wf Hpend.
  assert (HT : Tidy wf) by apply Tidy_run, Tidy_step, Tidy_reachable.
  assert (HP : Present wf).
  { apply Present_run; [apply Tidy_step, Tidy_reachable|].
    apply Present_step; [apply Tidy_reachable|apply Present_reachable]. }
  destruct (t_pending _ _ _ _ _ HT _ Hpend) as (sc & Hst & Hp & Hfl).
  pose proof (promise_origin o before e after sc Hcall Hst Hp) as Hk.
  destruct Hfl as [Hfl|Hc];
    [|rewrite (same_kind_close _ _ Hk) in Hc; congruence].
  exists sc. split; [exact Hp|]. split; [exact Hk|].
  intros r role ctx Hreg Hfn. rewrite <- Hp.
  cbn [step]. unfold emit.
  apply (answer_loop ctx (Js.target r) (Js.event r) sc r role); try assumption.
  - eapply sublist_NoDup; [exact (t_nodup _ _ _ _ _ HT)|].
    apply filter_sublist_mono. unfold Js.listenersOf. apply sublist_filter.
  - intros r' Hr'. unfold Js.listenersOf in Hr'.
    apply list_elem_of_filter in Hr' as [[Ht He] Hin]. auto.
  - unfold Js.listenersOf. apply list_elem_of_filter. split; [split; reflexivity|].
    exact (proj1 (HP sc Hfl) r Hreg).
Qed.

Lemma engine_answer_witness :
  let w := run (Connection.constructor None) opened in
  let wf := run (step w (CreateSessionCall None)) [] in
  exists sc, promise sc = length (promises w)
    /\ same_kind (CreateSessionCall None) (op sc) = true
    /\ forall r role ctx, r ∈ registrations sc -> Js.fn r = Guard sc role ->
         promises (step wf (EngineEmits (Js.target r) (Js.event r) ctx))
           !! length (promises w)
         = promises (after_removeListeners sc role ctx wf) !! length (promises w).
Proof.
  apply (engine_answer_settles_the_pending_operation None opened
           (CreateSessionCall None) []); reflexivity.
Defined.

(** Whatever happened before the call and whatever happened since, as long
    as the promise returned by [open], [createSession], [createReceiver],
    [createSender] or [createAwaitableSender] is pending, aborting the
    signal the call was given rejects it with an [AbortError]. *)
Theorem abort_rejects_the_pending_operation o before e after s :
  is_call e = true -> is_close_call e = false -> signal_of e = Some s ->
  let w := run (Connection.constructor o) before in
  let wf := run (step w e) after in
  Js.pending (length (promises w)) (promises wf) ->
  is_aborted s wf = false ->
  exists m,
    promises (step wf (SignalAborts s)) !! length (promises w)
    = Some [Js.Rejected (AbortError m)].
Proof.
  intros Hcall Hnc Hsig w wf Hpend Hna.
  assert (HT : Tidy wf) by apply Tidy_run, Tidy_step, Tidy_reachable.
  assert (HP : Present wf).
  { apply Present_run; [apply Tidy_step, Tidy_reachable|].
    apply Present_step; [apply Tidy_reachable|apply Present_reachable]. }
  destruct (t_pending _ _ _ _ _ HT _ Hpend) as (sc & Hst & Hp & Hfl).
  destruct (promise_origin_signal o before e after sc Hcall Hst Hp) as [Hk Hs].
  destruct Hfl as [Hfl|Hc];
    [|rewrite (same_kind_close _ _ Hk) in Hc; congruence].
  rewrite Hsig in Hs.
  cbn [step]. unfold signalAborts. rewrite Hna. rewrite <- Hp.
  apply (abort_loop_settles s).
  - revert HT. apply Tidy_same; reflexivity.
  - eapply sublist_NoDup; [exact (t_abort_nodup _ _ _ _ _ HT)|apply sublist_filter].
  - intros x [_ Hx]%list_elem_of_filter. exact Hx.
  - apply list_elem_of_filter. split; [reflexivity|].
    exact (proj2 (HP sc Hfl) s Hs).
Qed.

Lemma abort_rejects_witness :
  let w := run (Connection.constructor None) opened in
  let wf := run (step w (CreateSessionCall (with_signal 5)))
              [EngineEmits TheConnection ConnectionEvents.settled no_context] in
  exists m,
    promises (step wf (SignalAborts 5)) !! length (promises w)
    = Some [Js.Rejected (AbortError m)].
Proof.
  apply (abort_rejects_the_pending_operation None opened
           (CreateSessionCall (with_signal 5))
           [EngineEmits TheConnection ConnectionEvents.settled no_context] 5);
    reflexivity.
Defined.
End GuardedProofs.
